(** * A shallow embedding of the generic B+ tree of [bptree.go]

    The development follows the source file function by function.

    - Keys are Go integers; they are modelled by [Z] with its order.
    - A leaf slot of type [any] holds either a value of type [V] or a
      [collision[V]]; it is the two-variant type [slot].
    - A Go slice is modelled by the list of its live cells (those below
      [len]); the capacity is kept as a field of the node.  Every
      re-slicing, [copy] and indexed store of the source is rendered on
      that list, a group of lines forming one idiom (insertion at a
      position, removal at a position) being one helper.
    - Ownership edges (parent to child) are tree shaped in the source and
      are modelled by nesting.  The sibling references [left] and [right]
      are aliases into other nodes: they live in a store ([heap]) indexed
      by node identifiers, and [&node{...}] draws a fresh identifier.
    - Every function that can panic in Go (index or slice bounds out of
      range, a type assertion [x.(V)] on a nil [any]) returns an [option];
      [None] stands for the panic, and also for a node that no Go execution
      can hold (more live cells than the capacity) or whose cells beyond
      the length would become visible.
    - A value of type [V] stored in a cell of type [any] is the nil [any]
      when [V] is an interface type and the value is its nil; the class
      [Nil] tells these values apart.
    - The functions whose result is [(value, ok)] return an [option] of the
      value inside the result, [None] being [(zero, false)]. *)

From Stdlib Require Import ZArith Lia.
From stdpp Require Import base option list sorting gmap.

Set Default Proof Using "Type".

Definition ptr := nat.

(** ** Slices as lists: the idioms of the source *)

Section Slices.
Context {A : Type}.

(** [s[i] = x]: panics when [i] is not below the length. *)
Definition slice_set (i : nat) (x : A) (s : list A) : option (list A) :=
  if decide (i < length s) then Some (<[i := x]> s) else None.

(** [s = s[:len(s)+1]; copy(s[pos+1:], s[pos:len(s)-1]); s[pos] = x]:
    grows by one cell within the capacity and shifts the tail. *)
Definition slice_insert (cap pos : nat) (x : A) (s : list A) : option (list A) :=
  if decide (length s < cap ∧ pos ≤ length s)
  then Some (take pos s ++ x :: drop pos s) else None.

(** [copy(s[i:len(s)-1], s[i+1:len(s)]); s = s[:len(s)-1]]. *)
Definition slice_delete (i : nat) (s : list A) : option (list A) :=
  if decide (i < length s) then Some (take i s ++ drop (S i) s) else None.

(** [s = s[:len(s)+1]; s[len(s)-1] = x]: the slice grows within its
    capacity. *)
Definition slice_push (cap : nat) (x : A) (s : list A) : option (list A) :=
  if decide (length s < cap) then Some (s ++ [x]) else None.

(** [s[len(s)-1]] followed by [s = s[:len(s)-1]]. *)
Definition slice_pop (s : list A) : option (A * list A) :=
  match last s with
  | Some x => Some (x, take (length s - 1) s)
  | None => None
  end.

(** [s[0]] followed by [copy(s[:len(s)-1], s[1:len(s)]); s = s[:len(s)-1]]. *)
Definition slice_shift (s : list A) : option (A * list A) :=
  match s with
  | x :: s' => Some (x, s')
  | [] => None
  end.
End Slices.

(** ** Data model *)

(** [is_nil v]: the conversion of [v] to [any] gives the nil interface
    value.  That is so only when [V] is an interface type and [v] is its
    nil value; for every other type of values [is_nil] is constantly
    [false]. *)
Class Nil (V : Type) := is_nil : V → bool.

(** The values of a type that is not an interface type. *)
Definition never_nil {V : Type} : Nil V := λ _, false.

(** [nat] stands for a type of values that is not an interface type. *)
#[global] Instance nat_nil : Nil nat := never_nil.

(** [option A] stands for an interface type: a value holds an [A] or is
    the nil of the type. *)
#[global] Instance option_nil {A : Type} : Nil (option A) :=
  λ v, match v with None => true | Some _ => false end.

Section BPTree.
Context {V : Type} {N : Nil V}.

(** The dynamic type of a cell of [values []any]: [Solo v] is the
    conversion of [v] to [any], the nil [any] when [is_nil v]. *)
Inductive slot :=
| Solo (v : V)
| Bucket (c : list V).

(** The fields of [node] that are not slices: the identity of the
    allocation, the capacity given to [make] and [bmin]. *)
Record meta := Meta { nid : ptr; ncap : nat; nbmin : nat }.

(** [node]: [children != nil] for an internal node, [values != nil] for a
    leaf.  [cap(n.keys)] is [ncap] in a leaf and [ncap - 1] in an internal
    node, [cap(n.values)] and [cap(n.children)] are [ncap]. *)
#[local] Unset Elimination Schemes.
Inductive node :=
| Leaf (m : meta) (keys : list Z) (values : list slot)
| Internal (m : meta) (keys : list Z) (children : list node).
#[local] Set Elimination Schemes.

Definition nmeta (n : node) : meta :=
  match n with Leaf m _ _ | Internal m _ _ => m end.

Definition nkeys (n : node) : list Z :=
  match n with Leaf _ ks _ | Internal _ ks _ => ks end.

Definition nchildren (n : node) : list node :=
  match n with Leaf _ _ _ => [] | Internal _ _ cs => cs end.

Definition nvalues (n : node) : list slot :=
  match n with Leaf _ _ vs => vs | Internal _ _ _ => [] end.

Definition isInternal (n : node) : bool :=
  match n with Internal _ _ _ => true | Leaf _ _ _ => false end.

Definition isLeaf (n : node) : bool :=
  match n with Leaf _ _ _ => true | Internal _ _ _ => false end.

(** The type assertion [v.(V)]: it panics on a [collision[V]] and on the
    nil [any]. *)
Definition assertV (s : slot) : option V :=
  match s with
  | Solo v => if is_nil v then None else Some v
  | Bucket _ => None
  end.

(** The type assertion [v.(collision[V])]. *)
Definition assertCollision (s : slot) : option (list V) :=
  match s with Bucket c => Some c | Solo _ => None end.

(** The number of entries of a node: [len(n.values)] in a leaf,
    [len(n.children)] in an internal node. *)
Definition count (n : node) : nat :=
  match n with Leaf _ _ vs => length vs | Internal _ _ cs => length cs end.

(** The store of sibling references and the allocator.  A pointer absent
    from a map is [nil]. *)
Record heap := Heap { hleft : gmap ptr ptr; hright : gmap ptr ptr; hnext : ptr }.

Definition set_ref (p : ptr) (q : option ptr) (m : gmap ptr ptr) : gmap ptr ptr :=
  match q with Some r => <[p := r]> m | None => delete p m end.

Definition set_left (p : ptr) (q : option ptr) (h : heap) : heap :=
  Heap (set_ref p q (hleft h)) (hright h) (hnext h).

Definition set_right (p : ptr) (q : option ptr) (h : heap) : heap :=
  Heap (hleft h) (set_ref p q (hright h)) (hnext h).

Definition left_of (h : heap) (p : ptr) : option ptr := hleft h !! p.
Definition right_of (h : heap) (p : ptr) : option ptr := hright h !! p.

(** [int(math.Ceil(float64(size) / 2))]. *)
Definition ceil_half (size : nat) : nat := (size + 1) / 2.

Definition alloc (h : heap) : heap * ptr :=
  (Heap (delete (hnext h) (hleft h)) (delete (hnext h) (hright h)) (S (hnext h)), hnext h).

Definition newInternalNode (h : heap) (size : nat) : heap * node :=
  let '(h', p) := alloc h in
  (h', Internal (Meta p size (ceil_half size)) [] []).

Definition newLeafNode (h : heap) (size : nat) : heap * node :=
  let '(h', p) := alloc h in
  (h', Leaf (Meta p size (ceil_half size)) [] []).

Record BPTree := Tree { root : node; size : Z }.

Definition MinOrder : nat := 3.

Definition empty_heap : heap := Heap ∅ ∅ 0.

Definition NewBPTree (h : heap) (order : nat) : heap * BPTree :=
  let order := if decide (order < MinOrder) then MinOrder else order in
  let '(h', n) := newLeafNode h order in
  (h', Tree n 0).

(** [cap(n.keys)] in a leaf, [cap(n.children)] in an internal node. *)
Definition node_cap (n : node) : nat := ncap (nmeta n).

Definition Clear (h : heap) (t : BPTree) : heap * BPTree :=
  let '(h', n) :=
    if isLeaf (root t) then newLeafNode h (node_cap (root t))
    else newLeafNode h (node_cap (root t)) in
  (h', Tree n 0).

Definition Size (t : BPTree) : Z := size t.

(** ** Search *)

(** The index chosen by
    [for i, c := range n.children { if i == len(n.keys) || key < n.keys[i] ]:
    the first [i] with [key < keys[i]], or [len(keys)]. *)
Fixpoint childIndex (keys : list Z) (key : Z) : nat :=
  match keys with
  | [] => 0
  | k :: keys' => if (key <? k)%Z then 0 else S (childIndex keys' key)
  end.

(** Applies [f] to the [i]-th node of [cs]; [d] when the range loop over
    [cs] ends before reaching it. *)
Definition on_child {R : Type} (f : node → R) (d : R) : list node → nat → R :=
  fix go (cs : list node) (i : nat) : R :=
    match cs with
    | [] => d
    | c :: cs' => match i with 0 => f c | S i' => go cs' i' end
    end.

(** The equality scan of a leaf, [for i, k := range n.keys { if k == key ]. *)
Fixpoint keyIndex (keys : list Z) (key : Z) : option nat :=
  match keys with
  | [] => None
  | k :: keys' => if (k =? key)%Z then Some 0 else S <$> keyIndex keys' key
  end.

(** [t.find]: the outer [option] is [None] when an internal node has no
    child for the key (the source then loops for ever) and when the
    values of the leaf are shorter than its keys (index out of range);
    the inner one is the [ok] of the source. *)
Fixpoint node_find (n : node) (key : Z) : option (option slot) :=
  match n with
  | Leaf _ ks vs =>
      match keyIndex ks key with
      | Some i => v ← vs !! i; Some (Some v)
      | None => Some None
      end
  | Internal _ ks cs => on_child (λ c, node_find c key) None cs (childIndex ks key)
  end.

Definition find (t : BPTree) (key : Z) : option (option slot) :=
  node_find (root t) key.

(** [Find]: [v[0]] panics on an empty collision, [v.(V)] on the nil
    [any]. *)
Definition Find (t : BPTree) (key : Z) : option (option V) :=
  r ← find t key;
  match r with
  | Some (Bucket c) => v ← head c; Some (Some v)
  | Some (Solo v) => v' ← assertV (Solo v); Some (Some v')
  | None => Some None
  end.

(** [FindAll]: [[]V{v.(V)}] panics on the nil [any]. *)
Definition FindAll (t : BPTree) (key : Z) : option (option (list V)) :=
  r ← find t key;
  match r with
  | Some (Bucket c) => Some (Some c)
  | Some (Solo v) => v' ← assertV (Solo v); Some (Some [v'])
  | None => Some None
  end.

(** ** Insertion *)

(** The result of [node.insert]: the store, the receiver after its
    mutation, and the three results of the source. *)
Record ins := Ins {
  i_heap : heap; i_node : node; i_ok : bool; i_key2 : Z; i_n2 : option node }.

(** The loop of [insertToLeaf]: [inl i] when [keys[i] == key], otherwise
    [inr pos] with [pos] the number of leading keys below [key]. *)
Fixpoint leafScan (keys : list Z) (key : Z) (i pos : nat) : nat + nat :=
  match keys with
  | [] => inr pos
  | k :: keys' =>
      if (key <? k)%Z then inr pos
      else if (k =? key)%Z then inl i
      else leafScan keys' key (S i) (S i)
  end.

(** The loop of [insertToInternal]. *)
Fixpoint keyPos (keys : list Z) (key : Z) : nat :=
  match keys with
  | [] => 0
  | k :: keys' => if (k <? key)%Z then S (keyPos keys' key) else 0
  end.

(** [n2.right = n.right; if n.right != nil { n.right.left = n2 };
    n.right = n2; n2.left = n]. *)
Definition link_after (p p2 : ptr) (h : heap) : heap :=
  let h1 := set_right p2 (right_of h p) h in
  let h2 := match right_of h1 p with
            | Some r => set_left r (Some p2) h1
            | None => h1
            end in
  let h3 := set_right p (Some p2) h2 in
  set_left p2 (Some p) h3.

Definition insertToLeaf (h : heap) (n : node) (key : Z) (val : V) (replace : bool)
  : option ins :=
  match n with
  | Internal _ _ _ => None
  | Leaf m ks vs =>
      match leafScan ks key 0 0 with
      | inl i =>
          if replace then
            vs' ← slice_set i (Solo val) vs;
            Some (Ins h (Leaf m ks vs') false 0%Z None)
          else
            s ← vs !! i;
            s' ← match s with
                 | Solo _ => v0 ← assertV s; Some (Bucket [v0; val])
                 | Bucket c => Some (Bucket (c ++ [val]))
                 end;
            Some (Ins h (Leaf m ks (<[i := s']> vs)) true 0%Z None)
      | inr pos =>
          if decide (length ks < ncap m) then
            ks' ← slice_insert (ncap m) pos key ks;
            vs' ← slice_insert (ncap m) pos (Solo val) vs;
            Some (Ins h (Leaf m ks' vs') true 0%Z None)
          else
            let bmin := nbmin m in
            if decide (length ks = ncap m ∧ length vs = ncap m ∧ 1 ≤ bmin ≤ ncap m) then
              let '(h1, n2) := newLeafNode h (ncap m) in
              let h2 := link_after (nid m) (nid (nmeta n2)) h1 in
              let '(lk, lv, rk, rv) :=
                if decide (pos < bmin) then
                  (take pos ks ++ key :: drop pos (take (bmin - 1) ks),
                   take pos vs ++ Solo val :: drop pos (take (bmin - 1) vs),
                   drop (bmin - 1) ks,
                   drop (bmin - 1) vs)
                else
                  (take bmin ks,
                   take bmin vs,
                   take (pos - bmin) (drop bmin ks) ++ key :: drop pos ks,
                   take (pos - bmin) (drop bmin vs) ++ Solo val :: drop pos vs) in
              k2 ← head rk;
              Some (Ins h2 (Leaf m lk lv) true k2 (Some (Leaf (nmeta n2) rk rv)))
            else None
      end
  end.

Definition insertToInternal (h : heap) (n : node) (key : Z) (child : node)
  : option (heap * node * Z * option node) :=
  match n with
  | Leaf _ _ _ => None
  | Internal m ks cs =>
      let pos := keyPos ks key in
      let cpos := pos + 1 in
      if decide (length cs < ncap m) then
        ks' ← slice_insert (ncap m - 1) pos key ks;
        cs' ← slice_insert (ncap m) cpos child cs;
        Some (h, Internal m ks' cs', 0%Z, None)
      else
        let bmin := nbmin m in
        if decide (length cs = ncap m ∧ S (length ks) = ncap m ∧ 1 ≤ bmin ≤ ncap m) then
          let '(h1, n2) := newInternalNode h (ncap m) in
          let h2 := link_after (nid m) (nid (nmeta n2)) h1 in
          if decide (pos < bmin - 1) then
            key2 ← ks !! (bmin - 2);
            Some (h2,
                  Internal m (take pos ks ++ key :: drop pos (take (bmin - 2) ks))
                             (take cpos cs ++ child :: drop cpos (take (bmin - 1) cs)),
                  key2,
                  Some (Internal (nmeta n2) (drop (bmin - 1) ks) (drop (bmin - 1) cs)))
          else if decide (pos = bmin - 1) then
            Some (h2,
                  Internal m (take (bmin - 1) ks) (take bmin cs),
                  key,
                  Some (Internal (nmeta n2) (drop (bmin - 1) ks) (child :: drop bmin cs)))
          else
            key2 ← ks !! (bmin - 1);
            Some (h2,
                  Internal m (take (bmin - 1) ks) (take bmin cs),
                  key2,
                  Some (Internal (nmeta n2)
                          (take (pos - bmin) (drop bmin ks) ++ key :: drop pos ks)
                          (take (cpos - bmin) (drop bmin cs) ++ child :: drop cpos cs)))
        else None
  end.

(** [node.insert].  The child is mutated in place by the recursive call:
    the parent's list of children holds the mutated child. *)
Fixpoint node_insert (h : heap) (n : node) (key : Z) (val : V) (replace : bool)
  : option ins :=
  match n with
  | Leaf _ _ _ => insertToLeaf h n key val replace
  | Internal m ks cs =>
      let i := childIndex ks key in
      match on_child (λ c, Some (node_insert h c key val replace)) None cs i with
      | None => Some (Ins h n false 0%Z None)
      | Some None => None
      | Some (Some r) =>
          let n' := Internal m ks (<[i := i_node r]> cs) in
          match i_n2 r with
          | Some c2 =>
              '(h', n'', key2, n2) ← insertToInternal (i_heap r) n' (i_key2 r) c2;
              Some (Ins h' n'' (i_ok r) key2 n2)
          | None => Some (Ins (i_heap r) n' (i_ok r) (i_key2 r) None)
          end
      end
  end.

(** [t.insert]: a split of the root grows the tree by one level. *)
Definition insert (h : heap) (t : BPTree) (key : Z) (val : V) (replace : bool)
  : option (heap * BPTree) :=
  let n := root t in
  r ← node_insert h n key val replace;
  '(h', root') ←
    match i_n2 r with
    | Some n2 =>
        let '(h1, nr) :=
          if isLeaf n then newInternalNode (i_heap r) (node_cap n)
          else newInternalNode (i_heap r) (node_cap n) in
        if decide (2 ≤ ncap (nmeta nr)) then
          Some (h1, Internal (nmeta nr) [i_key2 r] [i_node r; n2])
        else None
    | None => Some (i_heap r, i_node r)
    end;
  Some (h', Tree root' (if i_ok r then (size t + 1)%Z else size t)).

Definition Insert (h : heap) (t : BPTree) (key : Z) (val : V) : option (heap * BPTree) :=
  insert h t key val true.

Definition Append (h : heap) (t : BPTree) (key : Z) (val : V) : option (heap * BPTree) :=
  insert h t key val false.

(** ** Deletion *)

(** [deleteFromLeaf]: the receiver after the call and [(val, ok)]. *)
Definition deleteFromLeaf (n : node) (key : Z) (all : bool) (idx : Z)
  : option (node * option slot) :=
  match n with
  | Internal _ _ _ => None
  | Leaf m ks vs =>
      match keyIndex ks key with
      | None => Some (n, None)
      | Some i =>
          s ← vs !! i;
          let remove (val : slot) :=
            ks' ← slice_delete i ks;
            vs' ← slice_delete i vs;
            Some (Leaf m ks' vs', Some val) in
          if all then
            val ← match s with
                  | Solo _ => v ← assertV s; Some (Bucket [v])
                  | Bucket c => Some (Bucket c)
                  end;
            remove val
          else
            match s with
            | Solo v =>
                if decide (0 < idx)%Z then Some (n, None) else remove (Solo v)
            | Bucket c =>
                if decide (Z.of_nat (length c) ≤ idx)%Z then Some (n, None)
                else
                  '(v, c') ←
                    (if decide (idx < 0)%Z then slice_pop c
                     else v ← c !! Z.to_nat idx;
                          c' ← slice_delete (Z.to_nat idx) c;
                          Some (v, c'));
                  if decide (length c' ≠ 0)
                  then Some (Leaf m ks (<[i := Bucket c']> vs), Some (Solo v))
                  else remove (Solo v)
            end
      end
  end.

Definition takeFromLeftSiblingLeaf (n n2 : node) : option (node * node * Z) :=
  match n, n2 with
  | Leaf m ks vs, Leaf m2 ks2 vs2 =>
      '(k, ks2') ← slice_pop ks2;
      ks' ← slice_insert (ncap m) 0 k ks;
      '(v, vs2') ← slice_pop vs2;
      vs' ← slice_insert (ncap m) 0 v vs;
      k0 ← head ks';
      Some (Leaf m ks' vs', Leaf m2 ks2' vs2', k0)
  | _, _ => None
  end.

Definition takeFromRightSiblingLeaf (n n2 : node) : option (node * node * Z) :=
  match n, n2 with
  | Leaf m ks vs, Leaf m2 ks2 vs2 =>
      '(k, ks2') ← slice_shift ks2;
      ks' ← slice_push (ncap m) k ks;
      '(v, vs2') ← slice_shift vs2;
      vs' ← slice_push (ncap m) v vs;
      k0 ← head ks2';
      Some (Leaf m ks' vs', Leaf m2 ks2' vs2', k0)
  | _, _ => None
  end.

Definition takeFromLeftSiblingInternal (n n2 : node) (key : Z)
  : option (node * node * Z) :=
  match n, n2 with
  | Internal m ks cs, Internal m2 ks2 cs2 =>
      '(mkey, ks2') ← slice_pop ks2;
      ks' ← slice_insert (ncap m - 1) 0 key ks;
      '(c, cs2') ← slice_pop cs2;
      cs' ← slice_insert (ncap m) 0 c cs;
      Some (Internal m ks' cs', Internal m2 ks2' cs2', mkey)
  | _, _ => None
  end.

Definition takeFromRightSiblingInternal (n n2 : node) (key : Z)
  : option (node * node * Z) :=
  match n, n2 with
  | Internal m ks cs, Internal m2 ks2 cs2 =>
      ks' ← slice_push (ncap m - 1) key ks;
      '(mkey, ks2') ← slice_shift ks2;
      '(c, cs2') ← slice_shift cs2;
      cs' ← slice_push (ncap m) c cs;
      Some (Internal m ks' cs', Internal m2 ks2' cs2', mkey)
  | _, _ => None
  end.

Definition deleteChild (n : node) (i : nat) : option node :=
  match n with
  | Leaf _ _ _ => None
  | Internal m ks cs =>
      if decide (i = 0) then None
      else
        ks' ← slice_delete (i - 1) ks;
        cs' ← slice_delete i cs;
        Some (Internal m ks' cs')
  end.

(** [l.right = r.right; if r.right != nil { r.right.left = l }]. *)
Definition unlink_right (l r : ptr) (h : heap) : heap :=
  let h1 := set_right l (right_of h r) h in
  match right_of h1 r with
  | Some q => set_left q (Some l) h1
  | None => h1
  end.

Definition mergeLeafs (h : heap) (l r : node) : option (heap * node) :=
  match l, r with
  | Leaf m ks vs, Leaf m2 ks2 vs2 =>
      let h' := unlink_right (nid m) (nid m2) h in
      if decide (length ks + length ks2 ≤ ncap m
                 ∧ length vs = length ks ∧ length vs2 = length ks2)
      then Some (h', Leaf m (ks ++ ks2) (vs ++ vs2))
      else None
  | _, _ => None
  end.

Definition mergeInternal (h : heap) (l r : node) (key : Z) : option (heap * node) :=
  match l, r with
  | Internal m ks cs, Internal m2 ks2 cs2 =>
      let h' := unlink_right (nid m) (nid m2) h in
      if decide (length ks + length ks2 + 1 ≤ ncap m - 1
                 ∧ length cs = length ks + 1 ∧ length cs2 = length ks2 + 1)
      then Some (h', Internal m (ks ++ key :: ks2) (cs ++ cs2))
      else None
  | _, _ => None
  end.

(** The receiver [n] with [n.keys[i] = k]. *)
Definition set_key (n : node) (i : nat) (k : Z) : option node :=
  match n with
  | Leaf _ _ _ => None
  | Internal m ks cs => ks' ← slice_set i k ks; Some (Internal m ks' cs)
  end.

(** The receiver [n] after the child at [i] was mutated into [c]. *)
Definition set_child (n : node) (i : nat) (c : node) : node :=
  match n with
  | Leaf _ _ _ => n
  | Internal m ks cs => Internal m ks (<[i := c]> cs)
  end.

Definition balanceLeaf (h : heap) (n : node) (i : nat) : option (heap * node) :=
  let cs := nchildren n in
  let bmin := nbmin (nmeta n) in
  c ← cs !! i;
  if decide (i ≠ 0 ∧ bmin < length (nvalues (default c (cs !! (i - 1))))) then
    l ← cs !! (i - 1);
    '(c', l', k) ← takeFromLeftSiblingLeaf c l;
    n' ← set_key (set_child (set_child n i c') (i - 1) l') (i - 1) k;
    Some (h, n')
  else if decide (i ≠ length cs - 1 ∧ bmin < length (nvalues (default c (cs !! (i + 1))))) then
    r ← cs !! (i + 1);
    '(c', r', k) ← takeFromRightSiblingLeaf c r;
    n' ← set_key (set_child (set_child n i c') (i + 1) r') i k;
    Some (h, n')
  else if decide (i ≠ 0 ∧ (i = length cs - 1
                           ∨ length (nvalues (default c (cs !! (i - 1))))
                             < length (nvalues (default c (cs !! (i + 1)))))) then
    l ← cs !! (i - 1);
    '(h', l') ← mergeLeafs h l c;
    n' ← deleteChild (set_child n (i - 1) l') i;
    Some (h', n')
  else
    r ← cs !! (i + 1);
    '(h', c') ← mergeLeafs h c r;
    n' ← deleteChild (set_child n i c') (i + 1);
    Some (h', n').

Definition balanceInternal (h : heap) (n : node) (i : nat) : option (heap * node) :=
  let cs := nchildren n in
  let ks := nkeys n in
  let bmin := nbmin (nmeta n) in
  c ← cs !! i;
  if decide (i ≠ 0 ∧ bmin < length (nchildren (default c (cs !! (i - 1))))) then
    l ← cs !! (i - 1);
    key ← ks !! (i - 1);
    '(c', l', k) ← takeFromLeftSiblingInternal c l key;
    n' ← set_key (set_child (set_child n i c') (i - 1) l') (i - 1) k;
    Some (h, n')
  else if decide (i ≠ length cs - 1 ∧ bmin < length (nchildren (default c (cs !! (i + 1))))) then
    r ← cs !! (i + 1);
    key ← ks !! i;
    '(c', r', k) ← takeFromRightSiblingInternal c r key;
    n' ← set_key (set_child (set_child n i c') (i + 1) r') i k;
    Some (h, n')
  else if decide (i ≠ 0 ∧ (i = length cs - 1
                           ∨ length (nchildren (default c (cs !! (i - 1))))
                             < length (nchildren (default c (cs !! (i + 1)))))) then
    l ← cs !! (i - 1);
    key ← ks !! (i - 1);
    '(h', l') ← mergeInternal h l c key;
    n' ← deleteChild (set_child n (i - 1) l') i;
    Some (h', n')
  else
    r ← cs !! (i + 1);
    key ← ks !! i;
    '(h', c') ← mergeInternal h c r key;
    n' ← deleteChild (set_child n i c') (i + 1);
    Some (h', n').

(** [node.delete]. *)
Fixpoint node_delete (h : heap) (n : node) (key : Z) (all : bool) (idx : Z)
  : option (heap * node * option slot) :=
  match n with
  | Leaf _ _ _ => '(n', r) ← deleteFromLeaf n key all idx; Some (h, n', r)
  | Internal m ks cs =>
      let i := childIndex ks key in
      match on_child (λ c, Some (node_delete h c key all idx)) None cs i with
      | None => Some (h, n, None)
      | Some None => None
      | Some (Some (h1, c, None)) => Some (h1, Internal m ks (<[i := c]> cs), None)
      | Some (Some (h1, c, Some val)) =>
          let n' := Internal m ks (<[i := c]> cs) in
          '(h2, n'') ←
            (if isLeaf c then
               if decide (length (nvalues c) < nbmin m) then balanceLeaf h1 n' i
               else Some (h1, n')
             else
               if decide (length (nchildren c) < nbmin m) then balanceInternal h1 n' i
               else Some (h1, n'));
          Some (h2, n'', Some val)
      end
  end.

(** [t.delete]: an internal root left with one child is replaced by it. *)
Definition delete (h : heap) (t : BPTree) (key : Z) (all : bool) (idx : Z)
  : option (heap * BPTree * option slot) :=
  '(h', n, r) ← node_delete h (root t) key all idx;
  match r with
  | Some val =>
      let root' :=
        match n with
        | Internal _ _ [c] => c
        | _ => n
        end in
      if all then
        let c := match val with Bucket c => c | Solo _ => [] end in
        Some (h', Tree root' (size t - Z.of_nat (length c))%Z, Some (Bucket c))
      else Some (h', Tree root' (size t - 1)%Z, Some val)
  | None => Some (h', Tree n (size t), None)
  end.

Definition Delete (h : heap) (t : BPTree) (key : Z)
  : option (heap * BPTree * option V) :=
  '(h', t', r) ← delete h t key false (-1);
  match r with
  | Some v => v' ← assertV v; Some (h', t', Some v')
  | None => Some (h', t', None)
  end.

Definition DeleteOne (h : heap) (t : BPTree) (key : Z) (idx : Z)
  : option (heap * BPTree * option V) :=
  '(h', t', r) ← delete h t key false idx;
  match r with
  | Some v => v' ← assertV v; Some (h', t', Some v')
  | None => Some (h', t', None)
  end.

Definition DeleteAll (h : heap) (t : BPTree) (key : Z)
  : option (heap * BPTree * option (list V)) :=
  '(h', t', r) ← delete h t key true 0;
  match r with
  | Some v => c ← assertCollision v; Some (h', t', Some c)
  | None => Some (h', t', None)
  end.

(** ** Iteration *)

(** The node a pointer refers to, searched from the root: the first node
    with that identifier in a left-to-right walk. *)
Fixpoint lookup_node (n : node) (p : ptr) : option node :=
  if decide (nid (nmeta n) = p) then Some n
  else
    match n with
    | Leaf _ _ _ => None
    | Internal _ _ cs =>
        (fix go (cs : list node) : option node :=
           match cs with
           | [] => None
           | c :: cs' =>
               match lookup_node c p with
               | Some r => Some r
               | None => go cs'
               end
           end) cs
    end.

Record iterator := Iter {
  it_from : option Z; it_to : option Z; it_n : option ptr; it_i : nat;
  it_c : option (list V); it_ckey : Z; it_ci : nat }.

(** The outcome of the inner loop of [Next] over the keys of one leaf. *)
Inductive scan :=
| ScanYield (i : nat) (c : option (list V)) (kv : Z * V)
| ScanStop (i : nat)
| ScanEnd.

(** [i.from != nil && k < *i.from]. *)
Definition below (from : option Z) (k : Z) : bool :=
  match from with Some f => (k <? f)%Z | None => false end.

(** [i.to != nil && k >= *i.to]. *)
Definition reached (to : option Z) (k : Z) : bool :=
  match to with Some t => (t <=? k)%Z | None => false end.

(** [for ; i.i < len(i.n.keys); i.i++]: [rest] is [i.n.keys[i.i:]]. *)
Fixpoint scanKeys (from to : option Z) (vs : list slot) (rest : list Z) (i : nat)
  : option scan :=
  match rest with
  | [] => Some ScanEnd
  | k :: rest' =>
      if below from k then scanKeys from to vs rest' (S i)
      else if reached to k then Some (ScanStop i)
      else
        s ← vs !! i;
        match s with
        | Bucket c => v ← head c; Some (ScanYield (S i) (Some c) (k, v))
        | Solo v => Some (ScanYield (S i) None (k, v))
        end
  end.

(** [Next]: [fuel] bounds the number of leaves the search loop visits;
    the outer [None] is a panic, a dangling node or the end of the fuel. *)
Fixpoint Next (fuel : nat) (rt : node) (h : heap) (it : iterator)
  : option (iterator * option (Z * V)) :=
  match fuel with
  | 0 => None
  | S fuel' =>
      match it_n it with
      | None => Some (it, None)
      | Some p =>
          match it_c it, (c ← it_c it; c !! it_ci it) with
          | Some c, Some v =>
              Some (Iter (it_from it) (it_to it) (it_n it) (it_i it) (it_c it)
                         (it_ckey it) (S (it_ci it)),
                    Some (it_ckey it, v))
          | _, _ =>
              n ← lookup_node rt p;
              r ← scanKeys (it_from it) (it_to it) (nvalues n)
                           (drop (it_i it) (nkeys n)) (it_i it);
              match r with
              | ScanYield i (Some c) kv =>
                  Some (Iter (it_from it) (it_to it) (it_n it) i (Some c) (fst kv) 1,
                        Some kv)
              | ScanYield i None kv =>
                  Some (Iter (it_from it) (it_to it) (it_n it) i None
                             (it_ckey it) (it_ci it),
                        Some kv)
              | ScanStop i =>
                  Some (Iter (it_from it) (it_to it) None i None
                             (it_ckey it) (it_ci it),
                        None)
              | ScanEnd =>
                  Next fuel' rt h
                       (Iter (it_from it) (it_to it) (right_of h p) 0 None
                             (it_ckey it) (it_ci it))
              end
          end
      end
  end.

(** The descent of [Iterator]; [None] when an internal node has no child
    to follow (the source then loops for ever). *)
Fixpoint descend (n : node) (from : option Z) : option ptr :=
  match n with
  | Leaf m _ _ => Some (nid m)
  | Internal _ ks cs =>
      on_child (λ c, descend c from) None cs
               (match from with None => 0 | Some f => childIndex ks f end)
  end.

Definition Iterator (t : BPTree) (from to : option Z) : option iterator :=
  match from, to with
  | Some f, Some t' =>
      if (t' <=? f)%Z then Some (Iter None None None 0 None 0%Z 0)
      else p ← descend (root t) from; Some (Iter from to (Some p) 0 None 0%Z 0)
  | _, _ => p ← descend (root t) from; Some (Iter from to (Some p) 0 None 0%Z 0)
  end.

(** The loop of [Range]; [fuel] bounds the number of calls of [Next]. *)
Fixpoint collect (fuel nfuel : nat) (rt : node) (h : heap) (it : iterator)
  : option (list (Z * V)) :=
  match fuel with
  | 0 => None
  | S fuel' =>
      '(it', r) ← Next nfuel rt h it;
      match r with
      | Some kv => (kv ::.) <$> collect fuel' nfuel rt h it'
      | None => Some []
      end
  end.

Definition Range (fuel : nat) (h : heap) (t : BPTree) (from to : option Z)
  : option (list (Z * V)) :=
  it ← Iterator t from to;
  collect fuel fuel (root t) h it.

Definition Entries (fuel : nat) (h : heap) (t : BPTree) : option (list (Z * V)) :=
  Range fuel h t None None.

(** ** The first and the last pair *)

(** [for n.isInternal() { n = n.children[0] }]: [None] when an internal
    node has no children (index out of range). *)
Fixpoint leftmost (n : node) : option node :=
  match n with
  | Leaf _ _ _ => Some n
  | Internal _ _ cs => on_child leftmost None cs 0
  end.

(** [for n.isInternal() { n = n.children[len(n.children)-1] }]. *)
Fixpoint rightmost (n : node) : option node :=
  match n with
  | Leaf _ _ _ => Some n
  | Internal _ _ cs => on_child rightmost None cs (length cs - 1)
  end.

(** [First]: the outer [None] is an index out of range, in [n.values[0]],
    [c[0]] or [n.keys[0]]; the inner one is the [false] of the source. *)
Definition First (t : BPTree) : option (option (Z * V)) :=
  if decide (size t = 0%Z) then Some None
  else
    n ← leftmost (root t);
    s ← nvalues n !! 0;
    v ← match s with Bucket c => c !! 0 | Solo v => Some v end;
    k ← nkeys n !! 0;
    Some (Some (k, v)).

(** [Last]: as [First], at the indices [len - 1]. *)
Definition Last (t : BPTree) : option (option (Z * V)) :=
  if decide (size t = 0%Z) then Some None
  else
    n ← rightmost (root t);
    s ← last (nvalues n);
    v ← match s with Bucket c => last c | Solo v => Some v end;
    k ← last (nkeys n);
    Some (Some (k, v)).

End BPTree.

Arguments slot : clear implicits.
Arguments node : clear implicits.
Arguments BPTree : clear implicits.
Arguments ins : clear implicits.
Arguments iterator : clear implicits.
Arguments scan : clear implicits.


(** * Contents and invariants *)

Section Invariants.
Context {V : Type} {N : Nil V}.
Implicit Types (n c : node V) (cs : list (node V)) (h : heap).

(** The values of a slot, in the order of their insertion. *)
Definition slot_values (s : slot V) : list V :=
  match s with Solo v => [v] | Bucket c => c end.

(** The slots of a tree, from the leftmost leaf to the rightmost. *)
Fixpoint slots n : list (Z * slot V) :=
  match n with
  | Leaf _ ks vs => zip ks vs
  | Internal _ _ cs => concat (map slots cs)
  end.

Definition expand (kv : Z * slot V) : list (Z * V) :=
  (λ v, (kv.1, v)) <$> slot_values kv.2.

(** The key-value pairs of a tree: every slot expanded in place. *)
Definition entries n : list (Z * V) := concat (map expand (slots n)).

(** The leaves of a tree from left to right, and the identifiers of all
    its nodes. *)
Fixpoint leaves n : list (node V) :=
  match n with
  | Leaf _ _ _ => [n]
  | Internal _ _ cs => concat (map leaves cs)
  end.

Fixpoint ids n : list ptr :=
  match n with
  | Leaf m _ _ => [nid m]
  | Internal m _ cs => nid m :: concat (map ids cs)
  end.

(** [from ≤ k < to], an absent bound being infinite. *)
Definition in_range (from to : option Z) (k : Z) : bool :=
  negb (below from k) && negb (reached to k).

(** *** Shape: capacities, lengths, uniform depth, occupancy *)

Definition meta_ok (m : nat) (mt : meta) : Prop :=
  ncap mt = m ∧ nbmin mt = ceil_half m.

(** [shape m d n]: [n] is a tree of height [d] whose nodes have capacity
    [m]; a leaf has as many values as keys and no empty bucket; every node
    below [n] holds at least [bmin] entries, [n] itself is exempt. *)
Fixpoint shape (m d : nat) n : Prop :=
  match d, n with
  | 0, Leaf mt ks vs =>
      meta_ok m mt ∧ length vs = length ks ∧ length ks ≤ m
      ∧ Forall (λ s, slot_values s ≠ []) vs
  | S d', Internal mt ks cs =>
      meta_ok m mt ∧ length cs = S (length ks) ∧ length cs ≤ m
      ∧ Forall (λ c, shape m d' c ∧ ceil_half m ≤ count c) cs
  | _, _ => False
  end.

(** The shape of a tree handle of order [m]. *)
Definition tree_shape (m : nat) (t : BPTree V) : Prop :=
  3 ≤ m ∧ ∃ d, shape m d (root t) ∧ (isInternal (root t) = true → 2 ≤ count (root t)).

(** The entries of a node as the occupancy bounds count them: the keys of
    a leaf, the children of an internal node. *)
Definition occupants n : nat :=
  match n with Leaf _ ks _ => length ks | Internal _ _ cs => length cs end.

(** The occupancy bounds alone: [n] and every node below it hold between
    [bmin] and [m] entries. *)
Fixpoint occupied (m : nat) n : Prop :=
  ceil_half m ≤ occupants n ≤ m
  ∧ match n with
    | Leaf _ _ _ => True
    | Internal _ _ cs =>
        (fix all (cs : list (node V)) : Prop :=
           match cs with [] => True | c :: cs' => occupied m c ∧ all cs' end) cs
    end.

(** The root is exempt from the lower bound, and an internal root has at
    least two children. *)
Definition occupancy (m : nat) (t : BPTree V) : Prop :=
  match root t with
  | Leaf _ ks _ => length ks ≤ m
  | Internal _ _ cs => 2 ≤ length cs ≤ m ∧ Forall (occupied m) cs
  end.

(** *** Order: sorted keys and separator bounds *)

Definition above (lo : option Z) (k : Z) : Prop :=
  match lo with Some l => (l ≤ k)%Z | None => True end.

Definition strictly_above (lo : option Z) (k : Z) : Prop :=
  match lo with Some l => (l < k)%Z | None => True end.

Definition under (hi : option Z) (k : Z) : Prop :=
  match hi with Some u => (k < u)%Z | None => True end.

(** The bounds of the children of a node with separators [ks] and bounds
    [lo] and [hi]. *)
Definition child_bounds (lo hi : option Z) (ks : list Z) : list (option Z * option Z) :=
  zip (lo :: map Some ks) (map Some ks ++ [hi]).

(** [ordered d lo hi n]: the keys of every node are strictly ascending;
    the keys of a leaf lie in [[lo, hi)], the separators of an internal
    node strictly between [lo] and [hi], and the child at [i] is bounded
    by the separators around it. *)
Fixpoint ordered (d : nat) (lo hi : option Z) n : Prop :=
  match d, n with
  | 0, Leaf _ ks _ =>
      StronglySorted Z.lt ks ∧ Forall (λ k, above lo k ∧ under hi k) ks
  | S d', Internal _ ks cs =>
      StronglySorted Z.lt ks
      ∧ Forall (λ k, strictly_above lo k ∧ under hi k) ks
      ∧ Forall2 (λ c b, ordered d' b.1 b.2 c) cs (child_bounds lo hi ks)
  | _, _ => False
  end.

(** A well-formed tree of order [m]. *)
Definition wf (m : nat) (t : BPTree V) : Prop :=
  tree_shape m t ∧ ∃ d, ordered d None None (root t).

(** *** Sibling references of the leaves *)

(** The first pointer of [ps], [q] when there is none. *)
Definition next_of (ps : list ptr) (q : option ptr) : option ptr :=
  match ps with [] => q | p :: _ => Some p end.

(** [right] leads from every pointer of [ps] to the next one, and from the
    last one to [q]. *)
Fixpoint seg (h : heap) (ps : list ptr) (q : option ptr) : Prop :=
  match ps with
  | [] => True
  | p :: ps' => right_of h p = next_of ps' q ∧ seg h ps' q
  end.

Definition leaf_ids n : list ptr := (λ l, nid (nmeta l)) <$> leaves n.

(** The identifiers are pairwise distinct and allocated, and [right] leads
    from every leaf to the next one, from the last one to [nil]. *)
Definition linked (h : heap) n : Prop :=
  NoDup (ids n) ∧ Forall (λ p, p < hnext h) (ids n) ∧ seg h (leaf_ids n) None.

(** The slot after [Append] met its key. *)
Definition collide (s : slot V) (val : V) : slot V :=
  match s with
  | Solo v0 => Bucket [v0; val]
  | Bucket c => Bucket (c ++ [val])
  end.

(** The metadata of the node that a split allocates. *)
Definition split_meta (h : heap) (m : nat) : meta := Meta (hnext h) m (ceil_half m).

(** The bounds of the child at [i]. *)
Definition lo_at (lo : option Z) (ks : list Z) (i : nat) : option Z :=
  match i with 0 => lo | S j => match ks !! j with Some k => Some k | None => lo end end.

Definition hi_at (hi : option Z) (ks : list Z) (i : nat) : option Z :=
  match ks !! i with Some k => Some k | None => hi end.

(** The slot of [key] after [insert(key, val, replace)], from the result of
    [find] before it. *)
Definition new_slot (replace : bool) (val : V) (old : option (option (slot V))) : slot V :=
  if replace then Solo val
  else match old with
       | Some (Some s) => collide s val
       | _ => Solo val
       end.

(** What [node.insert] establishes on a node bounded by [lo] and [hi]. *)
Definition ins_post (d : nat) (lo hi : option Z) n (key : Z) (val : V) (replace : bool) (r : ins V) : Prop :=
  match i_n2 r with
  | None =>
      ordered d lo hi (i_node r)
      ∧ node_find (i_node r) key = Some (Some (new_slot replace val (node_find n key)))
  | Some n2 =>
      ordered d lo (Some (i_key2 r)) (i_node r) ∧ ordered d (Some (i_key2 r)) hi n2
      ∧ strictly_above lo (i_key2 r) ∧ under hi (i_key2 r)
      ∧ (if (key <? i_key2 r)%Z then node_find (i_node r) key else node_find n2 key)
        = Some (Some (new_slot replace val (node_find n key)))
  end.

(** The values of the result of [find]. *)
Definition found_values (o : option (slot V)) : list V :=
  match o with Some s => slot_values s | None => [] end.

(** *** The public operations in sequence *)

(** A call of a public operation that changes the tree. *)
Inductive op :=
| OInsert (key : Z) (val : V)
| OAppend (key : Z) (val : V)
| ODelete (key : Z)
| ODeleteOne (key : Z) (idx : Z)
| ODeleteAll (key : Z)
| OClear.

(** The state after a call, [None] when the call panics. *)
Definition apply_op (o : op) (st : heap * BPTree V) : option (heap * BPTree V) :=
  let '(h, t) := st in
  match o with
  | OInsert key val => Insert h t key val
  | OAppend key val => Append h t key val
  | ODelete key => '(h', t', _) ← Delete h t key; Some (h', t')
  | ODeleteOne key idx => '(h', t', _) ← DeleteOne h t key idx; Some (h', t')
  | ODeleteAll key => '(h', t', _) ← DeleteAll h t key; Some (h', t')
  | OClear => Some (Clear h t)
  end.

Fixpoint run (ops : list op) (st : heap * BPTree V) : option (heap * BPTree V) :=
  match ops with
  | [] => Some st
  | o :: ops' => st' ← apply_op o st; run ops' st'
  end.

(** The order of a tree made by [NewBPTree order]. *)
Definition clamp (order : nat) : nat :=
  if decide (order < MinOrder) then MinOrder else order.

End Invariants.

Arguments op : clear implicits.

(** * Properties *)

(** ** The idioms on slices *)

Section SliceFacts.
Context {A : Type}.
Implicit Types (s : list A) (x : A).

Lemma slice_set_Some i x s :
  i < length s → slice_set i x s = Some (<[i := x]> s).
Proof. intros. unfold slice_set. by rewrite decide_True. Qed.

Lemma slice_insert_Some cap pos x s :
  length s < cap → pos ≤ length s →
  slice_insert cap pos x s = Some (take pos s ++ x :: drop pos s).
Proof. intros. unfold slice_insert. by rewrite decide_True. Qed.

Lemma slice_delete_Some i s :
  i < length s → slice_delete i s = Some (take i s ++ drop (S i) s).
Proof. intros. unfold slice_delete. by rewrite decide_True. Qed.

Lemma slice_push_Some cap x s :
  length s < cap → slice_push cap x s = Some (s ++ [x]).
Proof. intros. unfold slice_push. by rewrite decide_True. Qed.

Lemma slice_pop_Some s x : slice_pop (s ++ [x]) = Some (x, s).
Proof.
  unfold slice_pop. rewrite last_snoc, length_app. simpl.
  replace (length s + 1 - 1) with (length s) by lia.
  by rewrite take_app_length.
Qed.

Lemma slice_pop_inv s x s' : slice_pop s = Some (x, s') → s = s' ++ [x].
Proof.
  unfold slice_pop. destruct (last s) as [y|] eqn:E; [|done].
  intros [= <- <-]. apply last_Some in E as [l ->].
  rewrite length_app. simpl.
  replace (length l + 1 - 1) with (length l) by lia.
  by rewrite take_app_length.
Qed.

Lemma length_insert_at pos x s :
  pos ≤ length s → length (take pos s ++ x :: drop pos s) = S (length s).
Proof. intros. rewrite length_app, length_take. simpl. rewrite length_drop. lia. Qed.

Lemma length_delete_at i s :
  i < length s → length (take i s ++ drop (S i) s) = length s - 1.
Proof. intros. rewrite length_app, length_take, length_drop. lia. Qed.
End SliceFacts.

(** ** Unfolding the recursive functions at an internal node *)

Section Unfold.
Context {V : Type} {N : Nil V}.
Implicit Types (n c : node V) (cs : list (node V)) (h : heap).

Lemma on_child_lookup {R} (f : node V → R) (d : R) cs i :
  on_child f d cs i = match cs !! i with Some c => f c | None => d end.
Proof. revert i. induction cs as [|c cs IH]; intros [|i]; simpl; auto. Qed.

Lemma node_find_internal m ks cs key :
  node_find (Internal m ks cs) key =
  match cs !! childIndex ks key with
  | Some c => node_find c key
  | None => None
  end.
Proof. simpl. by rewrite on_child_lookup. Qed.

Lemma node_insert_internal h m ks cs key val replace :
  node_insert h (Internal m ks cs) key val replace =
  let i := childIndex ks key in
  match cs !! i with
  | None => Some (Ins h (Internal m ks cs) false 0%Z None)
  | Some c =>
      r ← node_insert h c key val replace;
      let n' := Internal m ks (<[i := i_node r]> cs) in
      match i_n2 r with
      | Some c2 =>
          '(h', n'', key2, n2) ← insertToInternal (i_heap r) n' (i_key2 r) c2;
          Some (Ins h' n'' (i_ok r) key2 n2)
      | None => Some (Ins (i_heap r) n' (i_ok r) (i_key2 r) None)
      end
  end.
Proof.
  simpl. rewrite on_child_lookup.
  destruct (cs !! childIndex ks key); [|done].
  by destruct (node_insert h n key val replace).
Qed.

Lemma node_delete_internal h m ks cs key all idx :
  node_delete h (Internal m ks cs) key all idx =
  let i := childIndex ks key in
  match cs !! i with
  | None => Some (h, Internal m ks cs, None)
  | Some c0 =>
      '(h1, c, r) ← node_delete h c0 key all idx;
      let n' := Internal m ks (<[i := c]> cs) in
      match r with
      | None => Some (h1, n', None)
      | Some val =>
          '(h2, n'') ←
            (if isLeaf c then
               if decide (length (nvalues c) < nbmin m) then balanceLeaf h1 n' i
               else Some (h1, n')
             else
               if decide (length (nchildren c) < nbmin m) then balanceInternal h1 n' i
               else Some (h1, n'));
          Some (h2, n'', Some val)
      end
  end.
Proof.
  simpl. rewrite on_child_lookup.
  destruct (cs !! childIndex ks key); [|done].
  destruct (node_delete h n key all idx) as [[[h1 c] [val|]]|]; done.
Qed.

Lemma descend_internal m ks cs from :
  descend (Internal m ks cs) from =
  match cs !! (match from with None => 0 | Some f => childIndex ks f end) with
  | Some c => descend c from
  | None => None
  end.
Proof. simpl. by rewrite on_child_lookup. Qed.

(** Induction on nodes, the children of an internal node satisfying the
    property. *)
Lemma node_ind (P : node V → Prop) :
  (∀ m ks vs, P (Leaf m ks vs)) →
  (∀ m ks cs, Forall P cs → P (Internal m ks cs)) →
  ∀ n, P n.
Proof.
  intros HL HI. fix IH 1. intros [m ks vs|m ks cs]; [apply HL|].
  apply HI. induction cs as [|c cs IHcs]; constructor; [apply IH|apply IHcs].
Qed.
End Unfold.

(** ** The scans of a node's keys *)

Section Scans.
Implicit Types (ks : list Z) (key : Z).

Lemma leafScan_inr ks key i pos :
  leafScan ks key i i = inr pos →
  ∃ p, pos = i + p ∧ p ≤ length ks
       ∧ Forall (λ k, (k < key)%Z) (take p ks)
       ∧ (∀ k, head (drop p ks) = Some k → (key < k)%Z).
Proof.
  revert i. induction ks as [|k ks IH]; intros i; simpl.
  - intros [= <-]. exists 0. split_and!; [lia|simpl; lia|constructor|done].
  - destruct (Z.ltb_spec key k) as [Hlt|Hge].
    + intros [= <-]. exists 0. split_and!; [lia|simpl; lia|constructor|].
      simpl. by intros ? [= <-].
    + destruct (Z.eqb_spec k key) as [->|Hne]; [done|].
      intros (p & -> & Hp & Hall & Hhd)%IH.
      exists (S p). split_and!; [lia|simpl; lia| |done].
      simpl. constructor; [lia|done].
Qed.

Lemma leafScan_inl ks key i j :
  leafScan ks key i i = inl j →
  ∃ p, j = i + p ∧ ks !! p = Some key ∧ Forall (λ k, (k < key)%Z) (take p ks).
Proof.
  revert i. induction ks as [|k ks IH]; intros i; simpl; [done|].
  destruct (Z.ltb_spec key k) as [Hlt|Hge]; [done|].
  destruct (Z.eqb_spec k key) as [->|Hne].
  - intros [= <-]. exists 0. split_and!; [lia|done|constructor].
  - intros (p & -> & Hp & Hall)%IH. exists (S p).
    split_and!; [lia|done|]. simpl. constructor; [lia|done].
Qed.

(** A key that is absent is not found by the scan. *)
Lemma leafScan_absent ks key i :
  key ∉ ks → ∃ pos, leafScan ks key i i = inr pos.
Proof.
  intros Hnot. destruct (leafScan ks key i i) as [j|pos] eqn:E; [|eauto].
  apply leafScan_inl in E as (p & _ & Hp%list_elem_of_lookup_2 & _). done.
Qed.

(** In a sorted leaf the scan finds a key that is present, at the index
    the equality scan of [find] reports. *)
Lemma leafScan_present ks key i p :
  StronglySorted Z.lt ks → keyIndex ks key = Some p →
  leafScan ks key i i = inl (i + p).
Proof.
  intros Hs. revert i p. induction Hs as [|k ks Hs IH Hall]; intros i p; simpl; [done|].
  destruct (Z.eqb_spec k key) as [->|Hne].
  - intros [= <-]. rewrite Z.ltb_irrefl. f_equal. lia.
  - destruct (keyIndex ks key) as [q|] eqn:Eq; simpl; [|done].
    intros [= <-]. destruct (Z.ltb_spec key k) as [Hlt|Hge].
    + exfalso. clear IH. revert q Eq. induction Hall as [|k' ks' Hk' Hall' IH']; intros q; simpl; [done|].
      destruct (Z.eqb_spec k' key) as [->|Hne']; [lia|].
      destruct (keyIndex ks' key) eqn:E'; simpl; [|done].
      intros _. apply StronglySorted_inv in Hs as [Hs' _]. eapply IH'; eauto.
    + rewrite (IH (S i) q); [f_equal; lia|done].
Qed.

Lemma keyIndex_Some ks key p :
  keyIndex ks key = Some p → ks !! p = Some key ∧ key ∉ take p ks.
Proof.
  revert p. induction ks as [|k ks IH]; intros p; simpl; [done|].
  destruct (Z.eqb_spec k key) as [->|Hne].
  - intros [= <-]. simpl. split; [done|]. apply not_elem_of_nil.
  - destruct (keyIndex ks key) as [q|]; simpl; [|done].
    intros [= <-]. destruct (IH q eq_refl) as [? ?]. split; [done|].
    simpl. rewrite not_elem_of_cons. done.
Qed.

Lemma keyIndex_None ks key : keyIndex ks key = None ↔ key ∉ ks.
Proof.
  induction ks as [|k ks IH]; simpl.
  - split; [intros _; apply not_elem_of_nil|done].
  - destruct (Z.eqb_spec k key) as [->|Hne].
    + split; [done|]. intros []. left.
    + rewrite not_elem_of_cons. destruct (keyIndex ks key); simpl.
      * split; [done|]. intros [_ H]. by apply IH in H.
      * split; [|done]. intros _. split; [congruence|]. by apply IH.
Qed.

Lemma keyPos_spec ks key :
  keyPos ks key ≤ length ks
  ∧ Forall (λ k, (k < key)%Z) (take (keyPos ks key) ks)
  ∧ (∀ k, head (drop (keyPos ks key) ks) = Some k → (key ≤ k)%Z).
Proof.
  induction ks as [|k ks (IH1 & IH2 & IH3)]; simpl.
  - split_and!; [lia|constructor|done].
  - destruct (Z.ltb_spec k key) as [Hlt|Hge]; simpl.
    + split_and!; [lia|by constructor|done].
    + split_and!; [lia|constructor|]. by intros ? [= <-].
Qed.

Lemma childIndex_spec ks key :
  childIndex ks key ≤ length ks
  ∧ Forall (λ k, (k ≤ key)%Z) (take (childIndex ks key) ks)
  ∧ (∀ k, ks !! childIndex ks key = Some k → (key < k)%Z).
Proof.
  induction ks as [|k ks (IH1 & IH2 & IH3)]; simpl.
  - split_and!; [lia|constructor|done].
  - destruct (Z.ltb_spec key k) as [Hlt|Hge]; simpl.
    + split_and!; [lia|constructor|]. by intros ? [= <-].
    + split_and!; [lia|by constructor|done].
Qed.
End Scans.

(** ** Values that are the nil interface value

    The functions that assert [x.(V)] are compared with themselves on a
    type of values without nil: they return the same result whenever they
    return, and they return whenever the slot they assert is not the nil
    [any].  The sections that take [never_nil] for the instance of [Nil]
    prove their lemmas on values without nil; the theorems on arbitrary
    values follow from them by the lemmas of this section. *)

Section NilValues.
Context {V : Type} {N : Nil V}.
Implicit Types (h : heap) (n c : node V) (t : BPTree V) (s : slot V) (v : V).
Implicit Types (cs : list (node V)) (ks : list Z) (vs : list (slot V)).

(** The slot that [find] returns can be asserted to be a [V]. *)
Definition solid (o : option (option (slot V))) : Prop :=
  ∀ v, o = Some (Some (Solo v)) → is_nil v = false.

Lemma assertV_never s :
  assertV (N := never_nil) s = match s with Solo v => Some v | Bucket _ => None end.
Proof. by destruct s. Qed.

Lemma assertV_Some s v : assertV s = Some v → s = Solo v ∧ is_nil v = false.
Proof. destruct s as [v0|c]; simpl; [|done]. by destruct (is_nil v0) eqn:E; intros [= ->]. Qed.

Lemma assertV_solid v : is_nil v = false → assertV (Solo v) = Some v.
Proof. simpl. by intros ->. Qed.

Lemma Find_refines t k r : Find t k = Some r → Find (N := never_nil) t k = Some r.
Proof.
  unfold Find. destruct (find t k) as [[[v|c]|]|]; cbn [mbind option_bind]; try done.
  simpl. by destruct (is_nil v).
Qed.

Lemma FindAll_refines t k r : FindAll t k = Some r → FindAll (N := never_nil) t k = Some r.
Proof.
  unfold FindAll. destruct (find t k) as [[[v|c]|]|]; cbn [mbind option_bind]; try done.
  simpl. by destruct (is_nil v).
Qed.

Lemma Find_agree t k : solid (find t k) → Find t k = Find (N := never_nil) t k.
Proof.
  unfold Find, solid. destruct (find t k) as [[[v|c]|]|]; cbn [mbind option_bind]; try done.
  intros Hs. simpl. by rewrite (Hs v eq_refl).
Qed.

Lemma FindAll_agree t k : solid (find t k) → FindAll t k = FindAll (N := never_nil) t k.
Proof.
  unfold FindAll, solid. destruct (find t k) as [[[v|c]|]|]; cbn [mbind option_bind]; try done.
  intros Hs. simpl. by rewrite (Hs v eq_refl).
Qed.

Lemma leafScan_keyIndex ks key i j :
  leafScan ks key i i = inl j → ∃ p, j = i + p ∧ keyIndex ks key = Some p.
Proof.
  revert i. induction ks as [|k ks IH]; intros i; simpl; [done|].
  destruct (Z.ltb_spec key k) as [Hlt|Hge]; [done|].
  destruct (Z.eqb_spec k key) as [->|Hne].
  - intros [= <-]. exists 0. split; [lia|done].
  - intros (p & -> & ->)%IH. exists (S p). split; [lia|done].
Qed.

(** *** Insertion *)

Lemma insertToLeaf_refines h n key val replace r :
  insertToLeaf h n key val replace = Some r →
  insertToLeaf (N := never_nil) h n key val replace = Some r.
Proof.
  destruct n as [m ks vs|m ks cs]; [|done]. unfold insertToLeaf.
  destruct (leafScan ks key 0 0) as [i|pos]; [|done].
  destruct replace; [done|].
  destruct (vs !! i) as [[v|c]|]; cbn [mbind option_bind]; [|done..].
  simpl. by destruct (is_nil v).
Qed.

Lemma insertToLeaf_agree h n key val replace :
  replace = true ∨ solid (node_find n key) →
  insertToLeaf h n key val replace
  = insertToLeaf (N := never_nil) h n key val replace.
Proof.
  destruct n as [m ks vs|m ks cs]; [|done]. unfold insertToLeaf, solid. cbn [node_find].
  destruct (leafScan ks key 0 0) as [i|pos] eqn:E; [|done].
  destruct replace; [done|]. intros [|Hs]; [done|].
  apply leafScan_keyIndex in E as (p & -> & Hp). rewrite Hp in Hs. simpl in Hs |- *.
  destruct (vs !! p) as [[v|c]|]; cbn [mbind option_bind] in *; [|done..].
  simpl. by rewrite (Hs v eq_refl).
Qed.

Lemma node_insert_refines h n key val replace r :
  node_insert h n key val replace = Some r →
  node_insert (N := never_nil) h n key val replace = Some r.
Proof.
  revert h r. induction n as [m ks vs|m ks cs IH] using node_ind; intros h r.
  - cbn [node_insert]. apply insertToLeaf_refines.
  - rewrite !node_insert_internal. cbn zeta.
    destruct (cs !! childIndex ks key) as [c|] eqn:Ec; [|done].
    eapply Forall_lookup_1 in IH; [|done].
    destruct (node_insert h c key val replace) as [r1|] eqn:E1; [|done].
    by rewrite (IH _ _ E1).
Qed.

Lemma node_insert_agree h n key val replace :
  replace = true ∨ solid (node_find n key) →
  node_insert h n key val replace
  = node_insert (N := never_nil) h n key val replace.
Proof.
  revert h. induction n as [m ks vs|m ks cs IH] using node_ind; intros h Hs.
  - cbn [node_insert]. by apply insertToLeaf_agree.
  - rewrite !node_insert_internal. cbn zeta. rewrite node_find_internal in Hs.
    destruct (cs !! childIndex ks key) as [c|] eqn:Ec; [|done].
    eapply Forall_lookup_1 in IH; [|done]. by rewrite IH.
Qed.

Lemma insert_refines h t key val replace r :
  insert h t key val replace = Some r →
  insert (N := never_nil) h t key val replace = Some r.
Proof.
  unfold insert. destruct (node_insert h (root t) key val replace) as [r1|] eqn:E; [|done].
  by rewrite (node_insert_refines _ _ _ _ _ _ E).
Qed.

Lemma insert_agree h t key val replace :
  replace = true ∨ solid (find t key) →
  insert h t key val replace = insert (N := never_nil) h t key val replace.
Proof. intros Hs. unfold insert. by rewrite node_insert_agree. Qed.

(** [Insert] asserts nothing. *)
Lemma Insert_never h t key val : Insert h t key val = Insert (N := never_nil) h t key val.
Proof. apply insert_agree. by left. Qed.

Lemma Append_agree h t key val :
  solid (find t key) → Append h t key val = Append (N := never_nil) h t key val.
Proof. intros Hs. apply insert_agree. by right. Qed.

(** *** Deletion *)

Lemma deleteFromLeaf_refines n key all idx r :
  deleteFromLeaf n key all idx = Some r →
  deleteFromLeaf (N := never_nil) n key all idx = Some r.
Proof.
  destruct n as [m ks vs|m ks cs]; [|done]. unfold deleteFromLeaf.
  destruct (keyIndex ks key) as [i|]; [|done].
  destruct (vs !! i) as [[v|c]|]; cbn [mbind option_bind]; [|done..].
  destruct all; [|done]. simpl. by destruct (is_nil v).
Qed.

Lemma deleteFromLeaf_agree n key all idx :
  all = false ∨ solid (node_find n key) →
  deleteFromLeaf n key all idx = deleteFromLeaf (N := never_nil) n key all idx.
Proof.
  destruct n as [m ks vs|m ks cs]; [|done]. unfold deleteFromLeaf, solid. cbn [node_find].
  destruct (keyIndex ks key) as [i|]; [|done].
  destruct (vs !! i) as [[v|c]|]; cbn [mbind option_bind]; [|done..].
  destruct all; [|done]. intros [|Hs]; [done|]. simpl. by rewrite (Hs v eq_refl).
Qed.

Lemma node_delete_refines h n key all idx r :
  node_delete h n key all idx = Some r →
  node_delete (N := never_nil) h n key all idx = Some r.
Proof.
  revert h r. induction n as [m ks vs|m ks cs IH] using node_ind; intros h r.
  - cbn [node_delete].
    destruct (deleteFromLeaf (Leaf m ks vs) key all idx) as [r1|] eqn:E; [|done].
    by rewrite (deleteFromLeaf_refines _ _ _ _ _ E).
  - rewrite !node_delete_internal. cbn zeta.
    destruct (cs !! childIndex ks key) as [c|] eqn:Ec; [|done].
    eapply Forall_lookup_1 in IH; [|done].
    destruct (node_delete h c key all idx) as [r1|] eqn:E1; [|done].
    by rewrite (IH _ _ E1).
Qed.

Lemma node_delete_agree h n key all idx :
  all = false ∨ solid (node_find n key) →
  node_delete h n key all idx = node_delete (N := never_nil) h n key all idx.
Proof.
  revert h. induction n as [m ks vs|m ks cs IH] using node_ind; intros h Hs.
  - cbn [node_delete]. by rewrite deleteFromLeaf_agree.
  - rewrite !node_delete_internal. cbn zeta. rewrite node_find_internal in Hs.
    destruct (cs !! childIndex ks key) as [c|] eqn:Ec; [|done].
    eapply Forall_lookup_1 in IH; [|done]. by rewrite IH.
Qed.

Lemma delete_refines h t key all idx r :
  delete h t key all idx = Some r → delete (N := never_nil) h t key all idx = Some r.
Proof.
  unfold delete. destruct (node_delete h (root t) key all idx) as [r1|] eqn:E; [|done].
  by rewrite (node_delete_refines _ _ _ _ _ _ E).
Qed.

Lemma delete_agree h t key all idx :
  all = false ∨ solid (find t key) →
  delete h t key all idx = delete (N := never_nil) h t key all idx.
Proof. intros Hs. unfold delete. by rewrite node_delete_agree. Qed.

Lemma Delete_refines h t key r :
  Delete h t key = Some r → Delete (N := never_nil) h t key = Some r.
Proof.
  unfold Delete. rewrite (delete_agree h t key false) by (by left).
  destruct (delete (N := never_nil) h t key false (-1)) as [[[h' t'] [[v|c]|]]|];
    cbn [mbind option_bind]; try done.
  simpl. by destruct (is_nil v).
Qed.

Lemma DeleteOne_refines h t key idx r :
  DeleteOne h t key idx = Some r → DeleteOne (N := never_nil) h t key idx = Some r.
Proof.
  unfold DeleteOne. rewrite (delete_agree h t key false) by (by left).
  destruct (delete (N := never_nil) h t key false idx) as [[[h' t'] [[v|c]|]]|];
    cbn [mbind option_bind]; try done.
  simpl. by destruct (is_nil v).
Qed.

Lemma DeleteAll_refines h t key r :
  DeleteAll h t key = Some r → DeleteAll (N := never_nil) h t key = Some r.
Proof.
  unfold DeleteAll. destruct (delete h t key true 0) as [r1|] eqn:E; [|done].
  by rewrite (delete_refines _ _ _ _ _ _ E).
Qed.

(** *** Sequences of operations *)

Lemma apply_op_refines (o : op V) st st' :
  apply_op o st = Some st' → apply_op (N := never_nil) o st = Some st'.
Proof.
  destruct st as [h t]. destruct o as [key val|key val|key|key idx|key|]; cbn [apply_op].
  - apply insert_refines.
  - apply insert_refines.
  - destruct (Delete h t key) as [r|] eqn:E; [|done]. by rewrite (Delete_refines _ _ _ _ E).
  - destruct (DeleteOne h t key idx) as [r|] eqn:E; [|done].
    by rewrite (DeleteOne_refines _ _ _ _ _ E).
  - destruct (DeleteAll h t key) as [r|] eqn:E; [|done].
    by rewrite (DeleteAll_refines _ _ _ _ E).
  - done.
Qed.

(** The operations that return on the values of [V] return the same
    state on values without nil. *)
Lemma run_refines (ops : list (op V)) st st' :
  run ops st = Some st' → run (N := never_nil) ops st = Some st'.
Proof.
  revert st. induction ops as [|o ops IH]; intros st; cbn [run]; [done|].
  destruct (apply_op o st) as [st1|] eqn:E; [|done].
  rewrite (apply_op_refines _ _ _ E). cbn [mbind option_bind]. apply IH.
Qed.
End NilValues.

(** ** Sibling references *)

Section Links.
Implicit Types (h : heap) (p q r : ptr).

Lemma right_of_set_right p q o h :
  right_of (set_right p o h) q = if decide (p = q) then o else right_of h q.
Proof.
  unfold right_of, set_right, set_ref. simpl. destruct o; case_decide; subst.
  - by rewrite lookup_insert_eq.
  - by rewrite lookup_insert_ne.
  - by rewrite lookup_delete_eq.
  - by rewrite lookup_delete_ne.
Qed.

Lemma left_of_set_left p q o h :
  left_of (set_left p o h) q = if decide (p = q) then o else left_of h q.
Proof.
  unfold left_of, set_left, set_ref. simpl. destruct o; case_decide; subst.
  - by rewrite lookup_insert_eq.
  - by rewrite lookup_insert_ne.
  - by rewrite lookup_delete_eq.
  - by rewrite lookup_delete_ne.
Qed.

Lemma right_of_set_left p q o h : right_of (set_left p o h) q = right_of h q.
Proof. done. Qed.

Lemma left_of_set_right p q o h : left_of (set_right p o h) q = left_of h q.
Proof. done. Qed.

Lemma hnext_set_left p o h : hnext (set_left p o h) = hnext h.
Proof. done. Qed.

Lemma hnext_set_right p o h : hnext (set_right p o h) = hnext h.
Proof. done. Qed.

Lemma right_of_alloc h q :
  right_of (alloc h).1 q = if decide (hnext h = q) then None else right_of h q.
Proof.
  unfold right_of, alloc. simpl. case_decide; subst.
  - by rewrite lookup_delete_eq.
  - by rewrite lookup_delete_ne.
Qed.

Lemma left_of_alloc h q :
  left_of (alloc h).1 q = if decide (hnext h = q) then None else left_of h q.
Proof.
  unfold left_of, alloc. simpl. case_decide; subst.
  - by rewrite lookup_delete_eq.
  - by rewrite lookup_delete_ne.
Qed.

Lemma right_of_link_after p p2 h q :
  p ≠ p2 →
  right_of (link_after p p2 h) q =
  if decide (q = p) then Some p2
  else if decide (q = p2) then right_of h p
  else right_of h q.
Proof.
  intros Hne. unfold link_after. rewrite right_of_set_left, right_of_set_right.
  case_decide; subst; [by rewrite decide_True|].
  rewrite decide_False by done.
  destruct (right_of (set_right p2 (right_of h p) h) p) eqn:E.
  - rewrite right_of_set_left, right_of_set_right. by case_decide; subst; case_decide.
  - rewrite right_of_set_right. by case_decide; subst; case_decide.
Qed.

Lemma left_of_link_after p p2 h q :
  p ≠ p2 →
  left_of (link_after p p2 h) q =
  if decide (q = p2) then Some p
  else if decide (right_of h p = Some q) then Some p2
  else left_of h q.
Proof.
  intros Hne. unfold link_after. rewrite left_of_set_left.
  case_decide; subst; [by rewrite decide_True|].
  rewrite decide_False by done. rewrite left_of_set_right.
  rewrite right_of_set_right, decide_False by done.
  destruct (right_of h p) as [r|] eqn:E.
  - rewrite left_of_set_left, left_of_set_right.
    case_decide; subst; [by rewrite decide_True|].
    rewrite decide_False; [done|congruence].
  - rewrite left_of_set_right. by rewrite decide_False.
Qed.
End Links.

Lemma link_after_alloc h p :
  p < hnext h → (∀ r, right_of h p = Some r → r < hnext h) →
  let h' := link_after p (hnext h) (alloc h).1 in
  right_of h' p = Some (hnext h)
  ∧ left_of h' (hnext h) = Some p
  ∧ right_of h' (hnext h) = right_of h p
  ∧ (∀ r, right_of h p = Some r → left_of h' r = Some (hnext h)).
Proof.
  intros Hid Hr h'. assert (Hne : p ≠ hnext h) by lia. subst h'. split_and!.
  - rewrite right_of_link_after by done. by rewrite decide_True.
  - rewrite left_of_link_after by done. by rewrite decide_True.
  - rewrite right_of_link_after by done. rewrite decide_False by done.
    rewrite decide_True by done. rewrite right_of_alloc. by rewrite decide_False.
  - intros r Hrr. specialize (Hr r Hrr).
    rewrite left_of_link_after by done. rewrite decide_False by lia.
    rewrite decide_True; [done|]. rewrite right_of_alloc. by rewrite decide_False.
Qed.


(** ** Lists *)

Ltac list_len :=
  repeat first
    [ rewrite length_app | rewrite length_take | rewrite length_drop
    | rewrite length_cons | rewrite length_insert | rewrite length_nil ];
  simpl in *; lia.

Section ListFacts.
Context {A : Type}.
Implicit Types (l : list A).

Lemma drop_take_app_drop l a b :
  a ≤ b → drop a (take b l) ++ drop b l = drop a l.
Proof.
  revert a b. induction l as [|x l IH]; intros a b Hab.
  - by rewrite take_nil, !drop_nil.
  - destruct b as [|b]; [replace a with 0 by lia; done|].
    destruct a as [|a]; simpl; [by rewrite take_drop|].
    apply IH. lia.
Qed.

Lemma take_app_take_drop l a b :
  a ≤ b → take a l ++ take (b - a) (drop a l) = take b l.
Proof.
  revert a b. induction l as [|x l IH]; intros a b Hab.
  - by rewrite drop_nil, !take_nil.
  - destruct a as [|a]; simpl; [by rewrite Nat.sub_0_r|].
    destruct b as [|b]; [lia|]. simpl. f_equal. apply IH. lia.
Qed.

Lemma lookup_insert_at l pos x :
  pos ≤ length l → (take pos l ++ x :: drop pos l) !! pos = Some x.
Proof.
  intros. rewrite lookup_app_r; rewrite length_take; [|lia].
  by replace (pos - pos `min` length l) with 0 by lia.
Qed.
End ListFacts.

Lemma sorted_drop_above ks key p :
  StronglySorted Z.lt ks →
  (∀ k, head (drop p ks) = Some k → (key < k)%Z) →
  Forall (λ k, (key < k)%Z) (drop p ks).
Proof.
  intros Hs Hhd. assert (Hs' : StronglySorted Z.lt (drop p ks)).
  { clear Hhd. revert p. induction Hs; intros [|p]; simpl; try constructor; auto. }
  destruct (drop p ks) as [|k l]; [constructor|].
  apply StronglySorted_inv in Hs' as [_ Hall].
  specialize (Hhd k eq_refl). constructor; [done|].
  eapply Forall_impl; [done|]. simpl. lia.
Qed.


(** ** Sorted lists of keys *)

Section Sorted.
Implicit Types (ks : list Z) (key : Z).

Lemma sorted_app ks1 ks2 :
  StronglySorted Z.lt (ks1 ++ ks2) ↔
  StronglySorted Z.lt ks1 ∧ StronglySorted Z.lt ks2
  ∧ (∀ a b, a ∈ ks1 → b ∈ ks2 → (a < b)%Z).
Proof.
  induction ks1 as [|k ks1 IH]; simpl.
  - split; [intros; split_and!; [constructor|done|]|tauto].
    intros ?? []%elem_of_nil.
  - split.
    + intros [Hs Hall]%StronglySorted_inv. apply IH in Hs as (Hs1 & Hs2 & H12).
      apply Forall_app in Hall as [Ha1 Ha2]. split_and!; [by constructor|done|].
      intros a b [->|Ha]%elem_of_cons Hb; [|by apply H12].
      by eapply Forall_forall in Ha2.
    + intros (Hs1 & Hs2 & H12). apply StronglySorted_inv in Hs1 as [Hs1 Hall].
      constructor.
      * apply IH. split_and!; [done..|]. intros a b Ha Hb. apply H12; [by right|done].
      * apply Forall_app. split; [done|]. apply Forall_forall. intros b Hb.
        apply H12; [left|done].
Qed.

Lemma sorted_cons ks k :
  StronglySorted Z.lt (k :: ks) ↔ StronglySorted Z.lt ks ∧ Forall (λ b, (k < b)%Z) ks.
Proof. split; [apply StronglySorted_inv|intros []; by constructor]. Qed.

Lemma sorted_take ks p : StronglySorted Z.lt ks → StronglySorted Z.lt (take p ks).
Proof.
  intros Hs. rewrite <- (take_drop p ks) in Hs. by apply sorted_app in Hs as (? & _).
Qed.

Lemma sorted_drop ks p : StronglySorted Z.lt ks → StronglySorted Z.lt (drop p ks).
Proof.
  intros Hs. rewrite <- (take_drop p ks) in Hs. by apply sorted_app in Hs as (_ & ? & _).
Qed.

(** Inserting a key between the keys below it and the keys above it. *)
Lemma sorted_insert ks key p :
  StronglySorted Z.lt ks →
  Forall (λ k, (k < key)%Z) (take p ks) → Forall (λ k, (key < k)%Z) (drop p ks) →
  StronglySorted Z.lt (take p ks ++ key :: drop p ks).
Proof.
  intros Hs Hlt Hgt. apply sorted_app. split_and!.
  - by apply sorted_take.
  - apply sorted_cons. split; [by apply sorted_drop|done].
  - intros a b Ha [->|Hb]%elem_of_cons.
    + by eapply Forall_forall in Hlt.
    + eapply Forall_forall in Hlt; [|done]. eapply Forall_forall in Hgt; [|done].
      simpl in *. lia.
Qed.

Lemma sorted_middle_notin ks1 k ks2 :
  StronglySorted Z.lt (ks1 ++ k :: ks2) → (k ∉ ks1) ∧ (k ∉ ks2).
Proof.
  intros H. apply sorted_app in H as (_ & H2 & H12).
  apply sorted_cons in H2 as [_ H2]. split.
  - intros Hin. assert (k < k)%Z; [|lia]. apply H12; [done|left].
  - intros Hin. eapply Forall_forall in H2; [|done]. lia.
Qed.

Lemma keyPos_above ks key :
  StronglySorted Z.lt ks → key ∉ ks →
  Forall (λ k, (key < k)%Z) (drop (keyPos ks key) ks).
Proof.
  intros Hs Hnot. apply sorted_drop_above; [done|].
  intros k Hk. destruct (keyPos_spec ks key) as (_ & _ & Hge).
  specialize (Hge k Hk). assert (k ≠ key); [|lia].
  intros ->. apply Hnot. rewrite head_lookup, lookup_drop in Hk.
  by eapply list_elem_of_lookup_2.
Qed.
End Sorted.


(** ** Splitting a full node *)

Section LeafSplit.
Context {V : Type}.
#[local] Existing Instance never_nil.
Implicit Types (h : heap) (vs : list (slot V)) (ks : list Z).

Lemma insertToLeaf_split h mt ks vs key val replace :
  length ks = ncap mt → length vs = ncap mt → 1 ≤ nbmin mt ≤ ncap mt →
  StronglySorted Z.lt ks → key ∉ ks →
  nid mt < hnext h → (∀ r, right_of h (nid mt) = Some r → r < hnext h) →
  ∃ h' lk lv mt2 rk rv key2 pos,
    insertToLeaf h (Leaf mt ks vs) key val replace
    = Some (Ins h' (Leaf mt lk lv) true key2 (Some (Leaf mt2 rk rv)))
    ∧ length lk = nbmin mt ∧ length lv = nbmin mt
    ∧ length rk = ncap mt + 1 - nbmin mt ∧ length rv = ncap mt + 1 - nbmin mt
    ∧ Forall (λ k, (k < key)%Z) (take pos ks)
    ∧ Forall (λ k, (key < k)%Z) (drop pos ks)
    ∧ lk ++ rk = take pos ks ++ key :: drop pos ks
    ∧ lv ++ rv = take pos vs ++ Solo val :: drop pos vs
    ∧ (if decide (pos < nbmin mt)
       then lk !! pos = Some key ∧ lv !! pos = Some (Solo val)
            ∧ rk = drop (nbmin mt - 1) ks ∧ rv = drop (nbmin mt - 1) vs
       else rk !! (pos - nbmin mt) = Some key ∧ rv !! (pos - nbmin mt) = Some (Solo val)
            ∧ lk = take (nbmin mt) ks ∧ lv = take (nbmin mt) vs)
    ∧ head rk = Some key2
    ∧ nid mt2 = hnext h ∧ ncap mt2 = ncap mt
    ∧ right_of h' (nid mt) = Some (nid mt2)
    ∧ left_of h' (nid mt2) = Some (nid mt)
    ∧ right_of h' (nid mt2) = right_of h (nid mt)
    ∧ (∀ r, right_of h (nid mt) = Some r → left_of h' r = Some (nid mt2)).
Proof.
  intros Hks Hvs Hb Hs Hnot Hid Hr.
  destruct (leafScan_absent ks key 0 Hnot) as [pos Hscan].
  destruct (leafScan_inr _ _ _ _ Hscan) as (p & -> & Hp & Hlt & Hhd). simpl in *.
  pose proof (sorted_drop_above _ _ _ Hs Hhd) as Hgt.
  destruct (link_after_alloc h (nid mt) Hid Hr) as (L1 & L2 & L3 & L4).
  unfold insertToLeaf. rewrite Hscan.
  rewrite decide_False by lia. rewrite decide_True by done.
  unfold newLeafNode. cbn [alloc nmeta nid].
  case_decide as Hpos.
  - destruct (lookup_lt_is_Some_2 ks (nbmin mt - 1)) as [k2 Hk2]; [lia|].
    assert (Hhead : head (drop (nbmin mt - 1) ks) = Some k2).
    { by rewrite head_lookup, lookup_drop, Nat.add_0_r. }
    rewrite Hhead. cbn [mbind option_bind].
    eexists _, _, _, _, _, _, _, p. split; [reflexivity|]. cbn [nid ncap].
    rewrite decide_True by done.
    split_and!; try done; try list_len.
    + rewrite <- app_assoc. simpl. by rewrite drop_take_app_drop by lia.
    + rewrite <- app_assoc. simpl. by rewrite drop_take_app_drop by lia.
    + rewrite lookup_app_r; rewrite length_take; [|lia].
      by replace (p - p `min` length ks) with 0 by lia.
    + rewrite lookup_app_r; rewrite length_take; [|lia].
      by replace (p - p `min` length vs) with 0 by lia.
  - assert (∃ k2, head (take (p - nbmin mt) (drop (nbmin mt) ks) ++ key :: drop p ks)
                    = Some k2) as [k2 Hhead].
    { destruct (take (p - nbmin mt) (drop (nbmin mt) ks)); simpl; eauto. }
    rewrite Hhead. cbn [mbind option_bind].
    eexists _, _, _, _, _, _, _, p. split; [reflexivity|]. cbn [nid ncap].
    rewrite decide_False by done.
    split_and!; try done; try list_len.
    + rewrite app_assoc. by rewrite take_app_take_drop by lia.
    + rewrite app_assoc. by rewrite take_app_take_drop by lia.
    + rewrite lookup_app_r; rewrite length_take, length_drop; [|lia].
      by replace (p - nbmin mt - (p - nbmin mt) `min` (length ks - nbmin mt)) with 0 by lia.
    + rewrite lookup_app_r; rewrite length_take, length_drop; [|lia].
      by replace (p - nbmin mt - (p - nbmin mt) `min` (length vs - nbmin mt)) with 0 by lia.
Qed.
End LeafSplit.

Section InternalSplit.
Context {V : Type}.
#[local] Existing Instance never_nil.
Implicit Types (h : heap) (cs : list (node V)) (ks : list Z).

Lemma insertToInternal_split h mt ks cs key child :
  length cs = ncap mt → S (length ks) = ncap mt → 1 ≤ nbmin mt ≤ ncap mt →
  StronglySorted Z.lt ks → key ∉ ks →
  ∃ h' lk lc mt2 rk rc key2,
    insertToInternal h (Internal mt ks cs) key child
    = Some (h', Internal mt lk lc, key2, Some (Internal mt2 rk rc))
    ∧ (key2 ∉ lk) ∧ (key2 ∉ rk)
    ∧ (keyPos ks key < nbmin mt - 1 → ks !! (nbmin mt - 2) = Some key2)
    ∧ (keyPos ks key = nbmin mt - 1 → key2 = key ∧ head rc = Some child)
    ∧ (nbmin mt - 1 < keyPos ks key → ks !! (nbmin mt - 1) = Some key2)
    ∧ lk ++ key2 :: rk = take (keyPos ks key) ks ++ key :: drop (keyPos ks key) ks
    ∧ lc ++ rc = take (keyPos ks key + 1) cs ++ child :: drop (keyPos ks key + 1) cs
    ∧ StronglySorted Z.lt (lk ++ key2 :: rk)
    ∧ length lk = nbmin mt - 1 ∧ length lc = nbmin mt
    ∧ length rk = ncap mt - nbmin mt ∧ length rc = ncap mt + 1 - nbmin mt
    ∧ nid mt2 = hnext h ∧ ncap mt2 = ncap mt.
Proof.
  intros Hcs Hks Hb Hs Hnot.
  destruct (keyPos_spec ks key) as (Hp & Hlt & _).
  pose proof (keyPos_above ks key Hs Hnot) as Hgt.
  pose proof (sorted_insert ks key _ Hs Hlt Hgt) as Hsorted.
  set (pos := keyPos ks key) in *.
  assert (Hres : ∃ lk rk key2 lc rc,
    insertToInternal h (Internal mt ks cs) key child
    = Some (link_after (nid mt) (hnext h) (alloc h).1, Internal mt lk lc, key2,
            Some (Internal (Meta (hnext h) (ncap mt) (ceil_half (ncap mt))) rk rc))
    ∧ (pos < nbmin mt - 1 → ks !! (nbmin mt - 2) = Some key2)
    ∧ (pos = nbmin mt - 1 → key2 = key ∧ head rc = Some child)
    ∧ (nbmin mt - 1 < pos → ks !! (nbmin mt - 1) = Some key2)
    ∧ lk ++ key2 :: rk = take pos ks ++ key :: drop pos ks
    ∧ lc ++ rc = take (pos + 1) cs ++ child :: drop (pos + 1) cs
    ∧ length lk = nbmin mt - 1 ∧ length lc = nbmin mt).
  { unfold insertToInternal. fold pos.
    rewrite decide_False by lia. rewrite decide_True by done.
    unfold newInternalNode. cbn [alloc nmeta nid].
    destruct (decide (pos < nbmin mt - 1)) as [Hlt1|Hge1].
    - destruct (lookup_lt_is_Some_2 ks (nbmin mt - 2)) as [k2 Hk2]; [lia|].
      rewrite Hk2. cbn [mbind option_bind].
      eexists _, _, _, _, _. split; [reflexivity|].
      split_and!; try done; try lia; try list_len.
      + rewrite <- app_assoc. simpl. f_equal. f_equal.
        rewrite <- (drop_take_app_drop ks pos (nbmin mt - 2)) by lia.
        f_equal. rewrite (drop_S ks k2 (nbmin mt - 2) Hk2).
        by replace (S (nbmin mt - 2)) with (nbmin mt - 1) by lia.
      + rewrite <- app_assoc. simpl. by rewrite drop_take_app_drop by lia.
    - destruct (decide (pos = nbmin mt - 1)) as [Heq|Hne].
      + eexists _, _, _, _, _. split; [reflexivity|].
        split_and!; try done; try lia; try list_len.
        * by rewrite Heq.
        * rewrite Heq. replace (nbmin mt - 1 + 1) with (nbmin mt) by lia. done.
      + destruct (lookup_lt_is_Some_2 ks (nbmin mt - 1)) as [k2 Hk2]; [lia|].
        rewrite Hk2. cbn [mbind option_bind].
        eexists _, _, _, _, _. split; [reflexivity|].
        split_and!; try done; try lia; try list_len.
        * rewrite <- (take_app_take_drop ks (nbmin mt) pos) by lia.
          rewrite <- !app_assoc. simpl.
          assert (Ht : take (nbmin mt) ks = take (nbmin mt - 1) ks ++ [k2]).
          { replace (nbmin mt) with (S (nbmin mt - 1)) at 1 by lia. by apply take_S_r. }
          rewrite Ht. by rewrite <- app_assoc.
        * rewrite <- (take_app_take_drop cs (nbmin mt) (pos + 1)) by lia.
          rewrite <- !app_assoc.
          by replace (pos + 1 - nbmin mt) with (pos - nbmin mt + 1) by lia. }
  destruct Hres as (lk & rk & key2 & lc & rc & Heq & H1 & H2 & H3 & Hk & Hc & Hlk & Hlc).
  rewrite <- Hk in Hsorted. destruct (sorted_middle_notin _ _ _ Hsorted) as [Hn1 Hn2].
  assert (length rk = ncap mt - nbmin mt).
  { apply (f_equal length) in Hk. revert Hk. rewrite !length_app. simpl.
    rewrite length_take, length_drop. lia. }
  assert (length rc = ncap mt + 1 - nbmin mt).
  { apply (f_equal length) in Hc. revert Hc. rewrite !length_app. simpl.
    rewrite length_take, length_drop. lia. }
  eexists _, lk, lc, _, rk, rc, key2. split; [exact Heq|]. by split_and!.
Qed.
End InternalSplit.

(** * The claims on splits and merges *)

Section SplitClaims.
Context {V : Type} {N : Nil V}.
Implicit Types (h : heap) (vs : list (slot V)) (cs : list (node V)) (ks : list Z).

(** On sorted keys the position that [insertToInternal] computes is the
    number of keys below the incoming key. *)
Lemma keyPos_filter ks key :
  StronglySorted Z.lt ks → keyPos ks key = length (filter (λ k, (k < key)%Z) ks).
Proof.
  induction 1 as [|k ks Hs IH Hall]; [done|]. simpl. rewrite filter_cons.
  destruct (Z.ltb_spec k key) as [Hlt|Hge].
  - rewrite decide_True by done. simpl. by rewrite IH.
  - rewrite decide_False by lia.
    assert (filter (λ k, (k < key)%Z) ks = []) as ->; [|done].
    clear IH Hs. induction Hall as [|k' ks Hk _ IH]; [done|].
    rewrite filter_cons, decide_False by lia. done.
Qed.

(** C3, as amended.  A leaf that holds [m] entries, sorted, receives a key
    it does not hold.  It splits: the node keeps exactly [bmin] entries and
    the new right sibling holds exactly [m + 1 - bmin]; read from left to
    right the two nodes hold the old entries with the incoming entry at its
    sorted position [pos], so that the incoming entry lies in the left node
    when [pos < bmin] and in the new right sibling otherwise; the promoted
    key is the first key of the new sibling; and the new sibling is linked
    between the node and its former right neighbour. *)
Theorem C3_leaf_split h mt ks vs key val replace :
  length ks = ncap mt → length vs = ncap mt → 1 ≤ nbmin mt ≤ ncap mt →
  StronglySorted Z.lt ks → key ∉ ks →
  nid mt < hnext h → (∀ r, right_of h (nid mt) = Some r → r < hnext h) →
  ∃ h' lk lv mt2 rk rv key2 pos,
    insertToLeaf h (Leaf mt ks vs) key val replace
    = Some (Ins h' (Leaf mt lk lv) true key2 (Some (Leaf mt2 rk rv)))
    ∧ length lk = nbmin mt ∧ length lv = nbmin mt
    ∧ length rk = ncap mt + 1 - nbmin mt ∧ length rv = ncap mt + 1 - nbmin mt
    ∧ lk ++ rk = take pos ks ++ key :: drop pos ks
    ∧ lv ++ rv = take pos vs ++ Solo val :: drop pos vs
    ∧ StronglySorted Z.lt (lk ++ rk)
    ∧ (if decide (pos < nbmin mt)
       then lk !! pos = Some key ∧ lv !! pos = Some (Solo val)
            ∧ rk = drop (nbmin mt - 1) ks ∧ rv = drop (nbmin mt - 1) vs
       else rk !! (pos - nbmin mt) = Some key ∧ rv !! (pos - nbmin mt) = Some (Solo val)
            ∧ lk = take (nbmin mt) ks ∧ lv = take (nbmin mt) vs)
    ∧ head rk = Some key2
    ∧ nid mt2 = hnext h
    ∧ right_of h' (nid mt) = Some (nid mt2)
    ∧ left_of h' (nid mt2) = Some (nid mt)
    ∧ right_of h' (nid mt2) = right_of h (nid mt)
    ∧ (∀ r, right_of h (nid mt) = Some r → left_of h' r = Some (nid mt2)).
Proof.
  intros Hks Hvs Hb Hs Hnot Hid Hr. rewrite insertToLeaf_agree.
  2:{ right. intros v. cbn [node_find]. by rewrite (proj2 (keyIndex_None ks key) Hnot). }
  destruct (insertToLeaf_split h mt ks vs key val replace Hks Hvs Hb Hs Hnot Hid Hr)
    as (h' & lk & lv & mt2 & rk & rv & key2 & pos & Heq & ? & ? & ? & ? & Hlt & Hgt
        & Hk & ? & ? & ? & ? & ? & ? & ? & ? & ?).
  exists h', lk, lv, mt2, rk, rv, key2, pos. split_and!; try done.
  rewrite Hk. by apply sorted_insert.
Qed.

(** C4.  A full internal node whose keys are sorted receives a separator
    it does not hold.  It splits, and the promoted key is in neither
    resulting node.  With [pos] the sorted position of the incoming key,
    the number of old keys below it, the promoted key is [keys[bmin-2]]
    when [pos < bmin - 1], the incoming key when [pos = bmin - 1], its
    child then being child 0 of the new right node, and [keys[bmin-1]]
    when [pos > bmin - 1].  The keys of the left node, the promoted key and
    the keys of the right node are, in this order, the old keys with the
    incoming key at [pos], strictly ascending; the left node keeps
    [bmin - 1] keys and [bmin] children. *)
Theorem C4_internal_split h mt ks cs key child :
  length cs = ncap mt → S (length ks) = ncap mt → 1 ≤ nbmin mt ≤ ncap mt →
  StronglySorted Z.lt ks → key ∉ ks →
  ∃ h' lk lc mt2 rk rc key2 pos,
    insertToInternal h (Internal mt ks cs) key child
    = Some (h', Internal mt lk lc, key2, Some (Internal mt2 rk rc))
    ∧ (key2 ∉ lk) ∧ (key2 ∉ rk)
    ∧ pos = length (filter (λ k, (k < key)%Z) ks)
    ∧ (pos < nbmin mt - 1 → ks !! (nbmin mt - 2) = Some key2)
    ∧ (pos = nbmin mt - 1 → key2 = key ∧ head rc = Some child)
    ∧ (nbmin mt - 1 < pos → ks !! (nbmin mt - 1) = Some key2)
    ∧ lk ++ key2 :: rk ≡ₚ key :: ks
    ∧ lk ++ key2 :: rk = take pos ks ++ key :: drop pos ks
    ∧ StronglySorted Z.lt (lk ++ key2 :: rk)
    ∧ lc ++ rc = take (pos + 1) cs ++ child :: drop (pos + 1) cs
    ∧ length lk = nbmin mt - 1 ∧ length rk = ncap mt - nbmin mt
    ∧ length lc = nbmin mt ∧ length rc = ncap mt + 1 - nbmin mt.
Proof.
  intros Hcs Hks Hb Hs Hnot.
  destruct (insertToInternal_split h mt ks cs key child Hcs Hks Hb Hs Hnot)
    as (h' & lk & lc & mt2 & rk & rc & key2 & Heq & ? & ? & ? & ? & ? & Hk & ? & ?
        & ? & ? & ? & ? & ? & ?).
  exists h', lk, lc, mt2, rk, rc, key2, (keyPos ks key). split_and!; try done.
  - by apply keyPos_filter.
  - rewrite Hk. by rewrite <- Permutation_middle, take_drop.
Qed.
End SplitClaims.

(** A full leaf of order 3 and its store, for the examples. *)
Definition leaf3 : node nat :=
  Leaf (Meta 0 3 2) [10; 20; 30]%Z [Solo 1; Solo 2; Solo 3].

(** A store in which node 0 has the right neighbour 5. *)
Definition heap1 : heap := Heap {[5 := 0]} {[0 := 5]} 6.

Lemma C3_leaf_split_witness :
  ∃ h' lk lv mt2 rk rv key2 pos,
    insertToLeaf heap1 leaf3 25%Z 7 false
    = Some (Ins h' (Leaf (Meta 0 3 2) lk lv) true key2 (Some (Leaf mt2 rk rv)))
    ∧ length lk = 2 ∧ length lv = 2 ∧ length rk = 2 ∧ length rv = 2
    ∧ lk ++ rk = take pos [10; 20; 30]%Z ++ 25%Z :: drop pos [10; 20; 30]%Z
    ∧ lv ++ rv = take pos [Solo 1; Solo 2; Solo 3] ++ Solo 7 :: drop pos [Solo 1; Solo 2; Solo 3]
    ∧ StronglySorted Z.lt (lk ++ rk)
    ∧ (if decide (pos < 2)
       then lk !! pos = Some 25%Z ∧ lv !! pos = Some (Solo 7)
            ∧ rk = drop 1 [10; 20; 30]%Z ∧ rv = drop 1 [Solo 1; Solo 2; Solo 3]
       else rk !! (pos - 2) = Some 25%Z ∧ rv !! (pos - 2) = Some (Solo 7)
            ∧ lk = take 2 [10; 20; 30]%Z ∧ lv = take 2 [Solo 1; Solo 2; Solo 3])
    ∧ head rk = Some key2
    ∧ nid mt2 = 6
    ∧ right_of h' 0 = Some (nid mt2)
    ∧ left_of h' (nid mt2) = Some 0
    ∧ right_of h' (nid mt2) = right_of heap1 0
    ∧ (∀ r, right_of heap1 0 = Some r → left_of h' r = Some (nid mt2)).
Proof.
  apply (C3_leaf_split heap1 (Meta 0 3 2) [10; 20; 30]%Z [Solo 1; Solo 2; Solo 3] 25%Z 7 false).
  - reflexivity.
  - reflexivity.
  - simpl. lia.
  - repeat constructor.
  - rewrite !elem_of_cons, elem_of_nil. lia.
  - simpl. lia.
  - intros r. vm_compute. intros [= <-]. lia.
Defined.

(** C3 as stated fails: the key 5 enters the full leaf [10; 20; 30] of order
    3; the new right sibling holds [20; 30] and the incoming entry is not
    among its entries, it is in the left node. *)
Lemma C3_counterexample :
  ¬ (∀ r, insertToLeaf heap1 leaf3 5%Z 7 false = Some r →
          ∃ mt2 rk rv, i_n2 r = Some (Leaf mt2 rk rv) ∧ 5%Z ∈ rk).
Proof.
  intros H.
  destruct (insertToLeaf heap1 leaf3 5%Z 7 false) as [r|] eqn:E; [|discriminate E].
  destruct (H r eq_refl) as (mt2 & rk & rv & Hn2 & Hin).
  vm_compute in E. injection E as <-. simpl in Hn2. injection Hn2 as _ <- _.
  revert Hin. rewrite !elem_of_cons, elem_of_nil. lia.
Qed.

Lemma C4_internal_split_witness :
  ∃ h' lk lc mt2 rk rc key2 pos,
    insertToInternal heap1 (Internal (Meta 0 3 2) [10; 20]%Z [leaf3; leaf3; leaf3]) 15%Z leaf3
    = Some (h', Internal (Meta 0 3 2) lk lc, key2, Some (Internal mt2 rk rc))
    ∧ (key2 ∉ lk) ∧ (key2 ∉ rk)
    ∧ pos = length (filter (λ k, (k < 15)%Z) [10; 20]%Z)
    ∧ (pos < 2 - 1 → [10; 20]%Z !! (2 - 2) = Some key2)
    ∧ (pos = 2 - 1 → key2 = 15%Z ∧ head rc = Some leaf3)
    ∧ (2 - 1 < pos → [10; 20]%Z !! (2 - 1) = Some key2)
    ∧ lk ++ key2 :: rk ≡ₚ 15%Z :: [10; 20]%Z
    ∧ lk ++ key2 :: rk = take pos [10; 20]%Z ++ 15%Z :: drop pos [10; 20]%Z
    ∧ StronglySorted Z.lt (lk ++ key2 :: rk)
    ∧ lc ++ rc
      = take (pos + 1) [leaf3; leaf3; leaf3] ++ leaf3 :: drop (pos + 1) [leaf3; leaf3; leaf3]
    ∧ length lk = 2 - 1 ∧ length rk = 3 - 2
    ∧ length lc = 2 ∧ length rc = 3 + 1 - 2.
Proof.
  apply (C4_internal_split heap1 (Meta 0 3 2) [10; 20]%Z [leaf3; leaf3; leaf3] 15%Z leaf3).
  - reflexivity.
  - reflexivity.
  - simpl. lia.
  - repeat constructor.
  - rewrite !elem_of_cons, elem_of_nil. lia.
Defined.

Section MergeChoice.
Context {V : Type}.
#[local] Existing Instance never_nil.
Implicit Types (h : heap) (cs : list (node V)) (ks : list Z) (l c r : node V).

(** C2, as amended.  The child at [i] must be merged (no neighbour holds
    more than [bmin] entries) and both neighbours exist: the left
    neighbour is chosen when its count is strictly smaller than the right
    neighbour's; otherwise, and so whenever the counts are equal, the
    merge is with the right neighbour.  This holds for leaves and for
    internal children alike. *)
Theorem C2_merge_choice h mt ks cs i l c r :
  i ≠ 0 → cs !! (i - 1) = Some l → cs !! i = Some c → cs !! (i + 1) = Some r →
  (length (nvalues l) ≤ nbmin mt → length (nvalues r) ≤ nbmin mt →
   balanceLeaf h (Internal mt ks cs) i =
   if decide (length (nvalues l) < length (nvalues r)) then
     '(h', l') ← mergeLeafs h l c;
     n' ← deleteChild (Internal mt ks (<[i - 1 := l']> cs)) i;
     Some (h', n')
   else
     '(h', c') ← mergeLeafs h c r;
     n' ← deleteChild (Internal mt ks (<[i := c']> cs)) (i + 1);
     Some (h', n'))
  ∧ (length (nchildren l) ≤ nbmin mt → length (nchildren r) ≤ nbmin mt →
     balanceInternal h (Internal mt ks cs) i =
     if decide (length (nchildren l) < length (nchildren r)) then
       key ← ks !! (i - 1);
       '(h', l') ← mergeInternal h l c key;
       n' ← deleteChild (Internal mt ks (<[i - 1 := l']> cs)) i;
       Some (h', n')
     else
       key ← ks !! i;
       '(h', c') ← mergeInternal h c r key;
       n' ← deleteChild (Internal mt ks (<[i := c']> cs)) (i + 1);
       Some (h', n')).
Proof.
  intros Hi Hl Hc Hr.
  assert (Hlen : i + 1 < length cs) by (by eapply lookup_lt_Some).
  split; intros Hcl Hcr.
  - unfold balanceLeaf. cbn [nchildren nmeta nkeys].
    rewrite Hc, Hl, Hr. simpl.
    rewrite decide_False by lia. rewrite decide_False by lia.
    destruct (decide (length (nvalues l) < length (nvalues r))).
    + rewrite decide_True by (split; [done|by right]). done.
    + rewrite decide_False by lia. done.
  - unfold balanceInternal. cbn [nchildren nmeta nkeys].
    rewrite Hc, Hl, Hr. simpl.
    rewrite decide_False by lia. rewrite decide_False by lia.
    destruct (decide (length (nchildren l) < length (nchildren r))).
    + rewrite decide_True by (split; [done|by right]). done.
    + rewrite decide_False by lia. done.
Qed.
End MergeChoice.

(** A parent of order 3 with three leaves; the middle one underflows and no
    neighbour can lend an entry. *)
Definition leafA : node nat := Leaf (Meta 1 3 2) [1; 2]%Z [Solo 1; Solo 2].
Definition leafB : node nat := Leaf (Meta 2 3 2) [10]%Z [Solo 10].
Definition leafC : node nat := Leaf (Meta 3 3 2) [20; 21]%Z [Solo 20; Solo 21].
Definition parent3 : node nat := Internal (Meta 0 3 2) [10; 20]%Z [leafA; leafB; leafC].
Definition heap3 : heap := Heap {[2 := 1; 3 := 2]} {[1 := 2; 2 := 3]} 4.

Lemma C2_merge_choice_witness :
  (length (nvalues leafA) ≤ 2 → length (nvalues leafC) ≤ 2 →
   balanceLeaf heap3 parent3 1 =
   if decide (length (nvalues leafA) < length (nvalues leafC)) then
     '(h', l') ← mergeLeafs heap3 leafA leafB;
     n' ← deleteChild (Internal (Meta 0 3 2) [10; 20]%Z (<[1 - 1 := l']> [leafA; leafB; leafC])) 1;
     Some (h', n')
   else
     '(h', c') ← mergeLeafs heap3 leafB leafC;
     n' ← deleteChild (Internal (Meta 0 3 2) [10; 20]%Z (<[1 := c']> [leafA; leafB; leafC])) (1 + 1);
     Some (h', n'))
  ∧ (length (nchildren leafA) ≤ 2 → length (nchildren leafC) ≤ 2 →
     balanceInternal heap3 parent3 1 =
     if decide (length (nchildren leafA) < length (nchildren leafC)) then
       key ← [10; 20]%Z !! (1 - 1);
       '(h', l') ← mergeInternal heap3 leafA leafB key;
       n' ← deleteChild (Internal (Meta 0 3 2) [10; 20]%Z (<[1 - 1 := l']> [leafA; leafB; leafC])) 1;
       Some (h', n')
     else
       key ← [10; 20]%Z !! 1;
       '(h', c') ← mergeInternal heap3 leafB leafC key;
       n' ← deleteChild (Internal (Meta 0 3 2) [10; 20]%Z (<[1 := c']> [leafA; leafB; leafC])) (1 + 1);
       Some (h', n')).
Proof.
  apply (C2_merge_choice heap3 (Meta 0 3 2) [10; 20]%Z [leafA; leafB; leafC] 1 leafA leafB leafC).
  - lia.
  - reflexivity.
  - reflexivity.
  - reflexivity.
Defined.

(** C2 as stated fails: the neighbours of the underflowing leaf at
    position 1 both hold two entries, and the merge is with the right
    neighbour; the left neighbour is left as it was. *)
Lemma C2_counterexample :
  1 ≠ 0
  ∧ length (nvalues leafA) = length (nvalues leafC)
  ∧ snd <$> balanceLeaf heap3 parent3 1
    = Some (Internal (Meta 0 3 2) [10]%Z
              [leafA; Leaf (Meta 2 3 2) [10; 20; 21]%Z [Solo 10; Solo 20; Solo 21]])
  ∧ balanceLeaf heap3 parent3 1
    ≠ ('(h', l') ← mergeLeafs heap3 leafA leafB;
       n' ← deleteChild (set_child parent3 0 l') 1;
       Some (h', n')).
Proof.
  split_and!; [lia|reflexivity|by vm_compute|].
  intros H. apply (f_equal (fmap snd)) in H. vm_compute in H. discriminate H.
Qed.

(** C1 fails on the code.  [Append(1, 10); Append(1, 20); Insert(1, 30)] on
    a new tree of order 3: the slot of key 1 holds a bucket of two values
    when [Insert] replaces it by one value, the size stays 2 and [Entries]
    yields one pair. *)
Lemma C1_size_after_insert_on_bucket :
  let '(h0, t0) := NewBPTree (V := nat) empty_heap 3 in
  ('(h1, t1) ← Append h0 t0 1%Z 10;
   '(h2, t2) ← Append h1 t1 1%Z 20;
   before ← Entries 8 h2 t2;
   '(h3, t3) ← Insert h2 t2 1%Z 30;
   after ← Entries 8 h3 t3;
   Some (Size t2, before, Size t3, after))
  = Some (2%Z, [(1%Z, 10); (1%Z, 20)], 2%Z, [(1%Z, 30)]).
Proof. by vm_compute. Qed.

(** * Failed deletions *)

Section FailedDelete.
Context {V : Type} {N : Nil V}.
Implicit Types (h : heap) (n c : node V) (t : BPTree V).

Lemma deleteFromLeaf_None n key all idx n' :
  deleteFromLeaf n key all idx = Some (n', None) → n' = n.
Proof.
  destruct n as [m ks vs|m ks cs]; simpl; [|done].
  destruct (keyIndex ks key) as [i|]; [|by intros [= <-]].
  destruct (vs !! i) as [s|]; simpl; [|done].
  destruct all.
  { destruct (match s with Solo _ => _ | Bucket c => _ end) as [val|]; simpl; [|done].
    destruct (slice_delete i ks); simpl; [|done]. by destruct (slice_delete i vs). }
  destruct s as [v|c].
  - case_decide; [by intros [= <-]|].
    destruct (slice_delete i ks); simpl; [|done]. by destruct (slice_delete i vs).
  - case_decide; [by intros [= <-]|].
    destruct (if decide (idx < 0)%Z then slice_pop c else _) as [[v c']|]; simpl; [|done].
    case_decide; [done|].
    destruct (slice_delete i ks); simpl; [|done]. by destruct (slice_delete i vs).
Qed.

Lemma node_delete_None h n key all idx h' n' :
  node_delete h n key all idx = Some (h', n', None) → h' = h ∧ n' = n.
Proof.
  revert h' n'. induction n as [m ks vs|m ks cs IH] using node_ind; intros h' n'.
  - cbn [node_delete].
    destruct (deleteFromLeaf (Leaf m ks vs) key all idx) as [[n1 r]|] eqn:E; simpl; [|done].
    intros [= <- <- ->]. split; [done|]. by eapply deleteFromLeaf_None.
  - rewrite node_delete_internal. simpl.
    destruct (cs !! childIndex ks key) as [c0|] eqn:Ec; [|by intros [= <- <-]].
    destruct (node_delete h c0 key all idx) as [[[h1 c] r]|] eqn:E; simpl; [|done].
    destruct r as [val|].
    + destruct (if isLeaf c then _ else _) as [[h2 n2]|]; simpl; done.
    + intros [= <- <-].
      eapply Forall_lookup_1 in IH; [|done].
      destruct (IH _ _ E) as [-> ->]. split; [done|].
      by rewrite list_insert_id.
Qed.

Lemma delete_None h t key all idx h' t' :
  delete h t key all idx = Some (h', t', None) → h' = h ∧ t' = t.
Proof.
  unfold delete.
  destruct (node_delete h (root t) key all idx) as [[[h1 n] r]|] eqn:E; simpl; [|done].
  destruct r as [val|]; [by destruct all|].
  intros [= <- <-]. destruct (node_delete_None _ _ _ _ _ _ _ E) as [-> ->].
  split; [done|]. by destruct t.
Qed.

(** C10.  A deletion that reports [false] leaves the store of sibling
    references and the tree (root, every node, size) as they were, so
    every later [Find], [FindAll] and [Entries] gives the result it gave
    before. *)
Theorem C10_failed_delete_unchanged h t key idx h' t' :
  (Delete h t key = Some (h', t', None) → h' = h ∧ t' = t)
  ∧ (DeleteOne h t key idx = Some (h', t', None) → h' = h ∧ t' = t)
  ∧ (DeleteAll h t key = Some (h', t', None) → h' = h ∧ t' = t).
Proof.
  unfold Delete, DeleteOne, DeleteAll. split_and!.
  - destruct (delete h t key false (-1)) as [[[h1 t1] r]|] eqn:E; simpl; [|done].
    destruct r as [v|]; [by destruct (assertV v)|].
    intros [= <- <-]. by eapply delete_None.
  - destruct (delete h t key false idx) as [[[h1 t1] r]|] eqn:E; simpl; [|done].
    destruct r as [v|]; [by destruct (assertV v)|].
    intros [= <- <-]. by eapply delete_None.
  - destruct (delete h t key true 0) as [[[h1 t1] r]|] eqn:E; simpl; [|done].
    destruct r as [v|]; [by destruct (assertCollision v)|].
    intros [= <- <-]. by eapply delete_None.
Qed.
End FailedDelete.

(** * Insertion, case by case *)

Section InsertCases.
Context {V : Type}.
#[local] Existing Instance never_nil.
Implicit Types (h : heap) (n c : node V) (vs : list (slot V)) (cs : list (node V)) (ks : list Z).

Lemma ceil_half_bounds m :
  3 ≤ m → 2 ≤ ceil_half m ∧ ceil_half m ≤ m ∧ m ≤ 2 * ceil_half m
          ∧ 2 * ceil_half m ≤ m + 1.
Proof.
  intros. unfold ceil_half.
  pose proof (Nat.div_mod_eq (m + 1) 2).
  pose proof (Nat.mod_upper_bound (m + 1) 2). lia.
Qed.

Lemma insertToLeaf_found h mt ks vs key val replace i :
  length vs = length ks → leafScan ks key 0 0 = inl i →
  ∃ s, vs !! i = Some s ∧ ks !! i = Some key
       ∧ insertToLeaf h (Leaf mt ks vs) key val replace
         = Some (Ins h (Leaf mt ks (<[i := if replace then Solo val else collide s val]> vs))
                     (negb replace) 0%Z None).
Proof.
  intros Hlen Hscan. destruct (leafScan_inl _ _ _ _ Hscan) as (p & -> & Hp & _).
  simpl in *. destruct (lookup_lt_is_Some_2 vs p) as [s Hs].
  { rewrite Hlen. by eapply lookup_lt_Some. }
  exists s. split_and!; [done..|].
  unfold insertToLeaf. rewrite Hscan. destruct replace.
  - rewrite slice_set_Some; [done|]. by eapply lookup_lt_Some.
  - rewrite Hs. simpl. by destruct s.
Qed.

Lemma insertToLeaf_room h mt ks vs key val replace pos :
  length vs = length ks → length ks < ncap mt → leafScan ks key 0 0 = inr pos →
  insertToLeaf h (Leaf mt ks vs) key val replace
  = Some (Ins h (Leaf mt (take pos ks ++ key :: drop pos ks)
                         (take pos vs ++ Solo val :: drop pos vs)) true 0%Z None).
Proof.
  intros Hlen Hcap Hscan. destruct (leafScan_inr _ _ _ _ Hscan) as (p & -> & Hp & _).
  simpl in *. unfold insertToLeaf. rewrite Hscan. rewrite decide_True by done.
  rewrite !slice_insert_Some by lia. done.
Qed.

Lemma insertToLeaf_full h mt ks vs key val replace pos :
  length vs = length ks → length ks = ncap mt → 1 ≤ nbmin mt ≤ ncap mt →
  leafScan ks key 0 0 = inr pos →
  ∃ lk lv rk rv key2,
    insertToLeaf h (Leaf mt ks vs) key val replace
    = Some (Ins (link_after (nid mt) (hnext h) (alloc h).1) (Leaf mt lk lv) true key2
                (Some (Leaf (split_meta h (ncap mt)) rk rv)))
    ∧ lk ++ rk = take pos ks ++ key :: drop pos ks
    ∧ lv ++ rv = take pos vs ++ Solo val :: drop pos vs
    ∧ length lk = nbmin mt ∧ length lv = nbmin mt
    ∧ head rk = Some key2.
Proof.
  intros Hlen Hcap Hb Hscan. destruct (leafScan_inr _ _ _ _ Hscan) as (p & -> & Hp & _).
  simpl in *. unfold insertToLeaf. rewrite Hscan.
  rewrite decide_False by lia. rewrite decide_True by lia.
  unfold newLeafNode. cbn [alloc nmeta nid].
  case_decide as Hpos.
  - destruct (lookup_lt_is_Some_2 ks (nbmin mt - 1)) as [k2 Hk2]; [lia|].
    assert (Hhead : head (drop (nbmin mt - 1) ks) = Some k2).
    { by rewrite head_lookup, lookup_drop, Nat.add_0_r. }
    rewrite Hhead. cbn [mbind option_bind].
    eexists _, _, _, _, _. split; [reflexivity|].
    split_and!; try done; try list_len.
    + rewrite <- app_assoc. simpl. by rewrite drop_take_app_drop by lia.
    + rewrite <- app_assoc. simpl. by rewrite drop_take_app_drop by lia.
  - assert (∃ k2, head (take (p - nbmin mt) (drop (nbmin mt) ks) ++ key :: drop p ks)
                  = Some k2) as [k2 Hhead].
    { destruct (take (p - nbmin mt) (drop (nbmin mt) ks)); simpl; eauto. }
    rewrite Hhead. cbn [mbind option_bind].
    eexists _, _, _, _, _. split; [reflexivity|].
    split_and!; try done; try list_len.
    + rewrite app_assoc. by rewrite take_app_take_drop by lia.
    + rewrite app_assoc. by rewrite take_app_take_drop by lia.
Qed.

Lemma insertToInternal_room h mt ks cs key child :
  length cs = S (length ks) → length cs < ncap mt →
  insertToInternal h (Internal mt ks cs) key child
  = Some (h, Internal mt (take (keyPos ks key) ks ++ key :: drop (keyPos ks key) ks)
                (take (keyPos ks key + 1) cs ++ child :: drop (keyPos ks key + 1) cs),
          0%Z, None).
Proof.
  intros Hlen Hcap. destruct (keyPos_spec ks key) as (Hp & _).
  unfold insertToInternal. rewrite decide_True by done.
  rewrite !slice_insert_Some by lia. done.
Qed.

Lemma insertToInternal_full h mt ks cs key child :
  length cs = ncap mt → S (length ks) = ncap mt → 1 ≤ nbmin mt ≤ ncap mt →
  ∃ lk rk key2 lc rc,
    insertToInternal h (Internal mt ks cs) key child
    = Some (link_after (nid mt) (hnext h) (alloc h).1, Internal mt lk lc, key2,
            Some (Internal (split_meta h (ncap mt)) rk rc))
    ∧ (keyPos ks key < nbmin mt - 1 → ks !! (nbmin mt - 2) = Some key2)
    ∧ (keyPos ks key = nbmin mt - 1 → key2 = key ∧ head rc = Some child)
    ∧ (nbmin mt - 1 < keyPos ks key → ks !! (nbmin mt - 1) = Some key2)
    ∧ lk ++ key2 :: rk = take (keyPos ks key) ks ++ key :: drop (keyPos ks key) ks
    ∧ lc ++ rc = take (keyPos ks key + 1) cs ++ child :: drop (keyPos ks key + 1) cs
    ∧ length lk = nbmin mt - 1 ∧ length lc = nbmin mt.
Proof.
  intros Hcs Hks Hb. destruct (keyPos_spec ks key) as (Hp & _).
  set (pos := keyPos ks key) in *.
  unfold insertToInternal. fold pos.
  rewrite decide_False by lia. rewrite decide_True by done.
  unfold newInternalNode. cbn [alloc nmeta nid].
  destruct (decide (pos < nbmin mt - 1)) as [Hlt1|Hge1].
  - destruct (lookup_lt_is_Some_2 ks (nbmin mt - 2)) as [k2 Hk2]; [lia|].
    rewrite Hk2. cbn [mbind option_bind].
    eexists _, _, _, _, _. split; [reflexivity|].
    split_and!; try done; try lia; try list_len.
    + rewrite <- app_assoc. simpl. f_equal. f_equal.
      rewrite <- (drop_take_app_drop ks pos (nbmin mt - 2)) by lia.
      f_equal. rewrite (drop_S ks k2 (nbmin mt - 2) Hk2).
      by replace (S (nbmin mt - 2)) with (nbmin mt - 1) by lia.
    + rewrite <- app_assoc. simpl. by rewrite drop_take_app_drop by lia.
  - destruct (decide (pos = nbmin mt - 1)) as [Heq|Hne].
    + eexists _, _, _, _, _. split; [reflexivity|].
      split_and!; try done; try lia; try list_len.
      * by rewrite Heq.
      * rewrite Heq. replace (nbmin mt - 1 + 1) with (nbmin mt) by lia. done.
    + destruct (lookup_lt_is_Some_2 ks (nbmin mt - 1)) as [k2 Hk2]; [lia|].
      rewrite Hk2. cbn [mbind option_bind].
      eexists _, _, _, _, _. split; [reflexivity|].
      split_and!; try done; try lia; try list_len.
      * rewrite <- (take_app_take_drop ks (nbmin mt) pos) by lia.
        rewrite <- !app_assoc. simpl.
        assert (Ht : take (nbmin mt) ks = take (nbmin mt - 1) ks ++ [k2]).
        { replace (nbmin mt) with (S (nbmin mt - 1)) at 1 by lia. by apply take_S_r. }
        rewrite Ht. by rewrite <- app_assoc.
      * rewrite <- (take_app_take_drop cs (nbmin mt) (pos + 1)) by lia.
        rewrite <- !app_assoc.
        by replace (pos + 1 - nbmin mt) with (pos - nbmin mt + 1) by lia.
Qed.
End InsertCases.

(** * The shape of a tree is preserved *)

Section ShapeFacts.
Context {V : Type}.
#[local] Existing Instance never_nil.
Implicit Types (h : heap) (n c : node V) (vs : list (slot V)) (cs : list (node V)) (ks : list Z).

Lemma Forall_insert_at {A} (P : A → Prop) (l : list A) i x :
  Forall P l → P x → Forall P (take i l ++ x :: drop i l).
Proof.
  intros Hl Hx. apply Forall_app. split; [by apply Forall_take|].
  constructor; [done|by apply Forall_drop].
Qed.

Lemma length_insert_at' {A} (l : list A) i x :
  length (take i l ++ x :: drop i l) = S (length l).
Proof. rewrite length_app, length_take. simpl. rewrite length_drop. lia. Qed.

Lemma shape_leaf m d mt ks vs :
  shape m d (Leaf mt ks vs) ↔
  d = 0 ∧ meta_ok m mt ∧ length vs = length ks ∧ length ks ≤ m
  ∧ Forall (λ s, slot_values s ≠ []) vs.
Proof.
  destruct d; simpl.
  - split; [by intros (? & ? & ? & ?)|by intros (_ & ? & ? & ? & ?)].
  - split; [done|]. by intros [? _].
Qed.

Lemma shape_internal m d mt ks cs :
  shape m d (Internal mt ks cs) ↔
  ∃ d', d = S d' ∧ meta_ok m mt ∧ length cs = S (length ks) ∧ length cs ≤ m
        ∧ Forall (λ c, shape m d' c ∧ ceil_half m ≤ count c) cs.
Proof.
  destruct d as [|d']; simpl.
  - split; [done|]. by intros (? & ? & _).
  - split; [intros; by exists d'|]. by intros (? & [= <-] & ?).
Qed.

Lemma shape_0 m n : shape m 0 n → ∃ mt ks vs, n = Leaf mt ks vs.
Proof. destruct n; simpl; [eauto|done]. Qed.

Lemma shape_S m d n : shape m (S d) n → ∃ mt ks cs, n = Internal mt ks cs.
Proof. destruct n; simpl; [done|eauto]. Qed.

Lemma meta_ok_split m mt h : meta_ok m mt → meta_ok m (split_meta h (ncap mt)).
Proof. intros [-> _]. by split. Qed.

Lemma collide_values (s : slot V) val : slot_values (collide s val) ≠ [].
Proof. destruct s as [v|c]; simpl; [done|]. by destruct c. Qed.

Lemma insertToLeaf_shape m h mt ks vs key val replace :
  3 ≤ m → shape m 0 (Leaf mt ks vs) →
  ∃ r, insertToLeaf h (Leaf mt ks vs) key val replace = Some r
       ∧ shape m 0 (i_node r) ∧ (i_n2 r = None → length vs ≤ count (i_node r))
       ∧ (∀ n2, i_n2 r = Some n2 →
            shape m 0 n2 ∧ ceil_half m ≤ count (i_node r) ∧ ceil_half m ≤ count n2).
Proof.
  intros Hm (_ & [Hcap Hbmin] & Hlen & Hle & Hvs)%shape_leaf.
  pose proof (ceil_half_bounds m Hm) as Hb.
  destruct (leafScan ks key 0 0) as [i|pos] eqn:Hscan.
  - destruct (insertToLeaf_found h mt ks vs key val replace i Hlen Hscan)
      as (s & Hs & _ & ->).
    eexists. split; [done|]. cbn [i_node i_n2 count]. split; [|split; [|done]].
    + apply shape_leaf. split_and!; [done|done|by rewrite length_insert|done|].
      apply Forall_insert; [done|]. destruct replace; [done|apply collide_values].
    + intros _. by rewrite length_insert.
  - destruct (decide (length ks < m)) as [Hroom|Hfull].
    + rewrite (insertToLeaf_room h mt ks vs key val replace pos) by (done || lia).
      eexists. split; [done|]. cbn [i_node i_n2 count]. split; [|split; [|done]].
      * apply shape_leaf. split_and!; [done|done| | |].
        -- rewrite !length_insert_at'. lia.
        -- rewrite length_insert_at'. lia.
        -- by apply Forall_insert_at.
      * intros _. rewrite length_insert_at'. lia.
    + destruct (insertToLeaf_full h mt ks vs key val replace pos)
        as (lk & lv & rk & rv & key2 & -> & Hk & Hv & Hlk & Hlv & _); [done|lia|lia|done|].
      assert (Hrk : length rk = m + 1 - ceil_half m).
      { apply (f_equal length) in Hk. rewrite length_insert_at', length_app in Hk. lia. }
      assert (Hrv : length rv = m + 1 - ceil_half m).
      { apply (f_equal length) in Hv. rewrite length_insert_at', length_app in Hv. lia. }
      assert (Hall : Forall (λ s, slot_values s ≠ []) (lv ++ rv)).
      { rewrite Hv. by apply Forall_insert_at. }
      apply Forall_app in Hall as [Hall1 Hall2].
      eexists. split; [done|]. cbn [i_node i_n2 count]. split; [|split].
      * apply shape_leaf. split_and!; [done|done|lia|lia|done].
      * done.
      * intros n2 [= <-]. split; [|simpl; lia].
        apply shape_leaf. split; [done|]. split; [by apply meta_ok_split|].
        split_and!; try done; lia.
Qed.

Lemma insertToInternal_shape m d h mt ks cs key child :
  3 ≤ m → shape m (S d) (Internal mt ks cs) →
  shape m d child → ceil_half m ≤ count child →
  ∃ h' n' key2 on2,
    insertToInternal h (Internal mt ks cs) key child = Some (h', n', key2, on2)
    ∧ shape m (S d) n'
    ∧ (on2 = None → length cs ≤ count n')
    ∧ (∀ n2, on2 = Some n2 →
         shape m (S d) n2 ∧ ceil_half m ≤ count n' ∧ ceil_half m ≤ count n2).
Proof.
  intros Hm (d' & [= <-] & [Hcap Hbmin] & Hlen & Hle & Hcs)%shape_internal Hch Hcnt.
  pose proof (ceil_half_bounds m Hm) as Hb.
  assert (Hall : Forall (λ c, shape m d c ∧ ceil_half m ≤ count c)
                   (take (keyPos ks key + 1) cs ++ child :: drop (keyPos ks key + 1) cs)).
  { by apply Forall_insert_at. }
  destruct (decide (length cs < m)) as [Hroom|Hfull].
  - rewrite insertToInternal_room by (done || lia).
    eexists _, _, _, _. split; [done|]. split; [|split; [|done]].
    + apply shape_internal. exists d.
      split_and!; try done; rewrite ?length_insert_at'; lia.
    + intros _. simpl. rewrite length_insert_at'. lia.
  - destruct (insertToInternal_full h mt ks cs key child)
      as (lk & rk & key2 & lc & rc & -> & _ & _ & _ & Hk & Hc & Hlk & Hlc); [lia|lia|lia|].
    rewrite <- Hc in Hall. apply Forall_app in Hall as [Hall1 Hall2].
    assert (Hrk : length rk = m - ceil_half m).
    { apply (f_equal length) in Hk. rewrite length_insert_at', length_app in Hk.
      simpl in Hk. lia. }
    assert (Hrc : length rc = m + 1 - ceil_half m).
    { apply (f_equal length) in Hc. rewrite length_insert_at', length_app in Hc. lia. }
    eexists _, _, _, _. split; [done|]. split; [|split; [done|]].
    + apply shape_internal. exists d. split_and!; try done; lia.
    + intros n2 [= <-]. split; [|simpl; lia].
      apply shape_internal. exists d.
      split; [done|]. split; [by apply meta_ok_split|]. split_and!; try done; lia.
Qed.

Lemma node_insert_shape m d h n key val replace :
  3 ≤ m → shape m d n →
  ∃ r, node_insert h n key val replace = Some r
       ∧ shape m d (i_node r) ∧ (i_n2 r = None → count n ≤ count (i_node r))
       ∧ (∀ n2, i_n2 r = Some n2 →
            shape m d n2 ∧ ceil_half m ≤ count (i_node r) ∧ ceil_half m ≤ count n2).
Proof.
  intros Hm. revert h n. induction d as [|d IH]; intros h n Hn.
  - destruct (shape_0 _ _ Hn) as (mt & ks & vs & ->).
    by apply insertToLeaf_shape.
  - destruct (shape_S _ _ _ Hn) as (mt & ks & cs & ->).
    pose proof Hn as (d' & [= <-] & Hmeta & Hlen & Hle & Hcs)%shape_internal.
    rewrite node_insert_internal. cbn zeta.
    destruct (childIndex_spec ks key) as (Hi & _).
    destruct (lookup_lt_is_Some_2 cs (childIndex ks key)) as [c Hc]; [lia|].
    rewrite Hc. pose proof (Forall_lookup_1 _ _ _ _ Hcs Hc) as [Hcsh Hccnt].
    destruct (IH h c Hcsh) as (r & -> & Hr1 & Hr2 & Hr3). cbn [mbind option_bind].
    assert (Hcs' : Forall (λ c, shape m d c ∧ ceil_half m ≤ count c)
                     (<[childIndex ks key := i_node r]> cs)).
    { apply Forall_insert; [done|]. split; [done|].
      destruct (i_n2 r) as [n2|] eqn:E2; [by apply (Hr3 n2)|]. specialize (Hr2 eq_refl). lia. }
    assert (Hn' : shape m (S d) (Internal mt ks (<[childIndex ks key := i_node r]> cs))).
    { apply shape_internal. exists d. rewrite length_insert. by destruct Hmeta. }
    destruct (i_n2 r) as [n2|] eqn:E2.
    + destruct (Hr3 n2 eq_refl) as (Hn2 & _ & Hn2c).
      destruct (insertToInternal_shape m d (i_heap r) mt ks
                  (<[childIndex ks key := i_node r]> cs) (i_key2 r) n2 Hm Hn' Hn2 Hn2c)
        as (h' & n'' & key2 & on2 & -> & Hs1 & Hs2 & Hs3).
      cbn [mbind option_bind]. eexists. split; [done|]. cbn [i_node i_n2].
      split; [done|]. split; [|done].
      intros Hnone. specialize (Hs2 Hnone). rewrite length_insert in Hs2. done.
    + eexists. split; [done|]. cbn [i_node i_n2]. split; [done|]. split; [|done].
      intros _. simpl. by rewrite length_insert.
Qed.

Lemma shape_meta m d n : shape m d n → meta_ok m (nmeta n).
Proof.
  destruct n as [mt ks vs|mt ks cs].
  - by intros (_ & ? & _)%shape_leaf.
  - by intros (? & _ & ? & _)%shape_internal.
Qed.

Lemma shape_isInternal m d n : shape m d n → isInternal n = true ↔ d ≠ 0.
Proof.
  destruct n as [mt ks vs|mt ks cs]; simpl.
  - intros (-> & _)%shape_leaf. split; [done|lia].
  - intros (? & -> & _)%shape_internal. split; [lia|done].
Qed.

Lemma insert_shape m h (t : BPTree V) key val replace :
  tree_shape m t →
  ∃ h' t', insert h t key val replace = Some (h', t') ∧ tree_shape m t'.
Proof.
  intros (Hm & d & Hsh & Hroot).
  pose proof (ceil_half_bounds m Hm) as Hb.
  destruct (node_insert_shape m d h (root t) key val replace Hm Hsh)
    as (r & Hr & Hr1 & Hr2 & Hr3).
  unfold insert. rewrite Hr. cbn [mbind option_bind].
  destruct (shape_meta _ _ _ Hsh) as [Hcap _].
  destruct (i_n2 r) as [n2|] eqn:E2.
  - destruct (Hr3 n2 eq_refl) as (Hn2 & Hc1 & Hc2).
    assert (Hnew : ∀ b : bool,
      (if b then newInternalNode (V := V) (i_heap r) (node_cap (root t))
       else newInternalNode (i_heap r) (node_cap (root t)))
      = ((alloc (i_heap r)).1, Internal (split_meta (i_heap r) m) [] [])).
    { intros b. unfold node_cap. rewrite Hcap. by destruct b. }
    rewrite Hnew. cbn [nmeta split_meta ncap].
    rewrite decide_True by lia. cbn [mbind option_bind].
    eexists _, _. split; [done|]. split; [done|]. exists (S d). cbn [root].
    split; [|simpl; lia].
    apply shape_internal. exists d. split_and!; try done; simpl; try lia.
    repeat constructor; done.
  - cbn [mbind option_bind]. eexists _, _. split; [done|]. split; [done|].
    exists d. cbn [root]. split; [done|].
    intros Hint. apply (shape_isInternal _ _ _ Hr1) in Hint.
    apply (shape_isInternal _ _ _ Hsh) in Hint. specialize (Hroot Hint).
    specialize (Hr2 eq_refl). lia.
Qed.
End ShapeFacts.

(** * Deletion, case by case *)

Section DeleteCases.
Context {V : Type}.
#[local] Existing Instance never_nil.
Implicit Types (h : heap) (n c l r : node V) (vs : list (slot V)) (cs : list (node V)) (ks : list Z).

Lemma snoc_inv {A} (s : list A) : 0 < length s → ∃ s' x, s = s' ++ [x].
Proof.
  intros Hlen. destruct (last s) as [x|] eqn:E.
  - apply last_Some in E as [s' ->]. eauto.
  - apply last_None in E as ->. simpl in Hlen. lia.
Qed.

Lemma takeFromLeftSiblingLeaf_eq m ks vs m2 ks2 vs2 k v :
  length ks < ncap m → length vs < ncap m →
  takeFromLeftSiblingLeaf (Leaf m ks vs) (Leaf m2 (ks2 ++ [k]) (vs2 ++ [v]))
  = Some (Leaf m (k :: ks) (v :: vs), Leaf m2 ks2 vs2, k).
Proof.
  intros Hk Hv. unfold takeFromLeftSiblingLeaf.
  rewrite !slice_pop_Some. cbn [mbind option_bind].
  rewrite !slice_insert_Some by lia. cbn [mbind option_bind].
  by rewrite !take_0, !drop_0.
Qed.

Lemma takeFromRightSiblingLeaf_eq m ks vs m2 ks2 vs2 k k0 v :
  length ks < ncap m → length vs < ncap m →
  takeFromRightSiblingLeaf (Leaf m ks vs) (Leaf m2 (k :: k0 :: ks2) (v :: vs2))
  = Some (Leaf m (ks ++ [k]) (vs ++ [v]), Leaf m2 (k0 :: ks2) vs2, k0).
Proof.
  intros Hk Hv. unfold takeFromRightSiblingLeaf. cbn [slice_shift mbind option_bind].
  by rewrite !slice_push_Some by lia.
Qed.

Lemma takeFromLeftSiblingInternal_eq m ks cs m2 ks2 cs2 mk c key :
  length ks < ncap m - 1 → length cs < ncap m →
  takeFromLeftSiblingInternal (Internal m ks cs) (Internal m2 (ks2 ++ [mk]) (cs2 ++ [c])) key
  = Some (Internal m (key :: ks) (c :: cs), Internal m2 ks2 cs2, mk).
Proof.
  intros Hk Hc. unfold takeFromLeftSiblingInternal.
  rewrite !slice_pop_Some. cbn [mbind option_bind].
  rewrite !slice_insert_Some by lia. cbn [mbind option_bind].
  by rewrite !take_0, !drop_0.
Qed.

Lemma takeFromRightSiblingInternal_eq m ks cs m2 ks2 cs2 mk c key :
  length ks < ncap m - 1 → length cs < ncap m →
  takeFromRightSiblingInternal (Internal m ks cs) (Internal m2 (mk :: ks2) (c :: cs2)) key
  = Some (Internal m (ks ++ [key]) (cs ++ [c]), Internal m2 ks2 cs2, mk).
Proof.
  intros Hk Hc. unfold takeFromRightSiblingInternal.
  rewrite (slice_push_Some (ncap m - 1) key ks) by lia.
  cbn [mbind option_bind slice_shift].
  by rewrite slice_push_Some by lia.
Qed.

Lemma mergeLeafs_eq h m ks vs m2 ks2 vs2 :
  length ks + length ks2 ≤ ncap m → length vs = length ks → length vs2 = length ks2 →
  mergeLeafs h (Leaf m ks vs) (Leaf m2 ks2 vs2)
  = Some (unlink_right (nid m) (nid m2) h, Leaf m (ks ++ ks2) (vs ++ vs2)).
Proof. intros. unfold mergeLeafs. by rewrite decide_True. Qed.

Lemma mergeInternal_eq h m ks cs m2 ks2 cs2 key :
  length ks + length ks2 + 1 ≤ ncap m - 1 →
  length cs = length ks + 1 → length cs2 = length ks2 + 1 →
  mergeInternal h (Internal m ks cs) (Internal m2 ks2 cs2) key
  = Some (unlink_right (nid m) (nid m2) h, Internal m (ks ++ key :: ks2) (cs ++ cs2)).
Proof. intros. unfold mergeInternal. by rewrite decide_True. Qed.

Lemma deleteChild_eq mt ks cs i :
  0 < i → i < length cs → i ≤ length ks →
  deleteChild (Internal mt ks cs) i
  = Some (Internal mt (take (i - 1) ks ++ drop i ks) (take i cs ++ drop (S i) cs)).
Proof.
  intros H0 Hc Hk. unfold deleteChild. rewrite decide_False by lia.
  rewrite !slice_delete_Some by lia. cbn [mbind option_bind].
  by replace (S (i - 1)) with i by lia.
Qed.

(** The outcomes of [deleteFromLeaf] when the key is at index [i]. *)

Lemma deleteFromLeaf_absent mt ks vs key all idx :
  keyIndex ks key = None →
  deleteFromLeaf (Leaf mt ks vs) key all idx = Some (Leaf mt ks vs, None).
Proof. intros E. unfold deleteFromLeaf. by rewrite E. Qed.

Lemma deleteFromLeaf_all mt ks vs key idx i s :
  keyIndex ks key = Some i → vs !! i = Some s →
  deleteFromLeaf (Leaf mt ks vs) key true idx
  = Some (Leaf mt (take i ks ++ drop (S i) ks) (take i vs ++ drop (S i) vs),
          Some (Bucket (slot_values s))).
Proof.
  intros E Hs. unfold deleteFromLeaf. rewrite E, Hs. cbn [mbind option_bind].
  apply keyIndex_Some in E as [Hk%lookup_lt_Some _]. apply lookup_lt_Some in Hs as Hv.
  rewrite !slice_delete_Some by done. cbn [mbind option_bind]. by destruct s.
Qed.

Lemma deleteFromLeaf_solo mt ks vs key idx i v :
  keyIndex ks key = Some i → vs !! i = Some (Solo v) →
  deleteFromLeaf (Leaf mt ks vs) key false idx
  = if decide (0 < idx)%Z then Some (Leaf mt ks vs, None)
    else Some (Leaf mt (take i ks ++ drop (S i) ks) (take i vs ++ drop (S i) vs),
               Some (Solo v)).
Proof.
  intros E Hs. unfold deleteFromLeaf. rewrite E, Hs. cbn [mbind option_bind].
  apply keyIndex_Some in E as [Hk%lookup_lt_Some _]. apply lookup_lt_Some in Hs as Hv.
  case_decide; [done|]. by rewrite !slice_delete_Some by done.
Qed.

Lemma deleteFromLeaf_bucket_range mt ks vs key idx i (b : list V) :
  keyIndex ks key = Some i → vs !! i = Some (Bucket b) →
  (Z.of_nat (length b) ≤ idx)%Z →
  deleteFromLeaf (Leaf mt ks vs) key false idx = Some (Leaf mt ks vs, None).
Proof.
  intros E Hs Hidx. unfold deleteFromLeaf. rewrite E, Hs. cbn [mbind option_bind].
  by rewrite decide_True.
Qed.

(** The bucket [b] gives up [v] and keeps [b']. *)
Lemma deleteFromLeaf_bucket mt ks vs key idx i (b : list V) v b' :
  keyIndex ks key = Some i → vs !! i = Some (Bucket b) →
  (idx < Z.of_nat (length b))%Z →
  (if decide (idx < 0)%Z then b = b' ++ [v]
   else b !! Z.to_nat idx = Some v
        ∧ b' = take (Z.to_nat idx) b ++ drop (S (Z.to_nat idx)) b) →
  deleteFromLeaf (Leaf mt ks vs) key false idx
  = if decide (length b' ≠ 0) then Some (Leaf mt ks (<[i := Bucket b']> vs), Some (Solo v))
    else Some (Leaf mt (take i ks ++ drop (S i) ks) (take i vs ++ drop (S i) vs),
               Some (Solo v)).
Proof.
  intros E Hs Hidx Hc. unfold deleteFromLeaf. rewrite E, Hs. cbn [mbind option_bind].
  apply keyIndex_Some in E as [Hk%lookup_lt_Some _]. apply lookup_lt_Some in Hs as Hv.
  rewrite decide_False by lia.
  assert (Hsel : (if decide (idx < 0)%Z then slice_pop b
                  else v0 ← b !! Z.to_nat idx;
                       b0 ← slice_delete (Z.to_nat idx) b; Some (v0, b0))
                 = Some (v, b')).
  { case_decide.
    - subst b. apply slice_pop_Some.
    - destruct Hc as [Hv' ->]. rewrite Hv'. cbn [mbind option_bind].
      rewrite slice_delete_Some; [done|]. by eapply lookup_lt_Some. }
  rewrite Hsel. cbn [mbind option_bind]. destruct (decide (length b' ≠ 0)); [done|].
  by rewrite !slice_delete_Some by done.
Qed.

(** The four outcomes of [balanceLeaf]. *)

Lemma balanceLeaf_borrow_left h mt ks cs i l c c' l' k :
  i ≠ 0 → cs !! (i - 1) = Some l → cs !! i = Some c → i - 1 < length ks →
  nbmin mt < length (nvalues l) →
  takeFromLeftSiblingLeaf c l = Some (c', l', k) →
  balanceLeaf h (Internal mt ks cs) i
  = Some (h, Internal mt (<[i - 1 := k]> ks) (<[i - 1 := l']> (<[i := c']> cs))).
Proof.
  intros Hi Hl Hc Hk Hcnt Htake. unfold balanceLeaf. cbn [nchildren nmeta nkeys].
  rewrite Hc, Hl. simpl. rewrite decide_True by done. rewrite Htake. simpl.
  by rewrite slice_set_Some.
Qed.

Lemma balanceLeaf_borrow_right h mt ks cs i c r c' r' k :
  cs !! i = Some c → cs !! (i + 1) = Some r → i < length ks →
  (i ≠ 0 → ∃ l, cs !! (i - 1) = Some l ∧ length (nvalues l) ≤ nbmin mt) →
  nbmin mt < length (nvalues r) →
  takeFromRightSiblingLeaf c r = Some (c', r', k) →
  balanceLeaf h (Internal mt ks cs) i
  = Some (h, Internal mt (<[i := k]> ks) (<[i + 1 := r']> (<[i := c']> cs))).
Proof.
  intros Hc Hr Hk Hl Hcnt Htake. unfold balanceLeaf. cbn [nchildren nmeta nkeys].
  assert (i + 1 < length cs) by (by eapply lookup_lt_Some).
  rewrite Hc, Hr. simpl. rewrite decide_False.
  2:{ intros [Hi Hlt]. destruct (Hl Hi) as (l & Hl1 & Hl2). rewrite Hl1 in Hlt. simpl in Hlt. lia. }
  rewrite decide_True by (split; [lia|done]). rewrite Htake. simpl.
  by rewrite slice_set_Some.
Qed.

Lemma balanceLeaf_merge_left h mt ks cs i l c h' l' :
  i ≠ 0 → cs !! (i - 1) = Some l → cs !! i = Some c → i ≤ length ks →
  length (nvalues l) ≤ nbmin mt →
  (i ≠ length cs - 1 →
   ∃ r, cs !! (i + 1) = Some r
        ∧ length (nvalues r) ≤ nbmin mt ∧ length (nvalues l) < length (nvalues r)) →
  mergeLeafs h l c = Some (h', l') →
  balanceLeaf h (Internal mt ks cs) i
  = Some (h', Internal mt (take (i - 1) ks ++ drop i ks)
                 (take i (<[i - 1 := l']> cs) ++ drop (S i) (<[i - 1 := l']> cs))).
Proof.
  intros Hi Hl Hc Hk Hcnt Hr Hmerge. unfold balanceLeaf. cbn [nchildren nmeta nkeys].
  assert (i < length cs) by (by eapply lookup_lt_Some).
  rewrite Hc, Hl. cbn [mbind option_bind from_option id]. rewrite decide_False by lia.
  rewrite decide_False.
  2:{ intros [Hi' Hlt]. destruct (Hr Hi') as (r & Hr1 & Hr2 & _). rewrite Hr1 in Hlt.
      cbn [from_option id] in Hlt. lia. }
  rewrite decide_True.
  2:{ split; [done|]. destruct (decide (i = length cs - 1)); [by left|right].
      destruct (Hr n) as (r & -> & _ & Hlt). done. }
  rewrite Hmerge. cbn [mbind option_bind set_child]. rewrite deleteChild_eq; [done|lia| |done].
  by rewrite length_insert.
Qed.

Lemma balanceLeaf_merge_right h mt ks cs i c r h' c' :
  cs !! i = Some c → cs !! (i + 1) = Some r → i < length ks →
  length (nvalues r) ≤ nbmin mt →
  (i ≠ 0 → ∃ l, cs !! (i - 1) = Some l
                ∧ length (nvalues l) ≤ nbmin mt
                ∧ length (nvalues r) ≤ length (nvalues l)) →
  mergeLeafs h c r = Some (h', c') →
  balanceLeaf h (Internal mt ks cs) i
  = Some (h', Internal mt (take i ks ++ drop (S i) ks)
                 (take (S i) (<[i := c']> cs) ++ drop (S (S i)) (<[i := c']> cs))).
Proof.
  intros Hc Hr Hk Hcnt Hl Hmerge. unfold balanceLeaf. cbn [nchildren nmeta nkeys].
  assert (i + 1 < length cs) by (by eapply lookup_lt_Some).
  rewrite Hc, Hr. cbn [mbind option_bind from_option id].
  rewrite decide_False.
  2:{ intros [Hi' Hlt]. destruct (Hl Hi') as (l & Hl1 & Hl2 & _). rewrite Hl1 in Hlt.
      cbn [from_option id] in Hlt. lia. }
  rewrite decide_False by lia.
  rewrite decide_False.
  2:{ intros [Hi' [Hlast|Hlt]]; [lia|]. destruct (Hl Hi') as (l & Hl1 & _ & Hl3).
      rewrite Hl1 in Hlt. cbn [from_option id] in Hlt. lia. }
  rewrite Hmerge. cbn [mbind option_bind set_child]. rewrite deleteChild_eq; [|lia|by rewrite length_insert; lia|lia].
  by replace (i + 1 - 1) with i by lia; replace (i + 1) with (S i) by lia.
Qed.
(** The four outcomes of [balanceInternal]. *)

Lemma balanceInternal_borrow_left h mt ks cs i l c c' l' k key :
  i ≠ 0 → cs !! (i - 1) = Some l → cs !! i = Some c → ks !! (i - 1) = Some key →
  nbmin mt < length (nchildren l) →
  takeFromLeftSiblingInternal c l key = Some (c', l', k) →
  balanceInternal h (Internal mt ks cs) i
  = Some (h, Internal mt (<[i - 1 := k]> ks) (<[i - 1 := l']> (<[i := c']> cs))).
Proof.
  intros Hi Hl Hc Hk Hcnt Htake. unfold balanceInternal. cbn [nchildren nmeta nkeys].
  rewrite Hc, Hl. simpl. rewrite decide_True by done. rewrite Hk. simpl.
  rewrite Htake. simpl. rewrite slice_set_Some; [done|]. by eapply lookup_lt_Some.
Qed.

Lemma balanceInternal_borrow_right h mt ks cs i c r c' r' k key :
  cs !! i = Some c → cs !! (i + 1) = Some r → ks !! i = Some key →
  (i ≠ 0 → ∃ l, cs !! (i - 1) = Some l ∧ length (nchildren l) ≤ nbmin mt) →
  nbmin mt < length (nchildren r) →
  takeFromRightSiblingInternal c r key = Some (c', r', k) →
  balanceInternal h (Internal mt ks cs) i
  = Some (h, Internal mt (<[i := k]> ks) (<[i + 1 := r']> (<[i := c']> cs))).
Proof.
  intros Hc Hr Hk Hl Hcnt Htake. unfold balanceInternal. cbn [nchildren nmeta nkeys].
  assert (i + 1 < length cs) by (by eapply lookup_lt_Some).
  rewrite Hc, Hr. simpl. rewrite decide_False.
  2:{ intros [Hi Hlt]. destruct (Hl Hi) as (l & Hl1 & Hl2). rewrite Hl1 in Hlt. simpl in Hlt. lia. }
  rewrite decide_True by (split; [lia|done]). rewrite Hk. simpl. rewrite Htake. simpl.
  rewrite slice_set_Some; [done|]. by eapply lookup_lt_Some.
Qed.

Lemma balanceInternal_merge_left h mt ks cs i l c h' l' key :
  i ≠ 0 → cs !! (i - 1) = Some l → cs !! i = Some c → i ≤ length ks →
  ks !! (i - 1) = Some key →
  length (nchildren l) ≤ nbmin mt →
  (i ≠ length cs - 1 →
   ∃ r, cs !! (i + 1) = Some r
        ∧ length (nchildren r) ≤ nbmin mt ∧ length (nchildren l) < length (nchildren r)) →
  mergeInternal h l c key = Some (h', l') →
  balanceInternal h (Internal mt ks cs) i
  = Some (h', Internal mt (take (i - 1) ks ++ drop i ks)
                 (take i (<[i - 1 := l']> cs) ++ drop (S i) (<[i - 1 := l']> cs))).
Proof.
  intros Hi Hl Hc Hk Hkey Hcnt Hr Hmerge. unfold balanceInternal. cbn [nchildren nmeta nkeys].
  assert (i < length cs) by (by eapply lookup_lt_Some).
  rewrite Hc, Hl. cbn [mbind option_bind from_option id]. rewrite decide_False by lia.
  rewrite decide_False.
  2:{ intros [Hi' Hlt]. destruct (Hr Hi') as (r & Hr1 & Hr2 & _). rewrite Hr1 in Hlt.
      cbn [from_option id] in Hlt. lia. }
  rewrite decide_True.
  2:{ split; [done|]. destruct (decide (i = length cs - 1)); [by left|right].
      destruct (Hr n) as (r & -> & _ & Hlt). done. }
  rewrite Hkey. cbn [mbind option_bind].
  rewrite Hmerge. cbn [mbind option_bind set_child]. rewrite deleteChild_eq; [done|lia| |done].
  by rewrite length_insert.
Qed.

Lemma balanceInternal_merge_right h mt ks cs i c r h' c' key :
  cs !! i = Some c → cs !! (i + 1) = Some r → ks !! i = Some key →
  length (nchildren r) ≤ nbmin mt →
  (i ≠ 0 → ∃ l, cs !! (i - 1) = Some l
                ∧ length (nchildren l) ≤ nbmin mt
                ∧ length (nchildren r) ≤ length (nchildren l)) →
  mergeInternal h c r key = Some (h', c') →
  balanceInternal h (Internal mt ks cs) i
  = Some (h', Internal mt (take i ks ++ drop (S i) ks)
                 (take (S i) (<[i := c']> cs) ++ drop (S (S i)) (<[i := c']> cs))).
Proof.
  intros Hc Hr Hkey Hcnt Hl Hmerge. unfold balanceInternal. cbn [nchildren nmeta nkeys].
  assert (i + 1 < length cs) by (by eapply lookup_lt_Some).
  assert (Hk : i < length ks) by (by eapply lookup_lt_Some).
  rewrite Hc, Hr. cbn [mbind option_bind from_option id].
  rewrite decide_False.
  2:{ intros [Hi' Hlt]. destruct (Hl Hi') as (l & Hl1 & Hl2 & _). rewrite Hl1 in Hlt.
      cbn [from_option id] in Hlt. lia. }
  rewrite decide_False by lia.
  rewrite decide_False.
  2:{ intros [Hi' [Hlast|Hlt]]; [lia|]. destruct (Hl Hi') as (l & Hl1 & _ & Hl3).
      rewrite Hl1 in Hlt. cbn [from_option id] in Hlt. lia. }
  rewrite Hkey. cbn [mbind option_bind].
  rewrite Hmerge. cbn [mbind option_bind set_child]. rewrite deleteChild_eq; [|lia|by rewrite length_insert; lia|lia].
  by replace (i + 1 - 1) with i by lia; replace (i + 1) with (S i) by lia.
Qed.
End DeleteCases.

(** * Deletion preserves the shape *)

Arguments shape : simpl never.

(** Normalises the lengths of appended lists in the hypotheses. *)
Ltac len_hyps :=
  repeat match goal with
         | H : context [length (_ ++ _)] |- _ => rewrite length_app in H
         end;
  cbn [length] in *.

Section DeleteShape.
Context {V : Type}.
#[local] Existing Instance never_nil.
Implicit Types (h : heap) (n c l r : node V) (vs : list (slot V)) (cs : list (node V)) (ks : list Z).

Lemma Forall_insert_except {A} (P : A → Prop) (s : list A) i x :
  (∀ j y, s !! j = Some y → j ≠ i → P y) → P x → Forall P (<[i := x]> s).
Proof.
  intros Hs Hx. apply Forall_lookup. intros j y.
  destruct (decide (i = j)) as [->|Hne].
  - intros Hy. destruct (decide (j < length s)).
    + rewrite list_lookup_insert_eq in Hy by done. by injection Hy as <-.
    + rewrite list_insert_ge in Hy by lia. apply lookup_lt_Some in Hy. lia.
  - rewrite list_lookup_insert_ne by done. intros Hy. by apply (Hs j).
Qed.

Lemma Forall_delete_except {A} (P : A → Prop) (s : list A) i :
  (∀ j y, s !! j = Some y → j ≠ i → P y) → Forall P (take i s ++ drop (S i) s).
Proof.
  intros Hs. apply Forall_app. split; apply Forall_lookup; intros j y.
  - intros Hy. pose proof (lookup_lt_Some _ _ _ Hy) as Hlt. rewrite length_take in Hlt.
    rewrite lookup_take_lt in Hy by lia. apply (Hs j); [done|lia].
  - rewrite lookup_drop. intros Hy. apply (Hs (S i + j)); [done|lia].
Qed.

Lemma length_delete_at' {A} (s : list A) i :
  i < length s → length (take i s ++ drop (S i) s) = length s - 1.
Proof. intros. rewrite length_app, length_take, length_drop. lia. Qed.

Lemma deleteFromLeaf_shape m mt ks vs key all idx :
  shape m 0 (Leaf mt ks vs) →
  ∃ n' res, deleteFromLeaf (Leaf mt ks vs) key all idx = Some (n', res)
          ∧ shape m 0 n' ∧ length vs ≤ count n' + 1 ∧ count n' ≤ length vs.
Proof.
  intros Hsh. pose proof Hsh as (_ & Hmeta & Hlen & Hle & Hvs)%shape_leaf.
  destruct (keyIndex ks key) as [i|] eqn:E.
  2:{ rewrite deleteFromLeaf_absent by done. eexists _, _. split; [done|].
      split; [done|]. simpl. lia. }
  pose proof (keyIndex_Some _ _ _ E) as [Hk%lookup_lt_Some _].
  destruct (lookup_lt_is_Some_2 vs i) as [s Hs]; [lia|].
  assert (Hrem : shape m 0 (Leaf mt (take i ks ++ drop (S i) ks)
                                    (take i vs ++ drop (S i) vs))).
  { apply shape_leaf. split_and!; try done.
    - rewrite !length_delete_at' by lia. lia.
    - rewrite length_delete_at' by lia. lia.
    - apply Forall_delete_except. intros j y Hy _. by eapply Forall_lookup_1 in Hvs. }
  assert (Hremc : length vs ≤ length (take i vs ++ drop (S i) vs) + 1
                  ∧ length (take i vs ++ drop (S i) vs) ≤ length vs).
  { rewrite length_delete_at' by lia. lia. }
  destruct all.
  { rewrite (deleteFromLeaf_all mt ks vs key idx i s) by done. eexists _, _. by split. }
  destruct s as [v|b].
  { rewrite (deleteFromLeaf_solo mt ks vs key idx i v) by done. case_decide.
    - eexists _, _. split; [done|]. split; [done|]. simpl. lia.
    - eexists _, _. by split. }
  destruct (decide (Z.of_nat (length b) ≤ idx)%Z) as [Hge|Hlt].
  { rewrite (deleteFromLeaf_bucket_range mt ks vs key idx i b) by done.
    eexists _, _. split; [done|]. split; [done|]. simpl. lia. }
  assert (Hb : 0 < length b).
  { eapply Forall_lookup_1 in Hvs; [|done]. simpl in Hvs. destruct b; [done|simpl; lia]. }
  assert (∃ v b', if decide (idx < 0)%Z then b = b' ++ [v]
                  else b !! Z.to_nat idx = Some v
                       ∧ b' = take (Z.to_nat idx) b ++ drop (S (Z.to_nat idx)) b)
    as (v & b' & Hsel).
  { case_decide.
    - destruct (snoc_inv b Hb) as (b' & v & ->). eauto.
    - destruct (lookup_lt_is_Some_2 b (Z.to_nat idx)) as [v Hv]; [lia|]. eauto. }
  rewrite (deleteFromLeaf_bucket mt ks vs key idx i b v b') by (done || lia).
  destruct (decide (length b' ≠ 0)) as [Hb'|Hb'].
  - eexists _, _. split; [done|]. split; [|simpl; rewrite length_insert; lia].
    apply shape_leaf. split_and!; try done; [by rewrite length_insert|].
    apply Forall_insert; [done|]. simpl. by destruct b'.
  - eexists _, _. by split.
Qed.

(** A parent whose children are leaves, the child at [i] being one entry
    short. *)
Section BalanceLeaf.
Variables (m : nat) (h : heap) (mt : meta) (ks : list Z) (cs : list (node V)).
Variables (i : nat) (mc : meta) (kc : list Z) (vc : list (slot V)).
Hypothesis Hm : 3 ≤ m.
Hypothesis Hmeta : meta_ok m mt.
Hypothesis Hlen : length cs = S (length ks).
Hypothesis Hle : length cs ≤ m.
Hypothesis Hc : cs !! i = Some (Leaf mc kc vc).
Hypothesis Hcsh : shape m 0 (Leaf mc kc vc).
Hypothesis Hccnt : length vc + 1 = ceil_half m.
Hypothesis Hcs : ∀ j x, cs !! j = Some x → j ≠ i → shape m 0 x ∧ ceil_half m ≤ count x.

Let good (n' : node V) : Prop :=
  shape m 1 n' ∧ length cs ≤ count n' + 1 ∧ count n' ≤ length cs.

Local Lemma sibling_leaf j x :
  cs !! j = Some x → j ≠ i →
  ∃ mx kx vx, x = Leaf mx kx vx ∧ shape m 0 (Leaf mx kx vx)
              ∧ length vx = length kx ∧ ceil_half m ≤ length vx ∧ length vx ≤ m
              ∧ ncap mx = m.
Proof using All.
  intros Hx Hj. destruct (Hcs j x Hx Hj) as [Hsh Hcnt].
  destruct (shape_0 _ _ Hsh) as (mx & kx & vx & ->).
  pose proof Hsh as (_ & [? _] & ? & ? & _)%shape_leaf.
  exists mx, kx, vx. simpl in Hcnt. split_and!; try done; lia.
Qed.

Local Lemma child_facts :
  length vc = length kc ∧ ncap mc = m ∧ i < length cs
  ∧ 2 ≤ ceil_half m ∧ ceil_half m ≤ m ∧ 2 * ceil_half m ≤ m + 1
  ∧ ncap mt = m ∧ nbmin mt = ceil_half m.
Proof using All.
  pose proof Hcsh as (_ & [? _] & ? & ? & _)%shape_leaf.
  pose proof (ceil_half_bounds m Hm). destruct Hmeta.
  apply lookup_lt_Some in Hc. split_and!; try done; lia.
Qed.

Lemma balanceLeaf_borrow_left_shape l :
  i ≠ 0 → cs !! (i - 1) = Some l → nbmin mt < length (nvalues l) →
  ∃ h' n', balanceLeaf h (Internal mt ks cs) i = Some (h', n') ∧ good n'.
Proof using All.
  intros Hi Hl Hcnt.
  destruct child_facts as (Hvk & Hcapc & Hilt & Hb1 & Hb2 & Hb3 & Hcap & Hbmin).
  destruct (sibling_leaf (i - 1) l Hl) as (ml & kl & vl & -> & Hlsh & Hlvk & Hl1 & Hl2 & Hlcap);
    [lia|].
  simpl in Hcnt.
  destruct (snoc_inv kl) as (kl' & k & ->); [lia|].
  destruct (snoc_inv vl) as (vl' & v & ->); [lia|].
  len_hyps.
  erewrite balanceLeaf_borrow_left; [|done|done|done|lia|simpl; rewrite length_app; simpl; lia|].
  2:{ apply takeFromLeftSiblingLeaf_eq; lia. }
  eexists _, _. split; [done|]. unfold good. cbn [count]. rewrite !length_insert.
  split; [|lia]. apply shape_internal. exists 0. rewrite !length_insert.
  split_and!; try done; try lia.
  pose proof Hcsh as (_ & ? & _ & _ & Hvc)%shape_leaf.
  pose proof Hlsh as (_ & ? & _ & _ & Hvl)%shape_leaf.
  apply Forall_app in Hvl as [Hvl' Hv]. apply Forall_inv in Hv.
  apply Forall_insert_except.
  - intros j y Hy Hj. destruct (decide (j = i)) as [->|Hne].
    + rewrite list_lookup_insert_eq in Hy by done. injection Hy as <-.
      split; [|simpl; lia]. apply shape_leaf. split_and!; try done; simpl; try lia.
      by constructor.
    + rewrite list_lookup_insert_ne in Hy by done. by apply (Hcs j).
  - split; [|simpl; lia]. apply shape_leaf. split_and!; try done; lia.
Qed.

Lemma balanceLeaf_borrow_right_shape r :
  cs !! (i + 1) = Some r → nbmin mt < length (nvalues r) →
  (i ≠ 0 → ∃ l, cs !! (i - 1) = Some l ∧ length (nvalues l) ≤ nbmin mt) →
  ∃ h' n', balanceLeaf h (Internal mt ks cs) i = Some (h', n') ∧ good n'.
Proof using All.
  intros Hr Hcnt Hl.
  destruct child_facts as (Hvk & Hcapc & Hilt & Hb1 & Hb2 & Hb3 & Hcap & Hbmin).
  pose proof (lookup_lt_Some _ _ _ Hr) as Hrlt.
  destruct (sibling_leaf (i + 1) r Hr) as (mr & kr & vr & -> & Hrsh & Hrvk & Hr1 & Hr2 & Hrcap);
    [lia|].
  cbn [nvalues] in Hcnt.
  destruct kr as [|k [|k0 kr]]; [simpl in *; lia..|].
  destruct vr as [|v vr]; [simpl in *; lia|].
  len_hyps.
  erewrite balanceLeaf_borrow_right; [|done|done|lia|done|simpl; lia|].
  2:{ apply takeFromRightSiblingLeaf_eq; lia. }
  eexists _, _. split; [done|]. unfold good. cbn [count]. rewrite !length_insert.
  split; [|lia]. apply shape_internal. exists 0. rewrite !length_insert.
  split_and!; try done; try lia.
  pose proof Hcsh as (_ & ? & _ & _ & Hvc)%shape_leaf.
  pose proof Hrsh as (_ & ? & _ & _ & Hvr)%shape_leaf.
  apply Forall_cons in Hvr as [Hv Hvr].
  apply Forall_insert_except.
  - intros j y Hy Hj. destruct (decide (j = i)) as [->|Hne].
    + rewrite list_lookup_insert_eq in Hy by done. injection Hy as <-.
      split; [|simpl; rewrite length_app; simpl; lia].
      apply shape_leaf. split_and!; try done; rewrite ?length_app; simpl; try lia.
      apply Forall_app. split; [done|by constructor].
    + rewrite list_lookup_insert_ne in Hy by done. by apply (Hcs j).
  - split; [|simpl; lia]. apply shape_leaf. split_and!; try done; simpl; lia.
Qed.

Lemma balanceLeaf_merge_left_shape l :
  i ≠ 0 → i = length cs - 1 → cs !! (i - 1) = Some l →
  length (nvalues l) ≤ nbmin mt →
  ∃ h' n', balanceLeaf h (Internal mt ks cs) i = Some (h', n') ∧ good n'.
Proof using All.
  intros Hi Hlast Hl Hcnt.
  destruct child_facts as (Hvk & Hcapc & Hilt & Hb1 & Hb2 & Hb3 & Hcap & Hbmin).
  destruct (sibling_leaf (i - 1) l Hl) as (ml & kl & vl & -> & Hlsh & Hlvk & Hl1 & Hl2 & Hlcap);
    [lia|].
  cbn [nvalues] in Hcnt.
  erewrite balanceLeaf_merge_left; [|done|done|done|lia|done|done|].
  2:{ apply mergeLeafs_eq; lia. }
  eexists _, _. split; [done|]. unfold good. cbn [count].
  rewrite !length_delete_at' by (rewrite ?length_insert; lia). rewrite !length_insert.
  split; [|lia]. apply shape_internal. exists 0.
  rewrite !length_delete_at' by (rewrite ?length_insert; lia).
  rewrite ?length_app, ?length_take, ?length_drop, ?length_insert.
  split_and!; try done; try lia.
  pose proof Hcsh as (_ & ? & _ & _ & Hvc)%shape_leaf.
  pose proof Hlsh as (_ & ? & _ & _ & Hvl)%shape_leaf.
  apply Forall_delete_except. intros j y Hy Hj.
  destruct (decide (j = i - 1)) as [->|Hne].
  - rewrite list_lookup_insert_eq in Hy by lia. injection Hy as <-.
    split; [|simpl; rewrite length_app; lia].
    apply shape_leaf. split_and!; try done; rewrite ?length_app; try lia.
    by apply Forall_app.
  - rewrite list_lookup_insert_ne in Hy by done. by apply (Hcs j).
Qed.

Lemma balanceLeaf_merge_right_shape r :
  cs !! (i + 1) = Some r → length (nvalues r) ≤ nbmin mt →
  (i ≠ 0 → ∃ l, cs !! (i - 1) = Some l ∧ length (nvalues l) ≤ nbmin mt
                ∧ length (nvalues r) ≤ length (nvalues l)) →
  ∃ h' n', balanceLeaf h (Internal mt ks cs) i = Some (h', n') ∧ good n'.
Proof using All.
  intros Hr Hcnt Hl.
  destruct child_facts as (Hvk & Hcapc & Hilt & Hb1 & Hb2 & Hb3 & Hcap & Hbmin).
  pose proof (lookup_lt_Some _ _ _ Hr) as Hrlt.
  destruct (sibling_leaf (i + 1) r Hr) as (mr & kr & vr & -> & Hrsh & Hrvk & Hr1 & Hr2 & Hrcap);
    [lia|].
  cbn [nvalues] in Hcnt.
  erewrite balanceLeaf_merge_right; [|done|done|lia|done|done|].
  2:{ apply mergeLeafs_eq; lia. }
  eexists _, _. split; [done|]. unfold good. cbn [count].
  rewrite !length_delete_at' by (rewrite ?length_insert; lia). rewrite !length_insert.
  split; [|lia]. apply shape_internal. exists 0.
  rewrite !length_delete_at' by (rewrite ?length_insert; lia).
  rewrite ?length_app, ?length_take, ?length_drop, ?length_insert.
  split_and!; try done; try lia.
  pose proof Hcsh as (_ & ? & _ & _ & Hvc)%shape_leaf.
  pose proof Hrsh as (_ & ? & _ & _ & Hvr)%shape_leaf.
  apply Forall_delete_except. intros j y Hy Hj.
  destruct (decide (j = i)) as [->|Hne].
  - rewrite list_lookup_insert_eq in Hy by lia. injection Hy as <-.
    split; [|simpl; rewrite length_app; lia].
    apply shape_leaf. split_and!; try done; rewrite ?length_app; try lia.
    by apply Forall_app.
  - rewrite list_lookup_insert_ne in Hy by done. by apply (Hcs j).
Qed.

Lemma balanceLeaf_shape :
  2 ≤ length cs →
  ∃ h' n', balanceLeaf h (Internal mt ks cs) i = Some (h', n') ∧ good n'.
Proof using All.
  intros H2.
  destruct child_facts as (Hvk & Hcapc & Hilt & Hb1 & Hb2 & Hb3 & Hcap & Hbmin).
  destruct (decide (i = 0)) as [Hi0|Hi0].
  - destruct (lookup_lt_is_Some_2 cs (i + 1)) as [r Hr]; [lia|].
    destruct (decide (nbmin mt < length (nvalues r))).
    + by apply (balanceLeaf_borrow_right_shape r).
    + apply (balanceLeaf_merge_right_shape r); [done|lia|done].
  - destruct (lookup_lt_is_Some_2 cs (i - 1)) as [l Hl]; [lia|].
    destruct (decide (nbmin mt < length (nvalues l))).
    { by apply (balanceLeaf_borrow_left_shape l). }
    destruct (decide (i = length cs - 1)) as [Hlast|Hlast].
    { apply (balanceLeaf_merge_left_shape l); [done|done|done|lia]. }
    destruct (lookup_lt_is_Some_2 cs (i + 1)) as [r Hr]; [lia|].
    destruct (decide (nbmin mt < length (nvalues r))).
    + apply (balanceLeaf_borrow_right_shape r); [done|done|].
      intros _. exists l. split; [done|lia].
    + apply (balanceLeaf_merge_right_shape r); [done|lia|].
      intros _. exists l. split; [done|]. split; [lia|].
      destruct (sibling_leaf (i - 1) l Hl) as (? & ? & ? & -> & _ & _ & ? & _); [lia|].
      simpl. lia.
Qed.
End BalanceLeaf.

(** A parent whose children are internal nodes of height [S d], the child
    at [i] being one child short. *)
Section BalanceInternal.
Variables (m d : nat) (h : heap) (mt : meta) (ks : list Z) (cs : list (node V)).
Variables (i : nat) (mc : meta) (kc : list Z) (cc : list (node V)).
Hypothesis Hm : 3 ≤ m.
Hypothesis Hmeta : meta_ok m mt.
Hypothesis Hlen : length cs = S (length ks).
Hypothesis Hle : length cs ≤ m.
Hypothesis Hc : cs !! i = Some (Internal mc kc cc).
Hypothesis Hcsh : shape m (S d) (Internal mc kc cc).
Hypothesis Hccnt : length cc + 1 = ceil_half m.
Hypothesis Hcs :
  ∀ j x, cs !! j = Some x → j ≠ i → shape m (S d) x ∧ ceil_half m ≤ count x.

Let good (n' : node V) : Prop :=
  shape m (S (S d)) n' ∧ length cs ≤ count n' + 1 ∧ count n' ≤ length cs.

Let P (y : node V) : Prop := shape m d y ∧ ceil_half m ≤ count y.

Local Lemma sibling_internal j x :
  cs !! j = Some x → j ≠ i →
  ∃ mx kx cx, x = Internal mx kx cx ∧ meta_ok m mx
              ∧ length cx = S (length kx) ∧ ceil_half m ≤ length cx ∧ length cx ≤ m
              ∧ Forall P cx.
Proof using All.
  intros Hx Hj. destruct (Hcs j x Hx Hj) as [Hsh Hcnt].
  destruct (shape_S _ _ _ Hsh) as (mx & kx & cx & ->).
  pose proof Hsh as (? & [= <-] & ? & ? & ? & ?)%shape_internal.
  exists mx, kx, cx. simpl in Hcnt. by split_and!.
Qed.

Local Lemma child_facts_internal :
  length cc = S (length kc) ∧ meta_ok m mc ∧ Forall P cc ∧ i < length cs
  ∧ 2 ≤ ceil_half m ∧ ceil_half m ≤ m ∧ 2 * ceil_half m ≤ m + 1
  ∧ ncap mt = m ∧ nbmin mt = ceil_half m.
Proof using All.
  pose proof Hcsh as (? & [= <-] & ? & ? & ? & ?)%shape_internal.
  pose proof (ceil_half_bounds m Hm). destruct Hmeta.
  apply lookup_lt_Some in Hc. split_and!; try done; lia.
Qed.

Local Lemma internal_good mx kx cx :
  meta_ok m mx → length cx = S (length kx) → ceil_half m ≤ length cx → length cx ≤ m →
  Forall P cx →
  shape m (S d) (Internal mx kx cx) ∧ ceil_half m ≤ count (Internal mx kx cx).
Proof using All.
  intros. split; [|done]. apply shape_internal. exists d. by split_and!.
Qed.

Lemma balanceInternal_borrow_left_shape l :
  i ≠ 0 → cs !! (i - 1) = Some l → nbmin mt < length (nchildren l) →
  ∃ h' n', balanceInternal h (Internal mt ks cs) i = Some (h', n') ∧ good n'.
Proof using All.
  intros Hi Hl Hcnt.
  destruct child_facts_internal
    as (Hck & Hcm & Hcc & Hilt & Hb1 & Hb2 & Hb3 & Hcap & Hbmin).
  pose proof Hcm as [Hcapc Hcbmin].
  destruct (sibling_internal (i - 1) l Hl) as (ml & kl & cl & -> & Hlm & Hlck & Hl1 & Hl2 & Hlc);
    [lia|].
  cbn [nchildren] in Hcnt.
  destruct (snoc_inv kl) as (kl' & mk & ->); [lia|].
  destruct (snoc_inv cl) as (cl' & x & ->); [lia|].
  destruct (lookup_lt_is_Some_2 ks (i - 1)) as [key Hkey]; [lia|].
  len_hyps. apply Forall_app in Hlc as [Hlc Hx]. apply Forall_inv in Hx.
  erewrite balanceInternal_borrow_left; [|done|done|done|done|simpl; rewrite length_app; simpl; lia|].
  2:{ apply takeFromLeftSiblingInternal_eq; lia. }
  eexists _, _. split; [done|]. unfold good. cbn [count]. rewrite !length_insert.
  split; [|lia]. apply shape_internal. exists (S d). rewrite !length_insert.
  split_and!; try done; try lia.
  apply Forall_insert_except.
  - intros j y Hy Hj. destruct (decide (j = i)) as [->|Hne].
    + rewrite list_lookup_insert_eq in Hy by done. injection Hy as <-.
      apply internal_good; simpl; try done; try lia. by constructor.
    + rewrite list_lookup_insert_ne in Hy by done. by apply (Hcs j).
  - apply internal_good; try done; lia.
Qed.

Lemma balanceInternal_borrow_right_shape r :
  cs !! (i + 1) = Some r → nbmin mt < length (nchildren r) →
  (i ≠ 0 → ∃ l, cs !! (i - 1) = Some l ∧ length (nchildren l) ≤ nbmin mt) →
  ∃ h' n', balanceInternal h (Internal mt ks cs) i = Some (h', n') ∧ good n'.
Proof using All.
  intros Hr Hcnt Hl.
  destruct child_facts_internal
    as (Hck & Hcm & Hcc & Hilt & Hb1 & Hb2 & Hb3 & Hcap & Hbmin).
  pose proof Hcm as [Hcapc Hcbmin].
  pose proof (lookup_lt_Some _ _ _ Hr) as Hrlt.
  destruct (sibling_internal (i + 1) r Hr) as (mr & kr & cr & -> & Hrm & Hrck & Hr1 & Hr2 & Hrc);
    [lia|].
  cbn [nchildren] in Hcnt.
  destruct kr as [|mk kr]; [simpl in *; lia|].
  destruct cr as [|x cr]; [simpl in *; lia|].
  destruct (lookup_lt_is_Some_2 ks i) as [key Hkey]; [lia|].
  len_hyps. apply Forall_cons in Hrc as [Hx Hrc].
  erewrite balanceInternal_borrow_right; [|done|done|done|done|simpl; lia|].
  2:{ apply takeFromRightSiblingInternal_eq; lia. }
  eexists _, _. split; [done|]. unfold good. cbn [count]. rewrite !length_insert.
  split; [|lia]. apply shape_internal. exists (S d). rewrite !length_insert.
  split_and!; try done; try lia.
  apply Forall_insert_except.
  - intros j y Hy Hj. destruct (decide (j = i)) as [->|Hne].
    + rewrite list_lookup_insert_eq in Hy by done. injection Hy as <-.
      apply internal_good; rewrite ?length_app; simpl; try done; try lia.
      apply Forall_app. split; [done|by constructor].
    + rewrite list_lookup_insert_ne in Hy by done. by apply (Hcs j).
  - apply internal_good; try done; lia.
Qed.

Lemma balanceInternal_merge_left_shape l :
  i ≠ 0 → i = length cs - 1 → cs !! (i - 1) = Some l →
  length (nchildren l) ≤ nbmin mt →
  ∃ h' n', balanceInternal h (Internal mt ks cs) i = Some (h', n') ∧ good n'.
Proof using All.
  intros Hi Hlast Hl Hcnt.
  destruct child_facts_internal
    as (Hck & Hcm & Hcc & Hilt & Hb1 & Hb2 & Hb3 & Hcap & Hbmin).
  pose proof Hcm as [Hcapc Hcbmin].
  destruct (sibling_internal (i - 1) l Hl) as (ml & kl & cl & -> & Hlm & Hlck & Hl1 & Hl2 & Hlc);
    [lia|].
  cbn [nchildren] in Hcnt. destruct Hlm as [Hlcap Hlbmin].
  destruct (lookup_lt_is_Some_2 ks (i - 1)) as [key Hkey]; [lia|].
  erewrite balanceInternal_merge_left; [|done|done|done|lia|done|done|done|].
  2:{ apply mergeInternal_eq; lia. }
  eexists _, _. split; [done|]. unfold good. cbn [count].
  rewrite !length_delete_at' by (rewrite ?length_insert; lia). rewrite !length_insert.
  split; [|lia]. apply shape_internal. exists (S d).
  rewrite !length_delete_at' by (rewrite ?length_insert; lia).
  rewrite ?length_app, ?length_take, ?length_drop, ?length_insert.
  split_and!; try done; try lia.
  apply Forall_delete_except. intros j y Hy Hj.
  destruct (decide (j = i - 1)) as [->|Hne].
  - rewrite list_lookup_insert_eq in Hy by lia. injection Hy as <-.
    apply internal_good; rewrite ?length_app; simpl; try done; try lia.
    by apply Forall_app.
  - rewrite list_lookup_insert_ne in Hy by done. by apply (Hcs j).
Qed.

Lemma balanceInternal_merge_right_shape r :
  cs !! (i + 1) = Some r → length (nchildren r) ≤ nbmin mt →
  (i ≠ 0 → ∃ l, cs !! (i - 1) = Some l ∧ length (nchildren l) ≤ nbmin mt
                ∧ length (nchildren r) ≤ length (nchildren l)) →
  ∃ h' n', balanceInternal h (Internal mt ks cs) i = Some (h', n') ∧ good n'.
Proof using All.
  intros Hr Hcnt Hl.
  destruct child_facts_internal
    as (Hck & Hcm & Hcc & Hilt & Hb1 & Hb2 & Hb3 & Hcap & Hbmin).
  pose proof Hcm as [Hcapc Hcbmin].
  pose proof (lookup_lt_Some _ _ _ Hr) as Hrlt.
  destruct (sibling_internal (i + 1) r Hr) as (mr & kr & cr & -> & Hrm & Hrck & Hr1 & Hr2 & Hrc);
    [lia|].
  cbn [nchildren] in Hcnt.
  destruct (lookup_lt_is_Some_2 ks i) as [key Hkey]; [lia|].
  erewrite balanceInternal_merge_right; [|done|done|done|done|done|].
  2:{ apply mergeInternal_eq; lia. }
  eexists _, _. split; [done|]. unfold good. cbn [count].
  rewrite !length_delete_at' by (rewrite ?length_insert; lia). rewrite !length_insert.
  split; [|lia]. apply shape_internal. exists (S d).
  rewrite !length_delete_at' by (rewrite ?length_insert; lia).
  rewrite ?length_app, ?length_take, ?length_drop, ?length_insert.
  split_and!; try done; try lia.
  apply Forall_delete_except. intros j y Hy Hj.
  destruct (decide (j = i)) as [->|Hne].
  - rewrite list_lookup_insert_eq in Hy by lia. injection Hy as <-.
    apply internal_good; rewrite ?length_app; simpl; try done; try lia.
    by apply Forall_app.
  - rewrite list_lookup_insert_ne in Hy by done. by apply (Hcs j).
Qed.

Lemma balanceInternal_shape :
  2 ≤ length cs →
  ∃ h' n', balanceInternal h (Internal mt ks cs) i = Some (h', n') ∧ good n'.
Proof using All.
  intros H2.
  destruct child_facts_internal
    as (Hck & Hcm & Hcc & Hilt & Hb1 & Hb2 & Hb3 & Hcap & Hbmin).
  pose proof Hcm as [Hcapc Hcbmin].
  destruct (decide (i = 0)) as [Hi0|Hi0].
  - destruct (lookup_lt_is_Some_2 cs (i + 1)) as [r Hr]; [lia|].
    destruct (decide (nbmin mt < length (nchildren r))).
    + by apply (balanceInternal_borrow_right_shape r).
    + apply (balanceInternal_merge_right_shape r); [done|lia|done].
  - destruct (lookup_lt_is_Some_2 cs (i - 1)) as [l Hl]; [lia|].
    destruct (decide (nbmin mt < length (nchildren l))).
    { by apply (balanceInternal_borrow_left_shape l). }
    destruct (decide (i = length cs - 1)) as [Hlast|Hlast].
    { apply (balanceInternal_merge_left_shape l); [done|done|done|lia]. }
    destruct (lookup_lt_is_Some_2 cs (i + 1)) as [r Hr]; [lia|].
    destruct (decide (nbmin mt < length (nchildren r))).
    + apply (balanceInternal_borrow_right_shape r); [done|done|].
      intros _. exists l. split; [done|lia].
    + apply (balanceInternal_merge_right_shape r); [done|lia|].
      intros _. exists l. split; [done|]. split; [lia|].
      destruct (sibling_internal (i - 1) l Hl) as (? & ? & ? & -> & _ & _ & ? & _); [lia|].
      simpl. lia.
Qed.
End BalanceInternal.

Lemma node_delete_shape m d h n key all idx :
  3 ≤ m → shape m d n → (d ≠ 0 → 2 ≤ count n) →
  ∃ h' n' res, node_delete h n key all idx = Some (h', n', res)
               ∧ shape m d n' ∧ count n ≤ count n' + 1 ∧ count n' ≤ count n.
Proof.
  intros Hm. pose proof (ceil_half_bounds m Hm) as Hb.
  revert h n. induction d as [|d IH]; intros h n Hn H2.
  - destruct (shape_0 _ _ Hn) as (mt & ks & vs & ->). cbn [node_delete].
    destruct (deleteFromLeaf_shape m mt ks vs key all idx Hn) as (n' & res & -> & ? & ? & ?).
    cbn [mbind option_bind]. by eexists _, _, _.
  - destruct (shape_S _ _ _ Hn) as (mt & ks & cs & ->).
    pose proof Hn as (d' & [= <-] & Hmeta & Hlen & Hle & Hcs)%shape_internal.
    specialize (H2 ltac:(done)). cbn [count] in H2.
    rewrite node_delete_internal. cbn zeta.
    destruct (childIndex_spec ks key) as (Hi & _).
    set (i := childIndex ks key) in *.
    destruct (lookup_lt_is_Some_2 cs i) as [c0 Hc0]; [lia|].
    rewrite Hc0. pose proof (Forall_lookup_1 _ _ _ _ Hcs Hc0) as [Hc0sh Hc0cnt].
    destruct (IH h c0 Hc0sh ltac:(lia)) as (h1 & c & res & Hdel & Hcsh & Hcnt1 & Hcnt2).
    rewrite Hdel. cbn [mbind option_bind].
    destruct res as [val|].
    2:{ destruct (node_delete_None _ _ _ _ _ _ _ Hdel) as [-> ->].
        rewrite list_insert_id by done. eexists _, _, _. split; [done|].
        split; [done|]. lia. }
    assert (Hothers : ∀ j x, <[i := c]> cs !! j = Some x → j ≠ i →
                             shape m d x ∧ ceil_half m ≤ count x).
    { intros j x Hx Hj. rewrite list_lookup_insert_ne in Hx by done.
      by eapply Forall_lookup_1 in Hcs. }
    assert (Hci : <[i := c]> cs !! i = Some c).
    { apply list_lookup_insert_eq. by eapply lookup_lt_Some. }
    assert (Hnob : ceil_half m ≤ count c →
                   shape m (S d) (Internal mt ks (<[i := c]> cs))).
    { intros Hge. apply shape_internal. exists d. rewrite length_insert.
      split_and!; try done. by apply Forall_insert. }
    destruct Hmeta as [Hcap Hbmin].
    destruct c as [mc kc vc|mc kc cc]; cbn [isLeaf nvalues nchildren].
    + pose proof (proj1 (shape_isInternal _ _ _ Hcsh)) as Hd0. cbn [isInternal] in Hd0.
      assert (d = 0) as -> by (destruct d; [done|]; exfalso; by apply Hd0).
      clear Hd0. cbn [count] in *. case_decide as Hunder.
      * destruct (balanceLeaf_shape m h1 mt ks (<[i := Leaf mc kc vc]> cs) i mc kc vc)
          as (h2 & n2 & Hbal & Hg1 & Hg2 & Hg3);
          rewrite ?length_insert; try done; try lia.
        rewrite Hbal. cbn [mbind option_bind]. eexists _, _, _. split; [done|].
        rewrite length_insert in Hg2, Hg3. by split_and!.
      * eexists _, _, _. split; [done|]. split; [apply Hnob; lia|].
        cbn [count]. rewrite length_insert. lia.
    + pose proof (proj1 (shape_isInternal _ _ _ Hcsh) eq_refl) as Hd0.
      destruct d as [|d]; [done|]. clear Hd0. cbn [count] in *. case_decide as Hunder.
      * destruct (balanceInternal_shape m d h1 mt ks (<[i := Internal mc kc cc]> cs) i mc kc cc)
          as (h2 & n2 & Hbal & Hg1 & Hg2 & Hg3);
          rewrite ?length_insert; try done; try lia.
        rewrite Hbal. cbn [mbind option_bind]. eexists _, _, _. split; [done|].
        rewrite length_insert in Hg2, Hg3. by split_and!.
      * eexists _, _, _. split; [done|]. split; [apply Hnob; lia|].
        cbn [count]. rewrite length_insert. lia.
Qed.

(** The value that a successful deletion returns is a collision for
    [DeleteAll] and a single value otherwise. *)
Lemma deleteFromLeaf_val n key all idx n' val :
  deleteFromLeaf n key all idx = Some (n', Some val) →
  if all then ∃ b, val = Bucket b else ∃ v, val = Solo v.
Proof.
  destruct n as [mt ks vs|mt ks cs]; [|done]. unfold deleteFromLeaf.
  destruct (keyIndex ks key) as [i|]; [|done].
  destruct (vs !! i) as [s|]; [|done]. cbn [mbind option_bind].
  assert (Hrem : ∀ val0 : slot V,
    (ks' ← slice_delete i ks; vs' ← slice_delete i vs; Some (Leaf mt ks' vs', Some val0))
    = Some (n', Some val) → val = val0).
  { intros val0. destruct (slice_delete i ks); [|done].
    destruct (slice_delete i vs); [|done]. by intros [= _ ->]. }
  destruct all.
  { destruct s as [v|b]; simpl; intros ->%Hrem; eauto. }
  destruct s as [v|b].
  { case_decide; [done|]. intros ->%Hrem. eauto. }
  case_decide; [done|].
  destruct (if decide (idx < 0)%Z then slice_pop b else _) as [[v b']|]; [|done].
  cbn [mbind option_bind]. case_decide.
  - intros [= _ <-]. eauto.
  - intros ->%Hrem. eauto.
Qed.

Lemma node_delete_val h n key all idx h' n' val :
  node_delete h n key all idx = Some (h', n', Some val) →
  if all then ∃ b, val = Bucket b else ∃ v, val = Solo v.
Proof.
  revert h h' n'. induction n as [mt ks vs|mt ks cs IH] using node_ind; intros h h' n'.
  - cbn [node_delete].
    destruct (deleteFromLeaf (Leaf mt ks vs) key all idx) as [[n1 r]|] eqn:E; [|done].
    cbn [mbind option_bind]. intros [= <- <- ->]. by eapply deleteFromLeaf_val.
  - rewrite node_delete_internal. cbn zeta.
    destruct (cs !! childIndex ks key) as [c0|] eqn:Ec; [|done].
    destruct (node_delete h c0 key all idx) as [[[h1 c] r]|] eqn:E; [|done].
    cbn [mbind option_bind]. destruct r as [v|]; [|done].
    destruct (if isLeaf c then _ else _) as [[h2 n2]|]; [|done].
    cbn [mbind option_bind]. intros [= <- <- <-].
    eapply Forall_lookup_1 in IH; [|done]. by eapply IH.
Qed.

Lemma delete_shape m h (t : BPTree V) key all idx :
  tree_shape m t →
  ∃ h' t' res, delete h t key all idx = Some (h', t', res) ∧ tree_shape m t'
               ∧ match res with
                 | Some val => if all then ∃ b, val = Bucket b else ∃ v, val = Solo v
                 | None => True
                 end.
Proof.
  intros (Hm & d & Hsh & Hroot). pose proof (ceil_half_bounds m Hm) as Hb.
  destruct (node_delete_shape m d h (root t) key all idx Hm Hsh)
    as (h' & n' & res & Hdel & Hsh' & Hc1 & Hc2).
  { intros Hd. apply Hroot. by apply (shape_isInternal _ _ _ Hsh). }
  unfold delete. rewrite Hdel. cbn [mbind option_bind].
  destruct res as [val|].
  2:{ destruct (node_delete_None _ _ _ _ _ _ _ Hdel) as [-> ->].
      eexists _, _, _. split; [done|]. split; [|done]. split; [done|]. by exists d. }
  pose proof (node_delete_val _ _ _ _ _ _ _ _ Hdel) as Hval.
  assert (Hroot' : tree_shape m (Tree (match n' with Internal _ _ [c] => c | _ => n' end) 0)).
  { split; [done|]. cbn [root].
    destruct n' as [mt ks vs|mt ks [|c [|c2 cs]]].
    - exists d. split; [done|]. done.
    - exists d. split; [done|]. intros _.
      apply shape_internal in Hsh' as (? & _ & _ & Hl & _). simpl in Hl. lia.
    - pose proof Hsh' as (d' & -> & _ & _ & _ & Hall)%shape_internal.
      apply Forall_inv in Hall as [Hc Hcc].
      exists d'. split; [done|]. intros _. lia.
    - exists d. split; [done|]. intros _. simpl. lia. }
  assert (Hany : ∀ sz, tree_shape m (Tree (match n' with Internal _ _ [c] => c | _ => n' end) sz)).
  { intros sz. destruct Hroot' as (? & d' & ? & ?). split; [done|]. by exists d'. }
  destruct all.
  - destruct Hval as [b ->]. eexists _, _, _. split; [done|]. split; [apply Hany|]. eauto.
  - eexists _, _, _. split; [done|]. split; [apply Hany|]. done.
Qed.
End DeleteShape.

(** * The shape after every public operation *)

Section PublicShape.
Context {V : Type}.
#[local] Existing Instance never_nil.
Implicit Types (h : heap) (n c : node V) (t : BPTree V) (cs : list (node V)).

Lemma NewBPTree_shape h order : tree_shape (clamp order) (NewBPTree (V := V) h order).2.
Proof.
  unfold NewBPTree, clamp, MinOrder. simpl.
  split; [case_decide; lia|]. exists 0. split; [|done].
  apply shape_leaf. by split_and!; try done; simpl; try lia.
Qed.

Lemma Clear_shape m h t : tree_shape m t → tree_shape m (Clear h t).2.
Proof.
  intros (Hm & d & Hsh & _). apply shape_meta in Hsh as [Hcap _].
  split; [done|]. exists 0. unfold Clear, node_cap. rewrite Hcap.
  split; [|by destruct (isLeaf (root t))].
  destruct (isLeaf (root t)); apply shape_leaf; by split_and!; try done; simpl; try lia.
Qed.

Lemma apply_op_shape m (o : op V) h t :
  tree_shape m t → ∃ h' t', apply_op o (h, t) = Some (h', t') ∧ tree_shape m t'.
Proof.
  intros Ht. destruct o as [key val|key val|key|key idx|key|]; cbn [apply_op].
  - by apply insert_shape.
  - by apply insert_shape.
  - unfold Delete.
    destruct (delete_shape m h t key false (-1) Ht) as (h' & t' & res & -> & Ht' & Hres).
    cbn [mbind option_bind]. destruct res as [val|]; [destruct Hres as [v ->]|]; by eexists _, _.
  - unfold DeleteOne.
    destruct (delete_shape m h t key false idx Ht) as (h' & t' & res & -> & Ht' & Hres).
    cbn [mbind option_bind]. destruct res as [val|]; [destruct Hres as [v ->]|]; by eexists _, _.
  - unfold DeleteAll.
    destruct (delete_shape m h t key true 0 Ht) as (h' & t' & res & -> & Ht' & Hres).
    cbn [mbind option_bind]. destruct res as [val|]; [destruct Hres as [v ->]|]; by eexists _, _.
  - eexists _, _. split; [by rewrite <- surjective_pairing|]. by apply Clear_shape.
Qed.

Lemma run_shape m (ops : list (op V)) h t :
  tree_shape m t → ∃ h' t', run ops (h, t) = Some (h', t') ∧ tree_shape m t'.
Proof.
  revert h t. induction ops as [|o ops IH]; intros h t Ht; cbn [run].
  - by eexists _, _.
  - destruct (apply_op_shape m o h t Ht) as (h1 & t1 & -> & Ht1). cbn [mbind option_bind].
    by apply IH.
Qed.

(** From the shape to the occupancy bounds. *)
Lemma occupied_internal m mt ks cs :
  occupied m (Internal mt ks cs) ↔
  ceil_half m ≤ length cs ≤ m ∧ Forall (occupied m) cs.
Proof.
  cbn [occupied occupants]. apply and_iff_compat_l.
  induction cs as [|c cs IH]; [by split|].
  rewrite Forall_cons. by apply and_iff_compat_l.
Qed.

Lemma shape_occupied m d n : shape m d n → ceil_half m ≤ count n → occupied m n.
Proof.
  revert n. induction d as [|d IH]; intros n Hsh Hcnt.
  - destruct (shape_0 _ _ Hsh) as (mt & ks & vs & ->).
    apply shape_leaf in Hsh as (_ & _ & Hlen & Hle & _). simpl in *. lia.
  - destruct (shape_S _ _ _ Hsh) as (mt & ks & cs & ->).
    apply shape_internal in Hsh as (? & [= <-] & _ & Hlen & Hle & Hcs).
    apply occupied_internal. split; [simpl in Hcnt; lia|].
    eapply Forall_impl; [done|]. intros c [? ?]. by apply IH.
Qed.

Lemma tree_shape_occupancy m t : tree_shape m t → occupancy m t.
Proof.
  intros (Hm & d & Hsh & Hroot). unfold occupancy.
  destruct (root t) as [mt ks vs|mt ks cs].
  - by apply shape_leaf in Hsh as (_ & _ & _ & ? & _).
  - apply shape_internal in Hsh as (d' & -> & _ & _ & Hle & Hcs).
    specialize (Hroot eq_refl). simpl in Hroot. split; [lia|].
    eapply Forall_impl; [done|]. intros c [? ?]. by eapply shape_occupied.
Qed.

(** On values without nil, the public operations never panic on a tree
    made by [NewBPTree] and changed by public operations only. *)
Lemma run_total order h0 (ops : list (op V)) :
  is_Some (run ops (NewBPTree (V := V) h0 order)).
Proof.
  destruct (run_shape (clamp order) ops (NewBPTree (V := V) h0 order).1 (NewBPTree h0 order).2)
    as (h' & t' & Hrun & _); [apply NewBPTree_shape|].
  rewrite <- surjective_pairing in Hrun. by rewrite Hrun.
Qed.

Lemma reachable_occupancy order h0 (ops : list (op V)) h t :
  run ops (NewBPTree (V := V) h0 order) = Some (h, t) → occupancy (clamp order) t.
Proof.
  intros Hrun.
  destruct (run_shape (clamp order) ops (NewBPTree (V := V) h0 order).1 (NewBPTree h0 order).2)
    as (h' & t' & Hrun' & Ht'); [apply NewBPTree_shape|].
  rewrite <- surjective_pairing in Hrun'. rewrite Hrun in Hrun'. injection Hrun' as <- <-.
  by apply tree_shape_occupancy.
Qed.
End PublicShape.

Section Occupancy.
Context {V : Type} {N : Nil V}.

(** C9.  After every sequence of public operations on a new tree of order
    [m], every node below the root holds between [bmin] and [m] entries
    (children of an internal node, keys of a leaf); the root is exempt from
    the lower bound and an internal root has at least two children. *)
Theorem C9_occupancy order h0 (ops : list (op V)) h t :
  run ops (NewBPTree (V := V) h0 order) = Some (h, t) → occupancy (clamp order) t.
Proof. intros Hrun%run_refines. by eapply reachable_occupancy. Qed.
End Occupancy.

(** The first scenario of the tests, followed by the second. *)
Definition scenario_ops : list (op nat) :=
  map (λ k, OInsert k (Z.to_nat k))
      [21; 3; 26; 7; 29; 5; 2; 28; 4; 27; 9; 23; 15; 12; 1; 14; 25; 24; 6; 13; 17; 8;
       11; 10; 19; 18; 22; 16; 0; 20]%Z
  ++ map ODelete [18; 15; 19; 7; 23; 13; 0; 26]%Z.

Definition scenario_state : heap * BPTree nat :=
  Eval vm_compute in default (empty_heap, Tree (Leaf (Meta 0 0 0) [] []) 0)
                             (run scenario_ops (NewBPTree empty_heap 3)).

Lemma C9_occupancy_witness : occupancy 3 scenario_state.2.
Proof.
  apply (C9_occupancy 3 empty_heap scenario_ops scenario_state.1 scenario_state.2).
  vm_compute. reflexivity.
Defined.

(** A tree in which the key 5 has the bucket [5; 100; 101]. *)
Definition bucket_ops : list (op nat) :=
  map (λ k, OInsert k (Z.to_nat k)) [21; 3; 26; 7; 29; 5; 2; 28; 4; 27; 9]%Z
  ++ [OAppend 5%Z 100; OAppend 5%Z 101].

Definition bucket_state : heap * BPTree nat :=
  Eval vm_compute in default (empty_heap, Tree (Leaf (Meta 0 0 0) [] []) 0)
                             (run bucket_ops (NewBPTree empty_heap 3)).

Lemma C10_failed_delete_unchanged_witness :
  (bucket_state.1 = bucket_state.1 ∧ bucket_state.2 = bucket_state.2)
  ∧ (bucket_state.1 = bucket_state.1 ∧ bucket_state.2 = bucket_state.2)
  ∧ (bucket_state.1 = bucket_state.1 ∧ bucket_state.2 = bucket_state.2).
Proof.
  destruct (C10_failed_delete_unchanged bucket_state.1 bucket_state.2 100%Z 0%Z
              bucket_state.1 bucket_state.2) as (H1 & _ & H3).
  destruct (C10_failed_delete_unchanged bucket_state.1 bucket_state.2 5%Z 3%Z
              bucket_state.1 bucket_state.2) as (_ & H2 & _).
  split; [|split].
  - apply H1. vm_compute. reflexivity.
  - apply H2. vm_compute. reflexivity.
  - apply H3. vm_compute. reflexivity.
Defined.

(** * The order of the keys *)

Arguments ordered : simpl never.

Section Bounds.
Implicit Types (ks : list Z) (lo hi : option Z).

Lemma child_bounds_nil lo hi : child_bounds lo hi [] = [(lo, hi)].
Proof. done. Qed.

Lemma child_bounds_cons lo hi k ks :
  child_bounds lo hi (k :: ks) = (lo, Some k) :: child_bounds (Some k) hi ks.
Proof. done. Qed.

Lemma length_child_bounds lo hi ks : length (child_bounds lo hi ks) = S (length ks).
Proof.
  revert lo. induction ks as [|k ks IH]; intros lo; [done|].
  rewrite child_bounds_cons. simpl. by rewrite IH.
Qed.

Lemma child_bounds_app lo hi ks1 k ks2 :
  child_bounds lo hi (ks1 ++ k :: ks2)
  = child_bounds lo (Some k) ks1 ++ child_bounds (Some k) hi ks2.
Proof.
  revert lo. induction ks1 as [|k1 ks1 IH]; intros lo; [done|].
  rewrite <- app_comm_cons, !child_bounds_cons, IH. done.
Qed.

Lemma child_bounds_lookup lo hi ks i :
  i ≤ length ks → child_bounds lo hi ks !! i = Some (lo_at lo ks i, hi_at hi ks i).
Proof.
  revert lo i. induction ks as [|k ks IH]; intros lo i Hi.
  - simpl in Hi. by replace i with 0 by lia.
  - rewrite child_bounds_cons. destruct i as [|i]; [done|].
    simpl in Hi. simpl. rewrite IH by lia. unfold lo_at, hi_at. simpl.
    destruct i as [|i]; [done|]. simpl.
    destruct (ks !! i) eqn:E; [done|]. apply lookup_ge_None in E. lia.
Qed.

Lemma child_bounds_take lo hi ks i x :
  i ≤ length ks →
  child_bounds lo x (take i ks) = take i (child_bounds lo hi ks) ++ [(lo_at lo ks i, x)].
Proof.
  revert lo i. induction ks as [|k ks IH]; intros lo i Hi.
  - simpl in Hi. by replace i with 0 by lia.
  - destruct i as [|i]; [done|]. simpl in Hi.
    cbn [take]. rewrite !child_bounds_cons. cbn [take]. rewrite (IH (Some k) i) by lia.
    simpl. do 3 f_equal. unfold lo_at. destruct i as [|i]; [done|]. simpl.
    destruct (ks !! i) eqn:E; [done|]. apply lookup_ge_None in E. lia.
Qed.

Lemma child_bounds_drop lo hi ks i x :
  i ≤ length ks →
  child_bounds x hi (drop i ks) = (x, hi_at hi ks i) :: drop (S i) (child_bounds lo hi ks).
Proof.
  revert lo i. induction ks as [|k ks IH]; intros lo i Hi.
  - simpl in Hi. by replace i with 0 by lia.
  - destruct i as [|i].
    + by rewrite drop_0, !child_bounds_cons.
    + simpl in Hi. cbn [drop]. rewrite (IH (Some k) i) by lia.
      rewrite child_bounds_cons. done.
Qed.
End Bounds.

Section OrderedFacts.
Context {V : Type}.
#[local] Existing Instance never_nil.
Implicit Types (n c : node V) (vs lv rv : list (slot V)) (cs lc rc : list (node V)).
Implicit Types (ks lk rk : list Z) (lo hi : option Z).

Lemma ordered_leaf d lo hi mt ks vs :
  ordered d lo hi (Leaf mt ks vs) ↔
  d = 0 ∧ StronglySorted Z.lt ks ∧ Forall (λ k, above lo k ∧ under hi k) ks.
Proof.
  unfold ordered. destruct d.
  - split; [by intros []|by intros (_ & ? & ?)].
  - split; [done|]. by intros [? _].
Qed.

Lemma ordered_internal d lo hi mt ks cs :
  ordered d lo hi (Internal mt ks cs) ↔
  ∃ d', d = S d' ∧ StronglySorted Z.lt ks
        ∧ Forall (λ k, strictly_above lo k ∧ under hi k) ks
        ∧ Forall2 (λ c b, ordered d' b.1 b.2 c) cs (child_bounds lo hi ks).
Proof.
  destruct d as [|d'].
  - split; [done|]. by intros (? & ? & _).
  - split; [intros; by exists d'|]. by intros (? & [= <-] & ?).
Qed.

Lemma ordered_0 lo hi n : ordered 0 lo hi n → ∃ mt ks vs, n = Leaf mt ks vs.
Proof. destruct n; [eauto|done]. Qed.

Lemma ordered_S d lo hi n : ordered (S d) lo hi n → ∃ mt ks cs, n = Internal mt ks cs.
Proof. destruct n; [done|eauto]. Qed.

(** ** The scans on appended lists *)

Lemma keyIndex_app ks1 ks2 key :
  keyIndex (ks1 ++ ks2) key
  = match keyIndex ks1 key with
    | Some i => Some i
    | None => (λ j, length ks1 + j) <$> keyIndex ks2 key
    end.
Proof.
  induction ks1 as [|k ks1 IH]; simpl.
  - by destruct (keyIndex ks2 key).
  - destruct (k =? key)%Z; [done|]. rewrite IH.
    destruct (keyIndex ks1 key); [done|]. by destruct (keyIndex ks2 key).
Qed.

Lemma childIndex_all_le ks key :
  Forall (λ k, (k ≤ key)%Z) ks → childIndex ks key = length ks.
Proof.
  induction 1 as [|k ks Hk _ IH]; simpl; [done|].
  destruct (Z.ltb_spec key k); [lia|]. by rewrite IH.
Qed.

Lemma childIndex_app ks1 ks2 key :
  childIndex (ks1 ++ ks2) key
  = if decide (childIndex ks1 key < length ks1) then childIndex ks1 key
    else length ks1 + childIndex ks2 key.
Proof.
  induction ks1 as [|k ks1 IH]; simpl; [done|].
  destruct (Z.ltb_spec key k).
  - rewrite decide_True by lia. done.
  - rewrite IH. repeat case_decide; lia.
Qed.

Lemma childIndex_insert ks key key2 :
  childIndex (take (childIndex ks key) ks ++ key2 :: drop (childIndex ks key) ks) key
  = if (key <? key2)%Z then childIndex ks key else S (childIndex ks key).
Proof.
  destruct (childIndex_spec ks key) as (Hi & Hle & Hgt).
  set (i := childIndex ks key) in *.
  rewrite childIndex_app, (childIndex_all_le (take i ks)) by done.
  rewrite decide_False by lia. rewrite length_take. simpl.
  destruct (key <? key2)%Z; [lia|].
  assert (childIndex (drop i ks) key = 0) as ->; [|lia].
  destruct (drop i ks) as [|k l] eqn:E; [done|]. simpl.
  assert (ks !! i = Some k) as Hk.
  { rewrite <- (Nat.add_0_r i), <- lookup_drop, E. done. }
  apply Hgt in Hk. by destruct (Z.ltb_spec key k); [|lia].
Qed.

Lemma keyPos_eq ks key i :
  i ≤ length ks → Forall (λ k, (k < key)%Z) (take i ks) →
  (∀ k, ks !! i = Some k → (key ≤ k)%Z) → keyPos ks key = i.
Proof.
  revert i. induction ks as [|k ks IH]; intros i Hi Hlt Hge.
  - simpl in Hi. by replace i with 0 by lia.
  - simpl. destruct i as [|i].
    + specialize (Hge k eq_refl). by destruct (Z.ltb_spec k key); [lia|].
    + simpl in Hlt, Hi. apply Forall_cons in Hlt as [Hk Hlt].
      destruct (Z.ltb_spec k key); [|lia]. f_equal. apply IH; [lia|done|done].
Qed.

(** ** Search in the two halves of a split node *)

Lemma find_split_leaf m m1 m2 lk rk lv rv key2 key :
  StronglySorted Z.lt (lk ++ rk) → head rk = Some key2 → length lv = length lk →
  node_find (Leaf m (lk ++ rk) (lv ++ rv)) key
  = if (key <? key2)%Z then node_find (Leaf m1 lk lv) key
    else node_find (Leaf m2 rk rv) key.
Proof.
  intros Hs Hhd Hlen. apply sorted_app in Hs as (Hs1 & Hs2 & H12).
  destruct rk as [|k rk']; [done|]. injection Hhd as ->.
  cbn [node_find]. rewrite keyIndex_app.
  destruct (keyIndex lk key) as [i|] eqn:E1.
  - apply keyIndex_Some in E1 as [Hi _].
    assert (key < key2)%Z as Hlt.
    { apply H12; [by eapply list_elem_of_lookup_2|left]. }
    destruct (Z.ltb_spec key key2); [|lia].
    rewrite lookup_app_l; [done|]. rewrite Hlen. by eapply lookup_lt_Some.
  - destruct (Z.ltb_spec key key2) as [Hlt|Hge].
    + assert (keyIndex (key2 :: rk') key = None) as ->; [|done].
      apply keyIndex_None. intros [->|Hin]%elem_of_cons; [lia|].
      apply sorted_cons in Hs2 as [_ Hall]. eapply Forall_forall in Hall; [|done]. lia.
    + destruct (keyIndex (key2 :: rk') key) as [j|]; [|done]. cbn [fmap option_fmap option_map].
      rewrite lookup_app_r by lia. by replace (length lk + j - length lv) with j by lia.
Qed.

Lemma find_split_internal m m1 m2 lk k rk lc rc key :
  StronglySorted Z.lt (lk ++ k :: rk) → length lc = S (length lk) →
  node_find (Internal m (lk ++ k :: rk) (lc ++ rc)) key
  = if (key <? k)%Z then node_find (Internal m1 lk lc) key
    else node_find (Internal m2 rk rc) key.
Proof.
  intros Hs Hlen. apply sorted_app in Hs as (Hs1 & Hs2 & H12).
  rewrite !node_find_internal. rewrite childIndex_app.
  destruct (childIndex_spec lk key) as (Hi & Hle & Hgt).
  destruct (Z.ltb_spec key k) as [Hlt|Hge].
  - assert (Hidx : (if decide (childIndex lk key < length lk) then childIndex lk key
                    else length lk + childIndex (k :: rk) key) = childIndex lk key).
    { case_decide; [done|]. simpl. destruct (Z.ltb_spec key k); lia. }
    rewrite Hidx. rewrite lookup_app_l by lia. done.
  - rewrite decide_False.
    2:{ intros Hlt. destruct (lookup_lt_is_Some_2 lk (childIndex lk key) Hlt) as [k' Hk'].
        pose proof (Hgt k' Hk'). assert (k' < k)%Z; [|lia].
        apply H12; [by eapply list_elem_of_lookup_2|left]. }
    simpl. destruct (Z.ltb_spec key k); [lia|].
    rewrite lookup_app_r by lia.
    by replace (length lk + S (childIndex rk key) - length lc) with (childIndex rk key) by lia.
Qed.

(** ** The halves of a split node are ordered *)

Lemma ordered_split_leaf lo hi m m1 m2 lk rk vs lv rv key2 :
  ordered 0 lo hi (Leaf m (lk ++ rk) vs) → head rk = Some key2 → 0 < length lk →
  ordered 0 lo (Some key2) (Leaf m1 lk lv) ∧ ordered 0 (Some key2) hi (Leaf m2 rk rv)
  ∧ strictly_above lo key2 ∧ under hi key2.
Proof.
  intros (_ & Hs & Hb)%ordered_leaf Hhd Hlk.
  apply sorted_app in Hs as (Hs1 & Hs2 & H12). apply Forall_app in Hb as [Hb1 Hb2].
  destruct rk as [|k rk']; [done|]. injection Hhd as ->.
  pose proof (Forall_inv Hb2) as [_ Hhi].
  destruct lk as [|k0 lk']; [simpl in Hlk; lia|].
  pose proof (Forall_inv Hb1) as [Hlo _].
  assert (k0 < key2)%Z by (apply H12; left).
  split_and!; [| | |done].
  - apply ordered_leaf. split_and!; [done|done|].
    apply Forall_forall. intros x Hx. split.
    + by eapply Forall_forall in Hb1 as [? _].
    + simpl. apply H12; [done|left].
  - apply ordered_leaf. split_and!; [done|done|].
    apply Forall_forall. intros x Hx. split.
    + simpl. apply elem_of_cons in Hx as [->|Hx]; [lia|].
      apply sorted_cons in Hs2 as [_ Hall]. eapply Forall_forall in Hall; [|done]. lia.
    + by eapply Forall_forall in Hb2 as [_ ?].
  - destruct lo; simpl in *; [lia|done].
Qed.

Lemma ordered_split_internal d lo hi m m1 m2 lk k rk lc rc :
  ordered (S d) lo hi (Internal m (lk ++ k :: rk) (lc ++ rc)) → length lc = S (length lk) →
  ordered (S d) lo (Some k) (Internal m1 lk lc) ∧ ordered (S d) (Some k) hi (Internal m2 rk rc)
  ∧ strictly_above lo k ∧ under hi k.
Proof.
  intros (d' & [= <-] & Hs & Hb & Hcs)%ordered_internal Hlen.
  pose proof Hs as (Hs1 & Hs2 & H12)%sorted_app. apply sorted_cons in Hs2 as [Hs2 Hk2].
  apply Forall_app in Hb as [Hb1 Hb2]. apply Forall_cons in Hb2 as [[Hklo Hkhi] Hb2].
  rewrite child_bounds_app in Hcs.
  apply Forall2_app_inv in Hcs as [Hcs1 Hcs2]; [|by rewrite length_child_bounds].
  split_and!; [| |done|done].
  - apply ordered_internal. exists d. split_and!; [done|done| |done].
    apply Forall_forall. intros x Hx. split.
    + by eapply Forall_forall in Hb1 as [? _].
    + simpl. apply H12; [done|left].
  - apply ordered_internal. exists d. split_and!; [done|done| |done].
    apply Forall_forall. intros x Hx. split.
    + simpl. by eapply Forall_forall in Hk2.
    + by eapply Forall_forall in Hb2 as [_ ?].
Qed.

(** ** The child that a key leads to *)

Lemma bounds_at_key lo hi ks key :
  StronglySorted Z.lt ks → above lo key → under hi key →
  above (lo_at lo ks (childIndex ks key)) key ∧ under (hi_at hi ks (childIndex ks key)) key.
Proof.
  intros Hs Hlo Hhi. destruct (childIndex_spec ks key) as (Hi & Hle & Hgt).
  set (i := childIndex ks key) in *. split.
  - unfold lo_at. destruct i as [|j]; [done|].
    destruct (ks !! j) as [k|] eqn:E; [|done]. simpl.
    assert (Hk : take (S j) ks !! j = Some k) by (by rewrite lookup_take_lt by lia).
    by eapply Forall_lookup_1 in Hle.
  - unfold hi_at. destruct (ks !! i) as [k|] eqn:E; [|done]. simpl. by apply Hgt.
Qed.

Lemma ordered_child d lo hi mt ks cs i :
  ordered (S d) lo hi (Internal mt ks cs) → i ≤ length ks →
  ∃ c, cs !! i = Some c ∧ ordered d (lo_at lo ks i) (hi_at hi ks i) c.
Proof.
  intros (d' & [= <-] & Hs & Hb & Hcs)%ordered_internal Hi.
  pose proof (child_bounds_lookup lo hi ks i Hi) as Hbi.
  destruct (Forall2_lookup_r _ _ _ _ _ Hcs Hbi) as (c & Hc & Hord). eauto.
Qed.

Lemma ordered_length d lo hi mt ks cs :
  ordered (S d) lo hi (Internal mt ks cs) → length cs = S (length ks).
Proof.
  intros (d' & _ & _ & _ & Hcs)%ordered_internal.
  apply Forall2_length in Hcs. by rewrite length_child_bounds in Hcs.
Qed.

Lemma ordered_replace_child d lo hi mt ks cs i c' :
  ordered (S d) lo hi (Internal mt ks cs) → i ≤ length ks →
  ordered d (lo_at lo ks i) (hi_at hi ks i) c' →
  ordered (S d) lo hi (Internal mt ks (<[i := c']> cs)).
Proof.
  intros (d' & [= <-] & Hs & Hb & Hcs)%ordered_internal Hi Hc'.
  apply ordered_internal. exists d. split_and!; [done..|].
  rewrite <- (list_insert_id (child_bounds lo hi ks) i (lo_at lo ks i, hi_at hi ks i))
    by by apply child_bounds_lookup.
  by apply Forall2_insert.
Qed.

(** The bounds at [i] lie within the bounds of the node. *)
Lemma lo_at_strict lo hi ks i key2 :
  Forall (λ k, strictly_above lo k ∧ under hi k) ks →
  strictly_above (lo_at lo ks i) key2 → strictly_above lo key2.
Proof.
  intros Hb. unfold lo_at. destruct i as [|j]; [done|].
  destruct (ks !! j) as [k|] eqn:E; [|done]. simpl. intros Hlt.
  eapply Forall_lookup_1 in Hb as [Hlo _]; [|done].
  destruct lo; simpl in *; [lia|done].
Qed.

Lemma hi_at_under lo hi ks i key2 :
  Forall (λ k, strictly_above lo k ∧ under hi k) ks →
  under (hi_at hi ks i) key2 → under hi key2.
Proof.
  intros Hb. unfold hi_at. destruct (ks !! i) as [k|] eqn:E; [|done]. simpl. intros Hlt.
  eapply Forall_lookup_1 in Hb as [_ Hhi]; [|done].
  destruct hi; simpl in *; [lia|done].
Qed.

Lemma sorted_lookup_lt ks i j a b :
  StronglySorted Z.lt ks → ks !! i = Some a → ks !! j = Some b → i < j → (a < b)%Z.
Proof.
  intros Hs. revert i j. induction Hs as [|k ks Hs IH Hall]; intros i j Ha Hb Hij; [done|].
  destruct j as [|j]; [lia|]. destruct i as [|i].
  - injection Ha as ->. simpl in Hb. eapply Forall_lookup_1 in Hall; done.
  - simpl in Ha, Hb. eapply IH; [done..|lia].
Qed.

(** The separators before [i] are below a key above [lo_at i], those from
    [i] on are above a key under [hi_at i]. *)
Lemma separators_around lo hi ks i key2 :
  StronglySorted Z.lt ks → i ≤ length ks →
  strictly_above (lo_at lo ks i) key2 → under (hi_at hi ks i) key2 →
  Forall (λ k, (k < key2)%Z) (take i ks) ∧ Forall (λ k, (key2 < k)%Z) (drop i ks).
Proof.
  intros Hs Hi Hlo Hhi. split; apply Forall_lookup; intros j k Hk.
  - pose proof (lookup_lt_Some _ _ _ Hk) as Hj. rewrite length_take in Hj.
    rewrite lookup_take_lt in Hk by lia.
    unfold lo_at in Hlo. destruct i as [|i']; [lia|].
    destruct (ks !! i') as [k'|] eqn:E; [|apply lookup_ge_None in E; lia].
    simpl in Hlo. destruct (decide (j = i')) as [->|]; [naive_solver lia|].
    assert (k < k')%Z; [|lia]. eapply (sorted_lookup_lt ks j i'); [done..|lia].
  - rewrite lookup_drop in Hk. unfold hi_at in Hhi.
    destruct (ks !! i) as [k'|] eqn:E; [|apply lookup_ge_None in E; apply lookup_lt_Some in Hk; lia].
    simpl in Hhi. destruct (decide (j = 0)) as [->|].
    + rewrite Nat.add_0_r in Hk. naive_solver lia.
    + assert (k' < k)%Z; [|lia]. eapply (sorted_lookup_lt ks i (i + j)); [done..|lia].
Qed.

Lemma take_S_insert {A} (l : list A) i x :
  i < length l → take (S i) (<[i := x]> l) = take i l ++ [x].
Proof.
  revert i. induction l as [|y l IH]; intros i Hi; [simpl in Hi; lia|].
  destruct i as [|i]; [done|]. simpl in *. f_equal. apply IH. lia.
Qed.

Lemma drop_S_insert {A} (l : list A) i x : drop (S i) (<[i := x]> l) = drop (S i) l.
Proof.
  revert i. induction l as [|y l IH]; intros i; [done|].
  destruct i as [|i]; [done|]. simpl. apply IH.
Qed.

Lemma ordered_insert_child d lo hi mt ks cs i c' n2 key2 :
  ordered (S d) lo hi (Internal mt ks cs) → i ≤ length ks →
  ordered d (lo_at lo ks i) (Some key2) c' → ordered d (Some key2) (hi_at hi ks i) n2 →
  strictly_above (lo_at lo ks i) key2 → under (hi_at hi ks i) key2 →
  keyPos ks key2 = i
  ∧ ordered (S d) lo hi
      (Internal mt (take i ks ++ key2 :: drop i ks)
                (take (i + 1) (<[i := c']> cs) ++ n2 :: drop (i + 1) (<[i := c']> cs))).
Proof.
  intros Hord Hi Hc' Hn2 Hlo Hhi.
  pose proof (ordered_length _ _ _ _ _ _ Hord) as Hlen.
  pose proof Hord as (d' & [= <-] & Hs & Hb & Hcs)%ordered_internal.
  destruct (separators_around lo hi ks i key2 Hs Hi Hlo Hhi) as [Hlt Hgt].
  split.
  { apply keyPos_eq; [done|done|]. intros k Hk.
    eapply Forall_lookup_1 in Hgt; [|by rewrite lookup_drop, Nat.add_0_r]. simpl in Hgt. lia. }
  apply ordered_internal. exists d. split_and!; [done| | |].
  - by apply sorted_insert.
  - apply Forall_insert_at; [done|]. split; [by eapply lo_at_strict|by eapply hi_at_under].
  - rewrite child_bounds_app.
    rewrite (child_bounds_take lo hi ks i (Some key2)) by done.
    rewrite (child_bounds_drop lo hi ks i (Some key2)) by done.
    replace (i + 1) with (S i) by lia.
    rewrite take_S_insert by lia. rewrite drop_S_insert.
    rewrite <- !app_assoc. apply Forall2_app; [by apply Forall2_take|].
    simpl. constructor; [done|]. constructor; [done|]. by apply Forall2_drop.
Qed.

(** ** Insertion keeps the order and makes the key found *)

Lemma keyIndex_intro ks key p :
  ks !! p = Some key → Forall (λ k, (k < key)%Z) (take p ks) → keyIndex ks key = Some p.
Proof.
  revert p. induction ks as [|k ks IH]; intros p Hp Hlt; [done|].
  destruct p as [|p]; simpl in *.
  - injection Hp as ->. by rewrite Z.eqb_refl.
  - apply Forall_cons in Hlt as [Hk Hlt]. destruct (Z.eqb_spec k key); [lia|].
    by rewrite (IH p).
Qed.

Lemma keyIndex_below ks key : Forall (λ k, (k < key)%Z) ks → keyIndex ks key = None.
Proof.
  intros Hlt. apply keyIndex_None. intros Hin. eapply Forall_forall in Hlt; [|done]. lia.
Qed.

Lemma keyIndex_insert_at ks key p :
  p ≤ length ks → Forall (λ k, (k < key)%Z) (take p ks) →
  keyIndex (take p ks ++ key :: drop p ks) key = Some p.
Proof.
  intros Hp Hlt. rewrite keyIndex_app, keyIndex_below by done. simpl.
  rewrite Z.eqb_refl. simpl. f_equal. rewrite length_take. lia.
Qed.

Lemma insertToLeaf_ordered m lo hi h mt ks vs key val replace r :
  3 ≤ m → shape m 0 (Leaf mt ks vs) → ordered 0 lo hi (Leaf mt ks vs) →
  above lo key → under hi key →
  insertToLeaf h (Leaf mt ks vs) key val replace = Some r →
  ins_post 0 lo hi (Leaf mt ks vs) key val replace r.
Proof.
  intros Hm (_ & [Hcap Hbmin] & Hlen & Hle & Hvs)%shape_leaf Hord Hlo Hhi.
  pose proof Hord as (_ & Hs & Hb)%ordered_leaf.
  pose proof (ceil_half_bounds m Hm) as Hbm.
  destruct (leafScan ks key 0 0) as [i|pos] eqn:Hscan.
  - destruct (insertToLeaf_found h mt ks vs key val replace i Hlen Hscan)
      as (s & Hsi & Hki & ->).
    intros [= <-]. unfold ins_post. cbn [i_n2 i_node].
    destruct (leafScan_inl _ _ _ _ Hscan) as (p & -> & _ & Hlt). cbn [Nat.add] in *.
    pose proof (keyIndex_intro ks key p Hki Hlt) as Hidx.
    split; [by apply ordered_leaf|].
    cbn [node_find]. rewrite Hidx, Hsi. cbn [mbind option_bind].
    rewrite list_lookup_insert_eq by (by eapply lookup_lt_Some).
    cbn [mbind option_bind]. by destruct replace.
  - destruct (leafScan_inr _ _ _ _ Hscan) as (p & -> & Hp & Hlt & Hhd). cbn [Nat.add] in *.
    pose proof (sorted_drop_above _ _ _ Hs Hhd) as Hgt.
    assert (Hnone : keyIndex ks key = None).
    { rewrite <- (take_drop p ks). rewrite keyIndex_app, keyIndex_below by done.
      assert (keyIndex (drop p ks) key = None) as ->; [|done].
      apply keyIndex_None. intros Hin. eapply Forall_forall in Hgt; [|done]. lia. }
    assert (Hnew : new_slot replace val (node_find (Leaf mt ks vs) key) = Solo val).
    { cbn [node_find]. rewrite Hnone. by destruct replace. }
    assert (Hvirt : ∀ mt', ordered 0 lo hi (Leaf mt' (take p ks ++ key :: drop p ks)
                                                (take p vs ++ Solo val :: drop p vs))).
    { intros mt'. apply ordered_leaf. split_and!; [done|by apply sorted_insert|].
      by apply Forall_insert_at. }
    assert (Hfind : ∀ mt', node_find (Leaf mt' (take p ks ++ key :: drop p ks)
                                          (take p vs ++ Solo val :: drop p vs)) key
                           = Some (Some (Solo val))).
    { intros mt'. cbn [node_find]. rewrite keyIndex_insert_at by done.
      rewrite lookup_insert_at by lia. done. }
    destruct (decide (length ks < m)) as [Hroom|Hfull].
    + rewrite (insertToLeaf_room h mt ks vs key val replace p) by (done || lia).
      intros [= <-]. unfold ins_post. cbn [i_n2 i_node]. rewrite Hnew. by split.
    + destruct (insertToLeaf_full h mt ks vs key val replace p)
        as (lk & lv & rk & rv & key2 & -> & Hk & Hv & Hlk & Hlv & Hhead); [done|lia|lia|done|].
      intros [= <-]. unfold ins_post. cbn [i_n2 i_node i_key2]. rewrite Hnew.
      specialize (Hvirt mt). specialize (Hfind mt). rewrite <- Hk, <- Hv in Hvirt, Hfind.
      destruct (ordered_split_leaf lo hi mt mt (split_meta h (ncap mt)) lk rk (lv ++ rv)
                  lv rv key2 Hvirt Hhead) as (H1 & H2 & H3 & H4); [lia|].
      split_and!; [done..|].
      rewrite <- (find_split_leaf mt mt (split_meta h (ncap mt)) lk rk lv rv key2 key);
        [done| |done|lia].
      by apply ordered_leaf in Hvirt as (_ & ? & _).
Qed.

Lemma find_inserted_child mt ks cs c' c2 key key2 :
  childIndex ks key < length cs →
  node_find (Internal mt (take (childIndex ks key) ks ++ key2 :: drop (childIndex ks key) ks)
               (take (childIndex ks key + 1) (<[childIndex ks key := c']> cs)
                ++ c2 :: drop (childIndex ks key + 1) (<[childIndex ks key := c']> cs))) key
  = if (key <? key2)%Z then node_find c' key else node_find c2 key.
Proof.
  intros Hi. rewrite node_find_internal, childIndex_insert.
  set (i := childIndex ks key) in *.
  destruct (key <? key2)%Z.
  - rewrite lookup_app_l by (rewrite length_take, length_insert; lia).
    rewrite lookup_take_lt by lia. by rewrite list_lookup_insert_eq by lia.
  - rewrite lookup_app_r by (rewrite length_take, length_insert; lia).
    rewrite length_take, length_insert.
    by replace (S i - (i + 1) `min` length cs) with 0 by lia.
Qed.

Lemma node_insert_ordered m d lo hi h n key val replace r :
  3 ≤ m → shape m d n → ordered d lo hi n → above lo key → under hi key →
  node_insert h n key val replace = Some r → ins_post d lo hi n key val replace r.
Proof.
  intros Hm. revert lo hi h n r. induction d as [|d IH]; intros lo hi h n r Hsh Hord Hlo Hhi.
  - destruct (shape_0 _ _ Hsh) as (mt & ks & vs & ->). cbn [node_insert].
    by apply (insertToLeaf_ordered m).
  - destruct (shape_S _ _ _ Hsh) as (mt & ks & cs & ->).
    pose proof Hsh as (d' & [= <-] & [Hcap Hbmin] & Hlen & Hle & Hcs)%shape_internal.
    pose proof Hord as (d' & [= <-] & Hs & Hb & _)%ordered_internal.
    pose proof (ceil_half_bounds m Hm) as Hbm.
    destruct (childIndex_spec ks key) as (Hi & _).
    destruct (bounds_at_key lo hi ks key Hs Hlo Hhi) as [Hloi Hhii].
    destruct (ordered_child d lo hi mt ks cs (childIndex ks key) Hord Hi) as (c & Hc & Hcord).
    pose proof (Forall_lookup_1 _ _ _ _ Hcs Hc) as [Hcsh Hccnt].
    rewrite node_insert_internal. cbn zeta. rewrite Hc.
    destruct (node_insert h c key val replace) as [rc|] eqn:Hrc; [|done].
    cbn [mbind option_bind].
    pose proof (IH _ _ _ _ _ Hcsh Hcord Hloi Hhii Hrc) as Hpost.
    assert (Hfind0 : node_find (Internal mt ks cs) key = node_find c key).
    { by rewrite node_find_internal, Hc. }
    unfold ins_post in Hpost |- *. rewrite Hfind0.
    set (i := childIndex ks key) in *.
    destruct (i_n2 rc) as [c2|] eqn:E2.
    + destruct Hpost as (Ho1 & Ho2 & Hk1 & Hk2 & Hfind).
      destruct (ordered_insert_child d lo hi mt ks cs i (i_node rc) c2 (i_key2 rc)
                  Hord Hi Ho1 Ho2 Hk1 Hk2) as [Hpos Hvirt].
      pose proof (find_inserted_child mt ks cs (i_node rc) c2 key (i_key2 rc)) as Hfv.
      fold i in Hfv. rewrite Hfind in Hfv. specialize (Hfv ltac:(lia)).
      destruct (decide (length cs < m)) as [Hroom|Hfull].
      * rewrite insertToInternal_room by (rewrite ?length_insert; lia).
        cbn [mbind option_bind]. intros [= <-]. cbn [i_n2 i_node]. rewrite Hpos. by split.
      * destruct (insertToInternal_full (i_heap rc) mt ks (<[i := i_node rc]> cs) (i_key2 rc) c2)
          as (lk & rk & key2 & lc & rc' & -> & _ & _ & _ & Hk & Hcc & Hlk & Hlc);
          [rewrite length_insert; lia|lia|lia|].
        cbn [mbind option_bind]. intros [= <-]. cbn [i_n2 i_node i_key2].
        rewrite Hpos in Hk, Hcc. rewrite <- Hk, <- Hcc in Hvirt, Hfv.
        destruct (ordered_split_internal d lo hi mt mt (split_meta (i_heap rc) (ncap mt))
                    lk key2 rk lc rc' Hvirt) as (H1 & H2 & H3 & H4); [lia|].
        split_and!; [done..|].
        rewrite <- (find_split_internal mt mt (split_meta (i_heap rc) (ncap mt))
                      lk key2 rk lc rc' key); [done| |lia].
        by apply ordered_internal in Hvirt as (? & _ & ? & _).
    + destruct Hpost as [Ho Hfind]. intros [= <-]. cbn [i_n2 i_node].
      split; [by apply ordered_replace_child|].
      rewrite node_find_internal. fold i. by rewrite list_lookup_insert_eq by lia.
Qed.

(** The two invariants agree on the height. *)
Lemma height_unique m d d' lo hi n : shape m d n → ordered d' lo hi n → d' = d.
Proof.
  revert d' lo hi n. induction d as [|d IH]; intros d' lo hi n Hsh Hord.
  - destruct (shape_0 _ _ Hsh) as (mt & ks & vs & ->).
    by apply ordered_leaf in Hord as [-> _].
  - destruct (shape_S _ _ _ Hsh) as (mt & ks & cs & ->).
    apply shape_internal in Hsh as (? & [= <-] & _ & Hlen & _ & Hcs).
    pose proof Hord as (d2 & -> & _)%ordered_internal.
    destruct (ordered_child d2 lo hi mt ks cs 0 Hord) as (c & Hc & Hcord); [lia|].
    eapply Forall_lookup_1 in Hcs as [Hcsh _]; [|done].
    f_equal. by eapply IH.
Qed.

Lemma insert_wf m h (t : BPTree V) key val replace :
  wf m t →
  ∃ h' t', insert h t key val replace = Some (h', t') ∧ wf m t'
           ∧ find t' key = Some (Some (new_slot replace val (find t key))).
Proof.
  intros [Hts (d' & Hord)]. pose proof Hts as (Hm & d & Hsh & Hroot).
  pose proof (height_unique _ _ _ _ _ _ Hsh Hord) as ->.
  destruct (insert_shape m h t key val replace Hts) as (h' & t' & Heq & Hts').
  exists h', t'. split; [done|]. revert Heq. unfold insert.
  destruct (node_insert h (root t) key val replace) as [r|] eqn:Hr; [|done].
  cbn [mbind option_bind].
  pose proof (node_insert_ordered m d None None h (root t) key val replace r
                Hm Hsh Hord I I Hr) as Hpost.
  unfold ins_post in Hpost. unfold find.
  destruct (i_n2 r) as [n2|] eqn:E2.
  - destruct Hpost as (Ho1 & Ho2 & _ & _ & Hfind).
    destruct (if isLeaf (root t) then _ else _) as [h1 nr]. case_decide; [|done].
    cbn [mbind option_bind]. intros [= <- <-]. cbn [root].
    split; [split; [done|]|].
    + exists (S d). apply ordered_internal. exists d. split_and!; [done|repeat constructor| |].
      * by repeat constructor.
      * unfold child_bounds. simpl. by repeat constructor.
    + rewrite node_find_internal. simpl. by destruct (key <? i_key2 r)%Z.
  - destruct Hpost as [Ho Hfind]. cbn [mbind option_bind]. intros [= <- <-]. cbn [root].
    split; [split; [done|by exists d]|done].
Qed.
End OrderedFacts.

(** * Insert then find, and the accumulation of appended values *)

Section InsertFind.
Context {V : Type}.
#[local] Existing Instance never_nil.
Implicit Types (h : heap) (t : BPTree V) (vals : list V).

Lemma find_total m t key : tree_shape m t → ∃ o, find t key = Some o.
Proof.
  intros (_ & d & Hsh & _). unfold find. revert Hsh. generalize (root t). clear t.
  induction d as [|d IH]; intros n Hsh.
  - destruct (shape_0 _ _ Hsh) as (mt & ks & vs & ->).
    apply shape_leaf in Hsh as (_ & _ & Hlen & _). cbn [node_find].
    destruct (keyIndex ks key) as [i|] eqn:E; [|eauto].
    apply keyIndex_Some in E as [Hi%lookup_lt_Some _].
    destruct (lookup_lt_is_Some_2 vs i) as [s ->]; [lia|]. eauto.
  - destruct (shape_S _ _ _ Hsh) as (mt & ks & cs & ->).
    apply shape_internal in Hsh as (? & [= <-] & _ & Hlen & _ & Hcs).
    rewrite node_find_internal. destruct (childIndex_spec ks key) as (Hi & _).
    destruct (lookup_lt_is_Some_2 cs (childIndex ks key)) as [c Hc]; [lia|].
    rewrite Hc. eapply Forall_lookup_1 in Hcs as [Hcsh _]; [|done]. by apply IH.
Qed.

Lemma Find_of_find t key s v :
  find t key = Some (Some s) → head (slot_values s) = Some v → Find t key = Some (Some v).
Proof.
  intros Hf Hv. unfold Find. rewrite Hf. cbn [mbind option_bind].
  destruct s as [v0|c]; simpl in *; [by injection Hv as ->|]. by rewrite Hv.
Qed.

Lemma FindAll_of_find t key s :
  find t key = Some (Some s) → FindAll t key = Some (Some (slot_values s)).
Proof. intros Hf. unfold FindAll. rewrite Hf. by destruct s. Qed.

Lemma append_values m h t key vals o :
  wf m t → find t key = Some o →
  ∃ h' t' o', run (map (OAppend key) vals) (h, t) = Some (h', t') ∧ wf m t'
              ∧ find t' key = Some o' ∧ found_values o' = found_values o ++ vals.
Proof.
  revert h t o. induction vals as [|v vals IH]; intros h t o Hwf Hf.
  - exists h, t, o. by rewrite app_nil_r.
  - cbn [map run apply_op].
    destruct (insert_wf m h t key v false Hwf) as (h1 & t1 & Hins & Hwf1 & Hf1).
    unfold Append. rewrite Hins. cbn [mbind option_bind].
    destruct (IH h1 t1 _ Hwf1 Hf1) as (h' & t' & o' & Hrun & Hwf' & Hf' & Hvals).
    exists h', t', o'. split_and!; [done..|].
    rewrite Hvals, Hf. destruct o as [[v0|c]|]; simpl; [done| |done].
    by rewrite <- app_assoc.
Qed.

(** On a well-formed tree, [Insert(k, v)] returns and the slot of [k] then
    holds the single value [v], whatever value or bucket it held before. *)
Lemma insert_then_find m h t key val :
  wf m t →
  ∃ h' t', Insert h t key val = Some (h', t')
           ∧ Find t' key = Some (Some val)
           ∧ find t' key = Some (Some (Solo val))
           ∧ FindAll t' key = Some (Some [val]).
Proof.
  intros Hwf. destruct (insert_wf m h t key val true Hwf) as (h' & t' & Hins & _ & Hf).
  exists h', t'. cbn [new_slot] in Hf. split_and!; [done| |done|].
  - by apply (Find_of_find t' key (Solo val)).
  - by rewrite (FindAll_of_find t' key (Solo val)).
Qed.

(** On a well-formed tree that does not hold [k], the values appended to
    [k] are found in the order of their insertion. *)
Lemma append_accumulates m h t key v1 vals :
  wf m t → find t key = Some None →
  ∃ h' t', run (map (OAppend key) (v1 :: vals)) (h, t) = Some (h', t')
           ∧ FindAll t' key = Some (Some (v1 :: vals))
           ∧ Find t' key = Some (Some v1).
Proof.
  intros Hwf Hf.
  destruct (append_values m h t key (v1 :: vals) None Hwf Hf)
    as (h' & t' & o' & Hrun & _ & Hf' & Hvals).
  exists h', t'. split; [done|]. simpl in Hvals.
  destruct o' as [s|]; [|done]. simpl in Hvals. split.
  - by rewrite (FindAll_of_find t' key s), Hvals.
  - apply (Find_of_find t' key s); [done|]. by rewrite Hvals.
Qed.
End InsertFind.

(** * Deciding the invariants *)

Section Decide.
Context {V : Type}.
#[local] Existing Instance never_nil.
Implicit Types (n : node V).

#[global] Instance nonempty_dec {A} (l : list A) : Decision (l ≠ []).
Proof. destruct l; [right; by intros []|left; done]. Defined.

#[global] Instance meta_ok_dec m mt : Decision (meta_ok m mt).
Proof. unfold meta_ok. apply _. Defined.

#[global] Instance shape_dec m d n : Decision (shape m d n).
Proof.
  revert n. induction d as [|d IH]; intros [mt ks vs|mt ks cs]; unfold shape; fold (@shape V);
    apply _.
Defined.

#[global] Instance above_dec lo k : Decision (above lo k).
Proof. destruct lo; simpl; apply _. Defined.

#[global] Instance strictly_above_dec lo k : Decision (strictly_above lo k).
Proof. destruct lo; simpl; apply _. Defined.

#[global] Instance under_dec hi k : Decision (under hi k).
Proof. destruct hi; simpl; apply _. Defined.

#[global] Instance ordered_dec d lo hi n : Decision (ordered d lo hi n).
Proof.
  revert lo hi n. induction d as [|d IH]; intros lo hi [mt ks vs|mt ks cs];
    unfold ordered; fold (@ordered V); apply _.
Defined.

(** A tree is well formed when its root passes the checks at some height. *)
Lemma wf_intro m d (t : BPTree V) :
  3 ≤ m → shape m d (root t) → (isInternal (root t) = true → 2 ≤ count (root t)) →
  ordered d None None (root t) → wf m t.
Proof. intros. split; [split; [done|]|]; by exists d. Qed.
End Decide.

(** * Deletion: the outcomes of rebalancing *)

Section PairFacts.
Lemma pair_decompose {A} (l : list A) j x y :
  l !! j = Some x → l !! S j = Some y → l = take j l ++ x :: y :: drop (S (S j)) l.
Proof.
  intros Hx Hy. rewrite <- (take_drop_middle l j x Hx) at 1. do 2 f_equal.
  rewrite <- (take_drop_middle l (S j) y Hy) at 1.
  rewrite drop_app_length'; [done|]. rewrite length_take.
  apply lookup_lt_Some in Hy. lia.
Qed.

Lemma insert_pair {A} (l : list A) j x' y' :
  S j < length l →
  <[j := x']> (<[S j := y']> l) = take j l ++ x' :: y' :: drop (S (S j)) l.
Proof.
  intros Hj. rewrite insert_take_drop by (rewrite length_insert; lia).
  rewrite take_insert_ge by lia. do 2 f_equal.
  rewrite drop_insert_ge by lia. replace (S j - S j) with 0 by lia.
  destruct (drop (S j) l) as [|a l'] eqn:E.
  { apply (f_equal length) in E. rewrite length_drop in E. simpl in E. lia. }
  simpl. f_equal. change l' with (drop 1 (a :: l')). rewrite <- E, drop_drop.
  f_equal; lia.
Qed.

Lemma insert_pair' {A} (l : list A) j x' y' :
  S j < length l →
  <[S j := y']> (<[j := x']> l) = take j l ++ x' :: y' :: drop (S (S j)) l.
Proof. intros Hj. rewrite list_insert_insert_ne by lia. by apply insert_pair. Qed.

Lemma delete_pair {A} (l : list A) j z :
  j < length l →
  take (S j) (<[j := z]> l) ++ drop (S (S j)) (<[j := z]> l)
  = take j l ++ z :: drop (S (S j)) l.
Proof.
  intros Hj. rewrite take_S_insert by done. rewrite drop_insert_lt by lia.
  by rewrite <- app_assoc.
Qed.

Lemma key_decompose (ks : list Z) j sep :
  ks !! j = Some sep → ks = take j ks ++ sep :: drop (S j) ks.
Proof. intros Hk. by rewrite take_drop_middle. Qed.
End PairFacts.

Section Rebalanced.
Context {V : Type}.
#[local] Existing Instance never_nil.
Implicit Types (h : heap) (n c x y z : node V) (cs : list (node V)) (ks : list Z).

(** An entry moves between the adjacent siblings [x] and [y] separated by
    [sep]: the siblings and the separator afterwards. *)
Inductive borrowed (sep : Z) : node V → node V → node V → Z → node V → Prop :=
| borrowed_leaf_left ml kl k vl v mc kc vc :
    0 < length kl → length vl = length kl →
    borrowed sep (Leaf ml (kl ++ [k]) (vl ++ [v])) (Leaf mc kc vc)
             (Leaf ml kl vl) k (Leaf mc (k :: kc) (v :: vc))
| borrowed_leaf_right mc kc vc mr k k0 kr v vr :
    length vc = length kc →
    borrowed sep (Leaf mc kc vc) (Leaf mr (k :: k0 :: kr) (v :: vr))
             (Leaf mc (kc ++ [k]) (vc ++ [v])) k0 (Leaf mr (k0 :: kr) vr)
| borrowed_internal_left ml kl mk cl cL mc kc cc :
    length cl = S (length kl) →
    borrowed sep (Internal ml (kl ++ [mk]) (cl ++ [cL])) (Internal mc kc cc)
             (Internal ml kl cl) mk (Internal mc (sep :: kc) (cL :: cc))
| borrowed_internal_right mc kc cc mr mk kr cR cr :
    length cc = S (length kc) →
    borrowed sep (Internal mc kc cc) (Internal mr (mk :: kr) (cR :: cr))
             (Internal mc (kc ++ [sep]) (cc ++ [cR])) mk (Internal mr kr cr).

(** The sibling [y] is merged into [x]. *)
Inductive merged (sep : Z) : node V → node V → node V → Prop :=
| merged_leaf mx kx vx my ky vy :
    length vx = length kx →
    merged sep (Leaf mx kx vx) (Leaf my ky vy) (Leaf mx (kx ++ ky) (vx ++ vy))
| merged_internal mx kx cx my ky cy :
    length cx = S (length kx) →
    merged sep (Internal mx kx cx) (Internal my ky cy)
           (Internal mx (kx ++ sep :: ky) (cx ++ cy)).

(** The result of rebalancing around the child at [i]: the child and one
    of its neighbours are replaced, or merged into the left one of the
    pair. *)
Definition rebalanced h (mt : meta) ks cs (i : nat) (res : option (heap * node V)) : Prop :=
  ∃ A x y B KA sep KB,
    cs = A ++ x :: y :: B ∧ ks = KA ++ sep :: KB ∧ length A = length KA
    ∧ (i = length A ∨ i = S (length A))
    ∧ ((∃ x' sep' y', borrowed sep x y x' sep' y'
                      ∧ res = Some (h, Internal mt (KA ++ sep' :: KB) (A ++ x' :: y' :: B)))
       ∨ (∃ z, merged sep x y z
               ∧ res = Some (unlink_right (nid (nmeta x)) (nid (nmeta y)) h,
                             Internal mt (KA ++ KB) (A ++ z :: B)))).

End Rebalanced.

Section BalanceLeafCases.
Context {V : Type}.
#[local] Existing Instance never_nil.
Variables (m : nat) (h : heap) (mt : meta) (ks : list Z) (cs : list (node V)).
Variables (i : nat) (mc : meta) (kc : list Z) (vc : list (slot V)).
Hypothesis Hm : 3 ≤ m.
Hypothesis Hmeta : meta_ok m mt.
Hypothesis Hlen : length cs = S (length ks).
Hypothesis Hle : length cs ≤ m.
Hypothesis Hc : cs !! i = Some (Leaf mc kc vc).
Hypothesis Hcsh : shape m 0 (Leaf mc kc vc).
Hypothesis Hccnt : length vc + 1 = ceil_half m.
Hypothesis Hcs : ∀ j x, cs !! j = Some x → j ≠ i → shape m 0 x ∧ ceil_half m ≤ count x.

Local Lemma leaf_sibling j x :
  cs !! j = Some x → j ≠ i →
  ∃ mx kx vx, x = Leaf mx kx vx
              ∧ length vx = length kx ∧ ceil_half m ≤ length vx ∧ length vx ≤ m
              ∧ ncap mx = m.
Proof using All.
  intros Hx Hj. destruct (Hcs j x Hx Hj) as [Hsh Hcnt].
  destruct (shape_0 _ _ Hsh) as (mx & kx & vx & ->).
  pose proof Hsh as (_ & [? _] & ? & ? & _)%shape_leaf.
  exists mx, kx, vx. simpl in Hcnt. split_and!; try done; lia.
Qed.

Local Lemma leaf_child_facts :
  length vc = length kc ∧ ncap mc = m ∧ i < length cs
  ∧ 2 ≤ ceil_half m ∧ ceil_half m ≤ m ∧ 2 * ceil_half m ≤ m + 1
  ∧ ncap mt = m ∧ nbmin mt = ceil_half m.
Proof using All.
  pose proof Hcsh as (_ & [? _] & ? & ? & _)%shape_leaf.
  pose proof (ceil_half_bounds m Hm). destruct Hmeta.
  apply lookup_lt_Some in Hc. split_and!; try done; lia.
Qed.

Lemma balanceLeaf_borrow_left_case l :
  i ≠ 0 → cs !! (i - 1) = Some l → nbmin mt < length (nvalues l) →
  rebalanced h mt ks cs i (balanceLeaf h (Internal mt ks cs) i).
Proof using All.
  intros Hi Hl Hcnt.
  destruct leaf_child_facts as (Hvk & Hcapc & Hilt & Hb1 & Hb2 & Hb3 & Hcap & Hbmin).
  destruct (leaf_sibling (i - 1) l Hl) as (ml & kl & vl & -> & Hlvk & Hl1 & Hl2 & Hlcap);
    [lia|].
  simpl in Hcnt.
  destruct (snoc_inv kl) as (kl' & k & ->); [lia|].
  destruct (snoc_inv vl) as (vl' & v & ->); [lia|].
  rewrite !length_app in *. simpl in *.
  destruct (lookup_lt_is_Some_2 ks (i - 1)) as [sep Hsep]; [lia|].
  erewrite balanceLeaf_borrow_left;
    [|done|done|done|lia|simpl; rewrite length_app; simpl; lia|].
  2:{ apply takeFromLeftSiblingLeaf_eq; lia. }
  assert (∃ j, i = S j) as [j Hj] by (exists (i - 1); lia).
  pose proof Hc as Hc'. rewrite Hj in Hc', Hl, Hsep |- *.
  replace (S j - 1) with j in * by lia.
  exists (take j cs), (Leaf ml (kl' ++ [k]) (vl' ++ [v])), (Leaf mc kc vc),
    (drop (S (S j)) cs), (take j ks), sep, (drop (S j) ks).
  split_and!.
  - by apply pair_decompose.
  - by apply key_decompose.
  - rewrite !length_take. lia.
  - right. rewrite length_take. lia.
  - left. eexists _, _, _. split.
    + apply borrowed_leaf_left; lia.
    + rewrite insert_pair by lia. rewrite insert_take_drop by lia. done.
Qed.
Lemma balanceLeaf_borrow_right_case r :
  cs !! (i + 1) = Some r → nbmin mt < length (nvalues r) →
  (i ≠ 0 → ∃ l, cs !! (i - 1) = Some l ∧ length (nvalues l) ≤ nbmin mt) →
  rebalanced h mt ks cs i (balanceLeaf h (Internal mt ks cs) i).
Proof using All.
  intros Hr Hcnt Hl.
  destruct leaf_child_facts as (Hvk & Hcapc & Hilt & Hb1 & Hb2 & Hb3 & Hcap & Hbmin).
  pose proof (lookup_lt_Some _ _ _ Hr) as Hrlt.
  destruct (leaf_sibling (i + 1) r Hr) as (mr & kr & vr & -> & Hrvk & Hr1 & Hr2 & Hrcap);
    [lia|].
  cbn [nvalues] in Hcnt.
  destruct kr as [|k [|k0 kr]]; [simpl in *; lia..|].
  destruct vr as [|v vr]; [simpl in *; lia|].
  simpl in Hcnt, Hrvk, Hr1, Hr2.
  destruct (lookup_lt_is_Some_2 ks i) as [sep Hsep]; [lia|].
  erewrite balanceLeaf_borrow_right; [|done|done|lia|done|simpl; lia|].
  2:{ apply takeFromRightSiblingLeaf_eq; simpl in *; lia. }
  replace (i + 1) with (S i) in * by lia.
  exists (take i cs), (Leaf mc kc vc), (Leaf mr (k :: k0 :: kr) (v :: vr)),
    (drop (S (S i)) cs), (take i ks), sep, (drop (S i) ks).
  split_and!.
  - by apply pair_decompose.
  - by apply key_decompose.
  - rewrite !length_take. lia.
  - left. rewrite length_take. lia.
  - left. eexists _, _, _. split.
    + by apply borrowed_leaf_right.
    + rewrite insert_pair' by lia. rewrite insert_take_drop by lia. done.
Qed.

Lemma balanceLeaf_merge_left_case l :
  i ≠ 0 → i = length cs - 1 → cs !! (i - 1) = Some l →
  length (nvalues l) ≤ nbmin mt →
  rebalanced h mt ks cs i (balanceLeaf h (Internal mt ks cs) i).
Proof using All.
  intros Hi Hlast Hl Hcnt.
  destruct leaf_child_facts as (Hvk & Hcapc & Hilt & Hb1 & Hb2 & Hb3 & Hcap & Hbmin).
  destruct (leaf_sibling (i - 1) l Hl) as (ml & kl & vl & -> & Hlvk & Hl1 & Hl2 & Hlcap);
    [lia|].
  cbn [nvalues] in Hcnt.
  destruct (lookup_lt_is_Some_2 ks (i - 1)) as [sep Hsep]; [lia|].
  erewrite balanceLeaf_merge_left; [|done|done|done|lia|done|done|].
  2:{ apply mergeLeafs_eq; lia. }
  assert (∃ j, i = S j) as [j Hj] by (exists (i - 1); lia).
  pose proof Hc as Hc'. rewrite Hj in Hc', Hl, Hsep |- *.
  replace (S j - 1) with j in * by lia.
  exists (take j cs), (Leaf ml kl vl), (Leaf mc kc vc),
    (drop (S (S j)) cs), (take j ks), sep, (drop (S j) ks).
  split_and!.
  - by apply pair_decompose.
  - by apply key_decompose.
  - rewrite !length_take. lia.
  - right. rewrite length_take. lia.
  - right. eexists. split.
    + by apply merged_leaf.
    + rewrite delete_pair by lia. done.
Qed.

Lemma balanceLeaf_merge_right_case r :
  cs !! (i + 1) = Some r → length (nvalues r) ≤ nbmin mt →
  (i ≠ 0 → ∃ l, cs !! (i - 1) = Some l ∧ length (nvalues l) ≤ nbmin mt
                ∧ length (nvalues r) ≤ length (nvalues l)) →
  rebalanced h mt ks cs i (balanceLeaf h (Internal mt ks cs) i).
Proof using All.
  intros Hr Hcnt Hl.
  destruct leaf_child_facts as (Hvk & Hcapc & Hilt & Hb1 & Hb2 & Hb3 & Hcap & Hbmin).
  pose proof (lookup_lt_Some _ _ _ Hr) as Hrlt.
  destruct (leaf_sibling (i + 1) r Hr) as (mr & kr & vr & -> & Hrvk & Hr1 & Hr2 & Hrcap);
    [lia|].
  cbn [nvalues] in Hcnt.
  destruct (lookup_lt_is_Some_2 ks i) as [sep Hsep]; [lia|].
  erewrite balanceLeaf_merge_right; [|done|done|lia|done|done|].
  2:{ apply mergeLeafs_eq; lia. }
  replace (i + 1) with (S i) in * by lia.
  exists (take i cs), (Leaf mc kc vc), (Leaf mr kr vr),
    (drop (S (S i)) cs), (take i ks), sep, (drop (S i) ks).
  split_and!.
  - by apply pair_decompose.
  - by apply key_decompose.
  - rewrite !length_take. lia.
  - left. rewrite length_take. lia.
  - right. eexists. split.
    + by apply merged_leaf.
    + rewrite delete_pair by lia. done.
Qed.

Lemma balanceLeaf_cases :
  2 ≤ length cs → rebalanced h mt ks cs i (balanceLeaf h (Internal mt ks cs) i).
Proof using All.
  intros H2.
  destruct leaf_child_facts as (Hvk & Hcapc & Hilt & Hb1 & Hb2 & Hb3 & Hcap & Hbmin).
  destruct (decide (i = 0)) as [Hi0|Hi0].
  - destruct (lookup_lt_is_Some_2 cs (i + 1)) as [r Hr]; [lia|].
    destruct (decide (nbmin mt < length (nvalues r))).
    + by apply (balanceLeaf_borrow_right_case r).
    + apply (balanceLeaf_merge_right_case r); [done|lia|done].
  - destruct (lookup_lt_is_Some_2 cs (i - 1)) as [l Hl]; [lia|].
    destruct (decide (nbmin mt < length (nvalues l))).
    { by apply (balanceLeaf_borrow_left_case l). }
    destruct (decide (i = length cs - 1)) as [Hlast|Hlast].
    { apply (balanceLeaf_merge_left_case l); [done|done|done|lia]. }
    destruct (lookup_lt_is_Some_2 cs (i + 1)) as [r Hr]; [lia|].
    destruct (decide (nbmin mt < length (nvalues r))).
    + apply (balanceLeaf_borrow_right_case r); [done|done|].
      intros _. exists l. split; [done|lia].
    + apply (balanceLeaf_merge_right_case r); [done|lia|].
      intros _. exists l. split; [done|]. split; [lia|].
      destruct (leaf_sibling (i - 1) l Hl) as (? & ? & ? & -> & _ & ? & _); [lia|].
      simpl. lia.
Qed.
End BalanceLeafCases.

Section BalanceInternalCases.
Context {V : Type}.
#[local] Existing Instance never_nil.
Variables (m d : nat) (h : heap) (mt : meta) (ks : list Z) (cs : list (node V)).
Variables (i : nat) (mc : meta) (kc : list Z) (cc : list (node V)).
Hypothesis Hm : 3 ≤ m.
Hypothesis Hmeta : meta_ok m mt.
Hypothesis Hlen : length cs = S (length ks).
Hypothesis Hle : length cs ≤ m.
Hypothesis Hc : cs !! i = Some (Internal mc kc cc).
Hypothesis Hcsh : shape m (S d) (Internal mc kc cc).
Hypothesis Hccnt : length cc + 1 = ceil_half m.
Hypothesis Hcs :
  ∀ j x, cs !! j = Some x → j ≠ i → shape m (S d) x ∧ ceil_half m ≤ count x.

Local Lemma internal_sibling j x :
  cs !! j = Some x → j ≠ i →
  ∃ mx kx cx, x = Internal mx kx cx ∧ meta_ok m mx
              ∧ length cx = S (length kx) ∧ ceil_half m ≤ length cx ∧ length cx ≤ m.
Proof using All.
  intros Hx Hj. destruct (Hcs j x Hx Hj) as [Hsh Hcnt].
  destruct (shape_S _ _ _ Hsh) as (mx & kx & cx & ->).
  pose proof Hsh as (? & [= <-] & ? & ? & ? & ?)%shape_internal.
  exists mx, kx, cx. simpl in Hcnt. by split_and!.
Qed.

Local Lemma internal_child_facts :
  length cc = S (length kc) ∧ meta_ok m mc ∧ i < length cs
  ∧ 2 ≤ ceil_half m ∧ ceil_half m ≤ m ∧ 2 * ceil_half m ≤ m + 1
  ∧ ncap mt = m ∧ nbmin mt = ceil_half m.
Proof using All.
  pose proof Hcsh as (? & [= <-] & ? & ? & ? & ?)%shape_internal.
  pose proof (ceil_half_bounds m Hm). destruct Hmeta.
  apply lookup_lt_Some in Hc. split_and!; try done; lia.
Qed.

Lemma balanceInternal_borrow_left_case l :
  i ≠ 0 → cs !! (i - 1) = Some l → nbmin mt < length (nchildren l) →
  rebalanced h mt ks cs i (balanceInternal h (Internal mt ks cs) i).
Proof using All.
  intros Hi Hl Hcnt.
  destruct internal_child_facts as (Hck & Hcm & Hilt & Hb1 & Hb2 & Hb3 & Hcap & Hbmin).
  pose proof Hcm as [Hcapc Hcbmin].
  destruct (internal_sibling (i - 1) l Hl) as (ml & kl & cl & -> & Hlm & Hlck & Hl1 & Hl2);
    [lia|].
  cbn [nchildren] in Hcnt.
  destruct (snoc_inv kl) as (kl' & mk & ->); [lia|].
  destruct (snoc_inv cl) as (cl' & x & ->); [lia|].
  destruct (lookup_lt_is_Some_2 ks (i - 1)) as [sep Hsep]; [lia|].
  rewrite !length_app in *. simpl in Hcnt, Hlck, Hl1, Hl2.
  erewrite balanceInternal_borrow_left;
    [|done|done|done|done|simpl; rewrite length_app; simpl; lia|].
  2:{ apply takeFromLeftSiblingInternal_eq; lia. }
  assert (∃ j, i = S j) as [j Hj] by (exists (i - 1); lia).
  pose proof Hc as Hc'. rewrite Hj in Hc', Hl, Hsep |- *.
  replace (S j - 1) with j in * by lia.
  exists (take j cs), (Internal ml (kl' ++ [mk]) (cl' ++ [x])), (Internal mc kc cc),
    (drop (S (S j)) cs), (take j ks), sep, (drop (S j) ks).
  split_and!.
  - by apply pair_decompose.
  - by apply key_decompose.
  - rewrite !length_take. lia.
  - right. rewrite length_take. lia.
  - left. eexists _, _, _. split.
    + apply borrowed_internal_left; lia.
    + rewrite insert_pair by lia. rewrite insert_take_drop by lia. done.
Qed.

Lemma balanceInternal_borrow_right_case r :
  cs !! (i + 1) = Some r → nbmin mt < length (nchildren r) →
  (i ≠ 0 → ∃ l, cs !! (i - 1) = Some l ∧ length (nchildren l) ≤ nbmin mt) →
  rebalanced h mt ks cs i (balanceInternal h (Internal mt ks cs) i).
Proof using All.
  intros Hr Hcnt Hl.
  destruct internal_child_facts as (Hck & Hcm & Hilt & Hb1 & Hb2 & Hb3 & Hcap & Hbmin).
  pose proof Hcm as [Hcapc Hcbmin].
  pose proof (lookup_lt_Some _ _ _ Hr) as Hrlt.
  destruct (internal_sibling (i + 1) r Hr) as (mr & kr & cr & -> & Hrm & Hrck & Hr1 & Hr2);
    [lia|].
  cbn [nchildren] in Hcnt.
  destruct kr as [|mk kr]; [simpl in *; lia|].
  destruct cr as [|x cr]; [simpl in *; lia|].
  simpl in Hcnt, Hrck, Hr1, Hr2.
  destruct (lookup_lt_is_Some_2 ks i) as [sep Hsep]; [lia|].
  erewrite balanceInternal_borrow_right; [|done|done|done|done|simpl; lia|].
  2:{ apply takeFromRightSiblingInternal_eq; lia. }
  replace (i + 1) with (S i) in * by lia.
  exists (take i cs), (Internal mc kc cc), (Internal mr (mk :: kr) (x :: cr)),
    (drop (S (S i)) cs), (take i ks), sep, (drop (S i) ks).
  split_and!.
  - by apply pair_decompose.
  - by apply key_decompose.
  - rewrite !length_take. lia.
  - left. rewrite length_take. lia.
  - left. eexists _, _, _. split.
    + by apply borrowed_internal_right.
    + rewrite insert_pair' by lia. rewrite insert_take_drop by lia. done.
Qed.

Lemma balanceInternal_merge_left_case l :
  i ≠ 0 → i = length cs - 1 → cs !! (i - 1) = Some l →
  length (nchildren l) ≤ nbmin mt →
  rebalanced h mt ks cs i (balanceInternal h (Internal mt ks cs) i).
Proof using All.
  intros Hi Hlast Hl Hcnt.
  destruct internal_child_facts as (Hck & Hcm & Hilt & Hb1 & Hb2 & Hb3 & Hcap & Hbmin).
  pose proof Hcm as [Hcapc Hcbmin].
  destruct (internal_sibling (i - 1) l Hl) as (ml & kl & cl & -> & Hlm & Hlck & Hl1 & Hl2);
    [lia|].
  cbn [nchildren] in Hcnt. destruct Hlm as [Hlcap Hlbmin].
  destruct (lookup_lt_is_Some_2 ks (i - 1)) as [sep Hsep]; [lia|].
  erewrite balanceInternal_merge_left; [|done|done|done|lia|done|done|done|].
  2:{ apply mergeInternal_eq; lia. }
  assert (∃ j, i = S j) as [j Hj] by (exists (i - 1); lia).
  pose proof Hc as Hc'. rewrite Hj in Hc', Hl, Hsep |- *.
  replace (S j - 1) with j in * by lia.
  exists (take j cs), (Internal ml kl cl), (Internal mc kc cc),
    (drop (S (S j)) cs), (take j ks), sep, (drop (S j) ks).
  split_and!.
  - by apply pair_decompose.
  - by apply key_decompose.
  - rewrite !length_take. lia.
  - right. rewrite length_take. lia.
  - right. eexists. split.
    + by apply merged_internal.
    + rewrite delete_pair by lia. done.
Qed.

Lemma balanceInternal_merge_right_case r :
  cs !! (i + 1) = Some r → length (nchildren r) ≤ nbmin mt →
  (i ≠ 0 → ∃ l, cs !! (i - 1) = Some l ∧ length (nchildren l) ≤ nbmin mt
                ∧ length (nchildren r) ≤ length (nchildren l)) →
  rebalanced h mt ks cs i (balanceInternal h (Internal mt ks cs) i).
Proof using All.
  intros Hr Hcnt Hl.
  destruct internal_child_facts as (Hck & Hcm & Hilt & Hb1 & Hb2 & Hb3 & Hcap & Hbmin).
  pose proof Hcm as [Hcapc Hcbmin].
  pose proof (lookup_lt_Some _ _ _ Hr) as Hrlt.
  destruct (internal_sibling (i + 1) r Hr) as (mr & kr & cr & -> & Hrm & Hrck & Hr1 & Hr2);
    [lia|].
  cbn [nchildren] in Hcnt.
  destruct (lookup_lt_is_Some_2 ks i) as [sep Hsep]; [lia|].
  erewrite balanceInternal_merge_right; [|done|done|done|done|done|].
  2:{ apply mergeInternal_eq; lia. }
  replace (i + 1) with (S i) in * by lia.
  exists (take i cs), (Internal mc kc cc), (Internal mr kr cr),
    (drop (S (S i)) cs), (take i ks), sep, (drop (S i) ks).
  split_and!.
  - by apply pair_decompose.
  - by apply key_decompose.
  - rewrite !length_take. lia.
  - left. rewrite length_take. lia.
  - right. eexists. split.
    + by apply merged_internal.
    + rewrite delete_pair by lia. done.
Qed.

Lemma balanceInternal_cases :
  2 ≤ length cs → rebalanced h mt ks cs i (balanceInternal h (Internal mt ks cs) i).
Proof using All.
  intros H2.
  destruct internal_child_facts as (Hck & Hcm & Hilt & Hb1 & Hb2 & Hb3 & Hcap & Hbmin).
  destruct (decide (i = 0)) as [Hi0|Hi0].
  - destruct (lookup_lt_is_Some_2 cs (i + 1)) as [r Hr]; [lia|].
    destruct (decide (nbmin mt < length (nchildren r))).
    + by apply (balanceInternal_borrow_right_case r).
    + apply (balanceInternal_merge_right_case r); [done|lia|done].
  - destruct (lookup_lt_is_Some_2 cs (i - 1)) as [l Hl]; [lia|].
    destruct (decide (nbmin mt < length (nchildren l))).
    { by apply (balanceInternal_borrow_left_case l). }
    destruct (decide (i = length cs - 1)) as [Hlast|Hlast].
    { apply (balanceInternal_merge_left_case l); [done|done|done|lia]. }
    destruct (lookup_lt_is_Some_2 cs (i + 1)) as [r Hr]; [lia|].
    destruct (decide (nbmin mt < length (nchildren r))).
    + apply (balanceInternal_borrow_right_case r); [done|done|].
      intros _. exists l. split; [done|lia].
    + apply (balanceInternal_merge_right_case r); [done|lia|].
      intros _. exists l. split; [done|]. split; [lia|].
      destruct (internal_sibling (i - 1) l Hl) as (? & ? & ? & -> & _ & _ & ? & _); [lia|].
      simpl. lia.
Qed.
End BalanceInternalCases.

Section DeleteStep.
Context {V : Type}.
#[local] Existing Instance never_nil.
Implicit Types (h : heap) (n c : node V) (cs : list (node V)) (ks : list Z).

Lemma rebalanced_Some h mt ks cs i res :
  rebalanced h mt ks cs i res → ∃ out, res = Some out.
Proof.
  intros (A & x & y & B & KA & sep & KB & _ & _ & _ & _ & [(? & ? & ? & _ & ->)|(? & _ & ->)]);
    eauto.
Qed.

(** After the deletion below the child at [i] returned [c]: the parent
    holds [c], or it is rebalanced around [c]. *)
Definition delete_step h (mt : meta) ks cs (i : nat) c (out : heap * node V) : Prop :=
  out = (h, Internal mt ks (<[i := c]> cs))
  ∨ rebalanced h mt ks (<[i := c]> cs) i (Some out).

Lemma node_delete_cases m d h mt ks cs key all idx :
  3 ≤ m → shape m (S d) (Internal mt ks cs) → 2 ≤ length cs →
  ∃ c0 h1 c res,
    cs !! childIndex ks key = Some c0 ∧ shape m d c0 ∧ ceil_half m ≤ count c0
    ∧ node_delete h c0 key all idx = Some (h1, c, res) ∧ shape m d c
    ∧ match res with
      | None =>
          node_delete h (Internal mt ks cs) key all idx = Some (h, Internal mt ks cs, None)
      | Some val =>
          ∃ out, node_delete h (Internal mt ks cs) key all idx = Some (out.1, out.2, Some val)
                 ∧ delete_step h1 mt ks cs (childIndex ks key) c out
      end.
Proof.
  intros Hm Hn H2. pose proof (ceil_half_bounds m Hm) as Hb.
  pose proof Hn as (d' & [= <-] & Hmeta & Hlen & Hle & Hcs)%shape_internal.
  rewrite node_delete_internal. cbn zeta.
  destruct (childIndex_spec ks key) as (Hi & _).
  set (i := childIndex ks key) in *.
  destruct (lookup_lt_is_Some_2 cs i) as [c0 Hc0]; [lia|].
  rewrite Hc0. pose proof (Forall_lookup_1 _ _ _ _ Hcs Hc0) as [Hc0sh Hc0cnt].
  destruct (node_delete_shape m d h c0 key all idx Hm Hc0sh ltac:(lia))
    as (h1 & c & res & Hdel & Hcsh & Hcnt1 & Hcnt2).
  exists c0, h1, c, res. rewrite Hdel. cbn [mbind option_bind].
  split_and!; [done..|].
  destruct res as [val|].
  2:{ destruct (node_delete_None _ _ _ _ _ _ _ Hdel) as [-> ->].
      by rewrite list_insert_id. }
  assert (Hothers : ∀ j x, <[i := c]> cs !! j = Some x → j ≠ i →
                           shape m d x ∧ ceil_half m ≤ count x).
  { intros j x Hx Hj. rewrite list_lookup_insert_ne in Hx by done.
    by eapply Forall_lookup_1 in Hcs. }
  assert (Hci : <[i := c]> cs !! i = Some c).
  { apply list_lookup_insert_eq. by eapply lookup_lt_Some. }
  destruct Hmeta as [Hcap Hbmin].
  destruct c as [mc kc vc|mc kc cc]; cbn [isLeaf nvalues nchildren].
  - pose proof (proj1 (shape_isInternal _ _ _ Hcsh)) as Hd0. cbn [isInternal] in Hd0.
    assert (d = 0) as -> by (destruct d; [done|]; exfalso; by apply Hd0).
    clear Hd0. cbn [count] in *. case_decide as Hunder.
    + pose proof (balanceLeaf_cases m h1 mt ks (<[i := Leaf mc kc vc]> cs) i mc kc vc) as Hbal.
      rewrite length_insert in Hbal.
      specialize (Hbal Hm ltac:(done) Hlen Hle Hci Hcsh ltac:(lia) Hothers H2).
      destruct (rebalanced_Some _ _ _ _ _ _ Hbal) as [[h2 n2] Hout].
      rewrite Hout in Hbal |- *. cbn [mbind option_bind].
      exists (h2, n2). split; [done|]. by right.
    + exists (h1, Internal mt ks (<[i := Leaf mc kc vc]> cs)). split; [done|]. by left.
  - pose proof (proj1 (shape_isInternal _ _ _ Hcsh) eq_refl) as Hd0.
    destruct d as [|d]; [done|]. clear Hd0. cbn [count] in *. case_decide as Hunder.
    + pose proof (balanceInternal_cases m d h1 mt ks (<[i := Internal mc kc cc]> cs) i mc kc cc)
        as Hbal.
      rewrite length_insert in Hbal.
      specialize (Hbal Hm ltac:(done) Hlen Hle Hci Hcsh ltac:(lia) Hothers H2).
      destruct (rebalanced_Some _ _ _ _ _ _ Hbal) as [[h2 n2] Hout].
      rewrite Hout in Hbal |- *. cbn [mbind option_bind].
      exists (h2, n2). split; [done|]. by right.
    + exists (h1, Internal mt ks (<[i := Internal mc kc cc]> cs)). split; [done|]. by left.
Qed.
End DeleteStep.

(** * Deletion keeps the order *)

Section RebalanceOrdered.
Context {V : Type}.
#[local] Existing Instance never_nil.
Implicit Types (h : heap) (n c x y z : node V) (cs : list (node V)) (ks : list Z).
Implicit Types (lo hi : option Z) (vs lv rv : list (slot V)) (lc rc : list (node V)).

(** The bounds of the two children around a separator: the separator
    before it, and the one after it. *)
Definition lo_last lo ks : option Z :=
  match last ks with Some k => Some k | None => lo end.

Definition hi_first hi ks : option Z :=
  match head ks with Some k => Some k | None => hi end.

Lemma lo_last_cons lo a ks : lo_last lo (a :: ks) = lo_last (Some a) ks.
Proof. unfold lo_last. rewrite last_cons. by destruct (last ks). Qed.

Lemma last_None_nil {A} (l : list A) : last l = None → l = [].
Proof. destruct l; [done|]. rewrite last_cons. by destruct (last l). Qed.

Lemma child_bounds_pair lo hi KA KB :
  ∃ F G, length F = length KA
         ∧ (∀ sep, child_bounds lo hi (KA ++ sep :: KB)
                   = F ++ (lo_last lo KA, Some sep) :: (Some sep, hi_first hi KB) :: G)
         ∧ child_bounds lo hi (KA ++ KB) = F ++ (lo_last lo KA, hi_first hi KB) :: G.
Proof.
  revert lo. induction KA as [|a KA IH]; intros lo.
  - exists [], (match KB with [] => [] | k :: KB' => child_bounds (Some k) hi KB' end).
    split; [done|]. split.
    + intros sep. simpl. rewrite child_bounds_cons. f_equal.
      destruct KB; [done|]. by rewrite child_bounds_cons.
    + simpl. destruct KB; [done|]. by rewrite child_bounds_cons.
  - destruct (IH (Some a)) as (F & G & Hlen & Hpair & Hmerge).
    exists ((lo, Some a) :: F), G. split; [simpl; lia|]. split.
    + intros sep. simpl. rewrite child_bounds_cons, Hpair, lo_last_cons. done.
    + simpl. rewrite child_bounds_cons, Hmerge, lo_last_cons. done.
Qed.

Lemma under_trans hi a b : (a < b)%Z → under hi b → under hi a.
Proof. destruct hi; simpl; [lia|done]. Qed.

Lemma strictly_above_trans lo a b : (a < b)%Z → strictly_above lo a → strictly_above lo b.
Proof. destruct lo; simpl; [lia|done]. Qed.

Lemma above_trans lo a b : (a ≤ b)%Z → above lo a → above lo b.
Proof. destruct lo; simpl; [lia|done]. Qed.

Lemma strictly_above_above lo a : strictly_above lo a → above lo a.
Proof. destruct lo; simpl; [lia|done]. Qed.

(** The separators of a node around the one at [length KA]. *)
Lemma separators_inv lo hi KA sep KB :
  StronglySorted Z.lt (KA ++ sep :: KB) →
  Forall (λ k, strictly_above lo k ∧ under hi k) (KA ++ sep :: KB) →
  strictly_above (lo_last lo KA) sep ∧ under (hi_first hi KB) sep.
Proof.
  intros Hs Hb. apply Forall_app in Hb as [_ Hb]. apply Forall_cons in Hb as [[Hlo Hhi] _].
  apply sorted_app in Hs as (_ & Hs & Hlt). apply sorted_cons in Hs as [_ Hgt].
  split.
  - unfold lo_last. destruct (last KA) as [k|] eqn:E; [|done]. simpl.
    apply Hlt; [|by left]. apply last_Some in E as [l' ->]. set_solver.
  - unfold hi_first. destruct KB as [|k KB]; [done|]. simpl. by apply Forall_inv in Hgt.
Qed.

Lemma separators_set lo hi KA sep KB sep' :
  StronglySorted Z.lt (KA ++ sep :: KB) →
  Forall (λ k, strictly_above lo k ∧ under hi k) (KA ++ sep :: KB) →
  strictly_above (lo_last lo KA) sep' → under (hi_first hi KB) sep' →
  StronglySorted Z.lt (KA ++ sep' :: KB)
  ∧ Forall (λ k, strictly_above lo k ∧ under hi k) (KA ++ sep' :: KB).
Proof.
  intros Hs Hb Hlo Hhi.
  apply Forall_app in Hb as [Hba Hb]. apply Forall_cons in Hb as [_ Hbb].
  apply sorted_app in Hs as (Hsa & Hs & Hlt). apply sorted_cons in Hs as [Hsb Hgt].
  assert (Hbelow : Forall (λ a, (a < sep')%Z) KA).
  { unfold lo_last in Hlo. destruct (last KA) as [k|] eqn:E.
    - apply last_Some in E as [l' ->]. simpl in Hlo.
      apply sorted_app in Hsa as (_ & _ & Hl'). apply Forall_app. split.
      + apply Forall_forall. intros a Ha. specialize (Hl' a k Ha ltac:(by left)). lia.
      + by constructor.
    - apply last_None_nil in E as ->. constructor. }
  assert (Habove : Forall (λ b, (sep' < b)%Z) KB).
  { unfold hi_first in Hhi. destruct KB as [|k KB]; [constructor|]. simpl in Hhi.
    apply sorted_cons in Hsb as [_ Hk]. constructor; [done|].
    eapply Forall_impl; [done|]. simpl. lia. }
  split.
  - apply sorted_app. split_and!; [done| |].
    + apply sorted_cons. by split.
    + intros a b Ha [->|Hb]%elem_of_cons.
      * by eapply Forall_forall in Hbelow.
      * apply Hlt; [done|by right].
  - apply Forall_app. split; [done|]. constructor; [|done]. split.
    + unfold lo_last in Hlo. destruct (last KA) as [k|] eqn:E; [|done].
      apply last_Some in E as [l' ->]. apply Forall_app in Hba as [_ Hk].
      apply Forall_inv in Hk as [Hk _]. simpl in Hlo. by eapply strictly_above_trans.
    + unfold hi_first in Hhi. destruct KB as [|k KB]; [done|].
      apply Forall_inv in Hbb as [_ Hk]. simpl in Hhi. by eapply under_trans.
Qed.

Lemma separators_merge lo hi KA sep KB :
  StronglySorted Z.lt (KA ++ sep :: KB) →
  Forall (λ k, strictly_above lo k ∧ under hi k) (KA ++ sep :: KB) →
  StronglySorted Z.lt (KA ++ KB)
  ∧ Forall (λ k, strictly_above lo k ∧ under hi k) (KA ++ KB).
Proof.
  intros Hs Hb.
  apply Forall_app in Hb as [Hba Hb]. apply Forall_cons in Hb as [_ Hbb].
  apply sorted_app in Hs as (Hsa & Hs & Hlt). apply sorted_cons in Hs as [Hsb Hgt].
  split.
  - apply sorted_app. split_and!; [done..|]. intros a b Ha Hb. apply Hlt; [done|by right].
  - by apply Forall_app.
Qed.
(** Two nodes on either side of a separator form one node. *)
Lemma ordered_join_leaf lo hi s m m1 m2 lk rk vs lv rv :
  ordered 0 lo (Some s) (Leaf m1 lk lv) → ordered 0 (Some s) hi (Leaf m2 rk rv) →
  strictly_above lo s → under hi s →
  ordered 0 lo hi (Leaf m (lk ++ rk) vs).
Proof.
  intros (_ & Hsl & Hbl)%ordered_leaf (_ & Hsr & Hbr)%ordered_leaf Hlo Hhi.
  apply ordered_leaf. split; [done|]. split.
  - apply sorted_app. split_and!; [done..|]. intros a b Ha Hb.
    eapply Forall_forall in Hbl as [_ Hlt]; [|done].
    eapply Forall_forall in Hbr as [Hge _]; [|done]. simpl in *. lia.
  - apply Forall_app. split.
    + eapply Forall_impl; [done|]. simpl. intros a [? ?]. split; [done|].
      by eapply under_trans.
    + eapply Forall_impl; [done|]. simpl. intros a [? ?]. split; [|done].
      eapply above_trans; [done|]. by apply strictly_above_above.
Qed.

Lemma ordered_join_internal d lo hi s m m1 m2 lk rk lc rc :
  ordered (S d) lo (Some s) (Internal m1 lk lc) → ordered (S d) (Some s) hi (Internal m2 rk rc) →
  strictly_above lo s → under hi s →
  ordered (S d) lo hi (Internal m (lk ++ s :: rk) (lc ++ rc)).
Proof.
  intros (? & [= <-] & Hsl & Hbl & Hcl)%ordered_internal
         (? & [= <-] & Hsr & Hbr & Hcr)%ordered_internal Hlo Hhi.
  apply ordered_internal. exists d. split_and!; [done| | |].
  - apply sorted_app. split_and!; [done| |].
    + apply sorted_cons. split; [done|]. eapply Forall_impl; [done|]. by intros a [? ?].
    + intros a b Ha Hb.
      eapply Forall_forall in Hbl as [_ Hlt]; [|done]. simpl in Hlt.
      apply elem_of_cons in Hb as [->|Hb]; [done|].
      eapply Forall_forall in Hbr as [Hgt _]; [|done]. simpl in Hgt. lia.
  - apply Forall_app. split; [|constructor; [done|]].
    + eapply Forall_impl; [done|]. simpl. intros a [? ?]. split; [done|].
      by eapply under_trans.
    + eapply Forall_impl; [done|]. simpl. intros a [? ?]. split; [|done].
      by eapply strictly_above_trans.
  - rewrite child_bounds_app. by apply Forall2_app.
Qed.

Lemma borrowed_ordered d lo hi sep x y x' sep' y' :
  borrowed sep x y x' sep' y' →
  ordered d lo (Some sep) x → ordered d (Some sep) hi y →
  strictly_above lo sep → under hi sep →
  ordered d lo (Some sep') x' ∧ ordered d (Some sep') hi y'
  ∧ strictly_above lo sep' ∧ under hi sep'.
Proof.
  intros Hb Hx Hy Hlo Hhi. destruct Hb as
    [ml kl k vl v mc kc vc Hkl Hvl|mc kc vc mr k k0 kr v vr Hvc
    |ml kl mk cl cL mc kc cc Hcl|mc kc cc mr mk kr cR cr Hcc].
  - pose proof Hx as (-> & _)%ordered_leaf.
    destruct (ordered_split_leaf lo (Some sep) ml ml ml kl [k] (vl ++ [v]) vl [v] k Hx)
      as (Hx' & Hk & Hlok & Hksep); [done..|].
    simpl in Hksep. split_and!; [done| |done|by eapply under_trans].
    by apply (ordered_join_leaf (Some k) hi sep mc ml mc [k] kc (v :: vc) [v] vc).
  - pose proof Hx as (-> & _)%ordered_leaf.
    destruct (ordered_split_leaf (Some sep) hi mr mr mr [k] (k0 :: kr) (v :: vr) [v] vr k0 Hy)
      as (Hk & Hy' & Hsepk & Hkhi); [done|simpl; lia|].
    simpl in Hsepk. split_and!; [|done|by eapply strictly_above_trans|done].
    by apply (ordered_join_leaf lo (Some k0) sep mc mc mr kc [k] (vc ++ [v]) vc [v]).
  - destruct d as [|d]; [by apply ordered_internal in Hx as (? & ? & _)|].
    destruct (ordered_split_internal d lo (Some sep) ml ml ml kl mk [] cl [cL] Hx Hcl)
      as (Hx' & HcL & Hlok & Hksep).
    simpl in Hksep. split_and!; [done| |done|by eapply under_trans].
    by apply (ordered_join_internal d (Some mk) hi sep mc ml mc [] kc [cL] cc).
  - destruct d as [|d]; [by apply ordered_internal in Hx as (? & ? & _)|].
    destruct (ordered_split_internal d (Some sep) hi mr mr mr [] mk kr [cR] cr Hy)
      as (HcR & Hy' & Hsepk & Hkhi); [done|].
    simpl in Hsepk. split_and!; [|done|by eapply strictly_above_trans|done].
    by apply (ordered_join_internal d lo (Some mk) sep mc mc mr kc [] cc [cR]).
Qed.

Lemma merged_ordered d lo hi sep x y z :
  merged sep x y z →
  ordered d lo (Some sep) x → ordered d (Some sep) hi y →
  strictly_above lo sep → under hi sep →
  ordered d lo hi z.
Proof.
  intros Hm Hx Hy Hlo Hhi. destruct Hm as [mx kx vx my ky vy Hvx|mx kx cx my ky cy Hcx].
  - pose proof Hx as (-> & _)%ordered_leaf. by eapply ordered_join_leaf.
  - destruct d as [|d]; [by apply ordered_internal in Hx as (? & ? & _)|].
    by eapply ordered_join_internal.
Qed.

(** Rebalancing around a pair of children keeps the order of the parent. *)
Lemma ordered_pair d lo hi mt KA sep KB A x y B :
  ordered (S d) lo hi (Internal mt (KA ++ sep :: KB) (A ++ x :: y :: B)) →
  length A = length KA →
  (∀ x' sep' y', borrowed sep x y x' sep' y' →
                 ordered (S d) lo hi (Internal mt (KA ++ sep' :: KB) (A ++ x' :: y' :: B)))
  ∧ (∀ z, merged sep x y z → ordered (S d) lo hi (Internal mt (KA ++ KB) (A ++ z :: B))).
Proof.
  intros (? & [= <-] & Hs & Hb & Hcs)%ordered_internal Hlen.
  destruct (child_bounds_pair lo hi KA KB) as (F & G & HF & Hpair & Hmerge).
  rewrite Hpair in Hcs.
  apply Forall2_app_inv in Hcs as [HA Hcs]; [|lia].
  apply Forall2_cons in Hcs as [Hx Hcs]. apply Forall2_cons in Hcs as [Hy HB].
  simpl in Hx, Hy.
  destruct (separators_inv lo hi KA sep KB Hs Hb) as [Hlo Hhi].
  split.
  - intros x' sep' y' Hbor.
    destruct (borrowed_ordered _ _ _ _ _ _ _ _ _ Hbor Hx Hy Hlo Hhi) as (Hx' & Hy' & Hlo' & Hhi').
    destruct (separators_set lo hi KA sep KB sep' Hs Hb Hlo' Hhi') as [Hs' Hb'].
    apply ordered_internal. exists d. split_and!; [done..|].
    rewrite Hpair. apply Forall2_app; [done|]. by repeat constructor.
  - intros z Hmer.
    pose proof (merged_ordered _ _ _ _ _ _ _ Hmer Hx Hy Hlo Hhi) as Hz.
    destruct (separators_merge lo hi KA sep KB Hs Hb) as [Hs' Hb'].
    apply ordered_internal. exists d. split_and!; [done..|].
    rewrite Hmerge. apply Forall2_app; [done|]. by constructor.
Qed.

Lemma rebalanced_ordered d lo hi h mt ks cs i h' n' :
  ordered (S d) lo hi (Internal mt ks cs) →
  rebalanced h mt ks cs i (Some (h', n')) → ordered (S d) lo hi n'.
Proof.
  intros Hord (A & x & y & B & KA & sep & KB & -> & -> & Hlen & _ & Hcase).
  destruct (ordered_pair _ _ _ _ _ _ _ _ _ _ _ Hord Hlen) as [Hbor Hmer].
  destruct Hcase as [(x' & sep' & y' & Hb & [= -> ->])|(z & Hm & [= -> ->])]; eauto.
Qed.
End RebalanceOrdered.

(** * The slots of a tree: the association list that [find] reads *)

Section Slots.
Context {V : Type}.
#[local] Existing Instance never_nil.
Implicit Types (h : heap) (n c x y z : node V) (cs : list (node V)) (ks : list Z).
Implicit Types (lo hi : option Z) (vs : list (slot V)) (l : list (Z * slot V)).

(** The slot of the first entry with the key. *)
Fixpoint lookup_slot (key : Z) l : option (slot V) :=
  match l with
  | [] => None
  | (k, s) :: l' => if (k =? key)%Z then Some s else lookup_slot key l'
  end.

Lemma lookup_slot_app key l1 l2 :
  lookup_slot key (l1 ++ l2)
  = match lookup_slot key l1 with Some s => Some s | None => lookup_slot key l2 end.
Proof.
  induction l1 as [|[k s] l1 IH]; [done|]. simpl. by destruct (k =? key)%Z.
Qed.

Lemma lookup_slot_None key l : key ∉ l.*1 → lookup_slot key l = None.
Proof.
  induction l as [|[k s] l IH]; [done|]. simpl. intros Hnot.
  destruct (Z.eqb_spec k key) as [->|_]; [exfalso; apply Hnot; by left|].
  apply IH. intros ?. apply Hnot. by right.
Qed.

Lemma slots_internal mt ks cs : slots (Internal mt ks cs) = concat (slots <$> cs).
Proof. done. Qed.

Lemma borrowed_slots sep x y x' sep' y' :
  borrowed sep x y x' sep' y' → slots x' ++ slots y' = slots x ++ slots y.
Proof.
  intros [ml kl k vl v mc kc vc Hkl Hvl|mc kc vc mr k k0 kr v vr Hvc
         |ml kl mk cl cL mc kc cc Hcl|mc kc cc mr mk kr cR cr Hcc].
  - cbn [slots]. rewrite zip_with_app by lia. by rewrite <- app_assoc.
  - cbn [slots]. rewrite zip_with_app by lia. by rewrite <- app_assoc.
  - rewrite !slots_internal, !fmap_app, !concat_app. simpl. by rewrite <- ?app_assoc, ?app_nil_r.
  - rewrite !slots_internal, !fmap_app, !concat_app. simpl. by rewrite <- ?app_assoc, ?app_nil_r.
Qed.

Lemma merged_slots sep x y z : merged sep x y z → slots z = slots x ++ slots y.
Proof.
  intros [mx kx vx my ky vy Hvx|mx kx cx my ky cy Hcx].
  - cbn [slots]. rewrite zip_with_app by lia. done.
  - by rewrite !slots_internal, fmap_app, concat_app.
Qed.

Lemma rebalanced_slots h mt ks cs i h' n' :
  rebalanced h mt ks cs i (Some (h', n')) → slots n' = slots (Internal mt ks cs).
Proof.
  intros (A & x & y & B & KA & sep & KB & -> & -> & Hlen & _ & Hcase).
  destruct Hcase as [(x' & sep' & y' & Hb & [= -> ->])|(z & Hm & [= -> ->])].
  - apply borrowed_slots in Hb. rewrite !slots_internal, !fmap_app, !concat_app. simpl.
    f_equal. by rewrite !app_assoc, Hb.
  - apply merged_slots in Hm. rewrite !slots_internal, !fmap_app, !concat_app. simpl.
    f_equal. by rewrite Hm, <- app_assoc.
Qed.

(** The keys of the slots are strictly ascending and within the bounds. *)
Lemma concat_sorted lo hi ks (Ls : list (list Z)) :
  StronglySorted Z.lt ks →
  Forall (λ k, strictly_above lo k ∧ under hi k) ks →
  Forall2 (λ L b, StronglySorted Z.lt L ∧ Forall (λ k, above b.1 k ∧ under b.2 k) L)
          Ls (child_bounds lo hi ks) →
  StronglySorted Z.lt (concat Ls) ∧ Forall (λ k, above lo k ∧ under hi k) (concat Ls).
Proof.
  revert lo Ls. induction ks as [|k ks IH]; intros lo Ls Hs Hb HLs.
  - rewrite child_bounds_nil in HLs. apply Forall2_cons_inv_r in HLs as (L & Ls' & [HL1 HL2] & HLs' & ->).
    apply Forall2_nil_inv_r in HLs' as ->. simpl. by rewrite app_nil_r.
  - rewrite child_bounds_cons in HLs.
    apply Forall2_cons_inv_r in HLs as (L & Ls' & [HL1 HL2] & HLs' & ->).
    apply sorted_cons in Hs as [Hs Hk]. apply Forall_cons in Hb as [[Hlok Hkhi] Hb].
    destruct (IH (Some k) Ls' Hs) as [IH1 IH2]; [|done|].
    { eapply Forall_impl; [apply Forall_and; split; [exact Hk|exact Hb]|].
      simpl. intros a [? [_ ?]]. done. }
    simpl in *. split.
    + apply sorted_app. split_and!; [done..|]. intros a b Ha Hin.
      eapply Forall_forall in HL2 as [_ ?]; [|done].
      eapply Forall_forall in IH2 as [? _]; [|done]. simpl in *. lia.
    + apply Forall_app. split.
      * eapply Forall_impl; [done|]. simpl. intros a [? ?]. split; [done|].
        by eapply under_trans.
      * eapply Forall_impl; [done|]. simpl. intros a [? ?]. split; [|done].
        eapply above_trans; [done|]. by apply strictly_above_above.
Qed.

Lemma slots_sorted m d lo hi n :
  shape m d n → ordered d lo hi n →
  StronglySorted Z.lt (slots n).*1 ∧ Forall (λ k, above lo k ∧ under hi k) (slots n).*1.
Proof.
  revert lo hi n. induction d as [|d IH]; intros lo hi n Hsh Hord.
  - destruct (shape_0 _ _ Hsh) as (mt & ks & vs & ->).
    apply shape_leaf in Hsh as (_ & _ & Hlen & _).
    apply ordered_leaf in Hord as (_ & Hs & Hb).
    cbn [slots]. rewrite fst_zip by lia. done.
  - destruct (shape_S _ _ _ Hsh) as (mt & ks & cs & ->).
    apply shape_internal in Hsh as (? & [= <-] & _ & Hlen & _ & Hcs).
    apply ordered_internal in Hord as (? & [= <-] & Hs & Hb & Hord).
    rewrite slots_internal.
    assert ((concat (slots <$> cs)).*1 = concat ((λ c, (slots c).*1) <$> cs)) as ->.
    { clear. induction cs as [|c cs IH]; [done|].
      by rewrite !fmap_cons, !concat_cons, fmap_app, IH. }
    apply concat_sorted with (ks := ks); [done..|].
    apply Forall2_fmap_l.
    apply Forall2_same_length_lookup. split; [by eapply Forall2_length|].
    intros j c b Hc Hbj. apply IH.
    + by eapply Forall_lookup_1 in Hcs as [? _].
    + by eapply Forall2_lookup_lr in Hord.
Qed.
Lemma fst_concat_slots cs :
  (concat (slots <$> cs)).*1 = concat ((λ c, (slots c).*1) <$> cs).
Proof.
  induction cs as [|c cs IH]; [done|].
  by rewrite !fmap_cons, !concat_cons, fmap_app, IH.
Qed.

Lemma children_sorted m d lo hi ks cs :
  Forall (λ c, shape m d c ∧ ceil_half m ≤ count c) cs →
  Forall2 (λ c b, ordered d b.1 b.2 c) cs (child_bounds lo hi ks) →
  Forall2 (λ c b, StronglySorted Z.lt (slots c).*1
                  ∧ Forall (λ k, above b.1 k ∧ under b.2 k) (slots c).*1)
          cs (child_bounds lo hi ks).
Proof.
  intros Hcs Hord. apply Forall2_same_length_lookup. split; [by eapply Forall2_length|].
  intros j c b Hc Hbj. apply (slots_sorted m d).
  - by eapply Forall_lookup_1 in Hcs as [? _].
  - by eapply Forall2_lookup_lr in Hord.
Qed.

(** The descent of [find] reaches the only child that may hold the key. *)
Lemma find_concat key lo hi ks cs :
  StronglySorted Z.lt ks →
  Forall (λ k, strictly_above lo k ∧ under hi k) ks →
  Forall2 (λ c b, StronglySorted Z.lt (slots c).*1
                  ∧ Forall (λ k, above b.1 k ∧ under b.2 k) (slots c).*1)
          cs (child_bounds lo hi ks) →
  ∃ c, cs !! childIndex ks key = Some c
       ∧ lookup_slot key (concat (slots <$> cs)) = lookup_slot key (slots c).
Proof.
  revert lo cs. induction ks as [|k ks IH]; intros lo cs Hs Hb Hcs.
  - rewrite child_bounds_nil in Hcs.
    apply Forall2_cons_inv_r in Hcs as (c & cs' & _ & Hcs' & ->).
    apply Forall2_nil_inv_r in Hcs' as ->. exists c. split; [done|].
    simpl. by rewrite app_nil_r.
  - rewrite child_bounds_cons in Hcs.
    apply Forall2_cons_inv_r in Hcs as (c & cs' & [Hc1 Hc2] & Hcs' & ->).
    apply sorted_cons in Hs as [Hs Hk]. apply Forall_cons in Hb as [[Hlok Hkhi] Hb].
    assert (Hb' : Forall (λ a, strictly_above (Some k) a ∧ under hi a) ks).
    { eapply Forall_impl; [apply Forall_and; split; [exact Hk|exact Hb]|].
      simpl. by intros a [? [_ ?]]. }
    rewrite fmap_cons, concat_cons, lookup_slot_app. cbn [childIndex].
    destruct (Z.ltb_spec key k) as [Hlt|Hge].
    + exists c. split; [done|]. destruct (lookup_slot key (slots c)); [done|].
      apply lookup_slot_None. rewrite fst_concat_slots.
      destruct (concat_sorted (Some k) hi ks ((λ c, (slots c).*1) <$> cs') Hs Hb') as [_ Hall].
      { by apply Forall2_fmap_l. }
      intros Hin. eapply Forall_forall in Hall as [Hge _]; [|done]. simpl in Hge. lia.
    + rewrite lookup_slot_None.
      2:{ intros Hin. eapply Forall_forall in Hc2 as [_ Hlt]; [|done]. simpl in Hlt. lia. }
      destruct (IH (Some k) cs' Hs Hb' Hcs') as (c' & Hc' & Heq). by exists c'.
Qed.

Lemma lookup_slot_zip key ks vs :
  length vs = length ks →
  lookup_slot key (zip ks vs) = i ← keyIndex ks key; vs !! i.
Proof.
  revert vs. induction ks as [|k ks IH]; intros [|v vs] Hlen; try done.
  simpl. destruct (k =? key)%Z; [done|]. rewrite IH by (simpl in Hlen; lia).
  by destruct (keyIndex ks key).
Qed.

(** [find] reads the slots of the tree as an association list. *)
Lemma find_slots m d lo hi n key :
  shape m d n → ordered d lo hi n → node_find n key = Some (lookup_slot key (slots n)).
Proof.
  revert lo hi n. induction d as [|d IH]; intros lo hi n Hsh Hord.
  - destruct (shape_0 _ _ Hsh) as (mt & ks & vs & ->).
    apply shape_leaf in Hsh as (_ & _ & Hlen & _).
    cbn [node_find slots]. rewrite lookup_slot_zip by done.
    destruct (keyIndex ks key) as [i|] eqn:E; [|done].
    apply keyIndex_Some in E as [Hi%lookup_lt_Some _].
    destruct (lookup_lt_is_Some_2 vs i) as [s Hs]; [lia|]. cbn [mbind option_bind].
    by rewrite Hs.
  - destruct (shape_S _ _ _ Hsh) as (mt & ks & cs & ->).
    apply shape_internal in Hsh as (? & [= <-] & _ & Hlen & _ & Hcs).
    apply ordered_internal in Hord as (? & [= <-] & Hs & Hb & Hord).
    rewrite node_find_internal, slots_internal.
    destruct (find_concat key lo hi ks cs Hs Hb) as (c & Hc & ->).
    { by eapply children_sorted. }
    rewrite Hc. pose proof (child_bounds_lookup lo hi ks (childIndex ks key)) as Hbi.
    destruct (childIndex_spec ks key) as (Hi & _). specialize (Hbi Hi).
    eapply IH.
    + by eapply Forall_lookup_1 in Hcs as [? _].
    + eapply Forall2_lookup_lr in Hord; [|done..]. done.
Qed.
End Slots.

(** * Deletion: the order of the tree and its slots afterwards *)

Section DeleteOrdered.
Context {V : Type}.
#[local] Existing Instance never_nil.
Implicit Types (h : heap) (n c x y z : node V) (cs : list (node V)) (ks : list Z).
Implicit Types (lo hi : option Z) (vs : list (slot V)) (l : list (Z * slot V)).
Implicit Types (s : slot V) (rest : option (slot V)).

(** What [deleteFromLeaf] does with the slot of the key: the value that
    it returns and the slot that stays, [None] when nothing is deleted. *)
Definition slot_delete (all : bool) (idx : Z) s : option (slot V * option (slot V)) :=
  if all then Some (Bucket (slot_values s), None)
  else match s with
       | Solo v => if decide (0 < idx)%Z then None else Some (Solo v, None)
       | Bucket b =>
           if decide (Z.of_nat (length b) ≤ idx)%Z then None
           else
             '(v, b') ←
               (if decide (idx < 0)%Z then slice_pop b
                else v ← b !! Z.to_nat idx;
                     b' ← slice_delete (Z.to_nat idx) b;
                     Some (v, b'));
             Some (Solo v, if decide (length b' ≠ 0) then Some (Bucket b') else None)
       end.

(** The slots [l'] are the slots [l] with the slot of [key] replaced by
    [rest]. *)
Definition slots_updated (key : Z) rest l l' : Prop :=
  ∃ l1 s l2, l = l1 ++ (key, s) :: l2
             ∧ l' = l1 ++ match rest with Some s' => [(key, s')] | None => [] end ++ l2.

Lemma slots_updated_app key rest l l' la lb :
  slots_updated key rest l l' → slots_updated key rest (la ++ l ++ lb) (la ++ l' ++ lb).
Proof.
  intros (l1 & s & l2 & -> & ->). exists (la ++ l1), s, (l2 ++ lb).
  by rewrite <- !app_assoc.
Qed.

Lemma slice_pop_nonempty {A} (b : list A) : b ≠ [] → ∃ v b', slice_pop b = Some (v, b').
Proof.
  intros Hb. destruct (snoc_inv b) as (b' & v & ->).
  { destruct b; [done|simpl; lia]. }
  rewrite slice_pop_Some. eauto.
Qed.

Lemma deleteFromLeaf_slot mt ks vs key all idx i s :
  length vs = length ks → keyIndex ks key = Some i → vs !! i = Some s →
  slot_values s ≠ [] →
  deleteFromLeaf (Leaf mt ks vs) key all idx
  = Some (match slot_delete all idx s with
          | None => (Leaf mt ks vs, None)
          | Some (val, Some s') => (Leaf mt ks (<[i := s']> vs), Some val)
          | Some (val, None) =>
              (Leaf mt (take i ks ++ drop (S i) ks) (take i vs ++ drop (S i) vs), Some val)
          end).
Proof.
  intros Hlen Hi Hs Hne. pose proof (lookup_lt_Some _ _ _ Hs) as Hlt.
  unfold deleteFromLeaf, slot_delete. rewrite Hi, Hs. cbn [mbind option_bind].
  rewrite !slice_delete_Some by lia. cbn [mbind option_bind].
  destruct all; [by destruct s|].
  destruct s as [v|b]; [by destruct (decide (0 < idx)%Z)|].
  destruct (decide (Z.of_nat (length b) ≤ idx)%Z); [done|]. simpl in Hne.
  destruct (if decide (idx < 0)%Z then slice_pop b else _) as [[v b']|] eqn:E.
  - cbn [mbind option_bind]. by destruct (decide (length b' ≠ 0)).
  - exfalso. destruct (decide (idx < 0)%Z).
    + destruct (slice_pop_nonempty b Hne) as (? & ? & ?). congruence.
    + destruct (lookup_lt_is_Some_2 b (Z.to_nat idx)) as [v Hv]; [lia|].
      rewrite Hv in E. cbn [mbind option_bind] in E.
      rewrite slice_delete_Some in E by lia. done.
Qed.
(** The result of a deletion and the slots after it, from the slots
    before it. *)
Definition del_post (key : Z) (all : bool) (idx : Z) l l' (res : option (slot V)) : Prop :=
  match lookup_slot key l ≫= slot_delete all idx with
  | None => res = None ∧ l' = l
  | Some (val, rest) => res = Some val ∧ slots_updated key rest l l'
  end.

Lemma zip_middle ks vs i k s :
  ks !! i = Some k → vs !! i = Some s →
  zip ks vs = zip (take i ks) (take i vs) ++ (k, s) :: zip (drop (S i) ks) (drop (S i) vs).
Proof.
  intros Hk Hs. rewrite <- (take_drop_middle ks i k Hk) at 1.
  rewrite <- (take_drop_middle vs i s Hs) at 1.
  apply lookup_lt_Some in Hk, Hs. rewrite zip_with_app; [done|].
  rewrite !length_take. lia.
Qed.

Lemma zip_delete ks vs i :
  i < length ks → i < length vs →
  zip (take i ks ++ drop (S i) ks) (take i vs ++ drop (S i) vs)
  = zip (take i ks) (take i vs) ++ zip (drop (S i) ks) (drop (S i) vs).
Proof. intros. rewrite zip_with_app; [done|]. rewrite !length_take. lia. Qed.

Lemma deleteFromLeaf_ordered m lo hi mt ks vs key all idx :
  shape m 0 (Leaf mt ks vs) → ordered 0 lo hi (Leaf mt ks vs) →
  ∃ n' res, deleteFromLeaf (Leaf mt ks vs) key all idx = Some (n', res)
            ∧ ordered 0 lo hi n'
            ∧ del_post key all idx (slots (Leaf mt ks vs)) (slots n') res.
Proof.
  intros (_ & _ & Hlen & _ & Hne)%shape_leaf Hord.
  pose proof Hord as (_ & Hs & Hb)%ordered_leaf.
  unfold del_post. cbn [slots]. rewrite lookup_slot_zip by done.
  destruct (keyIndex ks key) as [i|] eqn:Ei.
  2:{ rewrite deleteFromLeaf_absent by done. by eexists _, _. }
  pose proof Ei as [Hk _]%keyIndex_Some. pose proof (lookup_lt_Some _ _ _ Hk) as Hi.
  destruct (lookup_lt_is_Some_2 vs i) as [s Hsi]; [lia|].
  rewrite (deleteFromLeaf_slot mt ks vs key all idx i s Hlen Ei Hsi).
  2:{ by eapply Forall_lookup_1 in Hne. }
  cbn [mbind option_bind]. rewrite Hsi. cbn [mbind option_bind].
  destruct (slot_delete all idx s) as [[val [s'|]]|].
  - eexists _, _. split; [done|]. split; [by apply ordered_leaf|]. split; [done|].
    exists (zip (take i ks) (take i vs)), s, (zip (drop (S i) ks) (drop (S i) vs)).
    cbn [slots]. split; [by apply zip_middle|].
    rewrite (zip_middle ks (<[i := s']> vs) i key s' Hk).
    2:{ apply list_lookup_insert_eq. lia. }
    by rewrite take_insert_ge, drop_insert_lt by lia.
  - eexists _, _. split; [done|]. split.
    + apply ordered_leaf. split; [done|].
      rewrite <- (take_drop_middle ks i key Hk) in Hs, Hb. split.
      * apply sorted_app in Hs as (? & [? ?]%sorted_cons & Hlt).
        apply sorted_app. split_and!; [done..|]. intros a b Ha Hin. apply Hlt; [done|by right].
      * apply Forall_app in Hb as [? [_ ?]%Forall_cons]. by apply Forall_app.
    + split; [done|].
      exists (zip (take i ks) (take i vs)), s, (zip (drop (S i) ks) (drop (S i) vs)).
      cbn [slots]. split; [by apply zip_middle|]. apply zip_delete; lia.
  - by eexists _, _.
Qed.
Lemma slots_replace_child mt ks cs i c0 c :
  cs !! i = Some c0 →
  slots (Internal mt ks cs)
  = concat (slots <$> take i cs) ++ slots c0 ++ concat (slots <$> drop (S i) cs)
  ∧ slots (Internal mt ks (<[i := c]> cs))
    = concat (slots <$> take i cs) ++ slots c ++ concat (slots <$> drop (S i) cs).
Proof.
  intros Hc. pose proof (lookup_lt_Some _ _ _ Hc) as Hi. rewrite !slots_internal. split.
  - rewrite <- (take_drop_middle cs i c0 Hc) at 1.
    by rewrite fmap_app, concat_app, fmap_cons, concat_cons.
  - rewrite insert_take_drop by done.
    by rewrite fmap_app, concat_app, fmap_cons, concat_cons.
Qed.

Lemma node_delete_ordered m d lo hi h n key all idx :
  3 ≤ m → shape m d n → ordered d lo hi n → (d ≠ 0 → 2 ≤ count n) →
  ∃ h' n' res, node_delete h n key all idx = Some (h', n', res)
               ∧ ordered d lo hi n'
               ∧ del_post key all idx (slots n) (slots n') res.
Proof.
  intros Hm. revert lo hi h n. induction d as [|d IH]; intros lo hi h n Hsh Hord H2.
  - destruct (shape_0 _ _ Hsh) as (mt & ks & vs & ->). cbn [node_delete].
    destruct (deleteFromLeaf_ordered m lo hi mt ks vs key all idx Hsh Hord)
      as (n' & res & -> & Hord' & Hpost).
    cbn [mbind option_bind]. by eexists _, _, _.
  - destruct (shape_S _ _ _ Hsh) as (mt & ks & cs & ->).
    specialize (H2 ltac:(done)). cbn [count] in H2.
    destruct (node_delete_cases m d h mt ks cs key all idx Hm Hsh H2)
      as (c0 & h1 & c & res & Hc0 & Hc0sh & Hc0cnt & Hdel & Hcsh & Hres).
    pose proof (ceil_half_bounds m Hm) as Hbm.
    destruct (childIndex_spec ks key) as (Hi & _).
    set (i := childIndex ks key) in *.
    destruct (ordered_child d lo hi mt ks cs i Hord Hi) as (c0' & Hc0' & Hc0ord).
    assert (c0' = c0) as -> by congruence.
    destruct (IH _ _ h c0 Hc0sh Hc0ord ltac:(lia)) as (h1' & c' & res' & Hdel' & Hcord & Hpost).
    rewrite Hdel in Hdel'. injection Hdel' as <- <- <-.
    pose proof Hsh as (? & [= <-] & _ & Hlen & _ & Hcs)%shape_internal.
    pose proof Hord as (? & [= <-] & Hs & Hb & Hcsord)%ordered_internal.
    destruct (find_concat key lo hi ks cs Hs Hb) as (c0' & Hc0'' & Hlook).
    { by eapply children_sorted. }
    fold i in Hc0''. assert (c0' = c0) as -> by congruence.
    destruct (slots_replace_child mt ks cs i c0 c Hc0) as [Hsl Hsl'].
    assert (Hpost' : del_post key all idx (slots (Internal mt ks cs))
                       (slots (Internal mt ks (<[i := c]> cs))) res).
    { unfold del_post in *.
      replace (lookup_slot key (slots (Internal mt ks cs)))
        with (lookup_slot key (slots c0)) by by rewrite slots_internal.
      destruct (lookup_slot key (slots c0) ≫= slot_delete all idx) as [[val rest]|].
      - destruct Hpost as [-> Hup]. split; [done|]. rewrite Hsl, Hsl'.
        by apply slots_updated_app.
      - destruct Hpost as [-> Heq]. split; [done|]. by rewrite Hsl', Heq, <- Hsl. }
    assert (Hord1 : ordered (S d) lo hi (Internal mt ks (<[i := c]> cs))).
    { by apply ordered_replace_child. }
    destruct res as [val|].
    + destruct Hres as ([h2 n2] & Hdel2 & Hstep). cbn [fst snd] in Hdel2.
      exists h2, n2, (Some val). split; [done|].
      destruct Hstep as [[= -> ->]|Hreb]; [done|]. split.
      * by eapply rebalanced_ordered.
      * by rewrite (rebalanced_slots _ _ _ _ _ _ _ Hreb).
    + exists h, (Internal mt ks cs), None. split; [done|]. split; [done|].
      destruct (node_delete_None _ _ _ _ _ _ _ Hdel) as [-> ->].
      by rewrite list_insert_id in Hpost'.
Qed.
Lemma lookup_slot_updated key rest l l' :
  StronglySorted Z.lt l.*1 → slots_updated key rest l l' →
  lookup_slot key l' = rest ∧ (∀ k, k ≠ key → lookup_slot k l' = lookup_slot k l).
Proof.
  intros Hs (l1 & s & l2 & -> & ->). rewrite fmap_app, fmap_cons in Hs. simpl in Hs.
  apply sorted_middle_notin in Hs as [Hn1 Hn2]. split.
  - rewrite lookup_slot_app, (lookup_slot_None key l1) by done.
    destruct rest as [s'|]; simpl; [by rewrite Z.eqb_refl|by apply lookup_slot_None].
  - intros k Hk. rewrite !lookup_slot_app. destruct (lookup_slot k l1); [done|].
    simpl. destruct (Z.eqb_spec key k) as [->|_]; [done|].
    destruct rest; simpl; [|done]. by destruct (Z.eqb_spec key k) as [->|_].
Qed.

(** The root after a deletion, [if t.root.isInternal() &&
    len(t.root.children) == 1]. *)
Definition collapse n : node V :=
  match n with Internal _ _ [c] => c | _ => n end.

Lemma collapse_ordered d n :
  ordered d None None n → ∃ d', ordered d' None None (collapse n).
Proof.
  intros Hord. destruct n as [mt ks vs|mt ks [|c [|c2 cs]]]; simpl; eauto.
  apply ordered_internal in Hord as (d' & -> & _ & _ & Hcs).
  pose proof (Forall2_length _ _ _ Hcs) as Hlen. rewrite length_child_bounds in Hlen.
  destruct ks; [|done]. rewrite child_bounds_nil in Hcs.
  apply Forall2_cons in Hcs as [Hc _]. eauto.
Qed.

Lemma collapse_slots n : slots (collapse n) = slots n.
Proof.
  destruct n as [mt ks vs|mt ks [|c [|c2 cs]]]; simpl; try done. by rewrite app_nil_r.
Qed.

Lemma wf_find m (t : BPTree V) key :
  wf m t → find t key = Some (lookup_slot key (slots (root t)))
           ∧ StronglySorted Z.lt (slots (root t)).*1.
Proof.
  intros [(Hm & d & Hsh & _) (d' & Hord)].
  pose proof (height_unique _ _ _ _ _ _ Hsh Hord) as ->. split.
  - by eapply find_slots.
  - by eapply slots_sorted.
Qed.

(** Deletion keeps the tree well formed; what it returns and what the
    tree holds afterwards follow from the slot of the key before it. *)
Lemma delete_wf m h (t : BPTree V) key all idx :
  wf m t →
  ∃ h' t' res o,
    delete h t key all idx = Some (h', t', res) ∧ wf m t' ∧ find t key = Some o
    ∧ match o ≫= slot_delete all idx with
      | None => res = None ∧ h' = h ∧ t' = t
      | Some (val, rest) =>
          res = Some val ∧ find t' key = Some rest
          ∧ (∀ k, k ≠ key → find t' k = find t k)
          ∧ size t' = (size t - (if all then Z.of_nat (length (slot_values val)) else 1))%Z
      end.
Proof.
  intros Hwf. pose proof Hwf as [Hts (d' & Hord)].
  destruct (wf_find m t key Hwf) as [Hfind Hsorted].
  pose proof Hts as (Hm & d & Hsh & Hroot).
  pose proof (height_unique _ _ _ _ _ _ Hsh Hord) as ->.
  destruct (node_delete_ordered m d None None h (root t) key all idx Hm Hsh Hord)
    as (h' & n' & res & Hdel & Hord' & Hpost).
  { intros Hd. apply Hroot. by apply (shape_isInternal _ _ _ Hsh). }
  destruct (delete_shape m h t key all idx Hts) as (h2 & t2 & res2 & Hdelete & Hts2 & Hval).
  exists h2, t2, res2, (lookup_slot key (slots (root t))).
  split; [done|]. unfold delete in Hdelete. rewrite Hdel in Hdelete.
  cbn [mbind option_bind] in Hdelete. unfold del_post in Hpost.
  destruct (lookup_slot key (slots (root t)) ≫= slot_delete all idx) as [[val rest]|] eqn:E.
  - destruct Hpost as [-> Hup].
    assert (Hroot2 : root t2 = collapse n' ∧ res2 = Some val
                     ∧ size t2 = (size t - (if all then Z.of_nat (length (slot_values val))
                                            else 1))%Z).
    { destruct all.
      - injection Hdelete as <- <- <-. cbn [root size]. split; [done|].
        destruct (lookup_slot key (slots (root t))) as [s|]; [|done].
        cbn [mbind option_bind] in E. unfold slot_delete in E. injection E as <- <-.
        done.
      - by injection Hdelete as <- <- <-. }
    destruct Hroot2 as (Hr2 & -> & Hsize).
    assert (Hwf2 : wf m t2).
    { split; [done|]. rewrite Hr2. by eapply collapse_ordered. }
    split; [done|]. split; [done|].
    destruct (wf_find m t2 key Hwf2) as [Hfind2 _].
    destruct (lookup_slot_updated key rest _ _ Hsorted Hup) as [Hkey Hother].
    rewrite <- collapse_slots, <- Hr2 in Hkey, Hother.
    split_and!; [done| | |done].
    + by rewrite Hfind2, Hkey.
    + intros k Hk. destruct (wf_find m t2 k Hwf2) as [-> _].
      destruct (wf_find m t k Hwf) as [-> _]. by rewrite Hother.
  - destruct Hpost as [-> _]. injection Hdelete as <- <- <-.
    destruct (node_delete_None _ _ _ _ _ _ _ Hdel) as [-> ->].
    split; [|split; [done|]].
    + by destruct t.
    + split_and!; try done. by destruct t.
Qed.
End DeleteOrdered.

(** * Well-formedness of the reachable trees, and [DeleteOne] *)

Section PublicWf.
Context {V : Type}.
#[local] Existing Instance never_nil.
Implicit Types (h : heap) (n c : node V) (t : BPTree V) (s : slot V).

Lemma NewBPTree_wf h order : wf (clamp order) (NewBPTree (V := V) h order).2.
Proof.
  split; [apply NewBPTree_shape|]. exists 0. unfold NewBPTree. simpl.
  apply ordered_leaf. by repeat constructor.
Qed.

Lemma Clear_wf m h t : wf m t → wf m (Clear h t).2.
Proof.
  intros [Hsh _]. split; [by apply Clear_shape|]. exists 0. unfold Clear.
  destruct (isLeaf (root t)); simpl; apply ordered_leaf; by repeat constructor.
Qed.

Lemma apply_op_wf m (o : op V) h t :
  wf m t → ∃ h' t', apply_op o (h, t) = Some (h', t') ∧ wf m t'.
Proof.
  intros Ht. destruct o as [key val|key val|key|key idx|key|]; cbn [apply_op].
  - destruct (insert_wf m h t key val true Ht) as (h' & t' & ? & ? & _). by exists h', t'.
  - destruct (insert_wf m h t key val false Ht) as (h' & t' & ? & ? & _). by exists h', t'.
  - destruct (apply_op_shape m (ODelete key) h t (proj1 Ht)) as (h' & t' & Hop & _).
    exists h', t'. split; [done|]. cbn [apply_op] in Hop. unfold Delete in Hop.
    destruct (delete_wf m h t key false (-1) Ht) as (h2 & t2 & res & o & Hdel & Hwf & _).
    rewrite Hdel in Hop. cbn [mbind option_bind] in Hop.
    destruct res as [[v|b]|]; simpl in Hop; congruence.
  - destruct (apply_op_shape m (ODeleteOne key idx) h t (proj1 Ht)) as (h' & t' & Hop & _).
    exists h', t'. split; [done|]. cbn [apply_op] in Hop. unfold DeleteOne in Hop.
    destruct (delete_wf m h t key false idx Ht) as (h2 & t2 & res & o & Hdel & Hwf & _).
    rewrite Hdel in Hop. cbn [mbind option_bind] in Hop.
    destruct res as [[v|b]|]; simpl in Hop; congruence.
  - destruct (apply_op_shape m (ODeleteAll key) h t (proj1 Ht)) as (h' & t' & Hop & _).
    exists h', t'. split; [done|]. cbn [apply_op] in Hop. unfold DeleteAll in Hop.
    destruct (delete_wf m h t key true 0 Ht) as (h2 & t2 & res & o & Hdel & Hwf & _).
    rewrite Hdel in Hop. cbn [mbind option_bind] in Hop.
    destruct res as [[v|b]|]; simpl in Hop; congruence.
  - eexists _, _. split; [by rewrite <- surjective_pairing|]. by apply Clear_wf.
Qed.

Lemma run_wf m (ops : list (op V)) h t :
  wf m t → ∃ h' t', run ops (h, t) = Some (h', t') ∧ wf m t'.
Proof.
  revert h t. induction ops as [|o ops IH]; intros h t Ht; cbn [run].
  - by eexists _, _.
  - destruct (apply_op_wf m o h t Ht) as (h1 & t1 & -> & Ht1). cbn [mbind option_bind].
    by apply IH.
Qed.

(** Every tree made by [NewBPTree] and changed by public operations only
    is well formed. *)
Lemma reachable_wf order h0 (ops : list (op V)) h t :
  run ops (NewBPTree (V := V) h0 order) = Some (h, t) → wf (clamp order) t.
Proof.
  intros Hrun.
  destruct (run_wf (clamp order) ops (NewBPTree (V := V) h0 order).1 (NewBPTree h0 order).2)
    as (h' & t' & Hrun' & Ht'); [apply NewBPTree_wf|].
  rewrite <- surjective_pairing in Hrun'. rewrite Hrun in Hrun'. by injection Hrun' as <- <-.
Qed.
End PublicWf.

Section DeleteOneSpec.
Context {V : Type}.
#[local] Existing Instance never_nil.
Implicit Types (h : heap) (n c : node V) (t : BPTree V) (s : slot V).

(** [DeleteOne(k, idx)] in the words of its description, on the slot of
    [k]: the value removed and the values that stay, [None] when [idx] is
    out of range.  A bucket gives up its entry at [idx], its last entry
    when [idx < 0]; a single value is given up when [idx ≤ 0]. *)
Definition spec_DeleteOne s (idx : Z) : option (V * list V) :=
  match s with
  | Solo v => if decide (idx ≤ 0)%Z then Some (v, []) else None
  | Bucket b =>
      if decide (idx < 0)%Z then v ← last b; Some (v, removelast b)
      else v ← b !! Z.to_nat idx;
           Some (v, take (Z.to_nat idx) b ++ drop (S (Z.to_nat idx)) b)
  end.

Lemma slots_nonempty m d n :
  shape m d n → Forall (λ kv, slot_values kv.2 ≠ []) (slots n).
Proof.
  revert n. induction d as [|d IH]; intros n Hsh.
  - destruct (shape_0 _ _ Hsh) as (mt & ks & vs & ->).
    apply shape_leaf in Hsh as (_ & _ & Hlen & _ & Hne). cbn [slots].
    apply Forall_forall. intros [k s] Hin. apply elem_of_zip_r in Hin.
    by eapply Forall_forall in Hne.
  - destruct (shape_S _ _ _ Hsh) as (mt & ks & cs & ->).
    apply shape_internal in Hsh as (? & [= <-] & _ & _ & _ & Hcs).
    rewrite slots_internal. apply Forall_concat, Forall_fmap.
    eapply Forall_impl; [done|]. intros c [? _]. by apply IH.
Qed.

Lemma lookup_slot_elem key (l : list (Z * slot V)) s :
  lookup_slot key l = Some s → (key, s) ∈ l.
Proof.
  induction l as [|[k s'] l IH]; [done|]. simpl.
  destruct (Z.eqb_spec k key) as [->|_].
  - intros [= ->]. by left.
  - intros ?. right. by apply IH.
Qed.

Lemma find_nonempty m t key s :
  wf m t → find t key = Some (Some s) → slot_values s ≠ [].
Proof.
  intros Hwf Hf. destruct (wf_find m t key Hwf) as [Hfind _].
  rewrite Hfind in Hf. injection Hf as Hf. apply lookup_slot_elem in Hf.
  destruct Hwf as [(_ & d & Hsh & _) _].
  pose proof (slots_nonempty m d (root t) Hsh) as Hall.
  by eapply Forall_forall in Hall; [|done].
Qed.

(** The slot-level outcome of [deleteFromLeaf] agrees with the
    description of [DeleteOne]. *)
Lemma slot_delete_spec s idx :
  slot_values s ≠ [] →
  match spec_DeleteOne s idx with
  | Some (v, remaining) =>
      ∃ rest, slot_delete false idx s = Some (Solo v, rest) ∧ found_values rest = remaining
  | None => slot_delete false idx s = None
  end.
Proof.
  intros Hne. unfold spec_DeleteOne, slot_delete. destruct s as [v|b].
  - destruct (decide (idx ≤ 0)%Z).
    + rewrite decide_False by lia. by exists None.
    + by rewrite decide_True by lia.
  - simpl in Hne. destruct (decide (idx < 0)%Z).
    + rewrite decide_False by lia.
      destruct (slice_pop_nonempty b Hne) as (v & b' & Hpop). rewrite Hpop.
      apply slice_pop_inv in Hpop as ->. rewrite last_snoc, removelast_last.
      cbn [mbind option_bind]. eexists. split; [done|].
      destruct (decide (length b' ≠ 0)); [done|]. simpl. destruct b'; [done|simpl in *; lia].
    + destruct (b !! Z.to_nat idx) as [v|] eqn:E; cbn [mbind option_bind].
      * pose proof (lookup_lt_Some _ _ _ E). rewrite decide_False by lia.
        rewrite slice_delete_Some by done. cbn [mbind option_bind].
        eexists. split; [done|].
        destruct (decide (length _ ≠ 0)) as [|He]; [done|]. simpl.
        destruct (take _ _ ++ drop _ _); [done|simpl in He; lia].
      * apply lookup_ge_None in E. by rewrite decide_True by lia.
Qed.

Lemma delete_one m h t key idx :
  wf m t →
  ∃ h' t' res o,
    DeleteOne h t key idx = Some (h', t', res) ∧ wf m t' ∧ find t key = Some o
    ∧ match o ≫= (λ s, spec_DeleteOne s idx) with
      | Some (v, remaining) =>
          res = Some v
          ∧ found_values <$> find t' key = Some remaining
          ∧ (∀ k, k ≠ key → find t' k = find t k)
          ∧ Size t' = (Size t - 1)%Z
      | None => res = None ∧ h' = h ∧ t' = t
      end.
Proof.
  intros Hwf.
  destruct (delete_wf m h t key false idx Hwf) as (h' & t' & res & o & Hdel & Hwf' & Hf & Hpost).
  unfold DeleteOne. rewrite Hdel. cbn [mbind option_bind].
  destruct o as [s|]; cbn [mbind option_bind] in *.
  2:{ destruct Hpost as (-> & -> & ->). by exists h, t, None, None. }
  pose proof (slot_delete_spec s idx (find_nonempty m t key s Hwf Hf)) as Hspec.
  destruct (spec_DeleteOne s idx) as [[v remaining]|] eqn:Es.
  - destruct Hspec as (rest & Hsd & Hrest). rewrite Hsd in Hpost.
    destruct Hpost as (-> & Hkey & Hother & Hsize). cbn [assertV mbind option_bind].
    exists h', t', (Some v), (Some s). cbn [mbind option_bind]. rewrite Es.
    split; [done|]. split; [done|]. split; [done|]. split; [done|]. split; [|done].
    rewrite Hkey. cbn [fmap option_fmap option_map]. by rewrite Hrest.
  - rewrite Hspec in Hpost. destruct Hpost as (-> & -> & ->).
    exists h, t, None, (Some s). cbn [mbind option_bind]. by rewrite Es.
Qed.
End DeleteOneSpec.

(** * Not-found results of [Find] *)

Section FindAbsent.
Context {V : Type} {N : Nil V}.
Implicit Types (t : BPTree V).

Lemma Find_absent t key : Find t key = Some None → find t key = Some None.
Proof.
  unfold Find. destruct (find t key) as [[[v|b]|]|]; cbn [mbind option_bind]; try done.
  - simpl. by destruct (is_nil v).
  - by destruct (head b).
Qed.
End FindAbsent.

(** * The leaves of a tree *)

Section Leaves.
Context {V : Type}.
#[local] Existing Instance never_nil.
Implicit Types (h : heap) (n c l : node V) (cs : list (node V)) (ks : list Z).
Implicit Types (p : ptr) (ps : list ptr) (q : option ptr).

Lemma elem_of_concat_fmap {A B} (f : A → list B) (x : B) (l : list A) :
  x ∈ concat (f <$> l) ↔ ∃ a, a ∈ l ∧ x ∈ f a.
Proof.
  induction l as [|a l IH].
  - split; [by intros ?%elem_of_nil|by intros (? & ?%elem_of_nil & _)].
  - rewrite fmap_cons, concat_cons, elem_of_app, IH. split.
    + intros [?|(a' & ? & ?)]; [exists a; split; [by left|done]|exists a'; split; [by right|done]].
    + intros (a' & [->|?]%elem_of_cons & ?); [by left|right; by exists a'].
Qed.

Lemma leaves_internal mt ks cs : leaves (Internal mt ks cs) = concat (leaves <$> cs).
Proof. done. Qed.

Lemma ids_internal mt ks cs : ids (Internal mt ks cs) = nid mt :: concat (ids <$> cs).
Proof. done. Qed.

Lemma leaf_ids_internal mt ks cs :
  leaf_ids (Internal mt ks cs) = concat (leaf_ids <$> cs).
Proof.
  unfold leaf_ids. rewrite leaves_internal.
  induction cs as [|c cs IH]; [done|].
  by rewrite !fmap_cons, !concat_cons, fmap_app, IH.
Qed.

Lemma slots_leaves n : slots n = concat (slots <$> leaves n).
Proof.
  induction n as [mt ks vs|mt ks cs IH] using node_ind.
  - simpl. by rewrite app_nil_r.
  - rewrite slots_internal, leaves_internal.
    induction IH as [|c cs Hc _ IH']; [done|].
    by rewrite !fmap_cons, !concat_cons, fmap_app, concat_app, <- Hc, IH'.
Qed.

Lemma shape_leaves m d n : shape m d n → Forall (shape m 0) (leaves n).
Proof.
  revert n. induction d as [|d IH]; intros n Hsh.
  - destruct (shape_0 _ _ Hsh) as (mt & ks & vs & ->). simpl. by constructor.
  - destruct (shape_S _ _ _ Hsh) as (mt & ks & cs & ->).
    apply shape_internal in Hsh as (? & [= <-] & _ & _ & _ & Hcs).
    rewrite leaves_internal. apply Forall_concat, Forall_fmap.
    eapply Forall_impl; [done|]. intros c [? _]. by apply IH.
Qed.

Lemma leaf_ids_subset n : leaf_ids n ⊆ ids n.
Proof.
  induction n as [mt ks vs|mt ks cs IH] using node_ind; [done|].
  rewrite leaf_ids_internal, ids_internal. intros p Hp. right.
  apply elem_of_concat_fmap in Hp as (c & Hc & Hp).
  apply elem_of_concat_fmap. exists c. split; [done|].
  eapply Forall_forall in IH; [|done]. by apply IH.
Qed.

Lemma nid_in_ids n : nid (nmeta n) ∈ ids n.
Proof. destruct n; simpl; by left. Qed.

(** [lookup_node] finds nothing outside of the identifiers of the tree,
    and every leaf under its own identifier. *)
Lemma lookup_node_internal mt ks cs p :
  lookup_node (Internal mt ks cs) p
  = if decide (nid mt = p) then Some (Internal mt ks cs)
    else foldr (λ c r, match lookup_node c p with Some x => Some x | None => r end) None cs.
Proof.
  cbn [lookup_node nmeta]. destruct (decide (nid mt = p)); [done|].
  induction cs as [|c cs IH]; [done|]. simpl. by rewrite IH.
Qed.

Lemma lookup_node_None n p : p ∉ ids n → lookup_node n p = None.
Proof.
  induction n as [mt ks vs|mt ks cs IH] using node_ind; intros Hp.
  - simpl in *. rewrite decide_False; [done|]. intros <-. apply Hp. by left.
  - rewrite lookup_node_internal. rewrite ids_internal in Hp.
    rewrite decide_False by (intros <-; apply Hp; by left).
    assert (Hcs : ∀ c, c ∈ cs → p ∉ ids c).
    { intros c Hc Hin. apply Hp. right. apply elem_of_concat_fmap. by exists c. }
    clear Hp. induction IH as [|c cs Hc _ IH']; [done|]. simpl.
    rewrite Hc by (apply Hcs; by left). apply IH'. intros c' ?. apply Hcs. by right.
Qed.

Lemma lookup_node_leaf n l :
  NoDup (ids n) → l ∈ leaves n → lookup_node n (nid (nmeta l)) = Some l.
Proof.
  induction n as [mt ks vs|mt ks cs IH] using node_ind; intros Hnd Hl.
  - simpl in Hl. apply list_elem_of_singleton in Hl as ->. simpl. by rewrite decide_True.
  - rewrite lookup_node_internal. rewrite ids_internal in Hnd.
    apply NoDup_cons in Hnd as [Hroot Hnd]. rewrite leaves_internal in Hl.
    assert (Hin : ∀ c, c ∈ cs → l ∈ leaves c → nid (nmeta l) ∈ ids c).
    { intros c _ Hlc. apply leaf_ids_subset. unfold leaf_ids.
      apply list_elem_of_fmap. by exists l. }
    rewrite decide_False.
    2:{ intros Heq. apply Hroot. rewrite Heq.
        apply elem_of_concat_fmap in Hl as (c & Hc & Hl).
        apply elem_of_concat_fmap. exists c. split; [done|]. by apply Hin. }
    clear Hroot. induction IH as [|c cs Hc _ IH']; [by apply elem_of_nil in Hl|].
    rewrite fmap_cons, concat_cons in Hnd. rewrite fmap_cons, concat_cons in Hl.
    apply NoDup_app in Hnd as (Hndc & Hdisj & Hnd).
    simpl. apply elem_of_app in Hl as [Hl|Hl].
    + rewrite Hc; [done..|]. done.
    + rewrite lookup_node_None.
      * apply IH'; [done|done|]. intros c' ? ?. apply Hin; [by right|done].
      * intros Hp. apply (Hdisj _ Hp).
        apply elem_of_concat_fmap in Hl as (c' & Hc' & Hl).
        apply elem_of_concat_fmap. exists c'. split; [done|].
        apply Hin; [by right|done].
Qed.

(** The segments of a chain. *)
Lemma next_of_app ps1 ps2 q : next_of (ps1 ++ ps2) q = next_of ps1 (next_of ps2 q).
Proof. by destruct ps1. Qed.

Lemma seg_app h ps1 ps2 q :
  seg h (ps1 ++ ps2) q ↔ seg h ps1 (next_of ps2 q) ∧ seg h ps2 q.
Proof.
  induction ps1 as [|p ps1 IH]; cbn [seg app].
  - split; [by split|by intros [_ ?]].
  - rewrite IH, next_of_app. split; [intros (? & ? & ?)|intros ((? & ?) & ?)]; done.
Qed.

Lemma seg_middle h ps1 p ps2 q :
  seg h (ps1 ++ p :: ps2) q → right_of h p = next_of ps2 q.
Proof. intros [_ [? _]]%seg_app. done. Qed.
End Leaves.

(** * Iteration *)

Section Ranged.
Context {V : Type}.
#[local] Existing Instance never_nil.
Implicit Types (from to : option Z) (l X : list (Z * slot V)) (s : slot V).
Implicit Types (ks : list Z) (vs : list (slot V)).

(** The pairs of the slots [l] with a key in [[from, to)], every slot
    expanded in place. *)
Definition ranged from to l : list (Z * V) :=
  filter (λ kv, in_range from to kv.1) (concat (expand <$> l)).

Lemma ranged_app from to l1 l2 :
  ranged from to (l1 ++ l2) = ranged from to l1 ++ ranged from to l2.
Proof. unfold ranged. by rewrite fmap_app, concat_app, filter_app. Qed.

Lemma ranged_cons from to k s l :
  ranged from to ((k, s) :: l)
  = (if in_range from to k then expand (k, s) else []) ++ ranged from to l.
Proof.
  unfold ranged. rewrite fmap_cons, concat_cons, filter_app. f_equal.
  unfold expand. simpl. induction (slot_values s) as [|v vs IH]; [by destruct (in_range from to k)|].
  rewrite fmap_cons. destruct (in_range from to k) eqn:E.
  - rewrite filter_cons_True by (simpl; by rewrite E). by rewrite IH.
  - rewrite filter_cons_False by (simpl; rewrite E; auto). by rewrite IH.
Qed.

Lemma ranged_out from to l :
  Forall (λ kv, in_range from to kv.1 = false) l → ranged from to l = [].
Proof.
  induction 1 as [|[k s] l Hk _ IH]; [done|].
  simpl in Hk. by rewrite ranged_cons, Hk, IH.
Qed.

Lemma in_range_below from to k : below from k = true → in_range from to k = false.
Proof. unfold in_range. by intros ->. Qed.

Lemma in_range_reached from to k : reached to k = true → in_range from to k = false.
Proof. unfold in_range. intros ->. by rewrite andb_false_r. Qed.

Lemma reached_mono to k k' : (k ≤ k')%Z → reached to k = true → reached to k' = true.
Proof. destruct to; simpl; [|done]. rewrite !Z.leb_le. lia. Qed.

Lemma below_mono from k k' : (k' ≤ k)%Z → below from k = true → below from k' = true.
Proof. destruct from; simpl; [|done]. rewrite !Z.ltb_lt. lia. Qed.

(** Once a key has reached [to], no later key of a sorted list is in range. *)
Lemma ranged_reached from to k s l :
  StronglySorted Z.lt ((k, s) :: l).*1 → reached to k = true →
  ranged from to ((k, s) :: l) = [].
Proof.
  intros Hs Hk. apply ranged_out. rewrite fmap_cons in Hs. apply sorted_cons in Hs as [_ Hall].
  constructor; [by apply in_range_reached|].
  apply Forall_forall. intros kv Hin.
  eapply Forall_forall in Hall; [|by apply (list_elem_of_fmap_2 fst)].
  simpl in Hall. apply in_range_reached. eapply reached_mono; [|done]. lia.
Qed.
End Ranged.

Section ScanKeys.
Context {V : Type}.
#[local] Existing Instance never_nil.
Implicit Types (from to : option Z) (l X : list (Z * slot V)) (s : slot V).
Implicit Types (ks rest : list Z) (vs : list (slot V)).

(** The bucket values that [Next] still owes after a yield. *)
Definition owed (k : Z) (c : option (list V)) : list (Z * V) :=
  match c with Some b => (λ v, (k, v)) <$> drop 1 b | None => [] end.

Lemma scanKeys_spec from to ks vs X i :
  length vs = length ks → Forall (λ s, slot_values s ≠ []) vs →
  StronglySorted Z.lt (drop i ks ++ X.*1) →
  ∃ r, scanKeys from to vs (drop i ks) i = Some r
       ∧ match r with
         | ScanEnd =>
             ranged from to (zip (drop i ks) (drop i vs) ++ X) = ranged from to X
         | ScanStop j => ranged from to (zip (drop i ks) (drop i vs) ++ X) = []
         | ScanYield j c kv =>
             j ≤ length ks
             ∧ ranged from to (zip (drop i ks) (drop i vs) ++ X)
               = kv :: owed kv.1 c ++ ranged from to (zip (drop j ks) (drop j vs) ++ X)
         end.
Proof.
  intros Hlen Hne. remember (drop i ks) as rest eqn:Hrest.
  revert i Hrest. induction rest as [|k rest IH]; intros i Hrest Hs.
  - exists ScanEnd. by split.
  - assert (Hk : ks !! i = Some k).
    { rewrite <- (Nat.add_0_r i), <- lookup_drop, <- Hrest. done. }
    pose proof (lookup_lt_Some _ _ _ Hk) as Hi.
    assert (Hrest' : rest = drop (S i) ks).
    { change (S i) with (1 + i). rewrite Nat.add_comm, <- drop_drop, <- Hrest. done. }
    destruct (lookup_lt_is_Some_2 vs i) as [s Hsi]; [lia|].
    rewrite (drop_S vs s i Hsi). cbn [zip_with app]. rewrite ranged_cons.
    simpl in Hs. apply sorted_cons in Hs as [Hs Hall].
    cbn [scanKeys]. destruct (below from k) eqn:Eb.
    { rewrite (in_range_below _ _ _ Eb). cbn [app].
      destruct (IH (S i) Hrest' Hs) as (r & -> & Hr). by exists r. }
    destruct (reached to k) eqn:Er.
    { exists (ScanStop i). split; [done|].
      rewrite <- ranged_cons. apply (ranged_reached from to k s); [|done].
      rewrite fmap_cons, fmap_app, fst_zip.
      - simpl. apply sorted_cons. by split.
      - rewrite Hrest', !length_drop. lia. }
    assert (in_range from to k = true) as -> by (unfold in_range; by rewrite Eb, Er).
    rewrite Hsi. cbn [mbind option_bind].
    eapply Forall_lookup_1 in Hne; [|done].
    destruct s as [v|b]; simpl in Hne.
    + exists (ScanYield (S i) None (k, v)). split; [done|]. split; [lia|].
      by rewrite <- Hrest'.
    + destruct b as [|v b]; [done|]. simpl.
      exists (ScanYield (S i) (Some (v :: b)) (k, v)). split; [done|]. split; [lia|].
      rewrite <- Hrest'. unfold expand, owed. simpl. by rewrite drop_0.
Qed.
End ScanKeys.

Section NextSpec.
Context {V : Type}.
#[local] Existing Instance never_nil.
Variables (m : nat) (rt : node V) (h : heap) (from to : option Z).
Hypothesis Hleaves : Forall (shape m 0) (leaves rt).
Hypothesis Hsorted : StronglySorted Z.lt (concat (slots <$> leaves rt)).*1.
Hypothesis Hnodup : NoDup (ids rt).
Hypothesis Hseg : seg h (leaf_ids rt) None.

Implicit Types (it : iterator V) (out : list (Z * V)) (ks : list Z) (vs : list (slot V)).
Implicit Types (L Lpre Lpost : list (node V)).

(** The bucket values that the iterator still owes. *)
Definition pending it : list (Z * V) :=
  match it_c it with
  | Some c => (λ v, (it_ckey it, v)) <$> drop (it_ci it) c
  | None => []
  end.

(** [iter_at it out]: the iterator [it] over the tree [rt] is about to
    yield the pairs [out]. *)
Inductive iter_at : iterator V → list (Z * V) → Prop :=
| iter_done it : it_n it = None → iter_at it []
| iter_leaf it Lpre mt ks vs Lpost :
    it_from it = from → it_to it = to →
    leaves rt = Lpre ++ Leaf mt ks vs :: Lpost →
    it_n it = Some (nid mt) → it_i it ≤ length ks →
    iter_at it (pending it
                ++ ranged from to (zip (drop (it_i it) ks) (drop (it_i it) vs)
                                   ++ concat (slots <$> Lpost))).

Local Lemma leaf_facts Lpre mt ks vs Lpost :
  leaves rt = Lpre ++ Leaf mt ks vs :: Lpost →
  length vs = length ks ∧ Forall (λ s, slot_values s ≠ []) vs
  ∧ lookup_node rt (nid mt) = Some (Leaf mt ks vs)
  ∧ right_of h (nid mt) = next_of ((λ l, nid (nmeta l)) <$> Lpost) None
  ∧ StronglySorted Z.lt (ks ++ (concat (slots <$> Lpost)).*1).
Proof using All.
  intros HL. rewrite HL in Hleaves, Hsorted. unfold leaf_ids in Hseg. rewrite HL in Hseg.
  apply Forall_app in Hleaves as [_ [Hl _]%Forall_cons].
  apply shape_leaf in Hl as (_ & _ & Hlen & _ & Hne).
  split_and!; [done|done| | |].
  - apply (lookup_node_leaf rt (Leaf mt ks vs)); [done|]. rewrite HL. set_solver.
  - rewrite fmap_app, fmap_cons in Hseg. by apply seg_middle in Hseg.
  - rewrite fmap_app, concat_app, fmap_app in Hsorted.
    apply sorted_app in Hsorted as (_ & Hs & _).
    rewrite fmap_cons, concat_cons, fmap_app in Hs. cbn [slots] in Hs.
    by rewrite fst_zip in Hs by lia.
Qed.

(** One turn of the search loop of [Next] on a leaf, no bucket pending. *)
Lemma Next_leaf Lpre mt ks vs Lpost it nfuel :
  leaves rt = Lpre ++ Leaf mt ks vs :: Lpost →
  it_from it = from → it_to it = to → it_n it = Some (nid mt) → pending it = [] →
  ∃ r, Next (S nfuel) rt h it
       = match r with
         | ScanYield i (Some c) kv =>
             Some (Iter from to (Some (nid mt)) i (Some c) (fst kv) 1, Some kv)
         | ScanYield i None kv =>
             Some (Iter from to (Some (nid mt)) i None (it_ckey it) (it_ci it), Some kv)
         | ScanStop i => Some (Iter from to None i None (it_ckey it) (it_ci it), None)
         | ScanEnd =>
             Next nfuel rt h
                  (Iter from to (next_of ((λ l, nid (nmeta l)) <$> Lpost) None) 0 None
                        (it_ckey it) (it_ci it))
         end
       ∧ match r with
         | ScanEnd =>
             ranged from to (zip (drop (it_i it) ks) (drop (it_i it) vs)
                             ++ concat (slots <$> Lpost))
             = ranged from to (concat (slots <$> Lpost))
         | ScanStop j =>
             ranged from to (zip (drop (it_i it) ks) (drop (it_i it) vs)
                             ++ concat (slots <$> Lpost)) = []
         | ScanYield j c kv =>
             j ≤ length ks
             ∧ ranged from to (zip (drop (it_i it) ks) (drop (it_i it) vs)
                               ++ concat (slots <$> Lpost))
               = kv :: owed kv.1 c
                 ++ ranged from to (zip (drop j ks) (drop j vs) ++ concat (slots <$> Lpost))
         end.
Proof using All.
  intros HL Hfrom Hto Hn Hpend.
  destruct (leaf_facts _ _ _ _ _ HL) as (Hlen & Hne & Hlook & Hright & Hs).
  destruct (scanKeys_spec from to ks vs (concat (slots <$> Lpost)) (it_i it) Hlen Hne)
    as (r & Hscan & Hr).
  { rewrite <- (take_drop (it_i it) ks), <- app_assoc in Hs.
    by apply sorted_app in Hs as (_ & ? & _). }
  exists r. split; [|done]. cbn [Next]. rewrite Hn, Hfrom, Hto.
  assert (Hnoc : (c ← it_c it; c !! it_ci it) = None).
  { unfold pending in Hpend. destruct (it_c it) as [c|]; [|done]. cbn [mbind option_bind].
    apply fmap_nil_inv in Hpend. apply lookup_ge_None.
    apply (f_equal length) in Hpend. rewrite length_drop in Hpend. simpl in Hpend. lia. }
  rewrite Hnoc, Hlook. cbn [mbind option_bind nvalues nkeys]. rewrite Hscan.
  cbn [mbind option_bind]. rewrite Hright.
  destruct (it_c it); by destruct r as [? [?|] ?| |].
Qed.

Lemma Next_scan Lpost Lpre mt ks vs it nfuel :
  leaves rt = Lpre ++ Leaf mt ks vs :: Lpost →
  it_from it = from → it_to it = to → it_n it = Some (nid mt) → it_i it ≤ length ks →
  pending it = [] → length Lpost + 1 < nfuel →
  ∃ it' r, Next nfuel rt h it = Some (it', r)
           ∧ match ranged from to (zip (drop (it_i it) ks) (drop (it_i it) vs)
                                   ++ concat (slots <$> Lpost)) with
             | [] => r = None
             | kv :: out' => r = Some kv ∧ iter_at it' out'
             end.
Proof using All.
  revert Lpre mt ks vs it nfuel.
  induction Lpost as [|l' Lpost IH]; intros Lpre mt ks vs it nfuel HL Hfrom Hto Hn Hi Hpend Hfuel.
  - destruct nfuel as [|nfuel]; [lia|].
    destruct (Next_leaf Lpre mt ks vs [] it nfuel HL Hfrom Hto Hn Hpend) as (r & -> & Hr).
    destruct r as [j c kv|j|].
    + destruct Hr as [Hj ->]. destruct c as [c|].
      * eexists _, _. split; [done|]. split; [done|].
        exact (iter_leaf (Iter from to (Some (nid mt)) j (Some c) kv.1 1) Lpre mt ks vs []
                 eq_refl eq_refl HL eq_refl Hj).
      * eexists _, _. split; [done|]. split; [done|].
        exact (iter_leaf (Iter from to (Some (nid mt)) j None (it_ckey it) (it_ci it))
                 Lpre mt ks vs [] eq_refl eq_refl HL eq_refl Hj).
    + rewrite Hr. by eexists _, _.
    + rewrite Hr. simpl. destruct nfuel as [|nfuel]; [simpl in Hfuel; lia|].
      by eexists _, _.
  - destruct nfuel as [|nfuel]; [lia|].
    destruct (Next_leaf Lpre mt ks vs (l' :: Lpost) it nfuel HL Hfrom Hto Hn Hpend)
      as (r & -> & Hr).
    destruct r as [j c kv|j|].
    + destruct Hr as [Hj ->]. destruct c as [c|].
      * eexists _, _. split; [done|]. split; [done|].
        exact (iter_leaf (Iter from to (Some (nid mt)) j (Some c) kv.1 1) Lpre mt ks vs (l' :: Lpost)
                 eq_refl eq_refl HL eq_refl Hj).
      * eexists _, _. split; [done|]. split; [done|].
        exact (iter_leaf (Iter from to (Some (nid mt)) j None (it_ckey it) (it_ci it))
                 Lpre mt ks vs (l' :: Lpost) eq_refl eq_refl HL eq_refl Hj).
    + rewrite Hr. by eexists _, _.
    + rewrite Hr. rewrite fmap_cons. cbn [next_of].
      assert (Hl' : shape m 0 l').
      { pose proof Hleaves as HLs. rewrite HL in HLs.
        apply Forall_app in HLs as [_ [_ Hl']%Forall_cons].
        by apply Forall_cons in Hl' as [? _]. }
      destruct (shape_0 _ _ Hl') as (mt' & ks' & vs' & ->). cbn [nmeta].
      destruct (IH (Lpre ++ [Leaf mt ks vs]) mt' ks' vs'
                  (Iter from to (Some (nid mt')) 0 None (it_ckey it) (it_ci it)) nfuel)
        as (it' & r & HNext & Hout); try done.
      { by rewrite <- app_assoc. }
      { simpl. lia. }
      { simpl in Hfuel. lia. }
      exists it', r. split; [done|]. cbn [it_i] in Hout. rewrite !drop_0 in Hout.
      by rewrite fmap_cons, concat_cons.
Qed.
Lemma Next_spec it out nfuel :
  iter_at it out → length (leaves rt) + 1 < nfuel →
  ∃ it' r, Next nfuel rt h it = Some (it', r)
           ∧ match out with
             | [] => r = None
             | kv :: out' => r = Some kv ∧ iter_at it' out'
             end.
Proof using All.
  intros Hat Hfuel. destruct Hat as [it Hn|it Lpre mt ks vs Lpost Hfrom Hto HL Hn Hi].
  - destruct nfuel as [|nfuel]; [lia|]. cbn [Next]. rewrite Hn. by eexists _, _.
  - assert (HLlen : length Lpost + 1 < nfuel).
    { apply (f_equal length) in HL. rewrite length_app in HL. simpl in HL. lia. }
    destruct (pending it) as [|kv out'] eqn:Hpend.
    { by apply (Next_scan Lpost Lpre mt ks vs it nfuel). }
    unfold pending in Hpend. destruct (it_c it) as [c|] eqn:Hc; [|done].
    destruct (drop (it_ci it) c) as [|v rest] eqn:Hdrop; [done|].
    assert (Hv : c !! it_ci it = Some v).
    { rewrite <- (Nat.add_0_r (it_ci it)), <- lookup_drop, Hdrop. done. }
    rewrite fmap_cons in Hpend. injection Hpend as <- <-.
    destruct nfuel as [|nfuel]; [lia|]. cbn [Next]. rewrite Hn, Hc.
    cbn [mbind option_bind]. rewrite Hv. eexists _, _. split; [done|]. split; [done|].
    pose proof (iter_leaf (Iter (it_from it) (it_to it) (Some (nid mt)) (it_i it) (Some c)
                                (it_ckey it) (S (it_ci it)))
                  Lpre mt ks vs Lpost Hfrom Hto HL eq_refl Hi) as Hnext.
    unfold pending in Hnext. cbn [it_c it_ci it_ckey it_i] in Hnext.
    replace (drop (S (it_ci it)) c) with rest in Hnext; [done|].
    change (S (it_ci it)) with (1 + it_ci it). rewrite Nat.add_comm, <- drop_drop, Hdrop. done.
Qed.

(** The loop of [Range] collects what the iterator is about to yield. *)
Lemma collect_spec it out fuel nfuel :
  iter_at it out → length out < fuel → length (leaves rt) + 1 < nfuel →
  collect fuel nfuel rt h it = Some out.
Proof using All.
  intros Hat Hfuel Hnfuel. revert it fuel Hat Hfuel.
  induction out as [|kv out IH]; intros it fuel Hat Hfuel;
    (destruct fuel as [|fuel]; [simpl in Hfuel; lia|]); cbn [collect];
    destruct (Next_spec it _ nfuel Hat Hnfuel) as (it' & r & -> & Hr);
    cbn [mbind option_bind].
  - by rewrite Hr.
  - destruct Hr as [-> Hat']. rewrite (IH it' fuel Hat'); [done|]. simpl in Hfuel. lia.
Qed.
End NextSpec.

Section RangeSpec.
Context {V : Type}.
#[local] Existing Instance never_nil.
Implicit Types (h : heap) (n c : node V) (t : BPTree V) (from to : option Z).
Implicit Types (cs : list (node V)) (ks : list Z).

Lemma slots_before m d lo hi mt ks cs f :
  shape m (S d) (Internal mt ks cs) → ordered (S d) lo hi (Internal mt ks cs) →
  Forall (λ kv, (kv.1 < f)%Z) (concat (slots <$> take (childIndex ks f) cs)).
Proof.
  intros Hsh Hord. destruct (childIndex_spec ks f) as (Hi & Hle & _).
  apply shape_internal in Hsh as (? & [= <-] & _ & Hlen & _ & Hcs).
  apply Forall_concat, Forall_fmap, Forall_lookup. intros j c Hc.
  pose proof (lookup_lt_Some _ _ _ Hc) as Hj. rewrite length_take in Hj.
  rewrite lookup_take_lt in Hc by lia.
  destruct (ordered_child d lo hi mt ks cs j Hord ltac:(lia)) as (c' & Hc' & Hcord).
  assert (c' = c) as -> by congruence.
  eapply Forall_lookup_1 in Hcs as [Hcsh _]; [|done].
  destruct (slots_sorted m d _ _ c Hcsh Hcord) as [_ Hb].
  destruct (lookup_lt_is_Some_2 ks j) as [kj Hkj]; [lia|].
  unfold hi_at in Hb. rewrite Hkj in Hb.
  assert (Htk : take (childIndex ks f) ks !! j = Some kj) by by rewrite lookup_take_lt by lia.
  eapply Forall_lookup_1 in Hle; [|exact Htk]. simpl in Hle.
  apply Forall_forall. intros kv Hkv.
  eapply Forall_forall in Hb as [_ Hlt]; [|by apply (list_elem_of_fmap_2 fst)].
  simpl in Hlt. lia.
Qed.

(** The descent of [Iterator] ends in a leaf, and the leaves before it
    hold keys below [from] only. *)
Lemma descend_spec m d lo hi n from :
  shape m d n → ordered d lo hi n →
  ∃ Lpre mt ks vs Lpost,
    leaves n = Lpre ++ Leaf mt ks vs :: Lpost
    ∧ descend n from = Some (nid mt)
    ∧ Forall (λ kv, below from kv.1 = true) (concat (slots <$> Lpre)).
Proof.
  revert lo hi n. induction d as [|d IH]; intros lo hi n Hsh Hord.
  - destruct (shape_0 _ _ Hsh) as (mt & ks & vs & ->). by exists [], mt, ks, vs, [].
  - destruct (shape_S _ _ _ Hsh) as (mt & ks & cs & ->).
    pose proof Hsh as (? & [= <-] & _ & Hlen & _ & Hcs)%shape_internal.
    rewrite descend_internal. set (i := match from with None => 0 | Some f => childIndex ks f end).
    assert (Hi : i ≤ length ks).
    { unfold i. destruct from as [f|]; [apply childIndex_spec|lia]. }
    destruct (ordered_child d lo hi mt ks cs i Hord Hi) as (c & Hc & Hcord).
    rewrite Hc. pose proof (Forall_lookup_1 _ _ _ _ Hcs Hc) as [Hcsh _].
    destruct (IH _ _ c Hcsh Hcord) as (Lpre & ml & kl & vl & Lpost & HL & Hdesc & Hbelow).
    exists (concat (leaves <$> take i cs) ++ Lpre), ml, kl, vl,
      (Lpost ++ concat (leaves <$> drop (S i) cs)).
    split_and!; [|done|].
    + rewrite leaves_internal. rewrite <- (take_drop_middle cs i c Hc) at 1.
      rewrite fmap_app, concat_app, fmap_cons, concat_cons, HL.
      by rewrite <- !app_assoc.
    + rewrite fmap_app, concat_app. apply Forall_app. split; [|done].
      assert (concat (slots <$> concat (leaves <$> take i cs))
              = concat (slots <$> take i cs)) as ->.
      { induction (take i cs) as [|x xs IHx]; [done|].
        by rewrite !fmap_cons, !concat_cons, fmap_app, concat_app, IHx, <- slots_leaves. }
      unfold i. destruct from as [f|]; [|by rewrite take_0].
      eapply Forall_impl; [by eapply slots_before|].
      simpl. intros kv Hlt. by apply Z.ltb_lt.
Qed.

Lemma entries_ranged n from to :
  filter (λ kv, in_range from to kv.1) (entries n) = ranged from to (slots n).
Proof. done. Qed.

Lemma ranged_length from to (l : list (Z * slot V)) :
  length (ranged from to l) ≤ length (concat (expand <$> l)).
Proof. apply length_filter. Qed.

(** [Range] on a well-formed tree with linked leaves. *)
Lemma Range_spec m h t from to fuel :
  wf m t → linked h (root t) →
  length (entries (root t)) + length (leaves (root t)) + 1 < fuel →
  Range fuel h t from to
  = Some (filter (λ kv, in_range from to kv.1) (entries (root t))).
Proof.
  intros [(Hm & d & Hsh & _) (d' & Hord)] (Hnd & _ & Hseg) Hfuel.
  pose proof (height_unique _ _ _ _ _ _ Hsh Hord) as ->.
  destruct (slots_sorted m d None None (root t) Hsh Hord) as [Hsorted _].
  rewrite slots_leaves in Hsorted.
  pose proof (shape_leaves m d (root t) Hsh) as Hleaves.
  rewrite entries_ranged.
  assert (Hlen : length (ranged from to (slots (root t))) < fuel).
  { pose proof (ranged_length from to (slots (root t))). unfold entries in Hfuel.
    change (map expand (slots (root t))) with (expand <$> slots (root t)) in Hfuel. lia. }
  assert (Hcollect : ∀ it, iter_at (root t) from to it (ranged from to (slots (root t))) →
                           collect fuel fuel (root t) h it
                           = Some (ranged from to (slots (root t)))).
  { intros it Hat. apply (collect_spec m (root t) h from to); try done. lia. }
  assert (Hdesc : (p ← descend (root t) from;
                   Some (Iter from to (Some p) 0 None 0%Z 0)) ≫= collect fuel fuel (root t) h
                  = Some (ranged from to (slots (root t)))).
  { destruct (descend_spec m d None None (root t) from Hsh Hord)
      as (Lpre & mt & ks & vs & Lpost & HL & -> & Hbelow).
    cbn [mbind option_bind]. apply Hcollect.
    pose proof (iter_leaf (root t) from to (Iter from to (Some (nid mt)) 0 None 0%Z 0)
                  Lpre mt ks vs Lpost eq_refl eq_refl HL eq_refl ltac:(simpl; lia)) as Hat.
    unfold pending in Hat. cbn [it_c it_i app] in Hat. rewrite !drop_0 in Hat.
    replace (ranged from to (slots (root t)))
      with (ranged from to (zip ks vs ++ concat (slots <$> Lpost))); [done|].
    assert (Hsl : slots (root t)
                  = concat (slots <$> Lpre) ++ (zip ks vs ++ concat (slots <$> Lpost))).
    { by rewrite (slots_leaves (root t)), HL, fmap_app, concat_app, fmap_cons, concat_cons. }
    rewrite Hsl, (ranged_app from to (concat (slots <$> Lpre))),
      (ranged_out from to (concat (slots <$> Lpre))); [done|].
    eapply Forall_impl; [done|]. intros kv. apply in_range_below. }
  unfold Range, Iterator. destruct from as [f|]; [|done]. destruct to as [t'|]; [|done].
  destruct (Z.leb_spec t' f) as [Hle|Hlt]; [|done].
  cbn [mbind option_bind].
  rewrite (ranged_out (Some f) (Some t')).
  - apply (collect_spec m (root t) h (Some f) (Some t')); try done; [|simpl; lia|lia].
    by apply iter_done.
  - apply Forall_forall. intros kv _. unfold in_range. simpl.
    destruct (Z.ltb_spec kv.1 f); [done|]. simpl.
    destruct (Z.leb_spec t' kv.1); [done|lia].
Qed.
End RangeSpec.

(** * The chain of leaves under insertion and deletion *)

Section HeapFacts.
Implicit Types (h : heap) (p q : ptr).

Lemma hnext_link_after p p2 h : hnext (link_after p p2 h) = hnext h.
Proof.
  unfold link_after. rewrite hnext_set_left, hnext_set_right.
  destruct (right_of _ p); by rewrite ?hnext_set_left, hnext_set_right.
Qed.

Lemma hnext_alloc h : hnext (alloc h).1 = S (hnext h).
Proof. done. Qed.

Lemma right_of_unlink_right l r h q :
  right_of (unlink_right l r h) q = if decide (q = l) then right_of h r else right_of h q.
Proof.
  unfold unlink_right. destruct (right_of (set_right l _ h) r);
    rewrite ?right_of_set_left, right_of_set_right; repeat case_decide; congruence.
Qed.

Lemma hnext_unlink_right l r h : hnext (unlink_right l r h) = hnext h.
Proof.
  unfold unlink_right. destruct (right_of (set_right l _ h) r);
    by rewrite ?hnext_set_left, hnext_set_right.
Qed.

(** The store after a split of the node [p]: [right] changes at [p] and
    at the new node only. *)
Lemma right_of_split p h q :
  p < hnext h →
  right_of (link_after p (hnext h) (alloc h).1) q
  = if decide (q = p) then Some (hnext h)
    else if decide (q = hnext h) then right_of h p
    else right_of h q.
Proof.
  intros Hp. rewrite right_of_link_after by lia. rewrite !right_of_alloc.
  repeat case_decide; try done; lia.
Qed.

Lemma seg_frame h h' ps (q : option ptr) :
  (∀ p, p ∈ ps → right_of h' p = right_of h p) → seg h ps q → seg h' ps q.
Proof.
  induction ps as [|p ps IH]; [done|]. intros Hsame [Hp Hps]. split.
  - rewrite Hsame; [done|by left].
  - apply IH; [|done]. intros p' ?. apply Hsame. by right.
Qed.
End HeapFacts.

Section Relinked.
Context {V : Type}.
#[local] Existing Instance never_nil.
Implicit Types (h : heap) (n c x y z : node V) (F A B : list (node V)) (ks : list Z).
Implicit Types (p : ptr) (ps : list ptr) (q : option ptr).

(** The identifiers and the leaf identifiers of a list of nodes. *)
Definition ids_of F : list ptr := concat (ids <$> F).
Definition lids_of F : list ptr := concat (leaf_ids <$> F).

(** The identifiers are pairwise distinct and allocated. *)
Definition good h F : Prop :=
  NoDup (ids_of F) ∧ Forall (λ p, p < hnext h) (ids_of F).

(** [relinked h h' F F']: an operation that turns the nodes [F] into the
    nodes [F'] and the store [h] into [h'] keeps the identifiers distinct,
    takes new ones from the allocator, changes [right] at the nodes of [F]
    and at new nodes only, and keeps the leaves chained from the same first
    leaf to the same successor. *)
Definition relinked h h' F F' : Prop :=
  good h F →
  hnext h ≤ hnext h' ∧ good h' F'
  ∧ Forall (λ p, p ∈ ids_of F ∨ hnext h ≤ p) (ids_of F')
  ∧ (∀ p, p < hnext h → p ∉ ids_of F → right_of h' p = right_of h p)
  ∧ (∀ q, seg h (lids_of F) q → seg h' (lids_of F') q)
  ∧ (∀ q, next_of (lids_of F') q = next_of (lids_of F) q).

Lemma ids_of_app A B : ids_of (A ++ B) = ids_of A ++ ids_of B.
Proof. unfold ids_of. by rewrite fmap_app, concat_app. Qed.

Lemma lids_of_app A B : lids_of (A ++ B) = lids_of A ++ lids_of B.
Proof. unfold lids_of. by rewrite fmap_app, concat_app. Qed.

Lemma ids_of_cons n F : ids_of (n :: F) = ids n ++ ids_of F.
Proof. done. Qed.

Lemma lids_of_cons n F : lids_of (n :: F) = leaf_ids n ++ lids_of F.
Proof. done. Qed.

Lemma lids_subset F : lids_of F ⊆ ids_of F.
Proof.
  intros p (c & Hc & Hp)%elem_of_concat_fmap. apply elem_of_concat_fmap.
  exists c. split; [done|]. by apply leaf_ids_subset.
Qed.

Lemma ids_internal_of mt ks cs : ids (Internal mt ks cs) = nid mt :: ids_of cs.
Proof. done. Qed.

Lemma leaf_ids_internal_of mt ks cs : leaf_ids (Internal mt ks cs) = lids_of cs.
Proof. apply leaf_ids_internal. Qed.

Lemma relinked_refl h F : relinked h h F F.
Proof.
  intros Hg. split_and!; try done.
  apply Forall_forall. intros p ?. by left.
Qed.

Lemma relinked_trans h h1 h2 F F1 F2 :
  relinked h h1 F F1 → relinked h1 h2 F1 F2 → relinked h h2 F F2.
Proof.
  intros H1 H2 Hg. destruct (H1 Hg) as (Hn1 & Hg1 & Hin1 & Hfr1 & Hseg1 & Hhd1).
  destruct (H2 Hg1) as (Hn2 & Hg2 & Hin2 & Hfr2 & Hseg2 & Hhd2).
  split_and!; [lia|done| | | |].
  - apply Forall_forall. intros p Hp. eapply Forall_forall in Hin2; [|done].
    destruct Hin2 as [Hp1|?]; [|right; lia].
    by eapply Forall_forall in Hin1.
  - intros p Hp Hnot. rewrite Hfr2; [by apply Hfr1|lia|].
    intros Hp1. eapply Forall_forall in Hin1; [|done]. destruct Hin1; [done|lia].
  - intros q ?. by apply Hseg2, Hseg1.
  - intros q. by rewrite Hhd2, Hhd1.
Qed.
Lemma good_app h A B :
  good h (A ++ B) ↔ good h A ∧ good h B ∧ (∀ p, p ∈ ids_of A → p ∉ ids_of B).
Proof.
  unfold good. rewrite ids_of_app, NoDup_app, Forall_app. split.
  - intros [(? & ? & ?) [? ?]]. by split_and!.
  - intros ([? ?] & [? ?] & ?). by split_and!.
Qed.

(** The siblings of the nodes that an operation touches. *)
Lemma relinked_frame h h' A F F' B :
  relinked h h' F F' → relinked h h' (A ++ F ++ B) (A ++ F' ++ B).
Proof.
  intros Hrel Hg.
  apply good_app in Hg as (HgA & Hg & HAB). apply good_app in Hg as (HgF & HgB & HFB).
  destruct (Hrel HgF) as (Hn & HgF' & Hin & Hfr & Hseg & Hhd).
  assert (HA : ∀ p, p ∈ ids_of A → right_of h' p = right_of h p).
  { intros p Hp. apply Hfr.
    - destruct HgA as [_ HA]. by eapply Forall_forall in HA.
    - intros HpF. apply (HAB p Hp). rewrite ids_of_app. apply elem_of_app. by left. }
  assert (HB : ∀ p, p ∈ ids_of B → right_of h' p = right_of h p).
  { intros p Hp. apply Hfr.
    - destruct HgB as [_ HB]. by eapply Forall_forall in HB.
    - intros HpF. by apply (HFB p HpF). }
  assert (Hnew : ∀ p, p ∈ ids_of F' → (p ∉ ids_of A) ∧ (p ∉ ids_of B)).
  { intros p Hp. eapply Forall_forall in Hin; [|done]. destruct Hin as [HpF|Hge].
    - split; [|by apply HFB]. intros HpA. apply (HAB p HpA).
      rewrite ids_of_app. apply elem_of_app. by left.
    - destruct HgA as [_ HA']. destruct HgB as [_ HB'].
      split; intros Hp'; [eapply Forall_forall in HA'|eapply Forall_forall in HB']; try done; lia. }
  split_and!; [done| | | | |].
  - apply good_app. split_and!.
    + destruct HgA as [? HA']. split; [done|]. eapply Forall_impl; [done|]. simpl. lia.
    + apply good_app. split_and!; [done| |].
      * destruct HgB as [? HB']. split; [done|]. eapply Forall_impl; [done|]. simpl. lia.
      * intros p Hp. by destruct (Hnew p Hp) as [_ ?].
    + intros p HpA. rewrite ids_of_app. intros [HpF|HpB]%elem_of_app.
      * by destruct (Hnew p HpF) as [? _].
      * apply (HAB p HpA). rewrite ids_of_app. apply elem_of_app. by right.
  - rewrite !ids_of_app. apply Forall_app. split; [|apply Forall_app; split].
    + apply Forall_forall. intros p ?. left. apply elem_of_app. by left.
    + eapply Forall_impl; [done|]. simpl. intros p [?|?]; [left|by right].
      apply elem_of_app. right. apply elem_of_app. by left.
    + apply Forall_forall. intros p ?. left. apply elem_of_app. right.
      apply elem_of_app. by right.
  - intros p Hp Hnot. apply Hfr; [done|]. intros ?. apply Hnot.
    rewrite !ids_of_app. apply elem_of_app. right. apply elem_of_app. by left.
  - intros q. rewrite !lids_of_app, !seg_app, !next_of_app, !Hhd.
    intros (HsA & HsF & HsB). split_and!.
    + eapply seg_frame; [|done]. intros p Hp. apply HA. by apply lids_subset.
    + by apply Hseg.
    + eapply seg_frame; [|done]. intros p Hp. apply HB. by apply lids_subset.
  - intros q. by rewrite !lids_of_app, !next_of_app, !Hhd.
Qed.

Lemma relinked_child h h' cs i c F' :
  cs !! i = Some c →
  relinked h h' [c] F' → relinked h h' cs (take i cs ++ F' ++ drop (S i) cs).
Proof.
  intros Hc Hrel. rewrite <- (take_drop_middle cs i c Hc) at 1.
  by apply (relinked_frame h h' (take i cs) [c] F' (drop (S i) cs)).
Qed.

(** The parent of the nodes that an operation touches. *)
Lemma relinked_wrap h h' mt ks ks' cs cs' :
  relinked h h' cs cs' → relinked h h' [Internal mt ks cs] [Internal mt ks' cs'].
Proof.
  intros Hrel Hg. unfold good in Hg. rewrite ids_of_cons, ids_internal_of, app_nil_r in Hg.
  destruct Hg as [[Hroot Hnd]%NoDup_cons [Hlt Hall]%Forall_cons].
  destruct (Hrel (conj Hnd Hall)) as (Hn & [Hnd' Hall'] & Hin & Hfr & Hseg & Hhd).
  unfold good. rewrite !ids_of_cons, !lids_of_cons, !ids_internal_of, !leaf_ids_internal_of.
  rewrite !app_nil_r. split_and!; [done| | | | |done|done].
  - apply NoDup_cons. split; [|done]. intros Hp.
    eapply Forall_forall in Hin; [|done]. destruct Hin; [done|lia].
  - constructor; [lia|done].
  - constructor; [left; by left|]. eapply Forall_impl; [done|]. simpl.
    intros p [?|?]; [left; by right|by right].
  - intros p Hp Hnot. apply Hfr; [done|]. intros ?. apply Hnot. by right.
Qed.
(** An operation that keeps the store, the identifiers and the order of
    the leaves. *)
Lemma relinked_same h F F' :
  ids_of F' ≡ₚ ids_of F → lids_of F' = lids_of F → relinked h h F F'.
Proof.
  intros Hperm Hlids [Hnd Hall]. unfold good. rewrite Hperm, Hlids.
  split_and!; try done. apply Forall_forall. intros p ?. by left.
Qed.

(** A split: the new node takes the next identifier and is linked after
    the node that splits. *)
Lemma relinked_split_leaf h mt ks vs lk lv cap rk rv :
  relinked h (link_after (nid mt) (hnext h) (alloc h).1)
           [Leaf mt ks vs] [Leaf mt lk lv; Leaf (split_meta h cap) rk rv].
Proof.
  intros [Hnd Hall].
  assert (Hlt : nid mt < hnext h) by by apply Forall_inv in Hall.
  assert (Hr := λ p' : ptr, right_of_split (nid mt) h p' Hlt). unfold good.
  change (ids_of [Leaf mt lk lv; Leaf (split_meta h cap) rk rv]) with [nid mt; hnext h].
  change (lids_of [Leaf mt lk lv; Leaf (split_meta h cap) rk rv]) with [nid mt; hnext h].
  change (lids_of [Leaf mt ks vs]) with [nid mt].
  change (ids_of [Leaf mt ks vs]) with [nid mt].
  rewrite hnext_link_after, hnext_alloc. cbn [seg next_of].
  split_and!; [lia| | | | | |done].
  - apply NoDup_cons. split; [|apply NoDup_singleton]. rewrite list_elem_of_singleton. lia.
  - constructor; [lia|]. constructor; [lia|]. constructor.
  - constructor; [left; by left|]. constructor; [right; lia|]. constructor.
  - intros p Hp Hnot. rewrite Hr.
    rewrite decide_False by (intros ->; apply Hnot; by left). by rewrite decide_False by lia.
  - intros q [Hq _]. split_and!; [| |done].
    + rewrite Hr. by rewrite decide_True.
    + rewrite Hr. rewrite decide_False by lia. by rewrite decide_True.
Qed.

Lemma relinked_split_internal h mt ks lc rc lk cap rk :
  relinked h (link_after (nid mt) (hnext h) (alloc h).1)
           [Internal mt ks (lc ++ rc)]
           [Internal mt lk lc; Internal (split_meta h cap) rk rc].
Proof.
  intros [Hnd Hall]. unfold good in *.
  rewrite !ids_of_cons, !lids_of_cons, !ids_internal_of, !leaf_ids_internal_of in *.
  rewrite ?app_nil_r in *. cbn [ids_of lids_of fmap list_fmap concat app] in *.
  rewrite ?app_nil_r in *. rewrite ids_of_app in Hnd, Hall. rewrite lids_of_app.
  change (nid (split_meta h cap)) with (hnext h). rewrite ?ids_of_app.
  apply NoDup_cons in Hnd as [Hroot Hnd]. apply Forall_cons in Hall as [Hlt Hall].
  assert (Hr := λ p' : ptr, right_of_split (nid mt) h p' Hlt).
  rewrite hnext_link_after. simpl.
  assert (Hperm : nid mt :: ids_of lc ++ hnext h :: ids_of rc
                  ≡ₚ hnext h :: nid mt :: ids_of lc ++ ids_of rc).
  { rewrite <- Permutation_middle. apply Permutation_swap. }
  split_and!; [lia| | | | | |done].
  - rewrite Hperm. apply NoDup_cons. split.
    + intros [Heq|Hin]%elem_of_cons; [lia|].
      eapply Forall_forall in Hall; [|done]. lia.
    + by apply NoDup_cons.
  - rewrite Hperm. constructor; [lia|]. constructor; [lia|].
    eapply Forall_impl; [done|]. simpl. lia.
  - rewrite Hperm. constructor; [right; lia|]. constructor; [left; by left|].
    apply Forall_forall. intros p ?. left. by right.
  - intros p Hp Hnot. rewrite Hr.
    rewrite decide_False by (intros ->; apply Hnot; by left). by rewrite decide_False by lia.
  - intros q. apply seg_frame. intros p Hp. rewrite Hr.
    assert (Hin : p ∈ ids_of lc ++ ids_of rc).
    { rewrite <- ids_of_app. apply lids_subset. by rewrite lids_of_app. }
    rewrite decide_False by (intros ->; done).
    eapply Forall_forall in Hall; [|done]. by rewrite decide_False by lia.
Qed.

(** A merge: the right node of the pair leaves the chain. *)
Lemma relinked_merge_leaf h mx kx vx my ky vy kz vz :
  relinked h (unlink_right (nid mx) (nid my) h)
           [Leaf mx kx vx; Leaf my ky vy] [Leaf mx kz vz].
Proof.
  intros [Hnd Hall]. unfold good, ids_of, lids_of, leaf_ids in *. simpl in *.
  rewrite hnext_unlink_right.
  apply NoDup_cons in Hnd as [Hx Hnd]. apply Forall_cons in Hall as [Hlt Hall].
  split_and!; [done|apply NoDup_singleton|by constructor| | | |done].
  - constructor; [left; by left|done].
  - intros p Hp Hnot. rewrite right_of_unlink_right.
    by rewrite decide_False by (intros ->; apply Hnot; by left).
  - intros q (Hq1 & Hq2 & _). split; [|done].
    rewrite right_of_unlink_right. by rewrite decide_True.
Qed.

Lemma relinked_merge_internal h mx kx cx my ky cy kz :
  relinked h (unlink_right (nid mx) (nid my) h)
           [Internal mx kx cx; Internal my ky cy] [Internal mx kz (cx ++ cy)].
Proof.
  intros [Hnd Hall]. unfold good in *.
  rewrite !ids_of_cons, !lids_of_cons, !ids_internal_of, !leaf_ids_internal_of in *.
  cbn [ids_of lids_of fmap list_fmap concat app] in *. rewrite ?app_nil_r in *.
  rewrite ids_of_app, lids_of_app. rewrite hnext_unlink_right.
  assert (Hperm : nid mx :: ids_of cx ++ nid my :: ids_of cy
                  ≡ₚ nid my :: nid mx :: ids_of cx ++ ids_of cy).
  { rewrite <- Permutation_middle. apply Permutation_swap. }
  rewrite Hperm in Hnd, Hall.
  apply NoDup_cons in Hnd as [Hy Hnd]. apply Forall_cons in Hall as [Hlt Hall].
  pose proof Hnd as [Hx _]%NoDup_cons.
  split_and!; [done|done|done| | | |done].
  - apply Forall_forall. intros p Hp. left. rewrite Hperm. by right.
  - intros p Hp Hnot. rewrite right_of_unlink_right.
    rewrite decide_False; [done|]. intros ->. apply Hnot. by left.
  - intros q. apply seg_frame. intros p Hp. rewrite right_of_unlink_right.
    rewrite decide_False; [done|]. intros ->. apply Hx.
    rewrite <- ids_of_app. apply lids_subset. by rewrite lids_of_app.
Qed.

Lemma borrowed_relinked h sep x y x' sep' y' :
  borrowed sep x y x' sep' y' → relinked h h [x; y] [x'; y'].
Proof.
  intros [ml kl k vl v mc kc vc Hkl Hvl|mc kc vc mr k k0 kr v vr Hvc
         |ml kl mk cl cL mc kc cc Hcl|mc kc cc mr mk kr cR cr Hcc];
    apply relinked_same; try done.
  - rewrite !ids_of_cons, !ids_internal_of, !ids_of_app, !ids_of_cons.
    cbn [ids_of fmap list_fmap concat]. rewrite !app_nil_r.
    cbn [app]. rewrite <- ?app_assoc. f_equiv. f_equiv. apply Permutation_middle.
  - rewrite !lids_of_cons, !leaf_ids_internal_of, !lids_of_app, !lids_of_cons.
    cbn [lids_of fmap list_fmap concat]. by rewrite !app_nil_r, <- !app_assoc.
  - rewrite !ids_of_cons, !ids_internal_of, !ids_of_app, !ids_of_cons.
    cbn [ids_of fmap list_fmap concat]. rewrite !app_nil_r.
    cbn [app]. rewrite <- ?app_assoc. f_equiv. f_equiv. symmetry. apply Permutation_middle.
  - rewrite !lids_of_cons, !leaf_ids_internal_of, !lids_of_app, !lids_of_cons.
    cbn [lids_of fmap list_fmap concat]. by rewrite !app_nil_r, <- !app_assoc.
Qed.

Lemma merged_relinked h sep x y z :
  merged sep x y z →
  relinked h (unlink_right (nid (nmeta x)) (nid (nmeta y)) h) [x; y] [z].
Proof.
  intros [mx kx vx my ky vy Hvx|mx kx cx my ky cy Hcx].
  - apply relinked_merge_leaf.
  - apply relinked_merge_internal.
Qed.

Lemma rebalanced_relinked h mt ks cs i h' n' :
  rebalanced h mt ks cs i (Some (h', n')) → relinked h h' [Internal mt ks cs] [n'].
Proof.
  intros (A & x & y & B & KA & sep & KB & -> & -> & Hlen & _ & Hcase).
  destruct Hcase as [(x' & sep' & y' & Hb & [= -> ->])|(z & Hm & [= -> ->])];
    apply relinked_wrap.
  - apply (relinked_frame h h A [x; y] [x'; y'] B). by eapply borrowed_relinked.
  - apply (relinked_frame h _ A [x; y] [z] B). by eapply merged_relinked.
Qed.
End Relinked.

Section LinkedOps.
Context {V : Type}.
#[local] Existing Instance never_nil.
Implicit Types (h : heap) (n c : node V) (t : BPTree V) (cs : list (node V)) (ks : list Z).

Lemma deleteFromLeaf_leaf mt ks vs key all idx n' res :
  deleteFromLeaf (Leaf mt ks vs) key all idx = Some (n', res) →
  ∃ ks' vs', n' = Leaf mt ks' vs'.
Proof.
  unfold deleteFromLeaf. destruct (keyIndex ks key) as [i|]; [|intros [= <- _]; eauto].
  destruct (vs !! i) as [s|]; [|done]. cbn [mbind option_bind].
  assert (Hrem : ∀ val0 : slot V,
    (ks' ← slice_delete i ks; vs' ← slice_delete i vs; Some (Leaf mt ks' vs', Some val0))
    = Some (n', res) → ∃ ks' vs', n' = Leaf mt ks' vs').
  { intros val0. destruct (slice_delete i ks); [|done].
    destruct (slice_delete i vs); [|done]. intros [= <- _]. eauto. }
  destruct all; [destruct s; simpl; apply Hrem|].
  destruct s as [v|b].
  { case_decide; [intros [= <- _]; eauto|apply Hrem]. }
  case_decide; [intros [= <- _]; eauto|].
  destruct (if decide (idx < 0)%Z then slice_pop b else _) as [[v b']|]; [|done].
  cbn [mbind option_bind]. case_decide; [intros [= <- _]; eauto|apply Hrem].
Qed.

Lemma node_delete_relinked m d h n key all idx h' n' res :
  3 ≤ m → shape m d n → (d ≠ 0 → 2 ≤ count n) →
  node_delete h n key all idx = Some (h', n', res) → relinked h h' [n] [n'].
Proof.
  intros Hm. revert h n h' n' res. induction d as [|d IH]; intros h n h' n' res Hsh H2 Hdel.
  - destruct (shape_0 _ _ Hsh) as (mt & ks & vs & ->). cbn [node_delete] in Hdel.
    destruct (deleteFromLeaf (Leaf mt ks vs) key all idx) as [[n1 r1]|] eqn:E; [|done].
    cbn [mbind option_bind] in Hdel. injection Hdel as <- <- <-.
    apply deleteFromLeaf_leaf in E as (ks' & vs' & ->). by apply relinked_same.
  - destruct (shape_S _ _ _ Hsh) as (mt & ks & cs & ->).
    specialize (H2 ltac:(done)). cbn [count] in H2.
    pose proof (ceil_half_bounds m Hm) as Hbm.
    destruct (node_delete_cases m d h mt ks cs key all idx Hm Hsh H2)
      as (c0 & h1 & c & res0 & Hc0 & Hc0sh & Hc0cnt & Hdel0 & Hcsh & Hres).
    pose proof (IH h c0 h1 c res0 Hc0sh ltac:(lia) Hdel0) as Hrel.
    assert (Hparent : relinked h h1 [Internal mt ks cs]
                        [Internal mt ks (<[childIndex ks key := c]> cs)]).
    { apply relinked_wrap. rewrite insert_take_drop by by eapply lookup_lt_Some.
      by apply (relinked_child h h1 cs (childIndex ks key) c0 [c]). }
    destruct res0 as [val|].
    + destruct Hres as ([h2 n2] & Hdel2 & Hstep). cbn [fst snd] in Hdel2.
      rewrite Hdel in Hdel2. injection Hdel2 as -> -> ->.
      destruct Hstep as [[= -> ->]|Hreb]; [done|].
      eapply relinked_trans; [done|]. by eapply rebalanced_relinked.
    + rewrite Hdel in Hres. injection Hres as -> -> ->. apply relinked_refl.
Qed.

Lemma linked_good h n : linked h n ↔ good h [n] ∧ seg h (lids_of [n]) None.
Proof.
  unfold linked, good, ids_of, lids_of. cbn [fmap list_fmap concat].
  rewrite !app_nil_r. split; [intros (? & ? & ?)|intros ((? & ?) & ?)]; done.
Qed.
(** The nodes that [node.insert] leaves in place of its receiver. *)
Definition ins_nodes (r : ins V) : list (node V) :=
  i_node r :: match i_n2 r with Some n2 => [n2] | None => [] end.

Lemma insertToLeaf_relinked m h mt ks vs key val replace r :
  3 ≤ m → shape m 0 (Leaf mt ks vs) →
  insertToLeaf h (Leaf mt ks vs) key val replace = Some r →
  relinked h (i_heap r) [Leaf mt ks vs] (ins_nodes r).
Proof.
  intros Hm (_ & [Hcap Hbmin] & Hlen & Hle & Hvs)%shape_leaf.
  pose proof (ceil_half_bounds m Hm) as Hb.
  destruct (leafScan ks key 0 0) as [i|pos] eqn:Hscan.
  - destruct (insertToLeaf_found h mt ks vs key val replace i Hlen Hscan)
      as (s & Hs & _ & ->).
    intros [= <-]. by apply relinked_same.
  - destruct (decide (length ks < m)) as [Hroom|Hfull].
    + rewrite (insertToLeaf_room h mt ks vs key val replace pos) by (done || lia).
      intros [= <-]. by apply relinked_same.
    + destruct (insertToLeaf_full h mt ks vs key val replace pos)
        as (lk & lv & rk & rv & key2 & -> & _); [done|lia|lia|done|].
      intros [= <-]. apply relinked_split_leaf.
Qed.

Lemma insert_pair_children (cs : list (node V)) i c' c2 :
  i < length cs →
  take (i + 1) (<[i := c']> cs) ++ c2 :: drop (i + 1) (<[i := c']> cs)
  = take i cs ++ [c'; c2] ++ drop (S i) cs.
Proof.
  intros Hi. replace (i + 1) with (S i) by lia.
  rewrite take_S_insert by done. rewrite drop_S_insert. by rewrite <- app_assoc.
Qed.

Lemma node_insert_relinked m d lo hi h n key val replace r :
  3 ≤ m → shape m d n → ordered d lo hi n → above lo key → under hi key →
  node_insert h n key val replace = Some r → relinked h (i_heap r) [n] (ins_nodes r).
Proof.
  intros Hm. revert lo hi h n r. induction d as [|d IH]; intros lo hi h n r Hsh Hord Hlo Hhi.
  - destruct (shape_0 _ _ Hsh) as (mt & ks & vs & ->). cbn [node_insert].
    by apply (insertToLeaf_relinked m).
  - destruct (shape_S _ _ _ Hsh) as (mt & ks & cs & ->).
    pose proof Hsh as (d' & [= <-] & [Hcap Hbmin] & Hlen & Hle & Hcs)%shape_internal.
    pose proof Hord as (d' & [= <-] & Hs & Hb & _)%ordered_internal.
    pose proof (ceil_half_bounds m Hm) as Hbm.
    destruct (childIndex_spec ks key) as (Hi & _).
    destruct (bounds_at_key lo hi ks key Hs Hlo Hhi) as [Hloi Hhii].
    destruct (ordered_child d lo hi mt ks cs (childIndex ks key) Hord Hi) as (c & Hc & Hcord).
    pose proof (Forall_lookup_1 _ _ _ _ Hcs Hc) as [Hcsh Hccnt].
    rewrite node_insert_internal. cbn zeta. rewrite Hc.
    destruct (node_insert h c key val replace) as [rc|] eqn:Hrc; [|done].
    cbn [mbind option_bind].
    pose proof (node_insert_ordered m d _ _ _ _ _ _ _ _ Hm Hcsh Hcord Hloi Hhii Hrc) as Hpost.
    pose proof (IH _ _ _ _ _ Hcsh Hcord Hloi Hhii Hrc) as Hrel.
    unfold ins_post in Hpost. unfold ins_nodes in Hrel |- *.
    set (i := childIndex ks key) in *.
    pose proof (relinked_child h (i_heap rc) cs i c _ Hc Hrel) as Hchildren.
    destruct (i_n2 rc) as [c2|] eqn:E2.
    + destruct Hpost as (Ho1 & Ho2 & Hk1 & Hk2 & _).
      destruct (ordered_insert_child d lo hi mt ks cs i (i_node rc) c2 (i_key2 rc)
                  Hord Hi Ho1 Ho2 Hk1 Hk2) as [Hpos _].
      destruct (decide (length cs < m)) as [Hroom|Hfull].
      * rewrite insertToInternal_room by (rewrite ?length_insert; lia).
        cbn [mbind option_bind]. intros [= <-]. cbn [i_n2 i_node i_heap]. rewrite Hpos.
        apply relinked_wrap. by rewrite insert_pair_children by lia.
      * destruct (insertToInternal_full (i_heap rc) mt ks (<[i := i_node rc]> cs) (i_key2 rc) c2)
          as (lk & rk & key2 & lc & rc' & -> & _ & _ & _ & _ & Hcc & _);
          [rewrite length_insert; lia|lia|lia|].
        cbn [mbind option_bind]. intros [= <-]. cbn [i_n2 i_node i_heap].
        rewrite Hpos, insert_pair_children in Hcc by lia. rewrite <- Hcc in Hchildren.
        eapply relinked_trans; [by apply (relinked_wrap _ _ mt ks ks)|].
        apply relinked_split_internal.
    + intros [= <-]. cbn [i_n2 i_node i_heap]. apply relinked_wrap.
      rewrite insert_take_drop by lia. done.
Qed.
Lemma insert_linked m h t key val replace h' t' :
  wf m t → linked h (root t) → insert h t key val replace = Some (h', t') →
  linked h' (root t').
Proof.
  intros [Hts (d' & Hord)] Hlink. pose proof Hts as (Hm & d & Hsh & Hroot).
  pose proof (height_unique _ _ _ _ _ _ Hsh Hord) as ->.
  unfold insert.
  destruct (node_insert h (root t) key val replace) as [r|] eqn:Hr; [|done].
  cbn [mbind option_bind].
  pose proof (node_insert_relinked m d None None h (root t) key val replace r
                Hm Hsh Hord I I Hr) as Hrel.
  apply linked_good in Hlink as [Hg Hseg].
  destruct (Hrel Hg) as (Hn & Hg' & _ & _ & Hseg' & _). specialize (Hseg' None Hseg).
  unfold ins_nodes in *. destruct (i_n2 r) as [n2|] eqn:E2.
  - assert (Hnew : ∀ b : bool,
      (if b then newInternalNode (V := V) (i_heap r) (node_cap (root t))
       else newInternalNode (i_heap r) (node_cap (root t)))
      = ((alloc (i_heap r)).1,
         Internal (split_meta (i_heap r) (node_cap (root t))) [] [])).
    { intros b. by destruct b. }
    rewrite Hnew. cbn [nmeta split_meta ncap]. case_decide; [|done].
    cbn [mbind option_bind]. intros [= <- <-]. cbn [root].
    destruct Hg' as [Hnd Hall]. unfold linked.
    rewrite ids_internal_of, leaf_ids_internal_of. cbn [nid split_meta].
    change (hnext (alloc (i_heap r)).1) with (S (hnext (i_heap r))).
    split_and!.
    + apply NoDup_cons. split; [|done]. intros Hin.
      eapply Forall_forall in Hall; [|done]. lia.
    + constructor; [simpl; lia|]. eapply Forall_impl; [done|]. simpl. lia.
    + eapply seg_frame; [|done]. intros p Hp.
      etrans; [apply (right_of_alloc (i_heap r) p)|].
      rewrite decide_False; [done|]. intros Heq. apply lids_subset in Hp.
      eapply Forall_forall in Hall; [|done]. lia.
  - cbn [mbind option_bind]. intros [= <- <-]. cbn [root]. by apply linked_good.
Qed.

Lemma collapse_linked h n : linked h n → linked h (collapse n).
Proof.
  destruct n as [mt ks vs|mt ks [|c [|c2 cs]]]; try done.
  intros (Hnd & Hall & Hseg). cbn [collapse]. unfold linked.
  rewrite ids_internal_of in Hnd, Hall. rewrite leaf_ids_internal_of in Hseg.
  unfold ids_of, lids_of in *. cbn [fmap list_fmap concat] in *. rewrite app_nil_r in *.
  apply NoDup_cons in Hnd as [_ ?]. by apply Forall_cons in Hall as [_ ?].
Qed.

Lemma delete_linked m h t key all idx h' t' res :
  tree_shape m t → linked h (root t) → delete h t key all idx = Some (h', t', res) →
  linked h' (root t').
Proof.
  intros (Hm & d & Hsh & Hroot) Hlink. unfold delete.
  destruct (node_delete h (root t) key all idx) as [[[h1 n1] r1]|] eqn:Hdel; [|done].
  cbn [mbind option_bind].
  pose proof (node_delete_relinked m d h (root t) key all idx h1 n1 r1 Hm Hsh) as Hrel.
  specialize (Hrel ltac:(intros Hd; apply Hroot; by apply (shape_isInternal _ _ _ Hsh)) Hdel).
  apply linked_good in Hlink as [Hg Hseg].
  destruct (Hrel Hg) as (Hn & Hg' & _ & _ & Hseg' & _). specialize (Hseg' None Hseg).
  assert (Hl1 : linked h1 n1) by by apply linked_good.
  destruct r1 as [val|].
  - assert (Hc : linked h1 (match n1 with Internal _ _ [c] => c | _ => n1 end)).
    { by apply (collapse_linked h1 n1). }
    destruct all; intros [= <- <- _]; done.
  - by intros [= <- <- _].
Qed.

Lemma fresh_leaf_linked h size :
  linked (newLeafNode (V := V) h size).1 (newLeafNode (V := V) h size).2.
Proof.
  unfold newLeafNode, linked, leaf_ids. cbn [alloc fst snd ids leaves nmeta nid fmap list_fmap].
  split_and!.
  - apply NoDup_singleton.
  - constructor; [simpl; lia|constructor].
  - cbn [seg next_of]. split; [|done]. unfold right_of. simpl. apply lookup_delete_eq.
Qed.

Lemma NewBPTree_linked h order :
  linked (NewBPTree (V := V) h order).1 (root (NewBPTree (V := V) h order).2).
Proof. unfold NewBPTree. apply fresh_leaf_linked. Qed.

Lemma Clear_linked h t : linked (Clear h t).1 (root (Clear h t).2).
Proof. unfold Clear. destruct (isLeaf (root t)); apply fresh_leaf_linked. Qed.

Lemma apply_op_linked m (o : op V) h t h' t' :
  wf m t → linked h (root t) → apply_op o (h, t) = Some (h', t') → linked h' (root t').
Proof.
  intros Hwf Hlink. destruct o as [key val|key val|key|key idx|key|]; cbn [apply_op].
  - by apply (insert_linked m).
  - by apply (insert_linked m).
  - unfold Delete. destruct (delete h t key false (-1)) as [[[h1 t1] r]|] eqn:E; [|done].
    cbn [mbind option_bind]. pose proof (delete_linked m _ _ _ _ _ _ _ _ (proj1 Hwf) Hlink E).
    destruct r as [[v|b]|]; cbn [assertV mbind option_bind]; by intros [= <- <-].
  - unfold DeleteOne. destruct (delete h t key false idx) as [[[h1 t1] r]|] eqn:E; [|done].
    cbn [mbind option_bind]. pose proof (delete_linked m _ _ _ _ _ _ _ _ (proj1 Hwf) Hlink E).
    destruct r as [[v|b]|]; cbn [assertV mbind option_bind]; by intros [= <- <-].
  - unfold DeleteAll. destruct (delete h t key true 0) as [[[h1 t1] r]|] eqn:E; [|done].
    cbn [mbind option_bind]. pose proof (delete_linked m _ _ _ _ _ _ _ _ (proj1 Hwf) Hlink E).
    destruct r as [[v|b]|]; cbn [assertCollision mbind option_bind]; by intros [= <- <-].
  - intros [= Heq]. pose proof (Clear_linked h t) as Hc. by rewrite Heq in Hc.
Qed.

Lemma run_linked m (ops : list (op V)) h t h' t' :
  wf m t → linked h (root t) → run ops (h, t) = Some (h', t') →
  wf m t' ∧ linked h' (root t').
Proof.
  revert h t. induction ops as [|o ops IH]; intros h t Hwf Hlink; cbn [run].
  - by intros [= <- <-].
  - destruct (apply_op_wf m o h t Hwf) as (h1 & t1 & Hop & Hwf1). rewrite Hop.
    cbn [mbind option_bind].
    apply IH; [done|exact (apply_op_linked m o h t h1 t1 Hwf Hlink Hop)].
Qed.

(** In every tree made by [NewBPTree] and changed by public operations
    only, the leaves are chained from left to right. *)
Lemma reachable_linked order h0 (ops : list (op V)) h t :
  run ops (NewBPTree (V := V) h0 order) = Some (h, t) →
  wf (clamp order) t ∧ linked h (root t).
Proof.
  intros Hrun. rewrite (surjective_pairing (NewBPTree h0 order)) in Hrun.
  eapply run_linked; [apply NewBPTree_wf|apply NewBPTree_linked|done].
Qed.
End LinkedOps.

(** * Insertion: the slots of the tree afterwards *)

Section InsertSlots.
Context {V : Type}.
#[local] Existing Instance never_nil.
Implicit Types (h : heap) (n c : node V) (t : BPTree V) (cs F : list (node V)) (ks : list Z).
Implicit Types (l la lb : list (Z * slot V)) (vs : list (slot V)).

(** The slots of a list of nodes. *)
Definition slots_of F : list (Z * slot V) := concat (slots <$> F).

(** The slots [l'] are the slots [l] after [insert(key, val, replace)]:
    a new slot at its place when the key was absent, the slot of the key
    replaced or extended otherwise; [ok] is the result of the source. *)
Definition ins_put (key : Z) (val : V) (replace ok : bool) l l' : Prop :=
  ∃ l1 l2,
    (l = l1 ++ l2 ∧ l' = l1 ++ (key, Solo val) :: l2 ∧ ok = true)
    ∨ (∃ s, l = l1 ++ (key, s) :: l2
            ∧ l' = l1 ++ (key, if replace then Solo val else collide s val) :: l2
            ∧ ok = negb replace).

Lemma ins_put_app key val replace ok l l' la lb :
  ins_put key val replace ok l l' → ins_put key val replace ok (la ++ l ++ lb) (la ++ l' ++ lb).
Proof.
  intros (l1 & l2 & [(-> & -> & ->)|(s & -> & -> & ->)]); exists (la ++ l1), (l2 ++ lb).
  - left. by rewrite <- !app_assoc.
  - right. exists s. by rewrite <- !app_assoc.
Qed.

Lemma slots_of_app F1 F2 : slots_of (F1 ++ F2) = slots_of F1 ++ slots_of F2.
Proof. unfold slots_of. by rewrite fmap_app, concat_app. Qed.

Lemma slots_internal_of mt ks cs : slots (Internal mt ks cs) = slots_of cs.
Proof. done. Qed.

Lemma zip_split ks vs p :
  length vs = length ks → p ≤ length ks →
  zip ks vs = zip (take p ks) (take p vs) ++ zip (drop p ks) (drop p vs).
Proof.
  intros Hlen Hp. rewrite <- (take_drop p ks) at 1. rewrite <- (take_drop p vs) at 1.
  rewrite zip_with_app; [done|]. rewrite !length_take. lia.
Qed.

Lemma zip_insert_at ks vs p k s :
  length vs = length ks → p ≤ length ks →
  zip (take p ks ++ k :: drop p ks) (take p vs ++ s :: drop p vs)
  = zip (take p ks) (take p vs) ++ (k, s) :: zip (drop p ks) (drop p vs).
Proof. intros Hlen Hp. rewrite zip_with_app; [done|]. rewrite !length_take. lia. Qed.

Lemma insertToLeaf_slots m h mt ks vs key val replace r :
  3 ≤ m → shape m 0 (Leaf mt ks vs) →
  insertToLeaf h (Leaf mt ks vs) key val replace = Some r →
  ins_put key val replace (i_ok r) (zip ks vs) (slots_of (ins_nodes r)).
Proof.
  intros Hm (_ & [Hcap Hbmin] & Hlen & Hle & Hvs)%shape_leaf.
  pose proof (ceil_half_bounds m Hm) as Hb.
  destruct (leafScan ks key 0 0) as [i|pos] eqn:Hscan.
  - destruct (insertToLeaf_found h mt ks vs key val replace i Hlen Hscan)
      as (s & Hsi & Hki & ->).
    intros [= <-]. unfold ins_nodes, slots_of. cbn [i_n2 i_node i_ok fmap list_fmap concat slots].
    rewrite app_nil_r.
    exists (zip (take i ks) (take i vs)), (zip (drop (S i) ks) (drop (S i) vs)).
    right. exists s. split; [by apply zip_middle|]. split; [|done].
    set (s' := if replace then Solo val else collide s val).
    rewrite (zip_middle ks (<[i := s']> vs) i key s' Hki).
    2:{ apply list_lookup_insert_eq. by eapply lookup_lt_Some. }
    by rewrite take_insert_ge, drop_insert_lt by lia.
  - destruct (leafScan_inr _ _ _ _ Hscan) as (p & -> & Hp & _). cbn [Nat.add] in *.
    destruct (decide (length ks < m)) as [Hroom|Hfull].
    + rewrite (insertToLeaf_room h mt ks vs key val replace p) by (done || lia).
      intros [= <-]. unfold ins_nodes, slots_of.
      cbn [i_n2 i_node i_ok fmap list_fmap concat slots]. rewrite app_nil_r.
      exists (zip (take p ks) (take p vs)), (zip (drop p ks) (drop p vs)). left.
      split; [by apply zip_split|]. split; [|done]. by apply zip_insert_at.
    + destruct (insertToLeaf_full h mt ks vs key val replace p)
        as (lk & lv & rk & rv & key2 & -> & Hk & Hv & Hlk & Hlv & _); [done|lia|lia|done|].
      intros [= <-]. unfold ins_nodes, slots_of.
      cbn [i_n2 i_node i_ok fmap list_fmap concat slots]. rewrite app_nil_r.
      exists (zip (take p ks) (take p vs)), (zip (drop p ks) (drop p vs)). left.
      split; [by apply zip_split|]. split; [|done].
      rewrite <- zip_with_app by lia. rewrite Hk, Hv. by apply zip_insert_at.
Qed.

Lemma node_insert_slots m d lo hi h n key val replace r :
  3 ≤ m → shape m d n → ordered d lo hi n → above lo key → under hi key →
  node_insert h n key val replace = Some r →
  ins_put key val replace (i_ok r) (slots n) (slots_of (ins_nodes r)).
Proof.
  intros Hm. revert lo hi h n r. induction d as [|d IH]; intros lo hi h n r Hsh Hord Hlo Hhi.
  - destruct (shape_0 _ _ Hsh) as (mt & ks & vs & ->). cbn [node_insert].
    by apply (insertToLeaf_slots m).
  - destruct (shape_S _ _ _ Hsh) as (mt & ks & cs & ->).
    pose proof Hsh as (d' & [= <-] & [Hcap Hbmin] & Hlen & Hle & Hcs)%shape_internal.
    pose proof Hord as (d' & [= <-] & Hs & Hb & _)%ordered_internal.
    pose proof (ceil_half_bounds m Hm) as Hbm.
    destruct (childIndex_spec ks key) as (Hi & _).
    destruct (bounds_at_key lo hi ks key Hs Hlo Hhi) as [Hloi Hhii].
    destruct (ordered_child d lo hi mt ks cs (childIndex ks key) Hord Hi) as (c & Hc & Hcord).
    pose proof (Forall_lookup_1 _ _ _ _ Hcs Hc) as [Hcsh Hccnt].
    rewrite node_insert_internal. cbn zeta. rewrite Hc.
    destruct (node_insert h c key val replace) as [rc|] eqn:Hrc; [|done].
    cbn [mbind option_bind].
    pose proof (node_insert_ordered m d _ _ _ _ _ _ _ _ Hm Hcsh Hcord Hloi Hhii Hrc) as Hpost.
    pose proof (IH _ _ _ _ _ Hcsh Hcord Hloi Hhii Hrc) as Hput.
    unfold ins_post in Hpost.
    set (i := childIndex ks key) in *.
    assert (Hchildren : ins_put key val replace (i_ok rc) (slots (Internal mt ks cs))
                          (slots_of (take i cs ++ ins_nodes rc ++ drop (S i) cs))).
    { rewrite slots_internal_of. rewrite <- (take_drop_middle cs i c Hc) at 1.
      rewrite !slots_of_app. change (slots_of (c :: drop (S i) cs))
        with (slots c ++ slots_of (drop (S i) cs)).
      by apply ins_put_app. }
    unfold ins_nodes in Hchildren |- *.
    destruct (i_n2 rc) as [c2|] eqn:E2.
    + destruct Hpost as (Ho1 & Ho2 & Hk1 & Hk2 & _).
      destruct (ordered_insert_child d lo hi mt ks cs i (i_node rc) c2 (i_key2 rc)
                  Hord Hi Ho1 Ho2 Hk1 Hk2) as [Hpos _].
      destruct (decide (length cs < m)) as [Hroom|Hfull].
      * rewrite insertToInternal_room by (rewrite ?length_insert; lia).
        cbn [mbind option_bind]. intros [= <-]. cbn [i_n2 i_node i_ok]. rewrite Hpos.
        rewrite insert_pair_children by lia.
        unfold slots_of at 1. cbn [fmap list_fmap concat]. by rewrite app_nil_r.
      * destruct (insertToInternal_full (i_heap rc) mt ks (<[i := i_node rc]> cs) (i_key2 rc) c2)
          as (lk & rk & key2 & lc & rc' & -> & _ & _ & _ & _ & Hcc & _);
          [rewrite length_insert; lia|lia|lia|].
        cbn [mbind option_bind]. intros [= <-]. cbn [i_n2 i_node i_ok].
        rewrite Hpos, insert_pair_children in Hcc by lia. rewrite <- Hcc in Hchildren.
        unfold slots_of at 1. cbn [fmap list_fmap concat]. rewrite app_nil_r.
        by rewrite !slots_internal_of, <- slots_of_app.
    + intros [= <-]. cbn [i_n2 i_node i_ok].
      unfold slots_of at 1. cbn [fmap list_fmap concat]. rewrite app_nil_r.
      rewrite slots_internal_of, insert_take_drop by lia. done.
Qed.
End InsertSlots.

Section TreeSlots.
Context {V : Type}.
#[local] Existing Instance never_nil.
Implicit Types (h : heap) (n c : node V) (t : BPTree V) (cs F : list (node V)) (ks : list Z).
Implicit Types (l la lb : list (Z * slot V)) (vs : list (slot V)) (s : slot V).

Lemma insert_slots m h t key val replace h' t' :
  wf m t → insert h t key val replace = Some (h', t') →
  ∃ ok, ins_put key val replace ok (slots (root t)) (slots (root t'))
        ∧ size t' = (if ok then size t + 1 else size t)%Z.
Proof.
  intros [Hts (d' & Hord)]. pose proof Hts as (Hm & d & Hsh & Hroot).
  pose proof (height_unique _ _ _ _ _ _ Hsh Hord) as ->.
  unfold insert.
  destruct (node_insert h (root t) key val replace) as [r|] eqn:Hr; [|done].
  cbn [mbind option_bind].
  pose proof (node_insert_slots m d None None h (root t) key val replace r
                Hm Hsh Hord I I Hr) as Hput.
  unfold ins_nodes in Hput.
  destruct (i_n2 r) as [n2|] eqn:E2.
  - destruct (if isLeaf (root t) then _ else _) as [h1 nr]. case_decide; [|done].
    cbn [mbind option_bind]. intros [= <- <-]. exists (i_ok r). cbn [root size].
    split; [|done]. by rewrite slots_internal_of.
  - cbn [mbind option_bind]. intros [= <- <-]. exists (i_ok r). cbn [root size].
    split; [|done]. unfold slots_of in Hput. cbn [fmap list_fmap concat] in Hput.
    by rewrite app_nil_r in Hput.
Qed.
Lemma delete_slots m h t key all idx h' t' res :
  wf m t → delete h t key all idx = Some (h', t', res) →
  del_post key all idx (slots (root t)) (slots (root t')) res
  ∧ size t' = match res with
              | Some val =>
                  (size t - (if all then Z.of_nat (length (slot_values val)) else 1))%Z
              | None => size t
              end.
Proof.
  intros [Hts (d' & Hord)]. pose proof Hts as (Hm & d & Hsh & Hroot).
  pose proof (height_unique _ _ _ _ _ _ Hsh Hord) as ->.
  destruct (node_delete_ordered m d None None h (root t) key all idx Hm Hsh Hord)
    as (h1 & n1 & res1 & Hdel & Hord' & Hpost).
  { intros Hd. apply Hroot. by apply (shape_isInternal _ _ _ Hsh). }
  unfold delete. rewrite Hdel. cbn [mbind option_bind]. unfold del_post in *.
  destruct (lookup_slot key (slots (root t)) ≫= slot_delete all idx) as [[val rest]|] eqn:E.
  - destruct Hpost as [-> Hup].
    change (match n1 with Internal _ _ [c] => c | _ => n1 end) with (collapse n1).
    destruct all.
    + destruct (lookup_slot key (slots (root t))) as [s|]; [|done].
      cbn [mbind option_bind] in E. unfold slot_delete in E. injection E as <- <-.
      intros [= <- <- <-]. cbn [root size slot_values]. by rewrite collapse_slots.
    + intros [= <- <- <-]. cbn [root size]. by rewrite collapse_slots.
  - destruct Hpost as [-> Heq]. by intros [= <- <- <-].
Qed.

(** The key-value pairs of a list of slots. *)
Definition pairs l : list (Z * V) := concat (expand <$> l).

Lemma entries_pairs n : entries n = pairs (slots n).
Proof. done. Qed.

Lemma pairs_app l1 l2 : pairs (l1 ++ l2) = pairs l1 ++ pairs l2.
Proof. unfold pairs. by rewrite fmap_app, concat_app. Qed.

Lemma pairs_cons k s l : pairs ((k, s) :: l) = ((λ v, (k, v)) <$> slot_values s) ++ pairs l.
Proof. done. Qed.

Lemma length_pairs_middle l1 k s l2 :
  length (pairs (l1 ++ (k, s) :: l2))
  = length (pairs l1) + length (slot_values s) + length (pairs l2).
Proof. rewrite pairs_app, pairs_cons, !length_app, length_fmap. lia. Qed.

Lemma length_collide s val : length (slot_values (collide s val)) = S (length (slot_values s)).
Proof. destruct s; simpl; [done|]. rewrite length_app. simpl. lia. Qed.

(** In sorted slots the entry of a key is the one that [find] reads. *)
Lemma lookup_slot_middle key l1 s l2 :
  StronglySorted Z.lt (l1 ++ (key, s) :: l2).*1 → lookup_slot key (l1 ++ (key, s) :: l2) = Some s.
Proof.
  intros Hs. rewrite fmap_app, fmap_cons in Hs. apply sorted_middle_notin in Hs as [Hn1 _].
  rewrite lookup_slot_app, (lookup_slot_None key l1) by done. simpl. by rewrite Z.eqb_refl.
Qed.

Lemma lookup_slot_absent key l1 s l2 :
  StronglySorted Z.lt (l1 ++ (key, s) :: l2).*1 → lookup_slot key (l1 ++ l2) = None.
Proof.
  intros Hs. rewrite fmap_app, fmap_cons in Hs. apply sorted_middle_notin in Hs as [Hn1 Hn2].
  apply lookup_slot_None. rewrite fmap_app. intros [?|?]%elem_of_app; done.
Qed.

Lemma ins_put_other key val replace ok l l' k :
  ins_put key val replace ok l l' → k ≠ key → lookup_slot k l' = lookup_slot k l.
Proof.
  intros (l1 & l2 & [(-> & -> & _)|(s & -> & -> & _)]) Hk;
    rewrite !lookup_slot_app; destruct (lookup_slot k l1); try done; simpl;
    by destruct (Z.eqb_spec key k) as [->|_].
Qed.

Lemma slot_delete_length idx s val rest :
  slot_delete false idx s = Some (val, rest) →
  length (slot_values s) = S (length (found_values rest)).
Proof.
  unfold slot_delete. destruct s as [v|b].
  { case_decide; [done|]. by intros [= <- <-]. }
  case_decide; [done|].
  destruct (decide (idx < 0)%Z).
  - destruct (slice_pop b) as [[v b']|] eqn:E; [|done]. cbn [mbind option_bind].
    intros [= <- <-]. apply slice_pop_inv in E as ->. simpl. rewrite length_app. simpl.
    destruct (decide (length b' ≠ 0)); simpl; [lia|]. destruct b'; simpl in *; lia.
  - destruct (b !! Z.to_nat idx) as [v|] eqn:E; [|done]. cbn [mbind option_bind].
    pose proof (lookup_lt_Some _ _ _ E) as Hlt.
    rewrite slice_delete_Some by done. cbn [mbind option_bind]. intros [= <- <-]. simpl.
    destruct (decide (length _ ≠ 0)) as [|He]; simpl.
    + rewrite length_delete_at by done. lia.
    + rewrite length_delete_at in He by done. lia.
Qed.
End TreeSlots.

(** * The size of a tree and the pairs it holds *)

Section Counted.
Context {V : Type}.
#[local] Existing Instance never_nil.
Implicit Types (h : heap) (n : node V) (t : BPTree V) (l : list (Z * slot V)).

(** The size field is at least the number of pairs in the leaves. *)
Definition counted t : Prop := (Z.of_nat (length (entries (root t))) ≤ size t)%Z.

Lemma insert_counted m h t key val replace h' t' :
  wf m t → insert h t key val replace = Some (h', t') → counted t → counted t'.
Proof.
  intros Hwf Hins. pose proof Hwf as [(_ & d & Hsh & _) _].
  pose proof (slots_nonempty m d (root t) Hsh) as Hne.
  destruct (insert_slots m h t key val replace h' t' Hwf Hins) as (ok & Hput & Hsz).
  unfold counted. rewrite !entries_pairs, Hsz.
  destruct Hput as (l1 & l2 & [(E & -> & ->)|(s & E & -> & ->)]); rewrite E in *.
  - rewrite length_pairs_middle, pairs_app, length_app. simpl. lia.
  - rewrite !length_pairs_middle.
    apply Forall_app in Hne as [_ Hne]. apply Forall_cons in Hne as [Hs _]. simpl in Hs.
    destruct replace; simpl.
    + destruct (slot_values s); [done|]. simpl. lia.
    + rewrite length_collide. lia.
Qed.

Lemma delete_counted m h t key all idx h' t' res :
  wf m t → delete h t key all idx = Some (h', t', res) → counted t → counted t'.
Proof.
  intros Hwf Hdel. pose proof Hwf as [(_ & d & Hsh & _) _].
  destruct (wf_find m t key Hwf) as [_ Hsorted].
  destruct (delete_slots m h t key all idx h' t' res Hwf Hdel) as [Hpost Hsz].
  unfold counted. rewrite !entries_pairs, Hsz. unfold del_post in Hpost.
  destruct (lookup_slot key (slots (root t)) ≫= slot_delete all idx) as [[val rest]|] eqn:E.
  2:{ destruct Hpost as [-> ->]. done. }
  destruct Hpost as [-> (l1 & s & l2 & Hl & ->)]. rewrite Hl in *.
  rewrite (lookup_slot_middle key l1 s l2 Hsorted) in E. cbn [mbind option_bind] in E.
  rewrite length_pairs_middle, pairs_app, length_app.
  destruct all.
  - unfold slot_delete in E. injection E as <- <-. simpl. lia.
  - apply slot_delete_length in E. rewrite E.
    destruct rest as [s'|]; simpl.
    + rewrite pairs_cons, length_app, length_fmap. lia.
    + lia.
Qed.

Lemma fresh_counted h sz : counted (Tree (newLeafNode (V := V) h sz).2 0).
Proof. done. Qed.

Lemma apply_op_counted m (o : op V) h t h' t' :
  wf m t → counted t → apply_op o (h, t) = Some (h', t') → counted t'.
Proof.
  intros Hwf Hc. destruct o as [key val|key val|key|key idx|key|]; cbn [apply_op].
  - intros Hins. by apply (insert_counted m h t key val true h' t').
  - intros Hins. by apply (insert_counted m h t key val false h' t').
  - unfold Delete. destruct (delete h t key false (-1)) as [[[h1 t1] r]|] eqn:E; [|done].
    cbn [mbind option_bind]. pose proof (delete_counted m _ _ _ _ _ _ _ _ Hwf E Hc).
    destruct r as [[v|b]|]; cbn [assertV mbind option_bind]; by intros [= <- <-].
  - unfold DeleteOne. destruct (delete h t key false idx) as [[[h1 t1] r]|] eqn:E; [|done].
    cbn [mbind option_bind]. pose proof (delete_counted m _ _ _ _ _ _ _ _ Hwf E Hc).
    destruct r as [[v|b]|]; cbn [assertV mbind option_bind]; by intros [= <- <-].
  - unfold DeleteAll. destruct (delete h t key true 0) as [[[h1 t1] r]|] eqn:E; [|done].
    cbn [mbind option_bind]. pose proof (delete_counted m _ _ _ _ _ _ _ _ Hwf E Hc).
    destruct r as [[v|b]|]; cbn [assertCollision mbind option_bind]; by intros [= <- <-].
  - unfold Clear. destruct (isLeaf (root t)); intros [= <- <-]; done.
Qed.

Lemma run_counted m (ops : list (op V)) h t h' t' :
  wf m t → counted t → run ops (h, t) = Some (h', t') → counted t'.
Proof.
  revert h t. induction ops as [|o ops IH]; intros h t Hwf Hc; cbn [run].
  - by intros [= <- <-].
  - destruct (apply_op_wf m o h t Hwf) as (h1 & t1 & Hop & Hwf1). rewrite Hop.
    cbn [mbind option_bind].
    apply IH; [done|exact (apply_op_counted m o h t h1 t1 Hwf Hc Hop)].
Qed.

(** What holds of every tree made by [NewBPTree] and changed by public
    operations only. *)
Lemma reachable_inv order h0 (ops : list (op V)) h t :
  run ops (NewBPTree (V := V) h0 order) = Some (h, t) →
  wf (clamp order) t ∧ linked h (root t) ∧ counted t.
Proof.
  intros Hrun. destruct (reachable_linked order h0 ops h t Hrun) as [Hwf Hl].
  split; [done|]. split; [done|].
  rewrite (surjective_pairing (NewBPTree h0 order)) in Hrun.
  eapply run_counted; [apply NewBPTree_wf| |done]. done.
Qed.
End Counted.

(** * The pairs of a tree, key by key *)

Section Pairs.
Context {V : Type}.
#[local] Existing Instance never_nil.
Implicit Types (n : node V) (t : BPTree V) (l : list (Z * slot V)) (s : slot V).
Implicit Types (out : list (Z * V)) (from to : option Z).

(** The values that [out] pairs with the key [k], in order. *)
Definition values_at (k : Z) out : list V := (filter (λ kv, kv.1 = k) out).*2.

Lemma values_at_app k out1 out2 : values_at k (out1 ++ out2) = values_at k out1 ++ values_at k out2.
Proof. unfold values_at. by rewrite filter_app, fmap_app. Qed.

Lemma values_at_expand k k' s :
  values_at k (expand (k', s)) = if decide (k' = k) then slot_values s else [].
Proof.
  unfold values_at, expand. simpl. induction (slot_values s) as [|v vs IH]; simpl.
  { by destruct (decide (k' = k)). }
  rewrite filter_cons. simpl. destruct (decide (k' = k)); simpl; [by f_equal|done].
Qed.

Lemma keys_pairs l x : x ∈ (pairs l).*1 → x ∈ l.*1.
Proof.
  induction l as [|[k s] l IH]; [done|]. rewrite pairs_cons, fmap_app, fmap_cons.
  intros [Hx|Hx]%elem_of_app.
  - rewrite <- list_fmap_compose in Hx. apply list_elem_of_fmap in Hx as (v & -> & _). by left.
  - right. by apply IH.
Qed.

Lemma values_at_absent k l : k ∉ l.*1 → values_at k (pairs l) = [].
Proof.
  intros Hk. unfold values_at.
  destruct (filter (λ kv, kv.1 = k) (pairs l)) as [|kv r] eqn:E; [done|].
  exfalso. assert (kv ∈ filter (λ kv, kv.1 = k) (pairs l)) as Hin by (rewrite E; by left).
  apply list_elem_of_filter in Hin as [Heq Hin]. apply Hk, keys_pairs.
  rewrite <- Heq. by apply list_elem_of_fmap_2.
Qed.

(** The values paired with a key are those of its slot. *)
Lemma values_at_pairs k l :
  StronglySorted Z.lt l.*1 → values_at k (pairs l) = found_values (lookup_slot k l).
Proof.
  induction l as [|[k' s] l IH]; [done|]. rewrite fmap_cons. simpl.
  intros Hs. apply StronglySorted_inv in Hs as [Hs Hall].
  rewrite pairs_cons. change ((λ v, (k', v)) <$> slot_values s) with (expand (k', s)).
  rewrite values_at_app, values_at_expand.
  destruct (Z.eqb_spec k' k) as [->|Hne].
  - rewrite decide_True by done. rewrite values_at_absent; [by rewrite app_nil_r|].
    intros Hin. eapply Forall_forall in Hall; [|done]. lia.
  - rewrite decide_False by done. by apply IH.
Qed.

(** The keys of the pairs ascend. *)
Lemma pairs_sorted l : StronglySorted Z.lt l.*1 → StronglySorted Z.le (pairs l).*1.
Proof.
  induction l as [|[k s] l IH]; [constructor|]. rewrite fmap_cons. simpl.
  intros Hs. apply StronglySorted_inv in Hs as [Hs Hall]. specialize (IH Hs).
  rewrite pairs_cons, fmap_app, <- list_fmap_compose.
  induction (slot_values s) as [|v vs IHv]; [done|]. simpl. constructor; [done|].
  apply Forall_app. split.
  - apply Forall_fmap, Forall_forall. intros ? _. simpl. lia.
  - apply Forall_forall. intros x Hx%keys_pairs. eapply Forall_forall in Hall; [|done]. lia.
Qed.

Lemma filter_unbounded out : filter (λ kv, in_range None None kv.1) out = out.
Proof. induction out as [|kv out IH]; [done|]. rewrite filter_cons_True by done. by rewrite IH. Qed.

(** A range is the range up to a key followed by the range from it on. *)
Lemma filter_range_split from (mid : Z) to out :
  above from mid → (match to with Some u => (mid ≤ u)%Z | None => True end) →
  StronglySorted Z.le out.*1 →
  filter (λ kv, in_range from to kv.1) out
  = filter (λ kv, in_range from (Some mid) kv.1) out
    ++ filter (λ kv, in_range (Some mid) to kv.1) out.
Proof.
  intros Hfrom Hto. induction out as [|[k v] out IH]; [done|]. rewrite fmap_cons. simpl.
  intros Hs. apply StronglySorted_inv in Hs as [Hs Hall]. specialize (IH Hs).
  rewrite !filter_cons. simpl. rewrite IH.
  destruct (Z.ltb_spec k mid) as [Hlt|Hge].
  - assert (in_range (Some mid) to k = false) as -> by (unfold in_range; simpl; by rewrite (proj2 (Z.ltb_lt _ _) Hlt)).
    assert (in_range from to k = in_range from (Some mid) k) as ->.
    { unfold in_range. f_equal. simpl. destruct to as [u|]; simpl; f_equal; lia. }
    by destruct (in_range from (Some mid) k).
  - assert (in_range from (Some mid) k = false) as ->.
    { unfold in_range. simpl. rewrite (proj2 (Z.leb_le _ _) Hge). by rewrite andb_false_r. }
    assert (filter (λ kv, in_range from (Some mid) kv.1) out = []) as ->.
    { clear IH Hs. induction out as [|[k' v'] out IH]; [done|]. rewrite fmap_cons in Hall.
      apply Forall_cons in Hall as [Hk' Hall]. rewrite filter_cons. simpl in *.
      assert (in_range from (Some mid) k' = false) as ->.
      { unfold in_range. simpl. rewrite (proj2 (Z.leb_le mid k')) by lia.
        by rewrite andb_false_r. }
      simpl. by apply IH. }
    assert (in_range from to k = in_range (Some mid) to k) as ->.
    { unfold in_range. f_equal. simpl. destruct from as [f|]; simpl in *; f_equal; lia. }
    by destruct (in_range (Some mid) to k).
Qed.
End Pairs.

(** * The first and the last pair *)

Section FirstLast.
Context {V : Type}.
#[local] Existing Instance never_nil.
Implicit Types (h : heap) (n c : node V) (cs : list (node V)) (t : BPTree V).
Implicit Types (s : slot V) (l : list (Z * slot V)).

Lemma leftmost_internal mt ks cs :
  leftmost (Internal mt ks cs) = match cs !! 0 with Some c => leftmost c | None => None end.
Proof. cbn [leftmost]. apply on_child_lookup. Qed.

Lemma rightmost_internal mt ks cs :
  rightmost (Internal mt ks cs)
  = match cs !! (length cs - 1) with Some c => rightmost c | None => None end.
Proof. cbn [rightmost]. apply on_child_lookup. Qed.

Lemma leftmost_spec m d n :
  3 ≤ m → shape m d n → 1 ≤ count n →
  ∃ mt ks vs k s rest,
    leftmost n = Some (Leaf mt ks vs) ∧ ks !! 0 = Some k ∧ vs !! 0 = Some s
    ∧ slot_values s ≠ [] ∧ slots n = (k, s) :: rest.
Proof.
  intros Hm. pose proof (ceil_half_bounds m Hm) as Hb. revert n.
  induction d as [|d IH]; intros n Hsh Hc.
  - destruct (shape_0 _ _ Hsh) as (mt & ks & vs & ->).
    apply shape_leaf in Hsh as (_ & _ & Hlen & _ & Hne). cbn [count] in Hc.
    destruct vs as [|s vs]; [simpl in Hc; lia|]. destruct ks as [|k ks]; [done|].
    apply Forall_cons in Hne as [Hs _].
    by exists mt, (k :: ks), (s :: vs), k, s, (zip ks vs).
  - destruct (shape_S _ _ _ Hsh) as (mt & ks & cs & ->).
    apply shape_internal in Hsh as (? & [= <-] & _ & _ & _ & Hcs). cbn [count] in Hc.
    destruct cs as [|c cs]; [simpl in Hc; lia|].
    apply Forall_cons in Hcs as [[Hshc Hcc] _].
    destruct (IH c Hshc) as (mt' & ks' & vs' & k & s & rest & Hl & Hk & Hv & Hs & Hsl); [lia|].
    exists mt', ks', vs', k, s, (rest ++ concat (slots <$> cs)).
    rewrite leftmost_internal, slots_internal. simpl. rewrite Hsl. done.
Qed.

Lemma rightmost_spec m d n :
  3 ≤ m → shape m d n → 1 ≤ count n →
  ∃ mt ks vs k s rest,
    rightmost n = Some (Leaf mt ks vs) ∧ last ks = Some k ∧ last vs = Some s
    ∧ slot_values s ≠ [] ∧ slots n = rest ++ [(k, s)].
Proof.
  intros Hm. pose proof (ceil_half_bounds m Hm) as Hb. revert n.
  induction d as [|d IH]; intros n Hsh Hc.
  - destruct (shape_0 _ _ Hsh) as (mt & ks & vs & ->).
    apply shape_leaf in Hsh as (_ & _ & Hlen & _ & Hne). cbn [count] in Hc.
    destruct (last vs) as [s|] eqn:Es; [|apply last_None in Es as ->; simpl in Hc; lia].
    apply last_Some in Es as [vs0 ->].
    destruct (last ks) as [k|] eqn:Ek.
    2:{ apply last_None in Ek as ->. rewrite length_app in Hlen. simpl in Hlen. lia. }
    apply last_Some in Ek as [ks0 ->]. rewrite !length_app in Hlen. simpl in Hlen.
    apply Forall_app in Hne as [_ Hne]. apply Forall_cons in Hne as [Hs _].
    exists mt, (ks0 ++ [k]), (vs0 ++ [s]), k, s, (zip ks0 vs0).
    rewrite !last_snoc. split_and!; try done. cbn [slots].
    by rewrite zip_with_app by lia.
  - destruct (shape_S _ _ _ Hsh) as (mt & ks & cs & ->).
    apply shape_internal in Hsh as (? & [= <-] & _ & _ & _ & Hcs). cbn [count] in Hc.
    destruct (last cs) as [c|] eqn:Ec; [|apply last_None in Ec as ->; simpl in Hc; lia].
    apply last_Some in Ec as [cs0 ->].
    apply Forall_app in Hcs as [_ Hcs]. apply Forall_cons in Hcs as [[Hshc Hcc] _].
    destruct (IH c Hshc) as (mt' & ks' & vs' & k & s & rest & Hl & Hk & Hv & Hs & Hsl); [lia|].
    exists mt', ks', vs', k, s, (concat (slots <$> cs0) ++ rest).
    rewrite rightmost_internal, slots_internal.
    replace (length (cs0 ++ [c]) - 1) with (length cs0 + 0) by (rewrite length_app; simpl; lia).
    rewrite lookup_app_r by lia. replace (length cs0 + 0 - length cs0) with 0 by lia. simpl.
    split_and!; try done.
    rewrite fmap_app, concat_app. simpl. rewrite app_nil_r, Hsl. by rewrite app_assoc.
Qed.

(** A well-formed tree without pairs is an empty leaf. *)
Lemma wf_empty m t :
  wf m t → entries (root t) = [] → ∃ mt, root t = Leaf mt [] [].
Proof.
  intros [(Hm & d & Hsh & Hroot) _] He.
  destruct (decide (1 ≤ count (root t))) as [Hc|Hc].
  - destruct (leftmost_spec m d (root t) Hm Hsh Hc)
      as (mt & ks & vs & k & s & rest & _ & _ & _ & Hs & Hsl).
    rewrite entries_pairs, Hsl, pairs_cons in He. destruct (slot_values s); done.
  - destruct (root t) as [mt ks vs|mt ks cs] eqn:E.
    + apply shape_leaf in Hsh as (_ & _ & Hlen & _). cbn [count] in Hc.
      destruct vs; [|simpl in Hc; lia]. destruct ks; [|done]. by exists mt.
    + specialize (Hroot eq_refl). lia.
Qed.

Lemma wf_nonempty m t :
  wf m t → entries (root t) ≠ [] → 1 ≤ count (root t).
Proof.
  intros [(Hm & d & Hsh & Hroot) _] He.
  destruct (root t) as [mt ks vs|mt ks cs] eqn:E.
  - cbn [count]. destruct vs; [|simpl; lia]. exfalso. apply He.
    unfold entries. cbn [slots]. by destruct ks.
  - specialize (Hroot eq_refl). lia.
Qed.

Lemma First_spec m t :
  wf m t → size t ≠ 0%Z → entries (root t) ≠ [] →
  First t = Some (head (entries (root t))).
Proof.
  intros Hwf Hsz He. pose proof (wf_nonempty m t Hwf He) as Hc.
  destruct Hwf as [(Hm & d & Hsh & _) _].
  destruct (leftmost_spec m d (root t) Hm Hsh Hc)
    as (mt & ks & vs & k & s & rest & Hl & Hk & Hv & Hs & Hsl).
  unfold First. rewrite decide_False by done. rewrite Hl. cbn [mbind option_bind nvalues nkeys].
  rewrite Hv, Hk. cbn [mbind option_bind].
  rewrite entries_pairs, Hsl, pairs_cons.
  destruct s as [v|[|v b]]; simpl in *; done.
Qed.

Lemma Last_spec m t :
  wf m t → size t ≠ 0%Z → entries (root t) ≠ [] →
  Last t = Some (last (entries (root t))).
Proof.
  intros Hwf Hsz He. pose proof (wf_nonempty m t Hwf He) as Hc.
  destruct Hwf as [(Hm & d & Hsh & _) _].
  destruct (rightmost_spec m d (root t) Hm Hsh Hc)
    as (mt & ks & vs & k & s & rest & Hl & Hk & Hv & Hs & Hsl).
  unfold Last. rewrite decide_False by done. rewrite Hl. cbn [mbind option_bind nvalues nkeys].
  rewrite Hv, Hk. cbn [mbind option_bind].
  rewrite entries_pairs, Hsl, pairs_app, pairs_cons. unfold pairs at 2. simpl.
  rewrite app_nil_r, last_app, fmap_last.
  destruct s as [v|b]; simpl in *; [done|].
  destruct (last b) as [v|] eqn:Eb; [done|]. by apply last_None in Eb.
Qed.

Lemma First_Last_empty m t :
  wf m t → entries (root t) = [] →
  First t = (if decide (size t = 0%Z) then Some None else None)
  ∧ Last t = (if decide (size t = 0%Z) then Some None else None).
Proof.
  intros Hwf He. destruct (wf_empty m t Hwf He) as [mt Hr].
  unfold First, Last. rewrite Hr. by destruct (decide (size t = 0%Z)).
Qed.
End FirstLast.

(** * The public operations on a well-formed tree *)

Section PublicOps.
Context {V : Type}.
#[local] Existing Instance never_nil.
Implicit Types (h : heap) (n : node V) (t : BPTree V) (s : slot V).
Implicit Types (o : option (slot V)).

Lemma FindAll_values t k o : find t k = Some o → FindAll t k = Some (slot_values <$> o).
Proof. intros Hf. unfold FindAll. rewrite Hf. by destruct o as [[v|c]|]. Qed.

Lemma Find_values t k o :
  find t k = Some o → (∀ s, o = Some s → slot_values s ≠ []) →
  Find t k = Some (o ≫= λ s, head (slot_values s)).
Proof.
  intros Hf Hne. unfold Find. rewrite Hf. cbn [mbind option_bind].
  destruct o as [[v|[|v c]]|]; try done. by specialize (Hne _ eq_refl).
Qed.

(** [Find] and [FindAll] agree, and [FindAll] never returns an empty
    list. *)
Lemma Find_FindAll m t k :
  wf m t → ∃ r, FindAll t k = Some r ∧ r ≠ Some [] ∧ Find t k = Some (r ≫= head).
Proof.
  intros Hwf. destruct (find_total m t k (proj1 Hwf)) as [o Hf].
  exists (slot_values <$> o). split; [by apply FindAll_values|].
  assert (∀ s, o = Some s → slot_values s ≠ []) as Hne.
  { intros s ->. by apply (find_nonempty m t k). }
  split.
  - destruct o as [s|]; [|done]. intros [= Hs]. by apply (Hne s).
  - rewrite (Find_values t k o Hf Hne). by destruct o.
Qed.

(** Insertion leaves the other keys alone, and counts one more pair
    unless it replaces. *)
Lemma insert_frame m h t key val replace :
  wf m t →
  ∃ h' t' o,
    insert h t key val replace = Some (h', t') ∧ wf m t' ∧ find t key = Some o
    ∧ find t' key = Some (Some (new_slot replace val (Some o)))
    ∧ (∀ k, k ≠ key → find t' k = find t k)
    ∧ size t' = (match o with
                 | Some _ => if replace then size t else size t + 1
                 | None => size t + 1
                 end)%Z.
Proof.
  intros Hwf.
  destruct (insert_wf m h t key val replace Hwf) as (h' & t' & Hins & Hwf' & Hf').
  destruct (insert_slots m h t key val replace h' t' Hwf Hins) as (ok & Hput & Hsz).
  destruct (wf_find m t key Hwf) as [Hf Hsorted].
  destruct (wf_find m t' key Hwf') as [_ Hsorted'].
  exists h', t', (lookup_slot key (slots (root t))). rewrite <- Hf.
  split_and!; [done..| |].
  - intros k Hk. rewrite (proj1 (wf_find m t' k Hwf')), (proj1 (wf_find m t k Hwf)).
    f_equal. by eapply ins_put_other.
  - rewrite Hsz. destruct Hput as (l1 & l2 & [(E & E' & ->)|(s & E & E' & ->)]).
    + rewrite E' in Hsorted'. rewrite E, (lookup_slot_absent key l1 (Solo val) l2 Hsorted').
      done.
    + rewrite E in Hsorted |- *. rewrite (lookup_slot_middle key l1 s l2 Hsorted).
      by destruct replace.
Qed.

(** [Append(k, v)] followed by [Delete(k)]: a single value of [k] is a
    bucket of one value afterwards. *)
Lemma append_delete m h t key val :
  wf m t →
  ∃ h1 t1 h2 t2 o,
    Append h t key val = Some (h1, t1) ∧ Delete h1 t1 key = Some (h2, t2, Some val)
    ∧ wf m t2 ∧ find t key = Some o
    ∧ find t2 key = Some ((λ s, Bucket (slot_values s)) <$> o)
    ∧ (∀ k, k ≠ key → find t2 k = find t k)
    ∧ Size t2 = Size t.
Proof.
  intros Hwf.
  destruct (insert_frame m h t key val false Hwf)
    as (h1 & t1 & o & Hins & Hwf1 & Hf & Hf1 & Hother1 & Hsz1).
  destruct (delete_wf m h1 t1 key false (-1) Hwf1)
    as (h2 & t2 & res & o1 & Hdel & Hwf2 & Hf1' & Hpost).
  rewrite Hf1 in Hf1'. injection Hf1' as <-. cbn [mbind option_bind] in Hpost.
  assert (∀ s, o = Some s → slot_values s ≠ []) as Hne.
  { intros s ->. by apply (find_nonempty m t key). }
  assert (slot_delete false (-1) (new_slot false val (Some o))
          = Some (Solo val, (λ s, Bucket (slot_values s)) <$> o)) as Hsd.
  { destruct o as [s|]; cbn [new_slot fmap option_fmap option_map]; [|done].
    specialize (Hne s eq_refl).
    assert (∃ b, collide s val = Bucket (b ++ [val]) ∧ slot_values s = b ∧ b ≠ [])
      as (b & -> & -> & Hb) by (exists (slot_values s); by destruct s).
    unfold slot_delete. rewrite decide_False by lia. rewrite decide_True by lia.
    rewrite slice_pop_Some. cbn [mbind option_bind].
    rewrite decide_True; [done|]. destruct b; simpl; [done|lia]. }
  cbn [new_slot] in Hsd. rewrite Hsd in Hpost. destruct Hpost as (-> & Hf2 & Hother2 & Hsz2).
  exists h1, t1, h2, t2, o. unfold Append, Delete. rewrite Hins, Hdel.
  cbn [mbind option_bind assertV]. split_and!; [done..| |].
  - intros k Hk. by rewrite (Hother2 k Hk), (Hother1 k Hk).
  - unfold Size. rewrite Hsz2, Hsz1. destruct o; lia.
Qed.

(** [DeleteAll] returns what [FindAll] returns and removes the key. *)
Lemma delete_all m h t key :
  wf m t →
  ∃ h' t' r,
    DeleteAll h t key = Some (h', t', r) ∧ FindAll t key = Some r ∧ wf m t'
    ∧ match r with
      | Some vals =>
          find t' key = Some None
          ∧ (∀ k, k ≠ key → find t' k = find t k)
          ∧ Size t' = (Size t - Z.of_nat (length vals))%Z
      | None => h' = h ∧ t' = t
      end.
Proof.
  intros Hwf.
  destruct (delete_wf m h t key true 0 Hwf) as (h' & t' & res & o & Hdel & Hwf' & Hf & Hpost).
  unfold DeleteAll. rewrite Hdel. cbn [mbind option_bind].
  rewrite (FindAll_values t key o Hf).
  destruct o as [s|]; cbn [mbind option_bind slot_delete] in Hpost.
  - destruct Hpost as (-> & Hkey & Hother & Hsz). cbn [assertCollision mbind option_bind].
    exists h', t', (Some (slot_values s)). by split_and!.
  - destruct Hpost as (-> & -> & ->). by exists h, t, None.
Qed.

(** An iterator over an empty interval yields nothing, whatever the
    tree. *)
Lemma Range_empty_interval fuel h t (f u : Z) :
  (u ≤ f)%Z → Range (S fuel) h t (Some f) (Some u) = Some [].
Proof.
  intros Hle. unfold Range, Iterator. rewrite (proj2 (Z.leb_le u f) Hle).
  cbn [mbind option_bind]. done.
Qed.

(** [Clear] gives an empty tree of the same order. *)
Lemma Clear_spec h t :
  Size (Clear h t).2 = 0%Z
  ∧ (∀ k, Find (Clear h t).2 k = Some None ∧ FindAll (Clear h t).2 k = Some None)
  ∧ entries (root (Clear h t).2) = []
  ∧ node_cap (root (Clear h t).2) = node_cap (root t)
  ∧ isLeaf (root (Clear h t).2) = true.
Proof. unfold Clear. by destruct (isLeaf (root t)). Qed.
End PublicOps.

(** * The end of an iteration, and the height of a tree *)

Section Exhausted.
Context {V : Type}.
#[local] Existing Instance never_nil.
Implicit Types (h : heap) (rt : node V) (it : iterator V).

Lemma Next_end fuel rt h it it' :
  Next fuel rt h it = Some (it', None) → it_n it' = None.
Proof.
  revert it. induction fuel as [|fuel IH]; intros it; [done|]. cbn [Next].
  destruct (it_n it) as [p|] eqn:En; [|by intros [= <-]].
  destruct (it_c it) as [c|] eqn:Ec; cbn [mbind option_bind].
  - destruct (c !! it_ci it) as [v|]; [done|].
    destruct (lookup_node rt p) as [n|]; [|done]. cbn [mbind option_bind].
    destruct (scanKeys _ _ _ _ _) as [[i [c'|] kv|i|]|]; cbn [mbind option_bind]; try done.
    + by intros [= <-].
    + apply IH.
  - destruct (lookup_node rt p) as [n|]; [|done]. cbn [mbind option_bind].
    destruct (scanKeys _ _ _ _ _) as [[i [c'|] kv|i|]|]; cbn [mbind option_bind]; try done.
    + by intros [= <-].
    + apply IH.
Qed.

Lemma Next_exhausted fuel fuel' rt h it it' :
  Next fuel rt h it = Some (it', None) → Next (S fuel') rt h it' = Some (it', None).
Proof. intros Hn%Next_end. cbn [Next]. by rewrite Hn. Qed.
End Exhausted.

Section Height.
Context {V : Type}.
#[local] Existing Instance never_nil.
Implicit Types (n c : node V) (cs : list (node V)) (t : BPTree V).

Lemma length_concat_lower {A B} (f : A → list B) (b : nat) (l : list A) :
  Forall (λ x, b ≤ length (f x)) l → length l * b ≤ length (concat (f <$> l)).
Proof.
  induction 1 as [|x l Hx _ IH]; [done|]. rewrite fmap_cons. simpl.
  rewrite length_app. lia.
Qed.

Lemma shape_slots_lower m d n :
  shape m d n → ceil_half m ≤ count n → ceil_half m ^ S d ≤ length (slots n).
Proof.
  revert n. induction d as [|d IH]; intros n Hsh Hc.
  - destruct (shape_0 _ _ Hsh) as (mt & ks & vs & ->).
    apply shape_leaf in Hsh as (_ & _ & Hlen & _). cbn [count slots] in *.
    rewrite length_zip_with, Nat.pow_1_r. lia.
  - destruct (shape_S _ _ _ Hsh) as (mt & ks & cs & ->).
    apply shape_internal in Hsh as (? & [= <-] & _ & _ & _ & Hcs). cbn [count] in Hc.
    rewrite slots_internal.
    pose proof (length_concat_lower slots (ceil_half m ^ S d) cs) as Hlow.
    rewrite (Nat.pow_succ_r' _ (S d)). etrans; [|apply Hlow].
    + by apply Nat.mul_le_mono_r.
    + eapply Forall_impl; [done|]. intros c [Hshc Hcc]. by apply IH.
Qed.

(** A well-formed tree of height [d ≥ 1] holds at least
    [2 * bmin ^ d] keys. *)
Lemma height_bound m t :
  tree_shape m t →
  ∃ d, shape m d (root t) ∧ (d ≠ 0 → 2 * ceil_half m ^ d ≤ length (slots (root t))).
Proof.
  intros (Hm & d & Hsh & Hroot). exists d. split; [done|]. intros Hd.
  destruct d as [|d]; [done|].
  destruct (shape_S _ _ _ Hsh) as (mt & ks & cs & E). rewrite E in *.
  apply shape_internal in Hsh as (? & [= <-] & _ & _ & _ & Hcs).
  specialize (Hroot eq_refl). cbn [count] in Hroot. rewrite slots_internal.
  pose proof (length_concat_lower slots (ceil_half m ^ S d) cs) as Hlow.
  etrans; [|apply Hlow].
  - by apply Nat.mul_le_mono_r.
  - eapply Forall_impl; [done|]. intros c [Hshc Hcc]. by apply shape_slots_lower.
Qed.
End Height.

(** * The values of a key before and after an operation *)

Section ValuesOps.
Context {V : Type}.
#[local] Existing Instance never_nil.
Implicit Types (h : heap) (t : BPTree V) (s : slot V) (vals : list V).

(** [find] returns the values that the leaves pair with the key. *)
Lemma find_values_at m t k :
  wf m t → ∃ o, find t k = Some o ∧ found_values o = values_at k (entries (root t)).
Proof.
  intros Hwf. destruct (wf_find m t k Hwf) as [Hf Hs].
  exists (lookup_slot k (slots (root t))). split; [done|].
  by rewrite entries_pairs, values_at_pairs.
Qed.

(** [DeleteOne(k, idx)] in the words of its description, on the values of
    [k] in their order: the value removed and the values that stay,
    [None] when there is nothing to remove at [idx].  The entry at [idx]
    is removed, the last entry when [idx < 0]. *)
Definition spec_DeleteOne_values vals (idx : Z) : option (V * list V) :=
  if decide (idx < 0)%Z then v ← last vals; Some (v, removelast vals)
  else v ← vals !! Z.to_nat idx;
       Some (v, take (Z.to_nat idx) vals ++ drop (S (Z.to_nat idx)) vals).

Lemma spec_DeleteOne_slot s idx :
  spec_DeleteOne s idx = spec_DeleteOne_values (slot_values s) idx.
Proof.
  unfold spec_DeleteOne, spec_DeleteOne_values. destruct s as [v|b]; [|done]. simpl.
  destruct (decide (idx < 0)%Z).
  - by rewrite decide_True by lia.
  - destruct (decide (idx ≤ 0)%Z).
    + by replace idx with 0%Z by lia.
    + destruct (Z.to_nat idx) as [|i] eqn:E; [lia|done].
Qed.

Lemma spec_DeleteOne_values_elem vals idx v remaining :
  spec_DeleteOne_values vals idx = Some (v, remaining) → v ∈ vals.
Proof.
  unfold spec_DeleteOne_values. destruct (decide (idx < 0)%Z).
  - destruct (last vals) as [v'|] eqn:E; [|done]. intros [= <- _].
    apply last_Some in E as [l0 ->]. apply elem_of_app. right. by left.
  - destruct (vals !! Z.to_nat idx) as [v'|] eqn:E; [|done]. intros [= <- _].
    by eapply list_elem_of_lookup_2.
Qed.

(** [DeleteOne] on the values of the key. *)
Lemma delete_one_values m h t key idx :
  wf m t →
  ∃ h' t' res,
    DeleteOne h t key idx = Some (h', t', res) ∧ wf m t'
    ∧ match spec_DeleteOne_values (values_at key (entries (root t))) idx with
      | Some (v, remaining) =>
          res = Some v
          ∧ values_at key (entries (root t')) = remaining
          ∧ (∀ k, k ≠ key → values_at k (entries (root t')) = values_at k (entries (root t)))
          ∧ Size t' = (Size t - 1)%Z
      | None => res = None ∧ h' = h ∧ t' = t
      end.
Proof.
  intros Hwf.
  destruct (delete_one m h t key idx Hwf) as (h' & t' & res & o & Hdel & Hwf' & Hf & Hpost).
  exists h', t', res. split; [done|]. split; [done|].
  destruct (find_values_at m t key Hwf) as (o1 & Hf1 & Hv1).
  rewrite Hf in Hf1. injection Hf1 as <-. rewrite <- Hv1.
  assert (o ≫= (λ s, spec_DeleteOne s idx) = spec_DeleteOne_values (found_values o) idx) as E.
  { destruct o as [s|]; cbn [mbind option_bind found_values]; [apply spec_DeleteOne_slot|].
    unfold spec_DeleteOne_values. by destruct (decide (idx < 0)%Z), (Z.to_nat idx). }
  rewrite E in Hpost.
  destruct (spec_DeleteOne_values (found_values o) idx) as [[v remaining]|]; [|done].
  destruct Hpost as (-> & Hkey & Hother & Hsz). split_and!; [done| | |done].
  - destruct (find_values_at m t' key Hwf') as (o2 & Hf2 & <-).
    rewrite Hf2 in Hkey. by injection Hkey as <-.
  - intros k Hk. destruct (find_values_at m t' k Hwf') as (o2 & Hf2 & <-).
    destruct (find_values_at m t k Hwf) as (o3 & Hf3 & <-).
    rewrite (Hother k Hk), Hf3 in Hf2. by injection Hf2 as <-.
Qed.

(** [Insert] and the values of the key. *)
Lemma insert_values m h t key val :
  wf m t →
  ∃ h' t', Insert h t key val = Some (h', t') ∧ wf m t'
           ∧ find t' key = Some (Some (Solo val))
           ∧ values_at key (entries (root t')) = [val].
Proof.
  intros Hwf. destruct (insert_wf m h t key val true Hwf) as (h' & t' & Hins & Hwf' & Hf).
  exists h', t'. cbn [new_slot] in Hf. split_and!; [done..|].
  destruct (find_values_at m t' key Hwf') as (o & Hf' & <-).
  rewrite Hf in Hf'. by injection Hf' as <-.
Qed.

(** [FindAll] returns the values that the leaves pair with the key. *)
Lemma FindAll_entries m t k :
  wf m t →
  FindAll t k = Some (match values_at k (entries (root t)) with
                      | [] => None
                      | vals => Some vals
                      end).
Proof.
  intros Hwf. destruct (wf_find m t k Hwf) as [Hf Hs].
  rewrite (FindAll_values t k _ Hf), entries_pairs, values_at_pairs by done.
  destruct (lookup_slot k (slots (root t))) as [s|] eqn:E; [|done].
  cbn [found_values fmap option_fmap option_map].
  pose proof (find_nonempty m t k s Hwf Hf) as Hne.
  by destruct (slot_values s).
Qed.

Lemma values_at_absent_find m t k :
  wf m t → find t k = Some None → values_at k (entries (root t)) = [].
Proof.
  intros Hwf Hf. destruct (find_values_at m t k Hwf) as (o & Hf' & <-).
  rewrite Hf in Hf'. by injection Hf' as <-.
Qed.
End ValuesOps.

(** * The trees that the public operations make *)

Section ReachableTrees.
Context {V : Type} {N : Nil V}.
Implicit Types (h : heap) (t : BPTree V) (ops : list (op V)) (from to : option Z).

(** What holds of every tree made by [NewBPTree] and changed by public
    operations that returned. *)
Lemma reachable_any order h0 ops h t :
  run ops (NewBPTree (V := V) h0 order) = Some (h, t) →
  wf (clamp order) t ∧ linked h (root t) ∧ counted t.
Proof. intros Hrun%run_refines. by eapply reachable_inv. Qed.

(** When no value of a key is nil, its slot can be asserted. *)
Lemma solid_values m t k :
  wf m t → Forall (λ v, is_nil v = false) (values_at k (entries (root t))) →
  solid (find t k).
Proof.
  intros Hwf Hall v Hf. destruct (find_values_at m t k Hwf) as (o & Hf' & Hv).
  rewrite Hf in Hf'. injection Hf' as <-. simpl in Hv. rewrite <- Hv in Hall.
  by inversion Hall.
Qed.

Lemma Delete_solid h t key h' t' res :
  Delete (N := never_nil) h t key = Some (h', t', res) →
  (∀ v, res = Some v → is_nil v = false) →
  Delete h t key = Some (h', t', res).
Proof.
  unfold Delete. rewrite (delete_agree (N := N) h t key false) by (by left).
  destruct (delete (N := never_nil) h t key false (-1)) as [[[h1 t1] [[v|c]|]]|];
    cbn [mbind option_bind]; try done.
  simpl. intros [= <- <- <-] Hv. by rewrite (Hv v eq_refl).
Qed.

Lemma DeleteOne_solid h t key idx h' t' res :
  DeleteOne (N := never_nil) h t key idx = Some (h', t', res) →
  (∀ v, res = Some v → is_nil v = false) →
  DeleteOne h t key idx = Some (h', t', res).
Proof.
  unfold DeleteOne. rewrite (delete_agree (N := N) h t key false) by (by left).
  destruct (delete (N := never_nil) h t key false idx) as [[[h1 t1] [[v|c]|]]|];
    cbn [mbind option_bind]; try done.
  simpl. intros [= <- <- <-] Hv. by rewrite (Hv v eq_refl).
Qed.

Lemma DeleteAll_agree h t key :
  solid (find t key) → DeleteAll h t key = DeleteAll (N := never_nil) h t key.
Proof. intros Hs. unfold DeleteAll. by rewrite delete_agree by (by right). Qed.

(** Appending to a key whose slot can be asserted. *)
Lemma appends_agree m key (vals : list V) h t s :
  wf m t → find t key = Some (Some s) → solid (find t key) →
  run (map (OAppend key) vals) (h, t)
  = run (N := never_nil) (map (OAppend key) vals) (h, t).
Proof.
  revert h t s. induction vals as [|v vals IH]; intros h t s Hwf Hf Hs; [done|].
  cbn [map run apply_op]. rewrite Append_agree by done.
  destruct (insert_wf m h t key v false Hwf) as (h1 & t1 & Hins & Hwf1 & Hf1).
  unfold Append. rewrite Hins. cbn [mbind option_bind].
  rewrite Hf in Hf1. cbn [new_slot] in Hf1.
  apply (IH h1 t1 (collide s v)); [done..|].
  intros v0. rewrite Hf1. by destruct s.
Qed.

Lemma sorted_filter_keys (P : Z * V → Prop) `{!∀ kv, Decision (P kv)} (out : list (Z * V)) :
  StronglySorted Z.le out.*1 → StronglySorted Z.le (filter P out).*1.
Proof.
  induction out as [|kv out IH]; [done|]. rewrite fmap_cons.
  intros Hs. apply StronglySorted_inv in Hs as [Hs Hall]. rewrite filter_cons.
  destruct (decide (P kv)); [|by apply IH]. rewrite fmap_cons. constructor; [by apply IH|].
  apply Forall_forall. intros k (kv' & -> & [_ Hin]%list_elem_of_filter)%list_elem_of_fmap.
  eapply Forall_forall in Hall; [done|]. by apply list_elem_of_fmap_2.
Qed.

Lemma values_at_filter (P : Z * V → Prop) `{!∀ kv, Decision (P kv)} k (out : list (Z * V)) :
  (∀ v, P (k, v)) → values_at k (filter P out) = values_at k out.
Proof.
  intros HP. unfold values_at. f_equal. induction out as [|[k' v] out IH]; [done|].
  rewrite (filter_cons (λ kv, kv.1 = k) (k', v) out).
  destruct (decide (P (k', v))) as [Hp|Hp].
  - rewrite (filter_cons_True P) by done. rewrite filter_cons. by rewrite IH.
  - rewrite (filter_cons_False P) by done. rewrite IH.
    destruct (decide ((k', v).1 = k)) as [Hk|]; [|done]. simpl in Hk. subst k'. by destruct Hp.
Qed.

(** C5.  On every tree made by [NewBPTree] and changed by public
    operations, [Range(from, to)] returns, given fuel for its loops,
    exactly the pairs of the leaves whose key [k] satisfies
    [from ≤ k < to], an absent bound being infinite, in the order of the
    leaves: the keys ascend and the values of a key come in the order in
    which the bucket holds them.  When both bounds are given and
    [to ≤ from], [Iterator] gives an iterator on which [Next] reports the
    end at once, on any tree. *)
Theorem C5_range order h0 ops h t from to fuel :
  run ops (NewBPTree (V := V) h0 order) = Some (h, t) →
  length (entries (root t)) + length (leaves (root t)) + 1 < fuel →
  ∃ out,
    Range fuel h t from to = Some out
    ∧ out = filter (λ kv, in_range from to kv.1) (entries (root t))
    ∧ StronglySorted Z.le out.*1
    ∧ (∀ k, in_range from to k = true → values_at k out = values_at k (entries (root t)))
    ∧ (∀ (t0 : BPTree V) h1 f u n, (u ≤ f)%Z →
         ∃ it, Iterator t0 (Some f) (Some u) = Some it
               ∧ Next (S n) (root t0) h1 it = Some (it, None)
               ∧ Range (S n) h1 t0 (Some f) (Some u) = Some []).
Proof.
  intros Hrun Hfuel. destruct (reachable_any order h0 ops h t Hrun) as (Hwf & Hl & _).
  eexists. split; [by apply (Range_spec (clamp order))|]. split; [done|]. split_and!.
  - apply sorted_filter_keys. rewrite entries_pairs. apply pairs_sorted.
    by apply (wf_find (clamp order) t 0%Z).
  - intros k Hk. apply values_at_filter. intros v. simpl. by rewrite Hk.
  - intros t0 h1 f u n Hle. unfold Range, Iterator. rewrite (proj2 (Z.leb_le u f) Hle).
    eexists. split; [done|]. split; done.
Qed.

(** X1.  On every tree made by [NewBPTree] and changed by public
    operations, [Range(from, to)] returns, given fuel for its loops, the
    pairs of the leaves from left to right whose key lies in
    [[from, to)], an absent bound being infinite; the values of a bucket
    come in the order of their insertion. *)
Theorem X1_range_reachable order h0 ops h t from to fuel :
  run ops (NewBPTree (V := V) h0 order) = Some (h, t) →
  length (entries (root t)) + length (leaves (root t)) + 1 < fuel →
  Range fuel h t from to
  = Some (filter (λ kv, in_range from to kv.1) (entries (root t))).
Proof.
  intros Hrun Hfuel. destruct (reachable_any order h0 ops h t Hrun) as (Hwf & Hl & _).
  by apply (Range_spec (clamp order)).
Qed.

(** X2.  On every such tree [Entries] returns all the pairs of the leaves,
    and their keys ascend. *)
Theorem X2_entries_ascending order h0 ops h t fuel :
  run ops (NewBPTree (V := V) h0 order) = Some (h, t) →
  length (entries (root t)) + length (leaves (root t)) + 1 < fuel →
  Entries fuel h t = Some (entries (root t))
  ∧ StronglySorted Z.le (entries (root t)).*1.
Proof.
  intros Hrun Hfuel. destruct (reachable_any order h0 ops h t Hrun) as (Hwf & Hl & _).
  split.
  - unfold Entries. rewrite (Range_spec (clamp order)) by done. by rewrite filter_unbounded.
  - rewrite entries_pairs. apply pairs_sorted. by apply (wf_find (clamp order) t 0%Z).
Qed.

(** X3.  On every such tree in which no value that the leaves pair with
    [k] is a nil interface value, [FindAll(k)] returns the values that the
    leaves pair with [k], in their order, and not-found when there is
    none. *)
Theorem X3_findall_entries order h0 ops h t k :
  run ops (NewBPTree (V := V) h0 order) = Some (h, t) →
  Forall (λ v, is_nil v = false) (values_at k (entries (root t))) →
  FindAll t k = Some (match values_at k (entries (root t)) with
                      | [] => None
                      | vals => Some vals
                      end).
Proof.
  intros Hrun Hnil. destruct (reachable_any order h0 ops h t Hrun) as (Hwf & _ & _).
  rewrite FindAll_agree by by apply (solid_values (clamp order)).
  by apply (FindAll_entries (clamp order)).
Qed.

(** X4.  On every such tree, for [from ≤ mid ≤ to], the range from [from]
    to [to] is the range from [from] to [mid] followed by the range from
    [mid] to [to]. *)
Theorem X4_range_split order h0 ops h t from (mid : Z) to fuel :
  run ops (NewBPTree (V := V) h0 order) = Some (h, t) →
  length (entries (root t)) + length (leaves (root t)) + 1 < fuel →
  above from mid → (match to with Some u => (mid ≤ u)%Z | None => True end) →
  ∃ out1 out2,
    Range fuel h t from (Some mid) = Some out1
    ∧ Range fuel h t (Some mid) to = Some out2
    ∧ Range fuel h t from to = Some (out1 ++ out2).
Proof.
  intros Hrun Hfuel Hfrom Hto.
  destruct (reachable_any order h0 ops h t Hrun) as (Hwf & Hl & _).
  rewrite !(Range_spec (clamp order)) by done. eexists _, _. split; [done|]. split; [done|].
  f_equal. apply filter_range_split; [done..|].
  rewrite entries_pairs. apply pairs_sorted. by apply (wf_find (clamp order) t 0%Z).
Qed.

(** X5.  On any tree at all, [Range(from, to)] with [to ≤ from] returns no
    pair: [Iterator] gives an iterator without a node, and the first
    [Next] ends the loop. *)
Theorem X5_range_empty_interval fuel h t (f u : Z) :
  (u ≤ f)%Z → Range (S fuel) h t (Some f) (Some u) = Some [].
Proof. apply Range_empty_interval. Qed.

(** X6.  On every such tree [Insert(k, v)] returns, leaves what [find]
    returns for the other keys as it was, and adds one to the size exactly
    when [k] was absent. *)
Theorem X6_insert_frame order h0 ops h t key val :
  run ops (NewBPTree (V := V) h0 order) = Some (h, t) →
  ∃ h' t' o,
    Insert h t key val = Some (h', t') ∧ find t key = Some o
    ∧ (∀ k, k ≠ key → find t' k = find t k)
    ∧ Size t' = (match o with Some _ => Size t | None => Size t + 1 end)%Z.
Proof.
  intros Hrun. destruct (reachable_any order h0 ops h t Hrun) as (Hwf & _ & _).
  destruct (insert_frame (clamp order) h t key val true Hwf)
    as (h' & t' & o & Hins & _ & Hf & _ & Hother & Hsz).
  exists h', t', o. split; [by rewrite Insert_never|]. done.
Qed.

(** X7.  On every such tree in which no value that the leaves pair with
    [k] is a nil interface value, [Append(k, v)] of a value [v] that is
    not one either returns; afterwards [FindAll(k)] returns the values
    that [k] had followed by [v], what [find] returns for the other keys
    is as it was, and the size is one more. *)
Theorem X7_append_frame order h0 ops h t key val :
  run ops (NewBPTree (V := V) h0 order) = Some (h, t) →
  Forall (λ v, is_nil v = false) (values_at key (entries (root t))) →
  is_nil val = false →
  ∃ h' t' o,
    Append h t key val = Some (h', t') ∧ find t key = Some o
    ∧ FindAll t' key = Some (Some (found_values o ++ [val]))
    ∧ (∀ k, k ≠ key → find t' k = find t k)
    ∧ Size t' = (Size t + 1)%Z.
Proof.
  intros Hrun Hnil Hval. destruct (reachable_any order h0 ops h t Hrun) as (Hwf & _ & _).
  pose proof (solid_values (clamp order) t key Hwf Hnil) as Hsolid.
  destruct (insert_frame (clamp order) h t key val false Hwf)
    as (h' & t' & o & Hins & _ & Hf & Hf' & Hother & Hsz).
  exists h', t', o. split; [by rewrite Append_agree|]. split_and!; [done| |done|].
  - rewrite FindAll_agree.
    + rewrite (FindAll_values t' key _ Hf'). cbn [fmap option_fmap option_map new_slot].
      by destruct o as [[v|c]|].
    + intros v. rewrite Hf'. destruct o as [[v0|c]|]; simpl; try done. by intros [= <-].
  - unfold Size. rewrite Hsz. by destruct o.
Qed.

(** X8.  On every such tree in which no value that the leaves pair with
    [k] is a nil interface value, [Append(k, v)] of a value [v] that is
    not one either, followed by [Delete(k)], returns [v] and gives a tree
    in which [Find] and [FindAll] return for every key what they returned
    before, with the size it had. *)
Theorem X8_append_delete order h0 ops h t key val :
  run ops (NewBPTree (V := V) h0 order) = Some (h, t) →
  Forall (λ v, is_nil v = false) (values_at key (entries (root t))) →
  is_nil val = false →
  ∃ h1 t1 h2 t2,
    Append h t key val = Some (h1, t1) ∧ Delete h1 t1 key = Some (h2, t2, Some val)
    ∧ (∀ k, FindAll t2 k = FindAll t k ∧ Find t2 k = Find t k)
    ∧ Size t2 = Size t.
Proof.
  intros Hrun Hnil Hval. destruct (reachable_any order h0 ops h t Hrun) as (Hwf & _ & _).
  pose proof (solid_values (clamp order) t key Hwf Hnil) as Hsolid.
  destruct (append_delete (clamp order) h t key val Hwf)
    as (h1 & t1 & h2 & t2 & o & Happ & Hdel & _ & Hf & Hf2 & Hother & Hsz).
  exists h1, t1, h2, t2. split; [by rewrite Append_agree|].
  split; [apply Delete_solid; [done|by intros v [= <-]]|]. split; [|done].
  intros k. destruct (decide (k = key)) as [->|Hk].
  - unfold FindAll, Find. rewrite Hf2, Hf. cbn [mbind option_bind].
    destruct o as [[v|c]|]; cbn [fmap option_fmap option_map slot_values]; try done.
    simpl. by rewrite (Hsolid v Hf).
  - unfold FindAll, Find. by rewrite (Hother k Hk).
Qed.

(** X9.  On every such tree in which no value that the leaves pair with
    [k] is a nil interface value, [DeleteAll(k)] returns what [FindAll(k)]
    returns: the values that the leaves pair with [k], not-found when
    there is none.  When it returns values, the leaves pair [k] with no
    value afterwards, what [find] returns for the other keys is as it was
    and the size is less by the number of the values; otherwise nothing
    changes. *)
Theorem X9_delete_all order h0 ops h t key :
  run ops (NewBPTree (V := V) h0 order) = Some (h, t) →
  Forall (λ v, is_nil v = false) (values_at key (entries (root t))) →
  ∃ h' t' r,
    DeleteAll h t key = Some (h', t', r) ∧ FindAll t key = Some r
    ∧ r = match values_at key (entries (root t)) with [] => None | vals => Some vals end
    ∧ match r with
      | Some vals =>
          Find t' key = Some None
          ∧ values_at key (entries (root t')) = []
          ∧ (∀ k, k ≠ key → find t' k = find t k)
          ∧ Size t' = (Size t - Z.of_nat (length vals))%Z
      | None => h' = h ∧ t' = t
      end.
Proof.
  intros Hrun Hnil. destruct (reachable_any order h0 ops h t Hrun) as (Hwf & _ & _).
  pose proof (solid_values (clamp order) t key Hwf Hnil) as Hsolid.
  destruct (delete_all (clamp order) h t key Hwf) as (h' & t' & r & Hdel & Hf & Hwf' & Hpost).
  exists h', t', r. split; [by rewrite DeleteAll_agree|].
  split; [by rewrite FindAll_agree|].
  split. { rewrite (FindAll_entries (clamp order) t key Hwf) in Hf. by injection Hf as <-. }
  destruct r as [vals|]; [|done]. destruct Hpost as (Hkey & Hother & Hsz).
  split; [unfold Find; by rewrite Hkey|].
  split; [by apply (values_at_absent_find (clamp order))|done].
Qed.

(** X10.  On every such tree in which no value that the leaves pair with
    [k] is a nil interface value, [FindAll(k)] returns without panic the
    values that the leaves pair with [k], never an empty list, and
    [Find(k)] returns the first value of that list, not-found when
    [FindAll] does. *)
Theorem X10_find_findall order h0 ops h t k :
  run ops (NewBPTree (V := V) h0 order) = Some (h, t) →
  Forall (λ v, is_nil v = false) (values_at k (entries (root t))) →
  ∃ r, FindAll t k = Some r ∧ r ≠ Some [] ∧ Find t k = Some (r ≫= head)
       ∧ r = match values_at k (entries (root t)) with [] => None | vals => Some vals end.
Proof.
  intros Hrun Hnil. destruct (reachable_any order h0 ops h t Hrun) as (Hwf & _ & _).
  pose proof (solid_values (clamp order) t k Hwf Hnil) as Hsolid.
  rewrite FindAll_agree, Find_agree by done.
  destruct (Find_FindAll (clamp order) t k Hwf) as (r & Hf & Hne & Hfind).
  exists r. split_and!; [done..|].
  rewrite (FindAll_entries (clamp order) t k Hwf) in Hf. by injection Hf as <-.
Qed.

(** X11.  [Clear] gives, from any tree, a tree of size zero whose root is
    a leaf of the capacity of the former root and in which no key is
    found. *)
Theorem X11_clear h t :
  Size (Clear h t).2 = 0%Z
  ∧ (∀ k, Find (Clear h t).2 k = Some None ∧ FindAll (Clear h t).2 k = Some None)
  ∧ entries (root (Clear h t).2) = []
  ∧ node_cap (root (Clear h t).2) = node_cap (root t)
  ∧ isLeaf (root (Clear h t).2) = true.
Proof. unfold Clear. by destruct (isLeaf (root t)). Qed.

(** X12.  On every such tree the size is at least the number of pairs in
    the leaves. *)
Theorem X12_size_bound order h0 ops h t :
  run ops (NewBPTree (V := V) h0 order) = Some (h, t) →
  (Z.of_nat (length (entries (root t))) ≤ Size t)%Z.
Proof.
  intros Hrun. by destruct (reachable_any order h0 ops h t Hrun) as (_ & _ & Hc).
Qed.

(** X13.  On every such tree that holds a pair, [First] returns the first
    pair of the leaves: the least key with the first of its values.  On
    one that holds none it returns not-found when the size is zero and
    panics otherwise. *)
Theorem X13_first order h0 ops h t :
  run ops (NewBPTree (V := V) h0 order) = Some (h, t) →
  First t = match entries (root t) with
            | kv :: _ => Some (Some kv)
            | [] => if decide (Size t = 0%Z) then Some None else None
            end.
Proof.
  intros Hrun. destruct (reachable_any order h0 ops h t Hrun) as (Hwf & _ & Hc).
  destruct (entries (root t)) as [|kv out] eqn:E.
  - by destruct (First_Last_empty (clamp order) t Hwf E).
  - rewrite (First_spec (clamp order)), E; [done..| |by rewrite E].
    unfold counted in Hc. rewrite E in Hc. simpl in Hc. lia.
Qed.

(** X14.  On every such tree that holds a pair, [Last] returns the last
    pair of the leaves: the greatest key with the last of its values.  On
    one that holds none it returns not-found when the size is zero and
    panics otherwise. *)
Theorem X14_last order h0 ops h t :
  run ops (NewBPTree (V := V) h0 order) = Some (h, t) →
  Last t = match last (entries (root t)) with
           | Some kv => Some (Some kv)
           | None => if decide (Size t = 0%Z) then Some None else None
           end.
Proof.
  intros Hrun. destruct (reachable_any order h0 ops h t Hrun) as (Hwf & _ & Hc).
  destruct (last (entries (root t))) as [kv|] eqn:E.
  - assert (entries (root t) ≠ []) as Hne by (intros He; by rewrite He in E).
    rewrite (Last_spec (clamp order)), E; [done..| |done].
    unfold counted in Hc. destruct (entries (root t)); [done|]. simpl in Hc. lia.
  - apply last_None in E. by destruct (First_Last_empty (clamp order) t Hwf E).
Qed.

(** X15.  A tree made by public operations can hold no pair and have a
    size that is not zero; [First] and [Last] panic on it. *)
Theorem X15_first_last_panic order h0 ops h t :
  run ops (NewBPTree (V := V) h0 order) = Some (h, t) →
  entries (root t) = [] → Size t ≠ 0%Z →
  First t = None ∧ Last t = None.
Proof.
  intros Hrun He Hsz. destruct (reachable_any order h0 ops h t Hrun) as (Hwf & _ & _).
  destruct (First_Last_empty (clamp order) t Hwf He) as [-> ->].
  unfold Size in Hsz. by rewrite decide_False by done.
Qed.

(** X16.  Every such tree is a search tree of uniform height: the nodes
    have the capacity of the order, a leaf as many values as keys and no
    empty bucket, the keys of every node ascend strictly between the
    separators above it, and no key is in two slots. *)
Theorem X16_search_tree order h0 ops h t :
  run ops (NewBPTree (V := V) h0 order) = Some (h, t) →
  (∃ d, shape (clamp order) d (root t) ∧ ordered d None None (root t))
  ∧ StronglySorted Z.lt (slots (root t)).*1.
Proof.
  intros Hrun. destruct (reachable_any order h0 ops h t Hrun) as (Hwf & _ & _).
  split; [|by apply (wf_find (clamp order) t 0%Z)].
  destruct Hwf as [(_ & d & Hsh & _) (d' & Hord)].
  pose proof (height_unique _ _ _ _ _ _ Hsh Hord) as ->. by exists d.
Qed.

(** X17.  In every such tree the identifiers of the nodes are distinct and
    allocated, and the [right] references lead from every leaf to the leaf
    after it, from the last leaf to [nil]. *)
Theorem X17_leaves_linked order h0 ops h t :
  run ops (NewBPTree (V := V) h0 order) = Some (h, t) → linked h (root t).
Proof.
  intros Hrun. by destruct (reachable_any order h0 ops h t Hrun) as (_ & Hl & _).
Qed.

(** X18.  Once [Next] has reported the end of an iteration, every later
    call reports the end as well and leaves the iterator as it is,
    whatever the tree. *)
Theorem X18_next_exhausted fuel fuel' (rt : node V) h it it' :
  Next fuel rt h it = Some (it', None) → Next (S fuel') rt h it' = Some (it', None).
Proof. apply Next_exhausted. Qed.

(** X19.  Every tree made by [NewBPTree order] and changed by public
    operations has all its leaves at one depth [d], and when [d ≥ 1] it
    holds at least [2 * ceil(m / 2) ^ d] keys, [m] being the order raised
    to [MinOrder]. *)
Theorem X19_height_bound order h0 ops h t :
  run ops (NewBPTree (V := V) h0 order) = Some (h, t) →
  ∃ d, shape (clamp order) d (root t)
       ∧ (d ≠ 0 → 2 * ceil_half (clamp order) ^ d ≤ length (slots (root t))).
Proof.
  intros Hrun. destruct (reachable_any order h0 ops h t Hrun) as (Hwf & _ & _).
  apply height_bound, Hwf.
Qed.

(** X20.  On every such tree [Insert(k, v)] of a value [v] that is not a
    nil interface value returns; afterwards the leaves pair [k] with the
    single value [v], whatever value or bucket [k] had before, [Find(k)]
    returns [(v, true)] and [FindAll(k)] returns [[v]]. *)
Theorem X20_insert_then_find order h0 ops h t key val :
  run ops (NewBPTree (V := V) h0 order) = Some (h, t) →
  is_nil val = false →
  ∃ h' t', Insert h t key val = Some (h', t')
           ∧ values_at key (entries (root t')) = [val]
           ∧ Find t' key = Some (Some val)
           ∧ FindAll t' key = Some (Some [val]).
Proof.
  intros Hrun Hval. destruct (reachable_any order h0 ops h t Hrun) as (Hwf & _ & _).
  destruct (insert_values (clamp order) h t key val Hwf) as (h' & t' & Hins & _ & Hf & Hv).
  exists h', t'. split; [by rewrite Insert_never|]. split; [done|].
  unfold Find, FindAll. rewrite Hf. simpl. by rewrite Hval.
Qed.

(** X21.  On every such tree in which [Find(k)] reports that [k] is
    absent, the calls [Append(k, v1); ...; Append(k, vn)], [v1] not being
    a nil interface value, return; afterwards the leaves pair [k] with
    [v1, ..., vn] in this order, [FindAll(k)] returns that list and
    [Find(k)] returns [(v1, true)]. *)
Theorem X21_append_accumulates order h0 ops h t key v1 vals :
  run ops (NewBPTree (V := V) h0 order) = Some (h, t) →
  Find t key = Some None → is_nil v1 = false →
  ∃ h' t', run (map (OAppend key) (v1 :: vals)) (h, t) = Some (h', t')
           ∧ values_at key (entries (root t')) = v1 :: vals
           ∧ FindAll t' key = Some (Some (v1 :: vals))
           ∧ Find t' key = Some (Some v1).
Proof.
  intros Hrun Habs%Find_absent Hv1.
  destruct (reachable_any order h0 ops h t Hrun) as (Hwf & _ & _).
  destruct (insert_wf (clamp order) h t key v1 false Hwf) as (h1 & t1 & Hins & Hwf1 & Hf1).
  rewrite Habs in Hf1. cbn [new_slot] in Hf1.
  assert (solid (find t1 key)) as Hs1 by (rewrite Hf1; by intros v [= <-]).
  destruct (append_values (clamp order) h1 t1 key vals _ Hwf1 Hf1)
    as (h' & t' & o' & Hrun' & Hwf' & Hf' & Hvals).
  exists h', t'. cbn [found_values slot_values app] in Hvals. split.
  { cbn [map run apply_op]. rewrite Append_agree by (rewrite Habs; by intros v).
    unfold Append. rewrite Hins. cbn [mbind option_bind].
    by rewrite (appends_agree (clamp order) key vals h1 t1 (Solo v1)). }
  destruct (find_values_at (clamp order) t' key Hwf') as (o2 & Hf2 & Hv2).
  rewrite Hf' in Hf2. injection Hf2 as <-. rewrite Hvals in Hv2. split; [done|].
  assert (solid (find t' key)) as Hs'.
  { intros v Hv. rewrite Hf' in Hv. injection Hv as ->. simpl in Hvals.
    by injection Hvals as -> _. }
  rewrite FindAll_agree, Find_agree by done.
  destruct o' as [s|]; [|done]. simpl in Hvals. split.
  - by rewrite (FindAll_of_find t' key s), Hvals.
  - apply (Find_of_find t' key s); [done|]. by rewrite Hvals.
Qed.

(** X22.  On every such tree in which no value that the leaves pair with
    [k] is a nil interface value, [DeleteOne(k, idx)] returns.  It removes
    and returns the value at position [idx] among the values that the
    leaves pair with [k], the last one when [idx < 0]: afterwards the
    leaves pair [k] with the other values in their order, the values of
    the other keys are as they were and the size is one less.  When [k]
    has no value at [idx] it returns not-found and leaves the tree as it
    was. *)
Theorem X22_delete_one order h0 ops h t key idx :
  run ops (NewBPTree (V := V) h0 order) = Some (h, t) →
  Forall (λ v, is_nil v = false) (values_at key (entries (root t))) →
  ∃ h' t' res,
    DeleteOne h t key idx = Some (h', t', res)
    ∧ match spec_DeleteOne_values (values_at key (entries (root t))) idx with
      | Some (v, remaining) =>
          res = Some v
          ∧ values_at key (entries (root t')) = remaining
          ∧ (∀ k, k ≠ key → values_at k (entries (root t')) = values_at k (entries (root t)))
          ∧ Size t' = (Size t - 1)%Z
      | None => res = None ∧ h' = h ∧ t' = t
      end.
Proof.
  intros Hrun Hnil. destruct (reachable_any order h0 ops h t Hrun) as (Hwf & _ & _).
  destruct (delete_one_values (clamp order) h t key idx Hwf)
    as (h' & t' & res & Hdel & _ & Hpost).
  exists h', t', res. split; [|done]. apply DeleteOne_solid; [done|].
  intros v ->.
  destruct (spec_DeleteOne_values _ idx) as [[v' remaining]|] eqn:E; [|by destruct Hpost].
  destruct Hpost as ([= <-] & _). apply spec_DeleteOne_values_elem in E.
  by eapply Forall_forall in Hnil.
Qed.
End ReachableTrees.

(** * Nil interface values in [Find], [FindAll], [Append] and the deletions *)

(** C6 fails on the code.  [NewBPTree[int, any](3); Insert(1, nil)]: the
    slot of key 1 then holds the nil [any], and [Find(1)] panics at
    [v.(V)] where the claim has it return [(nil, true)]. *)
Lemma C6_find_panics_on_nil :
  let '(h0, t0) := NewBPTree (V := option nat) empty_heap 3 in
  ('(h1, t1) ← Insert h0 t0 1%Z None;
   Some (find t1 1%Z, Find t1 1%Z))
  = Some (Some (Some (Solo None)), None).
Proof. by vm_compute. Qed.

(** C7 fails on the code.  [NewBPTree[int, any](3); Append(1, nil)]: the
    slot of key 1 holds the nil [any]; [FindAll(1)] and [Find(1)] panic at
    [v.(V)], and so does a second [Append(1, 5)], where the claim has them
    return the values appended. *)
Lemma C7_append_panics_on_nil :
  let '(h0, t0) := NewBPTree (V := option nat) empty_heap 3 in
  ('(h1, t1) ← Append h0 t0 1%Z None;
   Some (find t1 1%Z, FindAll t1 1%Z, Find t1 1%Z, Append h1 t1 1%Z (Some 5)))
  = Some (Some (Some (Solo None)), None, None, None).
Proof. by vm_compute. Qed.

(** C8 fails on the code.  [NewBPTree[int, any](3); Insert(1, nil);
    Append(2, 7); Append(2, nil)]: the slot of key 1 holds the nil [any]
    and the bucket of key 2 holds a nil at position 1.  [DeleteOne(1, 0)]
    and [DeleteOne(2, 1)] panic at [v.(V)] where the claim has them remove
    and return the value. *)
Lemma C8_delete_one_panics_on_nil :
  let '(h0, t0) := NewBPTree (V := option nat) empty_heap 3 in
  ('(h1, t1) ← Insert h0 t0 1%Z None;
   '(h2, t2) ← Append h1 t1 2%Z (Some 7);
   '(h3, t3) ← Append h2 t2 2%Z None;
   Some (find t3 1%Z, find t3 2%Z, DeleteOne h3 t3 1%Z 0, DeleteOne h3 t3 2%Z 1))
  = Some (Some (Some (Solo None)), Some (Some (Bucket [Some 7; None])), None, None).
Proof. by vm_compute. Qed.

(** * Examples on concrete trees *)

(** A tree that holds no pair and has the size 1: the second [Append]
    counts a second pair, [Insert] replaces both by one value without
    counting, and [Delete] removes that value. *)
Definition stale_ops : list (op nat) :=
  [OAppend 1%Z 10; OAppend 1%Z 11; OInsert 1%Z 12; ODelete 1%Z].

Definition stale_state : heap * BPTree nat :=
  Eval vm_compute in default (empty_heap, Tree (Leaf (Meta 0 0 0) [] []) 0)
                             (run stale_ops (NewBPTree empty_heap 3)).

(** A tree of values of an interface type: the key 2 has the nil value,
    the bucket of the key 3 holds one. *)
Definition mixed_ops : list (op (option nat)) :=
  [OInsert 1%Z (Some 10); OInsert 2%Z None; OAppend 3%Z (Some 30); OAppend 3%Z None;
   OInsert 4%Z (Some 40); OAppend 4%Z (Some 41); OAppend 4%Z (Some 42);
   OInsert 5%Z (Some 50)].

Definition mixed_state : heap * BPTree (option nat) :=
  Eval vm_compute in default (empty_heap, Tree (Leaf (Meta 0 0 0) [] []) 0)
                             (run mixed_ops (NewBPTree empty_heap 3)).

Lemma C5_range_witness :
  ∃ out,
    Range 40 bucket_state.1 bucket_state.2 (Some 4%Z) (Some 22%Z) = Some out
    ∧ out = filter (λ kv, in_range (Some 4%Z) (Some 22%Z) kv.1) (entries (root bucket_state.2))
    ∧ StronglySorted Z.le out.*1
    ∧ (∀ k, in_range (Some 4%Z) (Some 22%Z) k = true →
         values_at k out = values_at k (entries (root bucket_state.2)))
    ∧ (∀ (t0 : BPTree nat) h1 f u n, (u ≤ f)%Z →
         ∃ it, Iterator t0 (Some f) (Some u) = Some it
               ∧ Next (S n) (root t0) h1 it = Some (it, None)
               ∧ Range (S n) h1 t0 (Some f) (Some u) = Some []).
Proof.
  apply (C5_range 3 empty_heap bucket_ops bucket_state.1 bucket_state.2
           (Some 4%Z) (Some 22%Z) 40).
  - vm_compute. reflexivity.
  - vm_compute. lia.
Defined.

Lemma X1_range_reachable_witness :
  Range 40 bucket_state.1 bucket_state.2 (Some 4%Z) (Some 22%Z)
  = Some (filter (λ kv, in_range (Some 4%Z) (Some 22%Z) kv.1) (entries (root bucket_state.2))).
Proof.
  apply (X1_range_reachable 3 empty_heap bucket_ops bucket_state.1 bucket_state.2
           (Some 4%Z) (Some 22%Z) 40).
  - vm_compute. reflexivity.
  - vm_compute. lia.
Defined.

Lemma X2_entries_ascending_witness :
  Entries 40 scenario_state.1 scenario_state.2 = Some (entries (root scenario_state.2))
  ∧ StronglySorted Z.le (entries (root scenario_state.2)).*1.
Proof.
  apply (X2_entries_ascending 3 empty_heap scenario_ops scenario_state.1 scenario_state.2 40).
  - vm_compute. reflexivity.
  - vm_compute. lia.
Defined.

Lemma X3_findall_entries_witness :
  FindAll mixed_state.2 4%Z
  = Some (match values_at 4%Z (entries (root mixed_state.2)) with
          | [] => None
          | vals => Some vals
          end).
Proof.
  apply (X3_findall_entries 3 empty_heap mixed_ops mixed_state.1 mixed_state.2 4%Z).
  - vm_compute. reflexivity.
  - vm_compute. repeat constructor.
Defined.

Lemma X4_range_split_witness :
  ∃ out1 out2,
    Range 40 bucket_state.1 bucket_state.2 (Some 3%Z) (Some 9%Z) = Some out1
    ∧ Range 40 bucket_state.1 bucket_state.2 (Some 9%Z) (Some 27%Z) = Some out2
    ∧ Range 40 bucket_state.1 bucket_state.2 (Some 3%Z) (Some 27%Z) = Some (out1 ++ out2).
Proof.
  apply (X4_range_split 3 empty_heap bucket_ops bucket_state.1 bucket_state.2
           (Some 3%Z) 9%Z (Some 27%Z) 40).
  - vm_compute. reflexivity.
  - vm_compute. lia.
  - simpl. lia.
  - lia.
Defined.

Lemma X5_range_empty_interval_witness :
  Range 1 bucket_state.1 bucket_state.2 (Some 5%Z) (Some 5%Z) = Some [].
Proof. apply (X5_range_empty_interval 0 bucket_state.1 bucket_state.2 5%Z 5%Z). lia. Defined.

Lemma X6_insert_frame_witness :
  ∃ h' t' o,
    Insert bucket_state.1 bucket_state.2 5%Z 7 = Some (h', t')
    ∧ find bucket_state.2 5%Z = Some o
    ∧ (∀ k, k ≠ 5%Z → find t' k = find bucket_state.2 k)
    ∧ Size t' = (match o with
                 | Some _ => Size bucket_state.2
                 | None => Size bucket_state.2 + 1
                 end)%Z.
Proof.
  apply (X6_insert_frame 3 empty_heap bucket_ops bucket_state.1 bucket_state.2 5%Z 7).
  vm_compute. reflexivity.
Defined.

Lemma X7_append_frame_witness :
  ∃ h' t' o,
    Append mixed_state.1 mixed_state.2 1%Z (Some 11) = Some (h', t')
    ∧ find mixed_state.2 1%Z = Some o
    ∧ FindAll t' 1%Z = Some (Some (found_values o ++ [Some 11]))
    ∧ (∀ k, k ≠ 1%Z → find t' k = find mixed_state.2 k)
    ∧ Size t' = (Size mixed_state.2 + 1)%Z.
Proof.
  apply (X7_append_frame 3 empty_heap mixed_ops mixed_state.1 mixed_state.2 1%Z (Some 11)).
  - vm_compute. reflexivity.
  - vm_compute. repeat constructor.
  - reflexivity.
Defined.

Lemma X8_append_delete_witness :
  ∃ h1 t1 h2 t2,
    Append mixed_state.1 mixed_state.2 1%Z (Some 11) = Some (h1, t1)
    ∧ Delete h1 t1 1%Z = Some (h2, t2, Some (Some 11))
    ∧ (∀ k, FindAll t2 k = FindAll mixed_state.2 k ∧ Find t2 k = Find mixed_state.2 k)
    ∧ Size t2 = Size mixed_state.2.
Proof.
  apply (X8_append_delete 3 empty_heap mixed_ops mixed_state.1 mixed_state.2 1%Z (Some 11)).
  - vm_compute. reflexivity.
  - vm_compute. repeat constructor.
  - reflexivity.
Defined.

Lemma X9_delete_all_witness :
  ∃ h' t' r,
    DeleteAll mixed_state.1 mixed_state.2 4%Z = Some (h', t', r)
    ∧ FindAll mixed_state.2 4%Z = Some r
    ∧ r = match values_at 4%Z (entries (root mixed_state.2)) with
          | [] => None
          | vals => Some vals
          end
    ∧ match r with
      | Some vals =>
          Find t' 4%Z = Some None
          ∧ values_at 4%Z (entries (root t')) = []
          ∧ (∀ k, k ≠ 4%Z → find t' k = find mixed_state.2 k)
          ∧ Size t' = (Size mixed_state.2 - Z.of_nat (length vals))%Z
      | None => h' = mixed_state.1 ∧ t' = mixed_state.2
      end.
Proof.
  apply (X9_delete_all 3 empty_heap mixed_ops mixed_state.1 mixed_state.2 4%Z).
  - vm_compute. reflexivity.
  - vm_compute. repeat constructor.
Defined.

Lemma X10_find_findall_witness :
  ∃ r, FindAll mixed_state.2 4%Z = Some r ∧ r ≠ Some []
       ∧ Find mixed_state.2 4%Z = Some (r ≫= head)
       ∧ r = match values_at 4%Z (entries (root mixed_state.2)) with
             | [] => None
             | vals => Some vals
             end.
Proof.
  apply (X10_find_findall 3 empty_heap mixed_ops mixed_state.1 mixed_state.2 4%Z).
  - vm_compute. reflexivity.
  - vm_compute. repeat constructor.
Defined.

Lemma X12_size_bound_witness :
  (Z.of_nat (length (entries (root stale_state.2))) ≤ Size stale_state.2)%Z.
Proof.
  apply (X12_size_bound 3 empty_heap stale_ops stale_state.1 stale_state.2).
  vm_compute. reflexivity.
Defined.

Lemma X13_first_witness :
  First bucket_state.2
  = match entries (root bucket_state.2) with
    | kv :: _ => Some (Some kv)
    | [] => if decide (Size bucket_state.2 = 0%Z) then Some None else None
    end.
Proof.
  apply (X13_first 3 empty_heap bucket_ops bucket_state.1 bucket_state.2).
  vm_compute. reflexivity.
Defined.

Lemma X14_last_witness :
  Last bucket_state.2
  = match last (entries (root bucket_state.2)) with
    | Some kv => Some (Some kv)
    | None => if decide (Size bucket_state.2 = 0%Z) then Some None else None
    end.
Proof.
  apply (X14_last 3 empty_heap bucket_ops bucket_state.1 bucket_state.2).
  vm_compute. reflexivity.
Defined.

Lemma X15_first_last_panic_witness :
  First stale_state.2 = None ∧ Last stale_state.2 = None.
Proof.
  apply (X15_first_last_panic 3 empty_heap stale_ops stale_state.1 stale_state.2).
  - vm_compute. reflexivity.
  - vm_compute. reflexivity.
  - vm_compute. lia.
Defined.

Lemma X16_search_tree_witness :
  (∃ d, shape 3 d (root scenario_state.2) ∧ ordered d None None (root scenario_state.2))
  ∧ StronglySorted Z.lt (slots (root scenario_state.2)).*1.
Proof.
  apply (X16_search_tree 3 empty_heap scenario_ops scenario_state.1 scenario_state.2).
  vm_compute. reflexivity.
Defined.

Lemma X17_leaves_linked_witness : linked scenario_state.1 (root scenario_state.2).
Proof.
  apply (X17_leaves_linked 3 empty_heap scenario_ops scenario_state.1 scenario_state.2).
  vm_compute. reflexivity.
Defined.

Lemma X18_next_exhausted_witness :
  Next 3 (root bucket_state.2) bucket_state.1 (Iter (Some 30%Z) None None 0 None 0%Z 0)
  = Some (Iter (Some 30%Z) None None 0 None 0%Z 0, None).
Proof.
  apply (X18_next_exhausted 5 2 (root bucket_state.2) bucket_state.1
           (default (Iter None None None 0 None 0%Z 0)
                    (Iterator bucket_state.2 (Some 30%Z) None))).
  vm_compute. reflexivity.
Defined.

Lemma X19_height_bound_witness :
  ∃ d, shape 3 d (root scenario_state.2)
       ∧ (d ≠ 0 → 2 * ceil_half 3 ^ d ≤ length (slots (root scenario_state.2))).
Proof.
  apply (X19_height_bound 3 empty_heap scenario_ops scenario_state.1 scenario_state.2).
  vm_compute. reflexivity.
Defined.

Lemma X20_insert_then_find_witness :
  ∃ h' t', Insert mixed_state.1 mixed_state.2 3%Z (Some 33) = Some (h', t')
           ∧ values_at 3%Z (entries (root t')) = [Some 33]
           ∧ Find t' 3%Z = Some (Some (Some 33))
           ∧ FindAll t' 3%Z = Some (Some [Some 33]).
Proof.
  apply (X20_insert_then_find 3 empty_heap mixed_ops mixed_state.1 mixed_state.2
           3%Z (Some 33)).
  - vm_compute. reflexivity.
  - reflexivity.
Defined.

Lemma X21_append_accumulates_witness :
  ∃ h' t', run (map (OAppend 6%Z) [Some 60; None; Some 62]) (mixed_state.1, mixed_state.2)
           = Some (h', t')
           ∧ values_at 6%Z (entries (root t')) = [Some 60; None; Some 62]
           ∧ FindAll t' 6%Z = Some (Some [Some 60; None; Some 62])
           ∧ Find t' 6%Z = Some (Some (Some 60)).
Proof.
  apply (X21_append_accumulates 3 empty_heap mixed_ops mixed_state.1 mixed_state.2
           6%Z (Some 60) [None; Some 62]).
  - vm_compute. reflexivity.
  - vm_compute. reflexivity.
  - reflexivity.
Defined.

Lemma X22_delete_one_witness :
  ∃ h' t' res,
    DeleteOne mixed_state.1 mixed_state.2 4%Z 1 = Some (h', t', res)
    ∧ match spec_DeleteOne_values (values_at 4%Z (entries (root mixed_state.2))) 1 with
      | Some (v, remaining) =>
          res = Some v
          ∧ values_at 4%Z (entries (root t')) = remaining
          ∧ (∀ k, k ≠ 4%Z →
               values_at k (entries (root t')) = values_at k (entries (root mixed_state.2)))
          ∧ Size t' = (Size mixed_state.2 - 1)%Z
      | None => res = None ∧ h' = mixed_state.1 ∧ t' = mixed_state.2
      end.
Proof.
  apply (X22_delete_one 3 empty_heap mixed_ops mixed_state.1 mixed_state.2 4%Z 1).
  - vm_compute. reflexivity.
  - vm_compute. repeat constructor.
Defined.
